(** * Detock: the concurrency core, embedded and verified

    A shallow embedding of
      - [src/common/async_log.h]            (AsyncLog),
      - [src/common/configuration.cpp]      (FNVHash, partition_of_key),
      - [src/module/sequencer.cpp]          (Sequencer::ProcessForwardRequest),
      - [src/module/scheduler_components/ddr_lock_manager.cpp]
                                            (LockQueueTail, DDRLockManager,
                                             DeadlockResolver),
    with the properties of the specification stated over it.

    Conventions.  A [uint32_t]/[uint64_t] is a [Z] with its wrap-around
    written out; an [unordered_map] is a [gmap]; a [vector] is a [list];
    an exception or a fatal check is made explicit in the result type. *)

From Stdlib Require Import ZArith Lia List Sorting.Sorted Sorting.Permutation.
From stdpp Require Import gmap strings list fin_maps sorting pretty.

Local Open Scope Z_scope.

(** Width of the unsigned words of the source. *)
Definition two32 : Z := 4294967296.
Definition is_u32 (z : Z) : Prop := 0 <= z < two32.

(* ===================================================================== *)
(** * AsyncLog  ([src/common/async_log.h])                               *)
(* ===================================================================== *)

Module AsyncLog.

Section WithItem.
Context {T : Type}.

(** [log_] is the [unordered_map<uint32_t, T>], [next_] the [uint32_t]
    position of the next item to read. *)
Record t := mk { log_ : gmap Z T; next_ : Z }.

(** [AsyncLog(uint32_t start_from = 0)]. *)
Definition new (start_from : Z) : t := mk ∅ start_from.

(** Outcome of a call that may throw [std::runtime_error]. *)
Inductive outcome (A : Type) :=
| Ok (a : A)
| Thrown (what : string).
Global Arguments Ok {A} a.
Global Arguments Thrown {A} what.

(** [void Insert(uint32_t position, T item)].  The state returned with a
    [Thrown] is the state of the object when the exception leaves. *)
Definition Insert (position : Z) (item : T) (l : t) : t * outcome unit :=
  if position <? next_ l then (l, Ok tt)
  else match log_ l !! position with
       | Some _ => (l, Thrown "Log position has already been taken")
       | None => (mk (<[position := item]> (log_ l)) (next_ l), Ok tt)
       end.

(** [bool HasNext() const]. *)
Definition HasNext (l : t) : bool :=
  match log_ l !! next_ l with Some _ => true | None => false end.

(** [const T& Peek()]: [log_.at(next_)] throws when absent. *)
Definition Peek (l : t) : outcome T :=
  match log_ l !! next_ l with
  | Some x => Ok x
  | None => Thrown "unordered_map::at"
  end.

(** [Next()] is declared to return a [std::pair<T, uint32_t>] (line 42)
    and returns [std::make_pair(position, std::move(result))] (line 51),
    a [std::pair<uint32_t, T>]: the pair is converted member by member,
    the position to [T] and the item to [uint32_t].  So [Next] exists
    only for a [T] that converts from and to [uint32_t]; these are its
    two conversions. *)
Variable T_of_uint32 : Z -> T.
Variable uint32_of_T : T -> Z.

(** [Next()]; [next_++] is an increment of a [uint32_t]. *)
Definition Next (l : t) : t * outcome (T * Z) :=
  match log_ l !! next_ l with
  | None => (l, Thrown "Next item does not exist")
  | Some result =>
      let position := next_ l in
      (mk (delete position (log_ l)) ((next_ l + 1) mod two32),
       Ok (T_of_uint32 position, uint32_of_T result))
  end.

(** ** Traces of calls *)

Inductive op :=
| OpInsert (position : Z) (item : T)
| OpNext.

Inductive event :=
| EvInsert (r : outcome unit)
| EvNext (r : outcome (T * Z)).

Definition step (o : op) (l : t) : t * event :=
  match o with
  | OpInsert p x => let '(l', r) := Insert p x l in (l', EvInsert r)
  | OpNext => let '(l', r) := Next l in (l', EvNext r)
  end.

Fixpoint run (ops : list op) (l : t) : t * list event :=
  match ops with
  | [] => (l, [])
  | o :: ops' =>
      let '(l1, e) := step o l in
      let '(l2, es) := run ops' l1 in
      (l2, e :: es)
  end.

(** The pairs handed out by the successful [Next] calls of a trace. *)
Fixpoint produced (es : list event) : list (T * Z) :=
  match es with
  | [] => []
  | EvNext (Ok px) :: es' => px :: produced es'
  | _ :: es' => produced es'
  end.

(** The values of [position] (line 46) in the successful [Next] calls
    of a trace. *)
Fixpoint read_positions (ops : list op) (l : t) : list Z :=
  match ops with
  | [] => []
  | OpInsert p x :: ops' => read_positions ops' (Insert p x l).1
  | OpNext :: ops' =>
      (if HasNext l then [next_ l] else []) ++ read_positions ops' (Next l).1
  end.

(** Positions given to [Insert] in a trace. *)
Fixpoint insert_positions (ops : list op) : list Z :=
  match ops with
  | [] => []
  | OpInsert p _ :: ops' => p :: insert_positions ops'
  | OpNext :: ops' => insert_positions ops'
  end.

Definition insert_ok (e : event) : Prop :=
  match e with EvInsert (Thrown _) => False | _ => True end.

(** A well-formed trace for a log started at [start]: the inserted
    positions are distinct [uint32_t] values, none below [start]. *)
Definition well_formed (start : Z) (ops : list op) : Prop :=
  NoDup (insert_positions ops) /\
  Forall (fun p => start <= p < two32) (insert_positions ops).

(** What a well-formed trace [ops] maintains of the log it built and of
    the events [es] it produced. *)
Record in_order_inv (start : Z) (ops : list op) (l : t) (es : list event) : Prop := {
  inv_bound : start + Z.of_nat (length (produced es)) <= two32;
  inv_next : next_ l = (start + Z.of_nat (length (produced es))) mod two32;
  inv_log : forall p x, log_ l !! p = Some x <->
              OpInsert p x ∈ ops /\ start + Z.of_nat (length (produced es)) <= p;
  inv_consumed : forall p, start <= p < start + Z.of_nat (length (produced es)) ->
              p ∈ insert_positions ops;
  inv_ok : Forall insert_ok es;
  inv_produced : forall (j : nat) px, produced es !! j = Some px ->
              px.1 = T_of_uint32 (start + Z.of_nat j) /\
              exists x, OpInsert (start + Z.of_nat j) x ∈ ops /\ px.2 = uint32_of_T x
}.

End WithItem.

Global Arguments t : clear implicits.
Global Arguments op : clear implicits.
Global Arguments event : clear implicits.

(** The conversions of [T = uint64_t]: from [uint32_t] without loss, to
    [uint32_t] modulo 2^32. *)
Definition uint64_of_uint32 (z : Z) : Z := z.
Definition uint32_of_uint64 (z : Z) : Z := z mod two32.

End AsyncLog.

(* ===================================================================== *)
(** * Shared types  ([src/common/types.h])                               *)
(* ===================================================================== *)

(** [using TxnId = uint64_t], [using Key = std::string],
    [using KeyReplica = std::string]. *)
Abbreviation TxnId := Z (only parsing).
Abbreviation Key := string (only parsing).
Abbreviation KeyReplica := string (only parsing).

Inductive LockMode := UNLOCKED | READ | WRITE.
Inductive AcquireLocksResult := ACQUIRED | WAITING | ABORT.

(** [MakeKeyReplica]: the key, a colon, the master in decimal. *)
Definition MakeKeyReplica (key : Key) (master : Z) : KeyReplica :=
  key +:+ ":" +:+ pretty (Z.to_N master).

(** Modelled from the spec: the constant [kSentinelTxnId], declared in a
    header that is not part of the sources at hand; the specification gives
    the sentinel as the value 0. *)
Definition kSentinelTxnId : TxnId := 0.

(** A call that may end in [LOG(FATAL)] or in a failed [CHECK]: [None]
    stands for the abort of the process. *)
Definition foldlM {A B : Type} (f : B -> A -> option B) : list A -> B -> option B :=
  fix go (l : list A) (b : B) : option B :=
    match l with
    | [] => Some b
    | a :: l' => match f b a with Some b' => go l' b' | None => None end
    end.

(* ===================================================================== *)
(** * Partitioner  ([src/common/configuration.cpp])                      *)
(* ===================================================================== *)

Module Configuration.

Definition two64 : Z := 18446744073709551616.

(** The bytes of a [std::string], each as its value in [0, 256). *)
Definition bytes_of (key : Key) : list Z :=
  map (fun a => Z.of_nat (Ascii.nat_of_ascii a)) (String.list_ascii_of_string key).

(** [hash ^= *it]: [*it] is a [char]; it is promoted to [int] and then
    converted to [uint64_t].  Where [char] is signed (the usual x86-64
    ABI) a byte of value 128 or more is sign-extended. *)
Definition char_to_u64 (char_is_signed : bool) (c : Z) : Z :=
  if char_is_signed && (128 <=? c) then (c - 256) mod two64 else c.

Definition FNV_offset : Z := 0x811c9dc5.
Definition FNV_prime : Z := 0x01000193.

(** [FNVHash(begin, end)]: [hash] is a [uint64_t]; the product wraps at
    64 bits before [% (1LL << 32)]; the result is narrowed to
    [uint32_t] on return. *)
Definition FNVHash_step (char_is_signed : bool) (hash c : Z) : Z :=
  Z.lxor (((hash * FNV_prime) mod two64) mod two32) (char_to_u64 char_is_signed c).

Definition FNVHash (char_is_signed : bool) (bytes : list Z) : Z :=
  (fold_left (FNVHash_step char_is_signed) bytes FNV_offset) mod two32.

(** The 32-bit FNV-1a hash as the specification names it: for each byte,
    xor the byte into the hash, then multiply by the prime modulo 2^32. *)
Definition FNV1a_spec (bytes : list Z) : Z :=
  fold_left (fun h c => (Z.lxor h c * FNV_prime) mod two32) bytes FNV_offset.

(** What the source computes, on a 32-bit state: multiply by the prime
    modulo 2^32 first, then xor the byte (the FNV-1 order); a byte of
    128 or more is xor-ed as its sign-extended 32-bit value where [char]
    is signed. *)
Definition char_to_u32 (char_is_signed : bool) (c : Z) : Z :=
  if char_is_signed && (128 <=? c) then c + (two32 - 256) else c.

Definition FNV1_32 (char_is_signed : bool) (bytes : list Z) : Z :=
  fold_left (fun h c => Z.lxor ((h * FNV_prime) mod two32) (char_to_u32 char_is_signed c))
            bytes FNV_offset.

(** The fields of [internal::Configuration] read by [partition_of_key]:
    [hash_partitioning] holds [partition_key_num_bytes] when present. *)
Record t := mk {
  hash_partitioning : option Z;
  num_partitions : Z;
  num_replicas : Z
}.

Section WithPlatform.
(** Signedness of [char] on the target, and [std::stoll] ([None] when
    it throws). *)
Variable char_is_signed : bool.
Variable stoll : string -> option Z.

(** [partition_of_key(uint32_t key)]; a remainder by zero is undefined
    ([None]). *)
Definition partition_of_key_u32 (cfg : t) (key : Z) : option Z :=
  if num_partitions cfg =? 0 then None else Some (key mod num_partitions cfg).

(** [master_of_key(uint32_t key)]. *)
Definition master_of_key (cfg : t) (key : Z) : option Z :=
  if (num_partitions cfg =? 0) || (num_replicas cfg =? 0) then None
  else Some ((key / num_partitions cfg) mod num_replicas cfg).

(** [partition_of_key(const Key& key)]. *)
Definition partition_of_key (cfg : t) (key : Key) : option Z :=
  match hash_partitioning cfg with
  | Some partition_key_num_bytes =>
      let bytes := bytes_of key in
      let end_ :=
        if Z.of_nat (length bytes) <=? partition_key_num_bytes
        then bytes
        else take (Z.to_nat partition_key_num_bytes) bytes in
      if num_partitions cfg =? 0 then None
      else Some (FNVHash char_is_signed end_ mod num_partitions cfg)
  | None =>
      match stoll key with
      | Some k => partition_of_key_u32 cfg (k mod two32)
      | None => None
      end
  end.
End WithPlatform.

End Configuration.

(* ===================================================================== *)
(** * LockQueueTail  ([ddr_lock_manager.cpp], lines 252-269)             *)
(* ===================================================================== *)

Module LockQueueTail.

Record t := mk {
  write_lock_requester_ : option TxnId;
  read_lock_requesters_ : list TxnId
}.

(** A default-constructed tail, as [lock_table_[key_replica]] creates. *)
Definition empty : t := mk None [].

Definition AcquireReadLock (txn_id : TxnId) (q : t) : t * option TxnId :=
  (mk (write_lock_requester_ q) (read_lock_requesters_ q ++ [txn_id]),
   write_lock_requester_ q).

Definition AcquireWriteLock (txn_id : TxnId) (q : t) : t * list TxnId :=
  let deps :=
    match read_lock_requesters_ q with
    | [] => match write_lock_requester_ q with
            | Some w => [w]
            | None => []
            end
    | _ :: _ => read_lock_requesters_ q
    end in
  let readers :=
    match read_lock_requesters_ q with
    | [] => read_lock_requesters_ q
    | _ :: _ => []
    end in
  (mk (Some txn_id) readers, deps).

End LockQueueTail.

(* ===================================================================== *)
(** * Sequencer  ([src/module/sequencer.cpp])                            *)
(* ===================================================================== *)

Module Sequencer.

Inductive TransactionStatus := NOT_STARTED | COMMITTED | ABORTED.

(** The fields of [Transaction] and of its [internal()] part that the
    sequencer reads or writes. *)
Record Transaction := mkTxn {
  id : TxnId;
  timestamp : Z;
  status : TransactionStatus;
  abort_reason : string;
  mh_arrive_at_home_time : Z;
  mh_enter_local_batch_time : Z
}.

Definition set_mh_arrive_at_home_time (now : Z) (x : Transaction) : Transaction :=
  mkTxn (id x) (timestamp x) (status x) (abort_reason x) now (mh_enter_local_batch_time x).
Definition set_mh_enter_local_batch_time (now : Z) (x : Transaction) : Transaction :=
  mkTxn (id x) (timestamp x) (status x) (abort_reason x) (mh_arrive_at_home_time x) now.
Definition set_status (s : TransactionStatus) (x : Transaction) : Transaction :=
  mkTxn (id x) (timestamp x) s (abort_reason x) (mh_arrive_at_home_time x)
        (mh_enter_local_batch_time x).
Definition set_abort_reason (r : string) (x : Transaction) : Transaction :=
  mkTxn (id x) (timestamp x) (status x) r (mh_arrive_at_home_time x)
        (mh_enter_local_batch_time x).

Inductive Request :=
| ForwardTxn (txn : Transaction)
| Ping (src_send_time dst : Z)
| Stats
| Signal.

Record Envelope := mkEnv { from : Z; request : Request }.

(** [Send(move(env), kBatcherChannel)]. *)
Inductive sent := ToBatcher (req : Request).

(** The batcher's buffer of future txns: a min-heap keyed on timestamp,
    held as the multiset of its entries. *)
Definition heap := list (Z * Transaction).

Definition heap_min (h : heap) : option Z :=
  match h with
  | [] => None
  | (ts, _) :: h' => Some (fold_left Z.min (map fst h') ts)
  end.

(** Modelled from the spec: [Batcher::BufferFutureTxn], defined in the
    batcher's source file, which is not among the sources at hand.  The
    txn is inserted into the min-heap keyed on its timestamp; the result
    says whether the earliest timestamp of the buffer became earlier (an
    empty buffer has no earliest timestamp, so any insertion into it
    does). *)
Definition BufferFutureTxn (txn : Transaction) (h : heap) : heap * bool :=
  ((timestamp txn, txn) :: h,
   match heap_min h with
   | None => true
   | Some m => timestamp txn <? m
   end).

(** The sequencer together with the buffer of its batcher;
    [deviation_samples] lists the calls [deviations_[from].Add(dev)]. *)
Record t := mk {
  future_txns : heap;
  deviation_samples : list (Z * Z)
}.

Record Config := mkConfig {
  bypass_mh_orderer : bool;
  synchronized_batching : bool
}.

Definition in_int64 (z : Z) : bool := (- 2 ^ 63 <=? z) && (z <? 2 ^ 63).

Section WithBuild.
(** [LOCK_MANAGER_DDR] is a build flag. *)
Variable lock_manager_ddr : bool.
Variable config : Config.

(** [ProcessForwardRequest]; [now] is the reading of the clock, [env]
    the envelope of a [ForwardTxn] carrying [txn0].  The tracing
    macros ([RECORD]) are compiled out by default and left out.  The
    subtraction is one of [int64_t]: its overflow is undefined
    ([None]). *)
Definition ProcessForwardRequest (now : Z) (from_ : Z) (txn0 : Transaction) (s : t)
  : option (t * list sent) :=
  let txn := set_mh_arrive_at_home_time now txn0 in
  if bypass_mh_orderer config && synchronized_batching config then
    let dev := timestamp txn - now in
    if negb (in_int64 dev) then None
    else if dev <=? 0 then
      let txn1 :=
        if lock_manager_ddr then txn
        else set_abort_reason "restarted" (set_status ABORTED txn) in
      let txn2 := set_mh_enter_local_batch_time now txn1 in
      Some (mk (future_txns s) (deviation_samples s ++ [(from_, dev)]),
            [ToBatcher (ForwardTxn txn2)])
    else
      let '(h, signal_needed) := BufferFutureTxn txn (future_txns s) in
      Some (mk h (deviation_samples s ++ [(from_, dev)]),
            if signal_needed then [ToBatcher Signal] else [])
  else
    let txn2 := set_mh_enter_local_batch_time now txn in
    Some (s, [ToBatcher (ForwardTxn txn2)]).

(** Whether the insertion made the earliest timestamp of the buffer
    earlier than it was. *)
Definition minimum_earlier (before after : option Z) : Prop :=
  match before, after with
  | None, Some _ => True
  | Some b, Some a => a < b
  | _, None => False
  end.
End WithBuild.

End Sequencer.

(* ===================================================================== *)
(** * DDRLockManager  ([ddr_lock_manager.cpp], lines 271-450)            *)
(* ===================================================================== *)

(** Modelled from the spec: the record [TxnInfo] and its predicates, which
    are declared in the header of the lock manager (not among the sources
    at hand): an [id], the counters [unarrived_lock_requests] and
    [num_waiting_for] (both [int]; taken as unbounded here), and the list
    [waited_by]. *)
Record TxnInfo := mkTxnInfo {
  id : TxnId;
  unarrived_lock_requests : Z;
  num_waiting_for : Z;
  waited_by : list TxnId
}.

(** [TxnInfo(txn_id)], as [try_emplace(txn_id, txn_id)] constructs it. *)
Definition new_TxnInfo (txn_id : TxnId) : TxnInfo := mkTxnInfo txn_id 0 0 [].

Definition is_complete (i : TxnInfo) : bool := unarrived_lock_requests i =? 0.
Definition is_ready (i : TxnInfo) : bool := is_complete i && (num_waiting_for i =? 0).

Definition add_unarrived (n : Z) (i : TxnInfo) : TxnInfo :=
  mkTxnInfo (id i) (unarrived_lock_requests i + n) (num_waiting_for i) (waited_by i).
Definition add_waiting_for (n : Z) (i : TxnInfo) : TxnInfo :=
  mkTxnInfo (id i) (unarrived_lock_requests i) (num_waiting_for i + n) (waited_by i).
Definition set_num_waiting_for (n : Z) (i : TxnInfo) : TxnInfo :=
  mkTxnInfo (id i) (unarrived_lock_requests i) n (waited_by i).
Definition set_waited_by (l : list TxnId) (i : TxnInfo) : TxnInfo :=
  mkTxnInfo (id i) (unarrived_lock_requests i) (num_waiting_for i) l.
Definition push_waited_by (x : TxnId) (i : TxnInfo) : TxnInfo :=
  set_waited_by (waited_by i ++ [x]) i.

Abbreviation TxnInfoTable := (gmap Z TxnInfo) (only parsing).

(** [txn_info_.try_emplace(txn_id, txn_id)]. *)
Definition try_emplace (txn_id : TxnId) (ti : TxnInfoTable) : TxnInfoTable :=
  match ti !! txn_id with
  | Some _ => ti
  | None => <[txn_id := new_TxnInfo txn_id]> ti
  end.

(** What the lock manager reads of a [TxnHolder] and of its transaction. *)
Record TxnHolder := mkTxnHolder {
  txn_id : TxnId;
  keys_in_partition : list (Key * LockMode);
  is_remaster : bool;
  master_metadata : gmap string Z;
  is_new_master_lock_only : bool;
  new_master : Z
}.

(** [std::unique] on a range. *)
Fixpoint unique_from (x : Z) (l : list Z) : list Z :=
  match l with
  | [] => [x]
  | y :: l' => if x =? y then unique_from x l' else x :: unique_from y l'
  end.
Definition std_unique (l : list Z) : list Z :=
  match l with
  | [] => []
  | x :: l' => unique_from x l'
  end.

(** [std::sort] on a vector of [TxnId]. *)
Definition std_sort (l : list Z) : list Z := merge_sort Z.le l.

Module DDRLockManager.

Record t := mk {
  lock_table_ : gmap string LockQueueTail.t;
  txn_info_ : gmap Z TxnInfo;
  ready_txns_ : list TxnId
}.

Definition init : t := mk ∅ ∅ [].

(** [GetReadyTxns]. *)
Definition GetReadyTxns (lm : t) : t * list TxnId :=
  (mk (lock_table_ lm) (txn_info_ lm) [], ready_txns_ lm).

(** [AcceptTransaction]. *)
Definition AcceptTransaction (h : TxnHolder) (lm : t) : option (t * bool) :=
  match keys_in_partition h with
  | [] => None
  | _ :: _ =>
      let ti := try_emplace (txn_id h) (txn_info_ lm) in
      let n := if is_remaster h then 2
               else Z.of_nat (length (keys_in_partition h)) in
      let ti' := alter (add_unarrived n) (txn_id h) ti in
      info ← ti' !! txn_id h;
      Some (mk (lock_table_ lm) ti' (ready_txns_ lm), is_ready info)
  end.

(** The locks to be requested (lines 325-347); [master_metadata().at(key)]
    fails on an unknown key. *)
Definition locks_to_request (h : TxnHolder) : option (list (KeyReplica * LockMode)) :=
  if is_remaster h then
    match keys_in_partition h with
    | [] => None
    | (key, _) :: _ =>
        master ← master_metadata h !! key;
        let master' := if is_new_master_lock_only h then new_master h else master in
        Some [(MakeKeyReplica key master', WRITE)]
    end
  else
    mapM (fun '(key, mode) =>
            master ← master_metadata h !! key;
            Some (MakeKeyReplica key master, mode))
         (keys_in_partition h).

(** One turn of the loop over the locks (lines 351-372). *)
Definition request_lock (txn : TxnId)
    (st : gmap string LockQueueTail.t * list TxnId)
    (lock : KeyReplica * LockMode)
  : option (gmap string LockQueueTail.t * list TxnId) :=
  let '(lock_table, blocking_txns) := st in
  let '(key_replica, mode) := lock in
  let lock_queue_tail := default LockQueueTail.empty (lock_table !! key_replica) in
  match mode with
  | READ =>
      let '(q, b_txn) := LockQueueTail.AcquireReadLock txn lock_queue_tail in
      Some (<[key_replica := q]> lock_table,
            match b_txn with
            | Some b => blocking_txns ++ [b]
            | None => blocking_txns
            end)
  | WRITE =>
      let '(q, b_txns) := LockQueueTail.AcquireWriteLock txn lock_queue_tail in
      Some (<[key_replica := q]> lock_table, b_txns ++ blocking_txns)
  | UNLOCKED => None
  end.

(** One turn of the loop over the blocking txns (lines 385-401). *)
Definition add_blocker (txn : TxnId) (ti : gmap Z TxnInfo) (b_txn : TxnId)
  : gmap Z TxnInfo :=
  if b_txn =? txn then ti
  else match ti !! b_txn with
       | None => ti
       | Some _ =>
           alter (push_waited_by txn) b_txn (alter (add_waiting_for 1) txn ti)
       end.

(** [AcquireLocks]. *)
Definition AcquireLocks (h : TxnHolder) (lm : t) : option (t * AcquireLocksResult) :=
  match keys_in_partition h with
  | [] => None
  | _ :: _ =>
      locks ← locks_to_request h;
      '(lock_table, blocking_txns) ← foldlM (request_lock (txn_id h)) locks (lock_table_ lm, []);
      let blockers := std_unique (std_sort blocking_txns) in
      let ti0 := try_emplace (txn_id h) (txn_info_ lm) in
      let ti1 := alter (add_unarrived (- Z.of_nat (length locks))) (txn_id h) ti0 in
      let ti2 := fold_left (add_blocker (txn_id h)) blockers ti1 in
      info ← ti2 !! txn_id h;
      Some (mk lock_table ti2 (ready_txns_ lm),
            if is_ready info then ACQUIRED else WAITING)
  end.

(** [AcceptTxnAndAcquireLocks]. *)
Definition AcceptTxnAndAcquireLocks (h : TxnHolder) (lm : t) : option (t * AcquireLocksResult) :=
  '(lm', _) ← AcceptTransaction h lm;
  AcquireLocks h lm'.

(** One turn of the loop over [waited_by] (lines 429-446). *)
Definition release_one (st : gmap Z TxnInfo * list TxnId) (blocked_txn_id : TxnId)
  : gmap Z TxnInfo * list TxnId :=
  let '(ti, result) := st in
  if blocked_txn_id =? kSentinelTxnId then st
  else match ti !! blocked_txn_id with
       | None => st
       | Some blocked_txn =>
           let blocked_txn' := add_waiting_for (-1) blocked_txn in
           (<[blocked_txn_id := blocked_txn']> ti,
            if is_ready blocked_txn' then result ++ [blocked_txn_id] else result)
       end.

(** [ReleaseLocks]. *)
Definition ReleaseLocks (h : TxnHolder) (lm : t) : option (t * list TxnId) :=
  match txn_info_ lm !! txn_id h with
  | None => Some (lm, [])
  | Some txn_info =>
      if is_ready txn_info then
        let '(ti, result) := fold_left release_one (waited_by txn_info) (txn_info_ lm, []) in
        Some (mk (lock_table_ lm) (delete (txn_id h) ti) (ready_txns_ lm), result)
      else None
  end.

(** ** Sequences of calls *)

Inductive call :=
| CallAcceptTransaction (h : TxnHolder)
| CallAcquireLocks (h : TxnHolder)
| CallReleaseLocks (h : TxnHolder).

Definition holder_of (c : call) : TxnHolder :=
  match c with
  | CallAcceptTransaction h | CallAcquireLocks h | CallReleaseLocks h => h
  end.

Definition do_call (c : call) (lm : t) : option t :=
  match c with
  | CallAcceptTransaction h => fst <$> AcceptTransaction h lm
  | CallAcquireLocks h => fst <$> AcquireLocks h lm
  | CallReleaseLocks h => fst <$> ReleaseLocks h lm
  end.

(** The states the manager reaches from its initial state; a call that
    ends in a fatal error reaches no state. *)
Inductive reachable : t -> Prop :=
| reachable_init : reachable init
| reachable_call c lm lm' :
    reachable lm -> do_call c lm = Some lm' -> reachable lm'.

(** As [reachable], with every call made for a txn whose id is not the
    sentinel. *)
Inductive reachable_ids : t -> Prop :=
| reachable_ids_init : reachable_ids init
| reachable_ids_call c lm lm' :
    reachable_ids lm -> txn_id (holder_of c) <> kSentinelTxnId ->
    do_call c lm = Some lm' -> reachable_ids lm'.

(** A sequence of calls, stopped by the first fatal error. *)
Definition do_calls (cs : list call) (lm : t) : option t :=
  foldlM (fun lm c => do_call c lm) cs lm.

(** Number of slots of [l] that hold [t] and are not the sentinel. *)
Definition occurrences (t : TxnId) (l : list TxnId) : Z :=
  Z.of_nat (length (filter (fun x => x <> kSentinelTxnId /\ x = t) l)).

(** Total over the [waited_by] lists of a table. *)
Definition total_occurrences (t : TxnId) (ti : gmap Z TxnInfo) : Z :=
  map_fold (fun _ info acc => occurrences t (waited_by info) + acc) 0 ti.

(** The balance of the wait-for graph. *)
Definition balanced (ti : gmap Z TxnInfo) : Prop :=
  forall t info, ti !! t = Some info ->
    num_waiting_for info = total_occurrences t ti.

(** [num_waiting_for] of [t] in a table, 0 for a txn that is not there. *)
Definition waiting_for_of (ti : gmap Z TxnInfo) (t : TxnId) : Z :=
  match ti !! t with
  | Some info => num_waiting_for info
  | None => 0
  end.

(** The invariant of the table that the calls maintain: the sentinel is
    no txn of the table, every entry is stored under its own id, and the
    occurrences of any id in the [waited_by] lists are counted by its
    entry (so an id without an entry occurs nowhere). *)
Record graph_inv (ti : gmap Z TxnInfo) : Prop := {
  inv_no_sentinel : ti !! kSentinelTxnId = None;
  inv_ids : forall k info, ti !! k = Some info -> id info = k;
  inv_balance : forall t, total_occurrences t ti = waiting_for_of ti t
}.

(** A multi-home txn 200 whose two lock-only pieces (on the keys "a" and
    "c", mastered at the replicas 0 and 1) both find the txn 100 in
    their way. *)
Definition example_metadata : gmap string Z := <["a" := 0]> (<["c" := 1]> ∅).
Definition example_double_count : list call :=
  [ CallAcceptTransaction (mkTxnHolder 100 [("a", WRITE); ("c", WRITE)] false example_metadata false 0);
    CallAcquireLocks (mkTxnHolder 100 [("a", WRITE); ("c", WRITE)] false example_metadata false 0);
    CallAcceptTransaction (mkTxnHolder 200 [("a", WRITE); ("c", WRITE)] false example_metadata false 0);
    CallAcquireLocks (mkTxnHolder 200 [("a", WRITE)] false example_metadata false 0);
    CallAcquireLocks (mkTxnHolder 200 [("c", WRITE)] false example_metadata false 0) ].

(** A txn that carries the id of the sentinel and finds the txn 100 in
    its way on the key "a". *)
Definition example_sentinel_id : list call :=
  [ CallAcceptTransaction (mkTxnHolder 100 [("a", WRITE)] false example_metadata false 0);
    CallAcquireLocks (mkTxnHolder 100 [("a", WRITE)] false example_metadata false 0);
    CallAcceptTransaction (mkTxnHolder 0 [("a", WRITE)] false example_metadata false 0);
    CallAcquireLocks (mkTxnHolder 0 [("a", WRITE)] false example_metadata false 0) ].

End DDRLockManager.

(* ===================================================================== *)
(** * DeadlockResolver  ([ddr_lock_manager.cpp], lines 32-250)           *)
(* ===================================================================== *)

Module DeadlockResolver.

Inductive ComponentType := UNASSIGNED | STABLE | UNSTABLE.

Record Node := mkNode {
  node_id : TxnId;
  node_is_complete : bool;
  redges : list TxnId;
  visited : bool;
  comp_type : ComponentType
}.

(** [Node(txn_id, is_complete)]. *)
Definition new_Node (txn_id : TxnId) (c : bool) : Node :=
  mkNode txn_id c [] false UNASSIGNED.

Definition push_redge (x : TxnId) (n : Node) : Node :=
  mkNode (node_id n) (node_is_complete n) (redges n ++ [x]) (visited n) (comp_type n).
Definition set_visited (n : Node) : Node :=
  mkNode (node_id n) (node_is_complete n) (redges n) true (comp_type n).
Definition set_comp_type (c : ComponentType) (n : Node) : Node :=
  mkNode (node_id n) (node_is_complete n) (redges n) (visited n) c.

(** [aux_graph_.try_emplace(id, id, is_complete)]. *)
Definition try_emplace_node (txn_id : TxnId) (c : bool) (aux : gmap Z Node) : gmap Z Node :=
  match aux !! txn_id with
  | Some _ => aux
  | None => <[txn_id := new_Node txn_id c]> aux
  end.

Section WithSnapshot.
(** The snapshot [txn_info_], which the two traversals only read. *)
Variable txn_info : gmap Z TxnInfo.

(** [FindTopoOrderAndTranspose(txn)]; the state is [aux_graph_] and
    [topo_order_].  The recursion of the source is on the graph: [fuel]
    bounds its depth, and [None] is a failed [CHECK] or the end of the
    fuel. *)
Fixpoint FindTopoOrderAndTranspose (fuel : nat) (txn : TxnInfo)
    (st : gmap Z Node * list TxnId) : option (gmap Z Node * list TxnId) :=
  match fuel with
  | O => None
  | S fuel' =>
      st' ← foldlM
             (fun (st : gmap Z Node * list TxnId) (n : TxnId) =>
                if n =? kSentinelTxnId then Some st
                else
                  neighbor ← txn_info !! n;
                  let aux1 := try_emplace_node (id neighbor) (is_complete neighbor) st.1 in
                  node ← aux1 !! id neighbor;
                  let aux2 := <[id neighbor := push_redge (id txn) node]> aux1 in
                  if visited node then Some (aux2, st.2)
                  else FindTopoOrderAndTranspose fuel' neighbor
                         (alter set_visited (id neighbor) aux2, st.2))
             (waited_by txn) st;
      Some (st'.1, st'.2 ++ [id txn])
  end.

(** The first loop of [Loop] (lines 69-80), over the entries of the
    snapshot in the order [iter] in which the [unordered_map] yields
    them, followed by [std::reverse]. *)
Definition visit_all (fuel : nat) (iter : list (TxnId * TxnInfo))
  : option (gmap Z Node * list TxnId) :=
  st ← foldlM
         (fun (st : gmap Z Node * list TxnId) (it : TxnId * TxnInfo) =>
            let txn := it.2 in
            let aux1 := try_emplace_node (id txn) (is_complete txn) st.1 in
            node ← aux1 !! id txn;
            if visited node then Some (aux1, st.2)
            else FindTopoOrderAndTranspose fuel txn
                   (alter set_visited (id txn) aux1, st.2))
         iter (∅, []);
  Some (st.1, rev st.2).
End WithSnapshot.

(** [FormStronglyConnectedComponent(node)], [node] being the entry of
    [aux_graph_] at [k]; the state is [aux_graph_] and [ssc_]. *)
Fixpoint FormStronglyConnectedComponent (fuel : nat) (k : TxnId)
    (st : gmap Z Node * list TxnId) : option (gmap Z Node * list TxnId * bool) :=
  match fuel with
  | O => None
  | S fuel' =>
      node ← st.1 !! k;
      let ssc1 := st.2 ++ [node_id node] in
      let aux1 := <[k := set_comp_type STABLE node]> st.1 in
      foldlM
        (fun (acc : gmap Z Node * list TxnId * bool) (n : TxnId) =>
           let '(aux, ssc, is_stable) := acc in
           neighbor ← aux !! n;
           match comp_type neighbor with
           | UNASSIGNED =>
               '(aux', ssc', s) ← FormStronglyConnectedComponent fuel' n (aux, ssc);
               Some (aux', ssc', is_stable && s)
           | UNSTABLE => Some (aux, ssc, false)
           | STABLE => Some (aux, ssc, is_stable)
           end)
        (redges node) (aux1, ssc1, node_is_complete node)
  end.

(** [std::binary_search] on the sorted [ssc_]. *)
Definition binary_search (ssc : list TxnId) (x : TxnId) : bool :=
  bool_decide (x ∈ ssc).

Definition set_slot (j : nat) (x : TxnId) (i : TxnInfo) : TxnInfo :=
  set_waited_by (<[j := x]> (waited_by i)) i.

(** The body of the loop over the slots [j] of [ssc_[i]] (lines 214-228);
    [si] is [ssc_[i]], the state is [txn_info_] and [new_edge_added]. *)
Definition resolve_slot (ssc : list TxnId) (i : nat) (si : TxnId)
    (st : gmap Z TxnInfo * bool) (j : nat) : option (gmap Z TxnInfo * bool) :=
  let '(ti, new_edge_added) := st in
  txn ← ti !! si;
  w ← waited_by txn !! j;
  if binary_search ssc w then
    _ ← ti !! w;
    ti1 ← (if new_edge_added then Some (alter (set_slot j kSentinelTxnId) si ti)
           else nxt ← ssc !! S i;
                _ ← ti !! nxt;
                Some (alter (add_waiting_for 1) nxt (alter (set_slot j nxt) si ti)));
    Some (alter (add_waiting_for (-1)) w ti1, true)
  else Some st.

(** The body of the loop over [i] (lines 206-232). *)
Definition resolve_member (ssc : list TxnId) (ti : gmap Z TxnInfo) (i : nat)
  : option (gmap Z TxnInfo) :=
  si ← ssc !! i;
  txn ← ti !! si;
  if is_complete txn then
    '(ti', new_edge_added) ←
       foldlM (resolve_slot ssc i si) (seq 0 (length (waited_by txn)))
              (ti, bool_decide (i = (length ssc - 1)%nat));
    if new_edge_added : bool then Some ti' else None
  else None.

(** [ResolveDeadlock()]: the result is [txn_info_], the sorted [ssc_] and
    the returned optional. *)
Definition ResolveDeadlock (ti : gmap Z TxnInfo) (ssc0 : list TxnId)
  : option (gmap Z TxnInfo * list TxnId * option TxnId) :=
  let ssc := std_sort ssc0 in
  ti' ← foldlM (resolve_member ssc) (rev (seq 0 (length ssc))) ti;
  s0 ← ssc !! 0%nat;
  head_txn ← ti' !! s0;
  Some (ti', ssc, if is_ready head_txn then Some s0 else None).

(** ** What a resolution does, slot by slot

    The description that the properties of [ResolveDeadlock] are stated
    with: it is not part of the source. *)

(** A member of the component gets [new_edge] written over the first of
    its slots that holds a member of the component, and the sentinel
    over its other slots that hold one. *)
Fixpoint rewrite_slots (ssc : list TxnId) (new_edge : option TxnId)
    (wb : list TxnId) : list TxnId :=
  match wb with
  | [] => []
  | w :: wb' =>
      if binary_search ssc w then
        match new_edge with
        | Some nxt => nxt :: rewrite_slots ssc None wb'
        | None => kSentinelTxnId :: rewrite_slots ssc None wb'
        end
      else w :: rewrite_slots ssc new_edge wb'
  end.

(** Whether a slot of [wb] holds a member of the component. *)
Definition has_member (ssc : list TxnId) (wb : list TxnId) : bool :=
  existsb (binary_search ssc) wb.

(** Number of slots of [wb] that hold [x]. *)
Definition slot_count (x : TxnId) (wb : list TxnId) : Z :=
  Z.of_nat (length (filter (fun w => w = x) wb)).

(** The member that follows [x] in the sorted component. *)
Fixpoint successor (ssc : list TxnId) (x : TxnId) : option TxnId :=
  match ssc with
  | a :: tl => if a =? x then head tl else successor tl x
  | [] => None
  end.

Definition wb_of (ti : gmap Z TxnInfo) (s : TxnId) : list TxnId :=
  match ti !! s with
  | Some info => waited_by info
  | None => []
  end.

Definition Zsum {A : Type} (f : A -> Z) (l : list A) : Z :=
  foldr (fun a acc => f a + acc) 0 l.

(** The change of [num_waiting_for] of [x] made while the slots [wb] of
    one member are rewritten. *)
Definition delta (ssc : list TxnId) (new_edge : option TxnId)
    (wb : list TxnId) (x : TxnId) : Z :=
  (if has_member ssc wb && bool_decide (new_edge = Some x) then 1 else 0)
  - (if binary_search ssc x then slot_count x wb else 0).


Definition upd_info (d : Z) (wb : list TxnId) (info : TxnInfo) : TxnInfo :=
  mkTxnInfo (id info) (unarrived_lock_requests info) (num_waiting_for info + d) wb.

(** The table after the members [done] of the component were processed. *)
Definition resolved_upto (ssc done : list TxnId) (ti0 ti : gmap Z TxnInfo) : Prop :=
  forall x, ti !! x =
    (fun info =>
       upd_info (Zsum (fun s => delta ssc (successor ssc s) (wb_of ti0 s) x) done)
                (if bool_decide (x ∈ done)
                 then rewrite_slots ssc (successor ssc x) (waited_by info)
                 else waited_by info)
                info) <$> ti0 !! x.

(** What [ResolveDeadlock] relies on: the members are distinct, in the
    table and complete, and each has a slot that holds a member. *)
Definition resolvable (ssc : list Z) (ti0 : gmap Z TxnInfo) : Prop :=
  NoDup ssc /\
  forall s, s ∈ ssc ->
    exists info, ti0 !! s = Some info /\ is_complete info = true /\
                 has_member ssc (waited_by info) = true.

(** Two txns that wait for each other. *)
Definition example_two_cycle : gmap Z TxnInfo :=
  <[1 := mkTxnInfo 1 0 1 [2]]> (<[2 := mkTxnInfo 2 0 1 [1]]> ∅).

(** The state of the second loop of [Loop] (lines 82-114). *)
Record pass := mkPass {
  aux_graph_ : gmap Z Node;
  txn_info_ : gmap Z TxnInfo;
  to_be_updated : list TxnId;
  ready_txns : list TxnId
}.

Definition mark_unstable (ssc : list TxnId) (aux : gmap Z Node) : gmap Z Node :=
  fold_left (fun aux x => alter (set_comp_type UNSTABLE) x aux) ssc aux.

Definition component_step (fuel : nat) (p : pass) (txn : TxnId) : option pass :=
  node ← aux_graph_ p !! txn;
  match comp_type node with
  | UNASSIGNED =>
      '(aux, ssc, is_stable) ← FormStronglyConnectedComponent fuel txn (aux_graph_ p, []);
      if negb is_stable then
        Some (mkPass (mark_unstable ssc aux) (txn_info_ p) (to_be_updated p) (ready_txns p))
      else if (1 <? length ssc)%nat then
        '(ti, ssc', ready) ← ResolveDeadlock (txn_info_ p) ssc;
        Some (mkPass aux ti (to_be_updated p ++ ssc')
                     (ready_txns p ++ match ready with Some r => [r] | None => [] end))
      else Some (mkPass aux (txn_info_ p) (to_be_updated p) (ready_txns p))
  | _ => Some p
  end.

(** The traversals and the resolution of one pass, on the snapshot. *)
Definition resolve_snapshot (fuel : nat) (iter : list (TxnId * TxnInfo))
    (snapshot : gmap Z TxnInfo) : option pass :=
  '(aux, topo_order) ← visit_all snapshot fuel iter;
  foldlM (component_step fuel) topo_order (mkPass aux snapshot [] []).

(** The write-back (lines 123-138): [std::copy] over the prefix of the
    live list, which has to be at least as long. *)
Definition write_back_one (resolved : gmap Z TxnInfo) (live : gmap Z TxnInfo)
    (txn : TxnId) : option (gmap Z TxnInfo) :=
  new_txn ← resolved !! txn;
  old ← live !! txn;
  if (length (waited_by new_txn) <=? length (waited_by old))%nat then
    Some (<[txn :=
              set_num_waiting_for (num_waiting_for new_txn)
                (set_waited_by
                   (waited_by new_txn ++ drop (length (waited_by new_txn)) (waited_by old))
                   old)]> live)
  else None.

(** One run of [Loop]: [iter] is the order in which the snapshot is
    iterated, [live] the table of the lock manager when the write-back
    takes the lock; the result is the table and the list of ready txns
    of the lock manager, and whether a signal was sent. *)
Definition Loop (fuel : nat) (iter : list (TxnId * TxnInfo))
    (snapshot live : gmap Z TxnInfo) (lm_ready_txns : list TxnId)
  : option (gmap Z TxnInfo * list TxnId * bool) :=
  p ← resolve_snapshot fuel iter snapshot;
  live' ← foldlM (write_back_one (txn_info_ p)) (to_be_updated p) live;
  Some (live', lm_ready_txns ++ ready_txns p,
        match ready_txns p with [] => false | _ :: _ => true end).


End DeadlockResolver.

(* ===================================================================== *)
(** * Depth-first traversals, abstractly                                 *)
(* ===================================================================== *)

(** The two traversals of the resolver are depth-first searches that mark
    a node before they descend into it.  Their runs are described here
    over a graph given by its lists of successors; this description is
    what the properties of the resolver are proved with, it is not part of
    the source. *)
Module Graph.

Section WithSuccessors.
Variable succs : Z -> list Z.

Definition edge (x y : Z) : Prop := y ∈ succs x.

(** A path from [x] to [z] whose nodes after [x] are outside [S]. *)
Inductive path_avoiding (S : gset Z) : Z -> Z -> Prop :=
| path_here x : path_avoiding S x x
| path_step x y z : edge x y -> y ∉ S -> path_avoiding S y z -> path_avoiding S x z.

Definition reach : Z -> Z -> Prop := path_avoiding ∅.

(** Two nodes of one strongly connected component. *)
Definition same_component (x y : Z) : Prop := reach x y /\ reach y x.

(** [traverse S ns S' l]: the loop over the successors [ns] of a marked
    node, run with the marked set [S], ends with the marked set [S'],
    having finished the nodes [l], in this order. *)
Inductive traverse : gset Z -> list Z -> gset Z -> list Z -> Prop :=
| traverse_nil S : traverse S [] S []
| traverse_skip S n ns S' l :
    n ∈ S -> traverse S ns S' l -> traverse S (n :: ns) S' l
| traverse_visit S n ns S1 l1 S' l2 :
    n ∉ S ->
    traverse (S ∪ {[n]}) (succs n) S1 l1 ->
    traverse S1 ns S' l2 ->
    traverse S (n :: ns) S' (l1 ++ n :: l2).

(** [v] is not after [z] in [l]. *)
Definition before (l : list Z) (v z : Z) : Prop :=
  exists i j : nat, l !! i = Some v /\ l !! j = Some z /\ (i <= j)%nat.

(** The order in which a traversal finishes the nodes: among the nodes
    finished, whatever a node [u] reaches outside [S] is finished no later
    than some node of the component of [u]. *)
Definition finish_order (S : gset Z) (l : list Z) : Prop :=
  forall u v, u ∈ l -> v ∈ l -> path_avoiding S u v ->
    exists z, z ∈ l /\ path_avoiding S u z /\ path_avoiding S z u /\ before l v z.

End WithSuccessors.

End Graph.

(* ===================================================================== *)
(** * The pass of the resolver, described                                *)
(* ===================================================================== *)

(** The notions that the properties of a pass are stated and proved with;
    they are not part of the source. *)
Module Pass.
Import DeadlockResolver.

Global Instance ComponentType_eq_dec : EqDecision ComponentType.
Proof. solve_decision. Defined.

(** The forward edges of the snapshot: [x] unblocks the txns in its slots,
    the sentinel apart. *)
Definition succs (snap : gmap Z TxnInfo) (x : Z) : list Z :=
  filter (fun w => w <> kSentinelTxnId) (wb_of snap x).

(** A snapshot the pass can run on: every entry is stored under its own id
    and every slot that is not the sentinel names a txn of the snapshot. *)
Record snapshot_ok (snap : gmap Z TxnInfo) : Prop := {
  snapshot_ids : forall k info, snap !! k = Some info -> id info = k;
  snapshot_closed : forall k info w,
    snap !! k = Some info -> w ∈ waited_by info -> w <> kSentinelTxnId ->
    is_Some (snap !! w)
}.

(** The nodes of [aux_graph_] that are marked as visited. *)
Definition marked (aux : gmap Z Node) : gset Z :=
  dom (filter (fun kv => visited kv.2 = true) aux).

(** The nodes of [aux_graph_] that belong to a component already. *)
Definition assigned (aux : gmap Z Node) : gset Z :=
  dom (filter (fun kv => comp_type kv.2 <> UNASSIGNED) aux).

Definition redges_of (aux : gmap Z Node) (k : Z) : list Z :=
  match aux !! k with
  | Some node => redges node
  | None => []
  end.

Definition comp_type_of (aux : gmap Z Node) (k : Z) : ComponentType :=
  match aux !! k with
  | Some node => comp_type node
  | None => UNASSIGNED
  end.

(** The nodes of [aux_graph_] during the first traversal. *)
Definition aux_ok (snap : gmap Z TxnInfo) (aux : gmap Z Node) : Prop :=
  forall k node, aux !! k = Some node ->
    node_id node = k /\ comp_type node = UNASSIGNED /\
    exists info, snap !! k = Some info /\ node_is_complete node = is_complete info.

(** The body of the loop of [FindTopoOrderAndTranspose] over the slots of
    the txn [x], the descent into a neighbour being [descend]. *)
Definition visit_neighbor (snap : gmap Z TxnInfo)
    (descend : TxnInfo -> gmap Z Node * list TxnId -> option (gmap Z Node * list TxnId))
    (x : TxnId) (st : gmap Z Node * list TxnId) (n : TxnId)
  : option (gmap Z Node * list TxnId) :=
  if n =? kSentinelTxnId then Some st
  else
    neighbor ← snap !! n;
    let aux1 := try_emplace_node (id neighbor) (is_complete neighbor) st.1 in
    node ← aux1 !! id neighbor;
    let aux2 := <[id neighbor := push_redge x node]> aux1 in
    if visited node then Some (aux2, st.2)
    else descend neighbor (alter set_visited (id neighbor) aux2, st.2).

(** What a call of [FindTopoOrderAndTranspose] for the marked txn [x]
    does: it is a traversal from [x] that appends the nodes it finishes to
    [topo_order_] and records the edges that leave them. *)
Definition descent_spec (snap : gmap Z TxnInfo) (x : Z) (aux : gmap Z Node)
    (topo : list Z) (res : option (gmap Z Node * list Z)) : Prop :=
  exists aux' l,
    res = Some (aux', topo ++ l ++ [x]) /\
    Graph.traverse (succs snap) (marked aux) (succs snap x) (marked aux') l /\
    aux_ok snap aux' /\
    forall k u, u ∈ redges_of aux' k <->
      u ∈ redges_of aux k \/ ((u ∈ l \/ u = x) /\ k ∈ succs snap u).

Definition neighbors_spec (snap : gmap Z TxnInfo) (x : Z) (ns : list Z)
    (aux : gmap Z Node) (topo : list Z) (res : option (gmap Z Node * list Z)) : Prop :=
  exists aux' l,
    res = Some (aux', topo ++ l) /\
    Graph.traverse (succs snap) (marked aux)
                   (filter (fun w => w <> kSentinelTxnId) ns) (marked aux') l /\
    aux_ok snap aux' /\
    forall k u, u ∈ redges_of aux' k <->
      u ∈ redges_of aux k \/ (u ∈ l /\ k ∈ succs snap u) \/
      (u = x /\ k ∈ filter (fun w => w <> kSentinelTxnId) ns).

(** The body of the first loop of [Loop]. *)
Definition visit_entry (snap : gmap Z TxnInfo) (fuel : nat)
    (st : gmap Z Node * list TxnId) (it : TxnId * TxnInfo)
  : option (gmap Z Node * list TxnId) :=
  let txn := it.2 in
  let aux1 := try_emplace_node (id txn) (is_complete txn) st.1 in
  node ← aux1 !! id txn;
  if visited node then Some (aux1, st.2)
  else FindTopoOrderAndTranspose snap fuel txn (alter set_visited (id txn) aux1, st.2).

(** What the first traversal leaves: a node for every txn of the snapshot,
    with the edges into it, and an order of the txns in which, whatever a
    txn [u] reaches, some txn of the component of [u] is not after it. *)
Record first_traversal_ok (snap : gmap Z TxnInfo) (aux : gmap Z Node)
    (topo : list Z) : Prop := {
  ft_aux : aux_ok snap aux;
  ft_dom : forall k, is_Some (aux !! k) <-> is_Some (snap !! k);
  ft_topo_nodup : NoDup topo;
  ft_topo : forall k, k ∈ topo <-> is_Some (snap !! k);
  ft_redges : forall k u, u ∈ redges_of aux k <-> k ∈ succs snap u;
  ft_order : forall u v, u ∈ topo -> Graph.reach (succs snap) u v ->
    exists z, Graph.same_component (succs snap) u z /\ Graph.before topo z v
}.

(** [aux_graph_] with the components forgotten. *)
Definition erase (aux : gmap Z Node) : gmap Z Node :=
  set_comp_type UNASSIGNED <$> aux.


Definition complete_of (aux : gmap Z Node) (k : Z) : bool :=
  match aux !! k with
  | Some node => node_is_complete node
  | None => true
  end.

(** The graph built by the first traversal: every node carries its own id
    and the sources of the edges into it are nodes. *)
Record transpose_ok (aux0 : gmap Z Node) : Prop := {
  transpose_ids : forall k node, aux0 !! k = Some node -> node_id node = k;
  transpose_unassigned : forall k node, aux0 !! k = Some node -> comp_type node = UNASSIGNED;
  transpose_closed : forall k u, u ∈ redges_of aux0 k -> is_Some (aux0 !! u)
}.

(** The body of the loop of [FormStronglyConnectedComponent] over the
    edges into a node, the descent into a neighbour being [descend]. *)
Definition form_neighbor
    (descend : TxnId -> gmap Z Node * list TxnId -> option (gmap Z Node * list TxnId * bool))
    (acc : gmap Z Node * list TxnId * bool) (n : TxnId)
  : option (gmap Z Node * list TxnId * bool) :=
  let '(aux, ssc, is_stable) := acc in
  neighbor ← aux !! n;
  match comp_type neighbor with
  | UNASSIGNED =>
      '(aux', ssc', s) ← descend n (aux, ssc);
      Some (aux', ssc', is_stable && s)
  | UNSTABLE => Some (aux, ssc, false)
  | STABLE => Some (aux, ssc, is_stable)
  end.

(** Whether the nodes [l] are complete and no edge into them comes from a
    node that [aux] has as unstable. *)
Definition all_stable (aux0 aux : gmap Z Node) (l : list Z) : Prop :=
  forall z, z ∈ l ->
    complete_of aux0 z = true /\
    forall u, u ∈ redges_of aux0 z -> comp_type_of aux u <> UNSTABLE.

(** What a call of [FormStronglyConnectedComponent] at the unassigned node
    [k] does: a traversal of the transpose from [k], which assigns the
    nodes it reaches, appends them to [ssc_] and tells whether they are
    all stable. *)
Definition form_spec (aux0 : gmap Z Node) (k : Z) (aux : gmap Z Node) (ssc : list Z)
    (res : option (gmap Z Node * list Z * bool)) : Prop :=
  exists aux' l pre b,
    res = Some (aux', ssc ++ pre, b) /\
    pre ≡ₚ k :: l /\
    Graph.traverse (redges_of aux0) (assigned aux ∪ {[k]}) (redges_of aux0 k) (assigned aux') l /\
    erase aux' = aux0 /\
    (forall z, comp_type_of aux' z =
               if decide (z ∈ k :: l) then STABLE else comp_type_of aux z) /\
    (b = true <-> all_stable aux0 aux (k :: l)).

Definition form_loop_spec (aux0 : gmap Z Node) (ns : list Z) (aux : gmap Z Node)
    (ssc : list Z) (b0 : bool) (res : option (gmap Z Node * list Z * bool)) : Prop :=
  exists aux' l pre b,
    res = Some (aux', ssc ++ pre, b) /\
    pre ≡ₚ l /\
    Graph.traverse (redges_of aux0) (assigned aux) ns (assigned aux') l /\
    erase aux' = aux0 /\
    (forall z, comp_type_of aux' z =
               if decide (z ∈ l) then STABLE else comp_type_of aux z) /\
    (b = true <->
       b0 = true /\ (forall n, n ∈ ns -> comp_type_of aux n <> UNSTABLE) /\
       all_stable aux0 aux l).


(** ** What a pass computes

    The description that the properties of a pass are stated with: it is
    not part of the source. *)

(** The entry of [x] once the component [c], sorted, of the table [ti] is
    resolved. *)
Definition resolved_entry (c : list Z) (ti : gmap Z TxnInfo) (x : Z) : option TxnInfo :=
  (fun info =>
     upd_info (Zsum (fun s => delta c (successor c s) (wb_of ti s) x) c)
              (if bool_decide (x ∈ c)
               then rewrite_slots c (successor c x) (waited_by info)
               else waited_by info)
              info) <$> ti !! x.

(** The txn that the resolution of the component [c] of the snapshot
    makes ready, if any. *)
Definition ready_of (snap : gmap Z TxnInfo) (c : list Z) : list Z :=
  match c with
  | [] => []
  | s0 :: _ =>
      match resolved_entry c snap s0 with
      | Some head_txn => if is_ready head_txn then [s0] else []
      | None => []
      end
  end.

Definition complete_in (snap : gmap Z TxnInfo) (w : Z) : bool :=
  match snap !! w with
  | Some info => is_complete info
  | None => true
  end.

(** Every txn that [v] waits for, directly or not, and [v] itself have
    all their lock requests. *)
Definition stable_at (snap : gmap Z TxnInfo) (v : Z) : Prop :=
  forall w, Graph.reach (succs snap) w v -> complete_in snap w = true.

(** A deadlock of the snapshot: the members, ascending, of a strongly
    connected component with more than one member that is stable. *)
Record deadlock (snap : gmap Z TxnInfo) (c : list Z) : Prop := {
  deadlock_sorted : StronglySorted Z.le c;
  deadlock_nodup : NoDup c;
  deadlock_size : (1 < length c)%nat;
  deadlock_members : forall v z, v ∈ c -> (z ∈ c <-> Graph.same_component (succs snap) v z);
  deadlock_known : forall v, v ∈ c -> is_Some (snap !! v);
  deadlock_stable : forall v, v ∈ c -> stable_at snap v
}.

(** The result of a pass that resolved the components [comps], in this
    order. *)
Record pass_result (snap : gmap Z TxnInfo) (comps : list (list Z)) (p : pass) : Prop := {
  res_resolved : forall c x, c ∈ comps -> x ∈ c ->
    txn_info_ p !! x = resolved_entry c snap x;
  res_untouched : forall x, (forall c, c ∈ comps -> x ∉ c) ->
    txn_info_ p !! x = snap !! x;
  res_updated : to_be_updated p = comps ≫= (fun c => c);
  res_ready : ready_txns p = comps ≫= ready_of snap
}.

(** The state of the second loop of [Loop] after the txns [seen] of
    [topo_order_]: [aux0] is the graph that the first loop built. *)
Record pass_inv (snap : gmap Z TxnInfo) (aux0 : gmap Z Node) (seen : list Z)
    (comps : list (list Z)) (p : pass) : Prop := {
  pi_erase : erase (aux_graph_ p) = aux0;
  pi_seen : forall v, v ∈ seen -> v ∈ assigned (aux_graph_ p);
  pi_closed : forall z u, z ∈ assigned (aux_graph_ p) -> u ∈ redges_of aux0 z ->
    u ∈ assigned (aux_graph_ p);
  pi_stable : forall z, z ∈ assigned (aux_graph_ p) ->
    (comp_type_of (aux_graph_ p) z = STABLE <-> stable_at snap z);
  pi_comps : forall c, c ∈ comps <->
    deadlock snap c /\ forall v, v ∈ c -> v ∈ assigned (aux_graph_ p);
  pi_comps_nodup : NoDup comps;
  pi_result : pass_result snap comps p
}.

(** The table [live] of the lock manager has every txn of the snapshot,
    with a [waited_by] list that is at least as long: the lists of the
    lock manager only grow while a txn is in the table. *)
Definition covers (snap live : gmap Z TxnInfo) : Prop :=
  forall x info, snap !! x = Some info ->
    exists old, live !! x = Some old /\
                (length (waited_by info) <= length (waited_by old))%nat.

(** A snapshot of two txns that wait for each other, in the two orders in
    which it can be iterated. *)
Definition example_iter_12 : list (TxnId * TxnInfo) :=
  [(1, mkTxnInfo 1 0 1 [2]); (2, mkTxnInfo 2 0 1 [1])].
Definition example_iter_21 : list (TxnId * TxnInfo) :=
  [(2, mkTxnInfo 2 0 1 [1]); (1, mkTxnInfo 1 0 1 [2])].

End Pass.

(* ===================================================================== *)
(** * More of the sources                                                *)
(* ===================================================================== *)

Module PassExamples.
Import DeadlockResolver.

(** Two txns that wait for each other, the first of which still lacks a
    lock request: a cycle that is not stable. *)
Definition example_unstable_cycle : gmap Z TxnInfo :=
  <[1 := mkTxnInfo 1 1 1 [2]]> (<[2 := mkTxnInfo 2 0 1 [1]]> ∅).

Definition example_unstable_iter : list (TxnId * TxnInfo) :=
  [(1, mkTxnInfo 1 1 1 [2]); (2, mkTxnInfo 2 0 1 [1])].

(** The table of the lock manager when the pass on [example_two_cycle]
    writes back: since the snapshot the txn 3 came to wait for 1. *)
Definition example_grown_table : gmap Z TxnInfo :=
  <[1 := mkTxnInfo 1 0 1 [2; 3]]>
    (<[2 := mkTxnInfo 2 0 1 [1]]> (<[3 := mkTxnInfo 3 0 1 []]> ∅)).

(** What the write-back of [Loop] (lines 123-138) leaves of an entry
    [old] of the lock manager, [new] being the entry of the resolver. *)
Definition written_back (new old info' : TxnInfo) : Prop :=
  id info' = id old /\
  unarrived_lock_requests info' = unarrived_lock_requests old /\
  num_waiting_for info' = num_waiting_for new /\
  waited_by info' = waited_by new ++ drop (length (waited_by new)) (waited_by old).

(** The part of the invariant of the table that is about its keys. *)
Definition keys_ok (ti : gmap Z TxnInfo) : Prop :=
  ti !! kSentinelTxnId = None /\ forall k info, ti !! k = Some info -> id info = k.

End PassExamples.

(* ===================================================================== *)
(** * More on the lock manager                                           *)
(* ===================================================================== *)

Module LockManagerMore.
Import DDRLockManager.

(** No txn of the table is in a slot of its own [waited_by]. *)
Definition no_self_wait (ti : gmap Z TxnInfo) : Prop :=
  forall k info, ti !! k = Some info -> k ∉ waited_by info.

(** [unarrived_lock_requests] of [t] in a table, 0 for a txn that is not
    there (as [try_emplace] would make it). *)
Definition unarrived_of (ti : gmap Z TxnInfo) (t : TxnId) : Z :=
  match ti !! t with
  | Some info => unarrived_lock_requests info
  | None => 0
  end.

(** The txns that a request of mode [mode] finds in its way at the tail
    [q] of a lock queue: what [AcquireReadLock] and [AcquireWriteLock]
    return. *)
Definition conflicting (txn : TxnId) (mode : LockMode) (q : LockQueueTail.t) : list TxnId :=
  match mode with
  | READ => match (LockQueueTail.AcquireReadLock txn q).2 with
            | Some b => [b]
            | None => []
            end
  | WRITE => (LockQueueTail.AcquireWriteLock txn q).2
  | UNLOCKED => []
  end.

(** The tail of a lock queue after a request. *)
Definition requested (txn : TxnId) (mode : LockMode) (q : LockQueueTail.t) : LockQueueTail.t :=
  match mode with
  | READ => (LockQueueTail.AcquireReadLock txn q).1
  | WRITE => (LockQueueTail.AcquireWriteLock txn q).1
  | UNLOCKED => q
  end.

(** The holder of the txn 100 of [example_double_count]. *)
Definition example_holder_100 : TxnHolder :=
  mkTxnHolder 100 [("a", WRITE); ("c", WRITE)] false example_metadata false 0.

(** A remaster txn 7 of the key "a", mastered at the replica 0, to the
    replica 1. *)
Definition example_remaster : TxnHolder :=
  mkTxnHolder 7 [("a", WRITE)] true example_metadata false 1.

(** The txns that [AcquireLocks] for the txn [txn] with the locks
    [locks] makes [txn] wait for: the txns of the table, [txn] apart,
    that a lock finds in its way. *)
Definition blocks (txn : TxnId) (locks : list (KeyReplica * LockMode))
    (lm : DDRLockManager.t) (b : TxnId) : Prop :=
  b <> txn /\ is_Some (txn_info_ lm !! b) /\
  exists key_replica mode,
    (key_replica, mode) ∈ locks /\
    b ∈ conflicting txn mode (default LockQueueTail.empty (lock_table_ lm !! key_replica)).

(** The txn 100 has the write locks of the keys "a" and "c"; the txn 200
    is accepted. *)
Definition example_conflict_calls : list call :=
  [ CallAcceptTransaction (mkTxnHolder 100 [("a", WRITE); ("c", WRITE)] false example_metadata false 0);
    CallAcquireLocks (mkTxnHolder 100 [("a", WRITE); ("c", WRITE)] false example_metadata false 0);
    CallAcceptTransaction (mkTxnHolder 200 [("a", READ)] false example_metadata false 0) ].

Definition example_holder_200 : TxnHolder :=
  mkTxnHolder 200 [("a", READ)] false example_metadata false 0.

(** A run of read requests at the tail of one lock queue: the tail
    after them and what each of them returned. *)
Fixpoint read_locks (readers : list TxnId) (q : LockQueueTail.t)
  : LockQueueTail.t * list (option TxnId) :=
  match readers with
  | [] => (q, [])
  | r :: readers' =>
      let '(q1, b) := LockQueueTail.AcquireReadLock r q in
      let '(q2, bs) := read_locks readers' q1 in
      (q2, b :: bs)
  end.

End LockManagerMore.

(* ===================================================================== *)
(** * Machine ids  ([src/common/configuration.cpp], lines 139-168)       *)
(* ===================================================================== *)

Module Machines.
Import Configuration.

Definition two31 : Z := 2147483648.

(** Conversions between [uint32_t] and [MachineId], which is [int]:
    modular, as two's complement has them. *)
Definition to_int (z : Z) : Z := if z mod two32 <? two31 then z mod two32 else z mod two32 - two32.
Definition to_u32 (z : Z) : Z := z mod two32.

(** [MakeMachineId(replica, partition)]: the sum is one of [uint32_t],
    returned as a [MachineId]. *)
Definition MakeMachineId (cfg : t) (replica partition : Z) : Z :=
  to_int ((replica * num_partitions cfg + partition) mod two32).

(** [UnpackMachineId(machine_id)]: the [int] is converted to [uint32_t]
    for the division by [np]; a division by zero is undefined ([None]).
    The pair is (replica, partition). *)
Definition UnpackMachineId (cfg : t) (machine_id : Z) : option (Z * Z) :=
  let np := num_partitions cfg in
  if np =? 0 then None
  else Some (to_u32 machine_id / np, to_u32 machine_id mod np).

(** [all_machine_ids()]. *)
Definition all_machine_ids (cfg : t) : list Z :=
  let num_reps := num_replicas cfg in
  let num_parts := num_partitions cfg in
  rep ← seqZ 0 num_reps;
  (fun part => MakeMachineId cfg (rep mod two32) (part mod two32)) <$> seqZ 0 num_parts.

(** Three replicas of four partitions. *)
Definition example_config : t := mk None 4 3.

End Machines.

(* ===================================================================== *)
(** * TxnHolder  ([src/common/txn_holder.cpp])                           *)
(* ===================================================================== *)

Module TxnHolderSetup.

Inductive TransactionType := UNKNOWN | SINGLE_HOME | MULTI_HOME | LOCK_ONLY.

#[global] Instance TransactionType_eq_dec : EqDecision TransactionType.
Proof. solve_decision. Defined.

(** What the constructor and [replica_id] read of a [Transaction]: the
    keys of [read_set()] and of [write_set()] and the entries (key,
    master) of [internal().master_metadata()], each in the order in
    which the map is iterated; [internal().type()]; whether
    [procedure_case()] is [kRemaster], and the fields of [remaster()]. *)
Record Transaction := mkTransaction {
  id : TxnId;
  read_set : list Key;
  write_set : list Key;
  master_metadata : list (Key * Z);
  type : TransactionType;
  is_remaster : bool;
  remaster_new_master : Z;
  remaster_is_new_master_lock_only : bool
}.

Record t := mk {
  keys_in_partition_ : list (Key * LockMode);
  num_involved_partitions_ : Z;
  active_partitions_ : list Z;
  involved_replicas_ : list Z
}.

Section WithConfig.
(** The platform and the configuration, as [Configuration] has them,
    and [local_partition_]; [REMASTER_PROTOCOL_COUNTERLESS] is a build
    flag. *)
Variable char_is_signed : bool.
Variable stoll : string -> option Z.
Variable cfg : Configuration.t.
Variable local_partition : Z.
Variable remaster_protocol_counterless : bool.

(** [config->partition_of_key(key)]. *)
Definition partition_of_key (key : Key) : option Z :=
  Configuration.partition_of_key char_is_signed stoll cfg key.

(** [key_is_in_local_partition(key)]. *)
Definition key_is_in_local_partition (key : Key) : option bool :=
  p ← partition_of_key key; Some (p =? local_partition).

(** The body of the loop over [read_set()] (lines 25-31); the state is
    [involved_partitions] and [keys_in_partition_]. *)
Definition read_step (txn : Transaction) (st : list Z * list (Key * LockMode)) (key : Key)
  : option (list Z * list (Key * LockMode)) :=
  let '(involved_partitions, keys) := st in
  p ← partition_of_key key;
  is_local ← key_is_in_local_partition key;
  Some (involved_partitions ++ [p],
        if is_local && negb (bool_decide (key ∈ write_set txn))
        then keys ++ [(key, READ)] else keys).

(** The body of the loop over [write_set()] (lines 32-38); the state is
    [involved_partitions], [active_partitions_] and
    [keys_in_partition_]. *)
Definition write_step (st : list Z * list Z * list (Key * LockMode)) (key : Key)
  : option (list Z * list Z * list (Key * LockMode)) :=
  let '(involved_partitions, active_partitions, keys) := st in
  p ← partition_of_key key;
  p' ← partition_of_key key;
  is_local ← key_is_in_local_partition key;
  Some (involved_partitions ++ [p], active_partitions ++ [p'],
        if (is_local : bool) then keys ++ [(key, WRITE)] else keys).

(** [TxnHolder(config, txn)]. *)
Definition new (txn : Transaction) : option t :=
  '(involved1, keys1) ← foldlM (read_step txn) (read_set txn) ([], []);
  '(involved2, active, keys2) ← foldlM write_step (write_set txn) (involved1, [], keys1);
  let replicas1 := (master_metadata txn).*2 in
  let replicas2 :=
    if remaster_protocol_counterless &&
       bool_decide (type txn = MULTI_HOME) && is_remaster txn
    then replicas1 ++ [remaster_new_master txn] else replicas1 in
  Some (mk keys2
           (Z.of_nat (length (std_unique (std_sort involved2))))
           (std_unique (std_sort active))
           (std_unique (std_sort replicas2))).

(** [replica_id(txn)]. *)
Definition replica_id (txn : Transaction) : Z :=
  match master_metadata txn with
  | [] => 0
  | (_, master) :: _ => master
  end.

(** The holder as the lock manager reads it. *)
Definition for_lock_manager (txn : Transaction) (h : t) : TxnHolder :=
  mkTxnHolder (id txn) (keys_in_partition_ h) (is_remaster txn)
              (list_to_map (master_metadata txn))
              (remaster_is_new_master_lock_only txn) (remaster_new_master txn).

(** The keys of [keys] that are in the local partition. *)
Definition local_keys (keys : list Key) : list Key :=
  filter (fun key => partition_of_key key = Some local_partition) keys.

(** The partitions of the keys [keys], without repetition. *)
Definition partitions_of (keys : list Key) (ps : list Z) : Prop :=
  StronglySorted Z.lt ps /\
  forall p, p ∈ ps <-> exists key, key ∈ keys /\ partition_of_key key = Some p.

End WithConfig.

(** A txn that reads the key 5 and writes the keys 6 and 9, on four
    partitions, as the partition 1 sees it. *)
Definition example_txn : Transaction :=
  mkTransaction 42 ["5"; "6"] ["6"; "9"] [("5", 0); ("6", 0); ("9", 0)] SINGLE_HOME false 0 false.

(** [std::stoll] on the keys of the example. *)
Definition example_stoll (key : Key) : option Z :=
  if String.eqb key "5" then Some 5
  else if String.eqb key "6" then Some 6
  else if String.eqb key "9" then Some 9
  else None.

End TxnHolderSetup.

(* ===================================================================== *)
(** * Sampler  ([src/common/metrics.h], lines 19-41)                     *)
(* ===================================================================== *)

Module Sampler.

Definition kSampleMaskSize : Z := 256.

Record t := mk {
  sample_mask_ : list bool;
  sample_count_ : list Z
}.

(** The bound of the loop of the constructor: [sample_rate] is an
    [int], converted to [uint32_t] for the product with
    [kSampleMaskSize], which wraps at 32 bits. *)
Definition num_chosen (sample_rate : Z) : Z :=
  ((sample_rate mod two32) * kSampleMaskSize) mod two32 / 100.

(** [sample_mask_.fill(false)] and the loop that sets the first
    entries. *)
Definition filled_mask (sample_rate : Z) : list bool :=
  foldl (fun mask i => <[Z.to_nat i := true]> mask)
        (replicate (Z.to_nat kSampleMaskSize) false)
        (seqZ 0 (num_chosen sample_rate)).

Section WithShuffle.
(** [std::shuffle] with the engine that the constructor seeds from
    [std::random_device]. *)
Variable shuffle : list bool -> list bool.

(** [Sampler(sample_rate, num_keys)]; a write past the end of
    [sample_mask_] is undefined ([None]). *)
Definition new (sample_rate : Z) (num_keys : Z) : option t :=
  if num_chosen sample_rate <=? kSampleMaskSize
  then Some (mk (shuffle (filled_mask sample_rate)) (replicate (Z.to_nat num_keys) 0))
  else None.
End WithShuffle.

(** [IsChosen(key)]: [sample_count_[key]] is a [uint8_t], so the
    increment wraps at 256 and [DCHECK_LT] never fails; an index past
    the end of [sample_count_] is undefined ([None]). *)
Definition IsChosen (key : Z) (s : t) : option (bool * t) :=
  count ← sample_count_ s !! Z.to_nat key;
  chosen ← sample_mask_ s !! Z.to_nat count;
  Some (chosen, mk (sample_mask_ s) (<[Z.to_nat key := (count + 1) mod 256]> (sample_count_ s))).

(** A sequence of calls of [IsChosen], with their results. *)
Fixpoint IsChosen_calls (keys : list Z) (s : t) : option (list bool * t) :=
  match keys with
  | [] => Some ([], s)
  | key :: keys' =>
      '(chosen, s') ← IsChosen key s;
      '(rest, s'') ← IsChosen_calls keys' s';
      Some (chosen :: rest, s'')
  end.

(** The number of calls that returned [true]. *)
Definition num_true (results : list bool) : Z :=
  Z.of_nat (length (filter (fun b => b = true) results)).

(** The number of calls with the key [key] among [keys]. *)
Definition calls_of (key : Z) (keys : list Z) : Z :=
  Z.of_nat (length (filter (fun k => k = key) keys)).

End Sampler.

(* ===================================================================== *)
(** * The constructor of Configuration                                   *)
(** ([src/common/configuration.cpp], lines 51-99)                        *)
(* ===================================================================== *)

Module ConfigurationSetup.

(** The fields of [internal::Configuration] that the constructor and
    the functions below read; [replicas] holds, for each replica, its
    [addresses]. *)
Record Proto := mkProto {
  hash_partitioning : option Z;
  num_partitions : Z;
  replication_factor : Z;
  replicas : list (list string);
  broker_ports_size : Z;
  replica_latency : list string
}.

Definition replicas_size (config : Proto) : Z := Z.of_nat (length (replicas config)).

Record t := mk {
  config_ : Proto;
  local_address_ : string;
  all_addresses_ : list string;
  local_replica_ : Z;
  local_partition_ : Z;
  latency_ : list Z;
  ordered_latency_ : list (Z * Z)
}.

(** The order of [std::pair<uint32_t, size_t>], by which [std::sort]
    sorts [ordered_latency_]. *)
Definition pair_le (a b : Z * Z) : Prop := a.1 < b.1 \/ (a.1 = b.1 /\ a.2 <= b.2).

#[global] Instance pair_le_dec : RelDecision pair_le.
Proof. intros a b. unfold pair_le. apply _. Defined.

(** The loop over the addresses of the replica [r] (lines 63-71), from
    the address number [p] on.  The state is [all_addresses_] and, once
    [local_address_is_valid] is set, [local_replica_] and
    [local_partition_]. *)
Fixpoint scan_addresses (local_address : string) (r p : Z) (addresses : list string)
    (st : list string * option (Z * Z)) : list string * option (Z * Z) :=
  match addresses with
  | [] => st
  | address :: rest =>
      let '(all_addresses, local) := st in
      scan_addresses local_address r (p + 1) rest
        (all_addresses ++ [address],
         if String.eqb address local_address then Some (r, p) else local)
  end.

(** The loop over the replicas (lines 59-72), from the replica number
    [r] on; [None] when the [CHECK_EQ] on the number of addresses
    fails. *)
Fixpoint scan_replicas (num_partitions : Z) (local_address : string) (r : Z)
    (replicas : list (list string)) (st : list string * option (Z * Z))
  : option (list string * option (Z * Z)) :=
  match replicas with
  | [] => Some st
  | replica :: rest =>
      if Z.of_nat (length replica) =? num_partitions
      then scan_replicas num_partitions local_address (r + 1) rest
             (scan_addresses local_address r 0 replica st)
      else None
  end.

(** The loop of lines 92-97: no latency is given. *)
Fixpoint zero_latencies (local_replica : Z) (i : Z) (n : nat)
    (st : list Z * list (Z * Z)) : list Z * list (Z * Z) :=
  match n with
  | O => st
  | S n' =>
      let '(latency, ordered_latency) := st in
      zero_latencies local_replica (i + 1) n'
        (if i =? local_replica then st
         else (latency ++ [0], ordered_latency ++ [(0, i)]))
  end.

Section WithPlatform.
(** [kMaxChannel - kBrokerChannel], two constants of
    [common/constants.h]; [Split] of [common/string_utils.h]; and
    [std::stoul] ([None] when it throws). *)
Variable max_broker_threads : Z.
Variable Split : string -> string -> list string.
Variable stoul : string -> option Z.

(** The loop of lines 84-90, from the latency number [i] on.  The
    value of [std::stoul] is narrowed to the [uint32_t] of [latency_]
    and of the pairs of [ordered_latency_], the types that [latency]
    and [nth_latency] return. *)
Fixpoint read_latencies (local_replica : Z) (i : Z) (latency_str : list string)
    (st : list Z * list (Z * Z)) : option (list Z * list (Z * Z)) :=
  match latency_str with
  | [] => Some st
  | str :: rest =>
      let '(latency, ordered_latency) := st in
      if i =? local_replica then read_latencies local_replica (i + 1) rest st
      else
        lat ← stoul str;
        read_latencies local_replica (i + 1) rest
          (latency ++ [lat mod two32], ordered_latency ++ [(lat mod two32, i)])
  end.

(** [Configuration(config, local_address)]; [None] when a [CHECK]
    fails or [std::stoul] throws. *)
Definition new (config : Proto) (local_address : string) : option t :=
  if negb (replication_factor config <=? replicas_size config) then None
  else if negb (broker_ports_size config <=? max_broker_threads) then None
  else
    '(all_addresses, local) ←
      scan_replicas (num_partitions config) local_address 0 (replicas config) ([], None);
    '(local_replica, local_partition) ← local;
    '(latency, ordered_latency) ←
      (if bool_decide (replica_latency config = [])
       then Some (zero_latencies local_replica 0 (length (replicas config)) ([], []))
       else if negb (Z.of_nat (length (replica_latency config)) =? replicas_size config)
       then None
       else
         str ← replica_latency config !! Z.to_nat local_replica;
         let latency_str := Split str "," in
         if negb (Z.of_nat (length latency_str) =? replicas_size config) then None
         else read_latencies local_replica 0 latency_str ([], []));
    Some (mk config local_address all_addresses local_replica local_partition
             latency (merge_sort pair_le ordered_latency)).
End WithPlatform.

(** The configuration as [Configuration] and [Machines] read it:
    [num_replicas()] is [config_.replicas_size()]. *)
Definition config_of (c : t) : Configuration.t :=
  Configuration.mk (hash_partitioning (config_ c)) (num_partitions (config_ c))
                   (replicas_size (config_ c)).

(** [address(replica, partition)]; an index past the end is undefined
    ([None]). *)
Definition address (c : t) (replica partition : Z) : option string :=
  if (replica <? 0) || (partition <? 0) then None
  else
    addresses ← replicas (config_ c) !! Z.to_nat replica;
    addresses !! Z.to_nat partition.

(** [address(machine_id)]: the [int] is converted to the [size_t] of
    the index, so that a negative one is past the end. *)
Definition address_of_machine (c : t) (machine_id : Z) : option string :=
  if machine_id <? 0 then None else all_addresses_ c !! Z.to_nat machine_id.

(** [local_machine_id()]. *)
Definition local_machine_id (c : t) : Z :=
  Machines.MakeMachineId (config_of c) (local_replica_ c) (local_partition_ c).

(** [latency(i)] and [nth_latency(n)]. *)
Definition latency (c : t) (i : Z) : option Z :=
  if i <? 0 then None else latency_ c !! Z.to_nat i.
Definition nth_latency (c : t) (n : Z) : option (Z * Z) :=
  if n <? 0 then None else ordered_latency_ c !! Z.to_nat n.

(** Two replicas of two partitions, without latencies. *)
Definition example_proto : Proto :=
  mkProto None 2 1 [["a"; "b"]; ["c"; "d"]] 1 [].

End ConfigurationSetup.

(* ===================================================================== *)
(** * Loops that may fail                                                *)
(* ===================================================================== *)

Section FoldlM.
Context {A B : Type} (f : B -> A -> option B).

Lemma foldlM_nil b : foldlM f [] b = Some b.
Proof. reflexivity. Qed.

Lemma foldlM_cons a l b :
  foldlM f (a :: l) b = match f b a with Some b' => foldlM f l b' | None => None end.
Proof. reflexivity. Qed.

Lemma foldlM_app l1 l2 b :
  foldlM f (l1 ++ l2) b =
  match foldlM f l1 b with Some b' => foldlM f l2 b' | None => None end.
Proof.
  revert b. induction l1 as [|a l1 IH]; intros b; [done|].
  rewrite <- app_comm_cons, !foldlM_cons. destruct (f b a); [apply IH|done].
Qed.

End FoldlM.

Lemma foldlM_ext {A B : Type} (f g : B -> A -> option B) l b :
  (forall b a, a ∈ l -> f b a = g b a) -> foldlM f l b = foldlM g l b.
Proof.
  revert b. induction l as [|a l IH]; intros b Hfg; [done|].
  rewrite !foldlM_cons, Hfg by apply list_elem_of_here. destruct (g b a); [|done].
  apply IH. intros b' a' Ha'. apply Hfg. by apply list_elem_of_further.
Qed.

(* ===================================================================== *)
(** * Properties of AsyncLog                                             *)
(* ===================================================================== *)

Module AsyncLog_facts.
Import AsyncLog.

Section Facts.
Context {T : Type}.
Variable T_of_uint32 : Z -> T.
Variable uint32_of_T : T -> Z.
Implicit Types (l : AsyncLog.t T) (ops : list (op T)) (es : list (event T)).

Local Abbreviation Next := (AsyncLog.Next T_of_uint32 uint32_of_T).
Local Abbreviation step := (AsyncLog.step T_of_uint32 uint32_of_T).
Local Abbreviation run := (AsyncLog.run T_of_uint32 uint32_of_T).
Local Abbreviation read_positions := (AsyncLog.read_positions T_of_uint32 uint32_of_T).
Local Abbreviation in_order_inv := (AsyncLog.in_order_inv T_of_uint32 uint32_of_T).

Lemma run_app ops1 ops2 l :
  run (ops1 ++ ops2) l =
  ((run ops2 (run ops1 l).1).1, (run ops1 l).2 ++ (run ops2 (run ops1 l).1).2).
Proof.
  revert l. induction ops1 as [|o ops1 IH]; intros l; simpl.
  - by destruct (run ops2 l).
  - destruct (step o l) as [l1 e]. rewrite IH.
    destruct (run ops1 l1) as [l2 es1]; simpl.
    by destruct (run ops2 l2).
Qed.

Lemma produced_app es1 es2 : produced (es1 ++ es2) = produced es1 ++ produced es2.
Proof.
  induction es1 as [|e es1 IH]; simpl; [done|].
  destruct e as [r|[px|w]]; simpl; by rewrite ?IH.
Qed.

Lemma insert_positions_app ops1 ops2 :
  insert_positions (ops1 ++ ops2) = insert_positions ops1 ++ insert_positions ops2.
Proof.
  induction ops1 as [|[p x|] ops1 IH]; simpl; by rewrite ?IH.
Qed.

Lemma elem_of_insert_positions ops p x :
  OpInsert p x ∈ ops -> p ∈ insert_positions ops.
Proof.
  induction ops as [|o ops IH]; intros Hin; [by apply elem_of_nil in Hin|].
  apply elem_of_cons in Hin as [<-|Hin]; simpl; [left|].
  destruct o; [right|]; auto.
Qed.

Lemma well_formed_app_l start ops1 ops2 :
  well_formed start (ops1 ++ ops2) -> well_formed start ops1.
Proof.
  unfold well_formed. rewrite insert_positions_app.
  intros [Hnd Hall]. split.
  - by apply NoDup_app in Hnd as (? & _ & _).
  - by apply Forall_app in Hall as [? _].
Qed.

Lemma in_order_inv_nil start :
  is_u32 start -> in_order_inv start [] (new start) [].
Proof.
  intros Hs. unfold is_u32 in *. split; simpl; unfold two32 in *.
  - lia.
  - rewrite Z.add_0_r, Z.mod_small; lia.
  - intros p x. rewrite lookup_empty. split; [done|].
    intros [Hin _]. by apply elem_of_nil in Hin.
  - intros; lia.
  - constructor.
  - intros j px Hj. by rewrite lookup_nil in Hj.
Qed.

Lemma in_order_inv_next_eq start ops l es :
  is_u32 start -> in_order_inv start ops l es ->
  start + Z.of_nat (length (produced es)) < two32 ->
  next_ l = start + Z.of_nat (length (produced es)).
Proof.
  intros Hs Hinv Hlt. rewrite (inv_next _ _ _ _ _ _ Hinv).
  apply Z.mod_small. unfold is_u32 in Hs. lia.
Qed.

Lemma in_order_inv_has_next start ops l es y :
  is_u32 start -> in_order_inv start ops l es ->
  log_ l !! next_ l = Some y ->
  start + Z.of_nat (length (produced es)) < two32.
Proof.
  intros Hs Hinv Hlk.
  apply (inv_log _ _ _ _ _ _ Hinv) in Hlk as [_ Hge].
  pose proof (inv_bound _ _ _ _ _ _ Hinv) as Hle.
  destruct (decide (start + Z.of_nat (length (produced es)) = two32)) as [Heq|]; [|lia].
  rewrite (inv_next _ _ _ _ _ _ Hinv), Heq, Z.mod_same in Hge by done.
  unfold is_u32 in Hs. lia.
Qed.

Lemma in_order_inv_insert start ops l es p x :
  is_u32 start -> well_formed start (ops ++ [OpInsert p x]) ->
  in_order_inv start ops l es ->
  Insert p x l = (mk (<[p := x]> (log_ l)) (next_ l), Ok tt) /\
  in_order_inv start (ops ++ [OpInsert p x]) (mk (<[p := x]> (log_ l)) (next_ l))
               (es ++ [EvInsert (Ok tt)]).
Proof.
  intros Hs [Hnd Hrange] Hinv.
  rewrite insert_positions_app in Hnd, Hrange. simpl in Hnd, Hrange.
  apply NoDup_app in Hnd as (_ & Hfresh & _).
  apply Forall_app in Hrange as [_ Hp]. rewrite Forall_singleton in Hp.
  assert (Hnew : p ∉ insert_positions ops).
  { intros Hin. apply (Hfresh p Hin). by left. }
  pose proof (inv_bound _ _ _ _ _ _ Hinv) as Hle.
  assert (Hge : start + Z.of_nat (length (produced es)) <= p).
  { destruct (Z_le_gt_dec (start + Z.of_nat (length (produced es))) p) as [|Hlt]; [done|].
    exfalso. apply Hnew, (inv_consumed _ _ _ _ _ _ Hinv). lia. }
  assert (Hnext : next_ l = start + Z.of_nat (length (produced es))).
  { apply in_order_inv_next_eq with ops; [done..|lia]. }
  assert (Hlk : log_ l !! p = None).
  { destruct (log_ l !! p) as [y|] eqn:Hlk; [|done].
    exfalso. apply (inv_log _ _ _ _ _ _ Hinv) in Hlk as [Hin _].
    by apply Hnew, elem_of_insert_positions with y. }
  split.
  { unfold Insert. destruct (Z.ltb_spec p (next_ l)) as [Hlt|_]; [lia|]. by rewrite Hlk. }
  assert (Hpr : produced (es ++ [EvInsert (Ok tt)]) = produced es).
  { rewrite produced_app. simpl. by rewrite app_nil_r. }
  split; rewrite ?Hpr; simpl.
  - done.
  - apply (inv_next _ _ _ _ _ _ Hinv).
  - intros q y. split.
    + intros Hq. destruct (decide (p = q)) as [->|Hne].
      * rewrite lookup_insert_eq in Hq. injection Hq as ->.
        split; [|done]. apply elem_of_app. right. by left.
      * rewrite lookup_insert_ne in Hq by done.
        apply (inv_log _ _ _ _ _ _ Hinv) in Hq as [Hq ?].
        split; [|done]. apply elem_of_app. by left.
    + intros [Hin Hge']. apply elem_of_app in Hin as [Hin|Hin].
      * destruct (decide (p = q)) as [->|Hne].
        -- exfalso. by apply Hnew, elem_of_insert_positions with y.
        -- rewrite lookup_insert_ne by done. by apply (inv_log _ _ _ _ _ _ Hinv).
      * apply list_elem_of_singleton in Hin. injection Hin as -> ->.
        by rewrite lookup_insert_eq.
  - intros q Hq. rewrite insert_positions_app. apply elem_of_app. left.
    by apply (inv_consumed _ _ _ _ _ _ Hinv).
  - apply Forall_app. split; [apply (inv_ok _ _ _ _ _ _ Hinv)|]. by apply Forall_singleton.
  - intros j px Hj. apply (inv_produced _ _ _ _ _ _ Hinv) in Hj as [? (x' & ? & ?)].
    split; [done|]. exists x'. split; [|done]. apply elem_of_app. by left.
Qed.

Lemma in_order_inv_next start ops l es :
  is_u32 start -> in_order_inv start ops l es ->
  in_order_inv start (ops ++ [OpNext]) (Next l).1 (es ++ [EvNext (Next l).2]).
Proof.
  intros Hs Hinv. unfold AsyncLog.Next.
  destruct (log_ l !! next_ l) as [y|] eqn:Hlk; simpl.
  - pose proof (in_order_inv_has_next _ _ _ _ _ Hs Hinv Hlk) as Hlt.
    pose proof (in_order_inv_next_eq _ _ _ _ Hs Hinv Hlt) as Hnext.
    pose proof Hlk as Hlk'. apply (inv_log _ _ _ _ _ _ Hinv) in Hlk' as [Hin _].
    assert (Hpr : produced (es ++ [EvNext (Ok (T_of_uint32 (next_ l), uint32_of_T y))])
                  = produced es ++ [(T_of_uint32 (next_ l), uint32_of_T y)]).
    { by rewrite produced_app. }
    assert (Hlen : Z.of_nat (length (produced es ++ [(T_of_uint32 (next_ l), uint32_of_T y)]))
                   = Z.of_nat (length (produced es)) + 1).
    { rewrite length_app. simpl. lia. }
    split; rewrite ?Hpr, ?Hlen; simpl.
    + lia.
    + rewrite Hnext. f_equal. lia.
    + intros q z. split.
      * intros Hq. destruct (decide (next_ l = q)) as [<-|Hne].
        -- by rewrite lookup_delete_eq in Hq.
        -- rewrite lookup_delete_ne in Hq by done.
           apply (inv_log _ _ _ _ _ _ Hinv) in Hq as [Hq ?].
           split; [apply elem_of_app; by left|lia].
      * intros [Hq Hge]. rewrite lookup_delete_ne by lia.
        apply (inv_log _ _ _ _ _ _ Hinv). split; [|lia].
        apply elem_of_app in Hq as [Hq|Hq]; [done|].
        by apply list_elem_of_singleton in Hq.
    + intros q Hq. rewrite insert_positions_app; simpl. rewrite app_nil_r.
      destruct (decide (q = start + Z.of_nat (length (produced es)))) as [->|Hne].
      * rewrite <- Hnext. by eapply elem_of_insert_positions.
      * apply (inv_consumed _ _ _ _ _ _ Hinv). lia.
    + apply Forall_app. split; [apply (inv_ok _ _ _ _ _ _ Hinv)|]. by apply Forall_singleton.
    + intros j px Hj. apply lookup_app_Some in Hj as [Hj|[Hge Hj]].
      * apply (inv_produced _ _ _ _ _ _ Hinv) in Hj as [? (x' & ? & ?)].
        split; [done|]. exists x'. split; [|done]. apply elem_of_app. by left.
      * apply list_lookup_singleton_Some in Hj as [Hj <-]. simpl.
        assert (start + Z.of_nat j = next_ l) as -> by lia.
        split; [done|]. exists y. split; [|done]. apply elem_of_app. by left.
  - assert (Hpr : forall w, produced (es ++ [EvNext (T:=T) (Thrown w)]) = produced es).
    { intros w. rewrite produced_app. simpl. by rewrite app_nil_r. }
    split; rewrite ?Hpr; simpl.
    + apply (inv_bound _ _ _ _ _ _ Hinv).
    + apply (inv_next _ _ _ _ _ _ Hinv).
    + intros q z. rewrite (inv_log _ _ _ _ _ _ Hinv). split.
      * intros [Hq ?]. split; [apply elem_of_app; by left|done].
      * intros [Hq ?]. split; [|done].
        apply elem_of_app in Hq as [Hq|Hq]; [done|].
        by apply list_elem_of_singleton in Hq.
    + intros q Hq. rewrite insert_positions_app; simpl. rewrite app_nil_r.
      by apply (inv_consumed _ _ _ _ _ _ Hinv).
    + apply Forall_app. split; [apply (inv_ok _ _ _ _ _ _ Hinv)|]. by apply Forall_singleton.
    + intros j px Hj. apply (inv_produced _ _ _ _ _ _ Hinv) in Hj as [? (x' & ? & ?)].
      split; [done|]. exists x'. split; [|done]. apply elem_of_app. by left.
Qed.

Lemma in_order_inv_run start ops :
  is_u32 start -> well_formed start ops ->
  in_order_inv start ops (run ops (new start)).1 (run ops (new start)).2.
Proof.
  intros Hs. induction ops as [|o ops IH] using rev_ind; intros Hwf.
  - by apply in_order_inv_nil.
  - specialize (IH (well_formed_app_l _ _ _ Hwf)).
    rewrite run_app. simpl.
    destruct (run ops (new start)) as [l es]; simpl in *.
    destruct o as [p x|]; simpl.
    + destruct (in_order_inv_insert _ _ _ _ _ _ Hs Hwf IH) as [-> Hinv]. by simpl.
    + pose proof (in_order_inv_next _ _ _ _ Hs IH) as Hinv.
      by destruct (Next l).
Qed.

Lemma Insert_next_ p x l : next_ (Insert p x l).1 = next_ l.
Proof.
  unfold Insert. destruct (p <? next_ l); [done|]. by destruct (log_ l !! p).
Qed.

Lemma produced_read_positions ops : forall l,
  (produced (run ops l).2).*1 = T_of_uint32 <$> read_positions ops l.
Proof.
  induction ops as [|o ops IH]; intros l; [done|].
  destruct o as [p x|]; cbn [AsyncLog.run AsyncLog.step AsyncLog.read_positions].
  - destruct (Insert p x l) as [l1 r]. cbn [fst]. specialize (IH l1).
    destruct (run ops l1) as [l2 es]. by cbn in *.
  - unfold AsyncLog.Next, HasNext.
    destruct (log_ l !! next_ l) as [y|]; cbn [fst snd].
    + match goal with |- context [AsyncLog.run _ _ ops ?l1] => specialize (IH l1);
        destruct (AsyncLog.run T_of_uint32 uint32_of_T ops l1) as [l2 es] end.
      cbn in *. by rewrite IH.
    + specialize (IH l). destruct (run ops l) as [l2 es]. by cbn in *.
Qed.

Lemma run_positions ops : forall l,
  is_u32 (next_ l) ->
  next_ l + Z.of_nat (length (produced (run ops l).2)) < two32 ->
  next_ (run ops l).1 = next_ l + Z.of_nat (length (produced (run ops l).2)) /\
  read_positions ops l =
    (fun i : nat => next_ l + Z.of_nat i) <$> seq 0 (length (produced (run ops l).2)).
Proof.
  induction ops as [|o ops IH]; intros l Hu Hlt.
  { cbn. split; [lia|done]. }
  destruct o as [p x|]; cbn [AsyncLog.run AsyncLog.step AsyncLog.read_positions] in *.
  - pose proof (Insert_next_ p x l) as Hn.
    destruct (Insert p x l) as [l1 r]; cbn [fst snd] in *.
    specialize (IH l1). destruct (run ops l1) as [l2 es]; cbn [fst snd produced] in *.
    rewrite Hn in IH. by apply IH.
  - unfold AsyncLog.Next, HasNext in *.
    destruct (log_ l !! next_ l) as [y|] eqn:Hlk; cbn [fst snd] in *.
    + match goal with |- context [AsyncLog.run _ _ ops ?l1] => specialize (IH l1);
        destruct (AsyncLog.run T_of_uint32 uint32_of_T ops l1) as [l2 es] end.
      cbn [fst snd produced length next_] in *.
      assert (Hn1 : (next_ l + 1) mod two32 = next_ l + 1).
      { apply Z.mod_small. unfold is_u32 in Hu. lia. }
      rewrite Hn1 in IH |- *.
      destruct IH as [IH1 IH2].
      { unfold is_u32 in *. lia. }
      { lia. }
      split; [lia|]. rewrite IH2. cbn [seq fmap list_fmap app].
      f_equal; [lia|].
      change (list_fmap nat Z ?f ?l) with (f <$> l).
      rewrite <- (fmap_S_seq 0), <- list_fmap_compose.
      apply list_fmap_ext. intros i k _. simpl. lia.
    + specialize (IH l). destruct (run ops l) as [l2 es]; cbn [fst snd produced] in *.
      by apply IH.
Qed.
(** What a well-formed trace on a log started at [start] yields: no
    [Insert] throws; the [j]-th successful [Next] hands out the position
    [start + j] and the item inserted there, each as [Next] converts it;
    every item inserted at or after the current position is held in the
    log; and [Next] stalls exactly when the item of the current position
    has not been inserted. *)
Lemma in_order start ops :
  is_u32 start ->
  well_formed start ops ->
  let l := (run ops (new start)).1 in
  let es := (run ops (new start)).2 in
  let n := Z.of_nat (length (produced es)) in
  Forall insert_ok es /\
  (forall (j : nat) px, produced es !! j = Some px ->
      px.1 = T_of_uint32 (start + Z.of_nat j) /\
      exists x, OpInsert (start + Z.of_nat j) x ∈ ops /\ px.2 = uint32_of_T x) /\
  (forall p x, OpInsert p x ∈ ops -> start + n <= p -> log_ l !! p = Some x) /\
  (forall x, OpInsert (start + n) x ∈ ops ->
      HasNext l = true /\ Peek l = Ok x /\
      (Next l).2 = Ok (T_of_uint32 (start + n), uint32_of_T x)) /\
  ((forall x, OpInsert (start + n) x ∉ ops) ->
      HasNext l = false /\ exists what, Next l = (l, Thrown what)).
Proof.
  intros Hs Hwf l es n.
  pose proof (in_order_inv_run start ops Hs Hwf) as Hinv. fold l es in Hinv.
  split; [apply (inv_ok _ _ _ _ _ _ Hinv)|].
  split; [intros j px Hj; by apply (inv_produced _ _ _ _ _ _ Hinv) in Hj|].
  split; [intros p x Hin Hge; by apply (inv_log _ _ _ _ _ _ Hinv)|].
  split.
  - intros x Hin.
    assert (Hlt : start + n < two32).
    { destruct Hwf as [_ Hr]. rewrite Forall_forall in Hr.
      apply elem_of_insert_positions in Hin. apply Hr in Hin. lia. }
    pose proof (in_order_inv_next_eq _ _ _ _ Hs Hinv Hlt) as Hnext. fold n in Hnext.
    assert (Hlk : log_ l !! next_ l = Some x).
    { apply (inv_log _ _ _ _ _ _ Hinv). rewrite Hnext. split; [done|]. fold n. lia. }
    unfold HasNext, Peek, AsyncLog.Next. rewrite Hlk. simpl. by rewrite Hnext.
  - intros Hnone.
    assert (Hlk : log_ l !! next_ l = None).
    { destruct (log_ l !! next_ l) as [y|] eqn:Hlk; [|done]. exfalso.
      pose proof (in_order_inv_has_next _ _ _ _ _ Hs Hinv Hlk) as Hlt.
      pose proof (in_order_inv_next_eq _ _ _ _ Hs Hinv Hlt) as Hnext.
      apply (inv_log _ _ _ _ _ _ Hinv) in Hlk as [Hin _].
      apply (Hnone y). fold n in Hnext. by rewrite <- Hnext. }
    unfold HasNext, AsyncLog.Next. rewrite Hlk. eauto.
Qed.

End Facts.

End AsyncLog_facts.

Import AsyncLog AsyncLog_facts.

(** C5.  The claim fails on the code for a log of [uint64_t] items: the
    item 4294967301 inserted at the position 0 is handed out by [Next] as
    5.  [Next] is declared to return a [std::pair<T, uint32_t>] while it
    returns [make_pair(position, result)], so the item is narrowed to
    the [uint32_t] second member of the pair. *)
Theorem AsyncLog_Next_narrows_item :
  let ops := [OpInsert 0 4294967301; OpNext] in
  is_u32 0 /\ well_formed 0 ops /\
  produced (run uint64_of_uint32 uint32_of_uint64 ops (new 0)).2 = [(0, 5)] /\
  exists x, OpInsert 0 x ∈ ops /\
    forall px, produced (run uint64_of_uint32 uint32_of_uint64 ops (new 0)).2 !! 0%nat = Some px ->
               px.2 <> x.
Proof.
  intros ops. split; [unfold is_u32, two32; lia|]. split.
  { split.
    - apply (bool_decide_unpack _). vm_compute. reflexivity.
    - unfold two32. repeat (constructor; [lia|]). constructor. }
  split; [reflexivity|].
  exists 4294967301. split; [left|].
  intros px Hpx. vm_compute in Hpx. injection Hpx as <-. cbn. lia.
Qed.

(** C6, amended.  [Insert(p, x)] with [p] below the next position leaves
    the log unchanged and does not throw; with [p] at or after it and the
    position taken, it throws and leaves the log unchanged; otherwise it
    stores [x] at [p].  A successful [Next] moves the next position by one
    modulo 2^32.  As long as the next position does not wrap around (it
    stays below 2^32 over the trace), it never decreases, and the
    positions handed out by [Next] are consecutive, hence each is handed
    out at most once: the pairs returned hold them converted to [T], so
    that they too are distinct where this conversion loses nothing. *)
Theorem AsyncLog_insert_cases_and_positions {T : Type}
    (T_of_uint32 : Z -> T) (uint32_of_T : T -> Z)
    (l : AsyncLog.t T) (p : Z) (x : T) (ops : list (op T)) :
  let l' := (run T_of_uint32 uint32_of_T ops l).1 in
  let pairs := produced (run T_of_uint32 uint32_of_T ops l).2 in
  let positions := read_positions T_of_uint32 uint32_of_T ops l in
  is_u32 (next_ l) ->
  next_ l + Z.of_nat (length pairs) < two32 ->
  (p < next_ l -> Insert p x l = (l, Ok tt)) /\
  (next_ l <= p -> is_Some (log_ l !! p) -> exists what, Insert p x l = (l, Thrown what)) /\
  (next_ l <= p -> log_ l !! p = None ->
     Insert p x l = (mk (<[p := x]> (log_ l)) (next_ l), Ok tt)) /\
  next_ (Next T_of_uint32 uint32_of_T l).1 =
    (if HasNext l then (next_ l + 1) mod two32 else next_ l) /\
  next_ l <= next_ l' /\
  next_ l' = next_ l + Z.of_nat (length pairs) /\
  positions = (fun i : nat => next_ l + Z.of_nat i) <$> seq 0 (length pairs) /\
  NoDup positions /\
  pairs.*1 = T_of_uint32 <$> positions /\
  ((forall a b, is_u32 a -> is_u32 b -> T_of_uint32 a = T_of_uint32 b -> a = b) ->
   NoDup pairs.*1).
Proof.
  intros l' pairs positions Hu Hlt.
  destruct (run_positions T_of_uint32 uint32_of_T ops l Hu Hlt) as [Hn Hpos].
  pose proof (produced_read_positions T_of_uint32 uint32_of_T ops l) as Hpairs.
  fold l' pairs positions in Hn, Hpos, Hpairs.
  assert (Hnd : NoDup positions).
  { rewrite Hpos. apply NoDup_fmap_2; [|apply NoDup_seq]. intros i j Hij. lia. }
  split; [|split; [|split; [|split; [|split; [|split; [|split; [|split; [|split]]]]]]]].
  - intros Hp. unfold Insert. destruct (Z.ltb_spec p (next_ l)); [done|lia].
  - intros Hp [y Hy]. unfold Insert. destruct (Z.ltb_spec p (next_ l)); [lia|].
    rewrite Hy. eauto.
  - intros Hp Hy. unfold Insert. destruct (Z.ltb_spec p (next_ l)); [lia|].
    by rewrite Hy.
  - unfold Next, HasNext. by destruct (log_ l !! next_ l).
  - lia.
  - done.
  - done.
  - done.
  - done.
  - intros Hinj. rewrite Hpairs. apply NoDup_fmap_2_strong; [|done].
    intros a b Ha Hb. apply Hinj.
    + rewrite Hpos in Ha. apply list_elem_of_fmap in Ha as (i & -> & Hi%elem_of_seq).
      unfold is_u32 in *. lia.
    + rewrite Hpos in Hb. apply list_elem_of_fmap in Hb as (i & -> & Hi%elem_of_seq).
      unfold is_u32 in *. lia.
Qed.

Lemma AsyncLog_insert_cases_and_positions_witness :
  let l := (Insert 7 70 (Insert 5 50 (new 5)).1).1 in
  let ops := [OpNext; OpInsert 6 60; OpNext; OpNext; OpNext] in
  is_u32 (next_ l) /\
  next_ l + Z.of_nat (length (produced (run uint64_of_uint32 uint32_of_uint64 ops l).2))
    < two32 /\
  next_ (run uint64_of_uint32 uint32_of_uint64 ops l).1 = 8 /\
  produced (run uint64_of_uint32 uint32_of_uint64 ops l).2 = [(5, 50); (6, 60); (7, 70)] /\
  NoDup (read_positions uint64_of_uint32 uint32_of_uint64 ops l) /\
  NoDup (produced (run uint64_of_uint32 uint32_of_uint64 ops l).2).*1.
Proof.
  intros l ops.
  assert (Hu : is_u32 (next_ l)) by (vm_compute; split; [discriminate|reflexivity]).
  assert (Hlt : next_ l +
                Z.of_nat (length (produced (run uint64_of_uint32 uint32_of_uint64 ops l).2))
                < two32)
    by (vm_compute; reflexivity).
  split; [exact Hu|]. split; [exact Hlt|].
  split; [reflexivity|]. split; [reflexivity|].
  destruct (AsyncLog_insert_cases_and_positions uint64_of_uint32 uint32_of_uint64
              l 0 0 ops Hu Hlt) as (_ & _ & _ & _ & _ & _ & _ & Hnd & _ & Hnd').
  split; [exact Hnd|]. apply Hnd'. intros a b _ _ Hab. exact Hab.
Defined.

(** C6 as stated fails: the next position is a [uint32_t], and [Next] at
    position 2^32 - 1 wraps it to 0, so it is not monotonic in every state. *)
Lemma AsyncLog_next_position_wraps :
  ~ (forall l : AsyncLog.t Z,
       is_u32 (next_ l) ->
       next_ l <= next_ (Next uint64_of_uint32 uint32_of_uint64 l).1).
Proof.
  intros H.
  specialize (H (Insert 4294967295 0 (new 4294967295)).1).
  vm_compute in H. apply H; [split; [discriminate|reflexivity]|reflexivity].
Qed.

(* ===================================================================== *)
(** * Properties of LockQueueTail                                        *)
(* ===================================================================== *)

(** C7.  [AcquireWriteLock(t)] leaves [t] as the write requester and no
    read requester; it returns the previous write requester alone (or
    nothing when there is none) when there was no read requester, and
    otherwise exactly the read requesters there were. *)
Theorem AcquireWriteLock_returns_blockers_and_claims (t : TxnId) (q : LockQueueTail.t) :
  let q' := (LockQueueTail.AcquireWriteLock t q).1 in
  let deps := (LockQueueTail.AcquireWriteLock t q).2 in
  LockQueueTail.write_lock_requester_ q' = Some t /\
  LockQueueTail.read_lock_requesters_ q' = [] /\
  (LockQueueTail.read_lock_requesters_ q = [] ->
     deps = match LockQueueTail.write_lock_requester_ q with
            | Some w => [w]
            | None => []
            end) /\
  (LockQueueTail.read_lock_requesters_ q <> [] ->
     deps = LockQueueTail.read_lock_requesters_ q).
Proof.
  destruct q as [w rs]. unfold LockQueueTail.AcquireWriteLock. simpl.
  destruct rs as [|r rs]; simpl; repeat split; try done.
Qed.

(* ===================================================================== *)
(** * Properties of the partitioner                                      *)
(* ===================================================================== *)

Module Configuration_facts.
Import Configuration.

Lemma lxor_mod_two32 a b :
  Z.lxor a b mod two32 = Z.lxor (a mod two32) (b mod two32).
Proof.
  change two32 with (2 ^ 32). apply Z.bits_inj'. intros i Hi.
  rewrite Z.lxor_spec, !Z.testbit_mod_pow2, Z.lxor_spec by lia.
  by destruct (i <? 32).
Qed.

Lemma mod_two64_two32 a : (a mod two64) mod two32 = a mod two32.
Proof.
  apply Z.mod_mod_divide. exists two32. reflexivity.
Qed.

Lemma bytes_of_range key : Forall (fun c => 0 <= c < 256) (bytes_of key).
Proof.
  unfold bytes_of. apply Forall_fmap, Forall_forall. intros a _. simpl.
  pose proof (Ascii.nat_ascii_bounded a). lia.
Qed.

Lemma char_to_u64_mod b c :
  0 <= c < 256 -> char_to_u64 b c mod two32 = char_to_u32 b c.
Proof.
  intros Hc. unfold char_to_u64, char_to_u32.
  destruct (b && (128 <=? c)) eqn:Hb.
  - apply andb_true_iff in Hb as [_ Hge]. apply Z.leb_le in Hge.
    rewrite mod_two64_two32.
    replace (c - 256) with (c + (two32 - 256) + (-1) * two32) by lia.
    rewrite Z_mod_plus_full. apply Z.mod_small. unfold two32. lia.
  - apply Z.mod_small. unfold two32. lia.
Qed.

Lemma FNV_fold_agree b bytes h64 h32 :
  Forall (fun c => 0 <= c < 256) bytes ->
  h64 mod two32 = h32 ->
  fold_left (FNVHash_step b) bytes h64 mod two32 =
  fold_left (fun h c => Z.lxor ((h * FNV_prime) mod two32) (char_to_u32 b c)) bytes h32.
Proof.
  intros Hb. revert h64 h32. induction Hb as [|c bytes Hc _ IH]; intros h64 h32 Hh; simpl.
  - done.
  - apply IH. unfold FNVHash_step.
    rewrite lxor_mod_two32, char_to_u64_mod by done.
    rewrite Z.mod_mod by done. rewrite mod_two64_two32.
    by rewrite <- Hh, Z.mul_mod_idemp_l.
Qed.

Lemma FNVHash_is_FNV1_32 b bytes :
  Forall (fun c => 0 <= c < 256) bytes ->
  FNVHash b bytes = FNV1_32 b bytes.
Proof.
  intros Hb. unfold FNVHash, FNV1_32. by apply FNV_fold_agree.
Qed.

Lemma Forall_take_range n (bytes : list Z) :
  Forall (fun c => 0 <= c < 256) bytes -> Forall (fun c => 0 <= c < 256) (take n bytes).
Proof. apply Forall_take. Qed.
End Configuration_facts.

(** C8, amended.  In hash mode the partition of a key is the hash of its
    first [min(len, N)] bytes modulo the number of partitions, the hash
    being the 32-bit FNV-1 order of operations: from the offset basis
    0x811c9dc5, for each byte, multiply by the prime 0x01000193 modulo 2^32
    and then xor the byte (sign-extended to 32 bits when [char] is signed
    and the byte is 128 or more). *)
Theorem partition_of_key_hash_mode
    (char_is_signed : bool) (stoll : string -> option Z)
    (cfg : Configuration.t) (key : Key) (N : Z) :
  Configuration.hash_partitioning cfg = Some N ->
  0 <= N ->
  0 < Configuration.num_partitions cfg ->
  Configuration.partition_of_key char_is_signed stoll cfg key =
    Some (Configuration.FNV1_32 char_is_signed
            (take (Nat.min (length (Configuration.bytes_of key)) (Z.to_nat N))
                  (Configuration.bytes_of key))
          mod Configuration.num_partitions cfg).
Proof.
  intros HN HN0 Hnp. unfold Configuration.partition_of_key. rewrite HN.
  destruct (Z.eqb_spec (Configuration.num_partitions cfg) 0) as [|_]; [lia|].
  do 2 f_equal.
  pose proof (Configuration_facts.bytes_of_range key) as Hr.
  destruct (Z.leb_spec (Z.of_nat (length (Configuration.bytes_of key))) N) as [Hle|Hgt].
  - rewrite Nat.min_l by lia. rewrite firstn_all.
    by apply Configuration_facts.FNVHash_is_FNV1_32.
  - rewrite Nat.min_r by lia.
    by apply Configuration_facts.FNVHash_is_FNV1_32, Forall_take.
Qed.

Lemma partition_of_key_hash_mode_witness :
  Configuration.partition_of_key true (fun _ => None)
    (Configuration.mk (Some 8) 4 2) "user-0001" = Some 3.
Proof.
  rewrite (partition_of_key_hash_mode true (fun _ => None)
             (Configuration.mk (Some 8) 4 2) "user-0001" 8 eq_refl);
    [reflexivity|lia|simpl; lia].
Defined.

(** C8 as stated fails: the source multiplies before it xors, which is not
    FNV-1a; the two differ already on the key "a" with four partitions. *)
Lemma partition_of_key_is_not_FNV1a :
  ~ (forall (char_is_signed : bool) (key : Key),
       Configuration.partition_of_key char_is_signed (fun _ => None)
         (Configuration.mk (Some 8) 4 2) key =
       Some (Configuration.FNV1a_spec
               (take (Nat.min (length (Configuration.bytes_of key)) 8)
                     (Configuration.bytes_of key)) mod 4)).
Proof.
  intros H. specialize (H true "a"). vm_compute in H. discriminate H.
Qed.

(* ===================================================================== *)
(** * Properties of the sequencer                                        *)
(* ===================================================================== *)

Module Sequencer_facts.
Import Sequencer.

Lemma fold_min_min l a b :
  fold_left Z.min l (Z.min a b) = Z.min a (fold_left Z.min l b).
Proof.
  revert a b. induction l as [|c l IH]; intros a b; simpl; [done|].
  rewrite <- Z.min_assoc. apply IH.
Qed.

Lemma heap_min_cons ts x h :
  heap_min ((ts, x) :: h) =
  Some (match heap_min h with None => ts | Some m => Z.min ts m end).
Proof.
  destruct h as [|[ts' y] h]; simpl; [done|].
  by rewrite fold_min_min.
Qed.
End Sequencer_facts.

(** C9.  With the timestamp gate active and [dev = timestamp - now]:
    when [dev <= 0] the txn goes to the batcher at once and the buffer of
    future txns is untouched; built with the DDR lock manager its status
    and abort reason are as received, built without it they are [ABORTED]
    and "restarted".  When [dev > 0] the txn is put into the buffer of
    future txns, nothing but a signal is sent to the batcher, and the
    signal is sent exactly when the earliest timestamp of the buffer
    became earlier. *)
Theorem ProcessForwardRequest_timestamp_gate
    (lock_manager_ddr : bool) (config : Sequencer.Config) (now from_ : Z)
    (txn : Sequencer.Transaction) (s : Sequencer.t) :
  Sequencer.bypass_mh_orderer config && Sequencer.synchronized_batching config = true ->
  Sequencer.in_int64 (Sequencer.timestamp txn - now) = true ->
  exists s' out,
    Sequencer.ProcessForwardRequest lock_manager_ddr config now from_ txn s = Some (s', out) /\
    (Sequencer.timestamp txn - now <= 0 ->
       Sequencer.future_txns s' = Sequencer.future_txns s /\
       exists txn', out = [Sequencer.ToBatcher (Sequencer.ForwardTxn txn')] /\
         Sequencer.id txn' = Sequencer.id txn /\
         Sequencer.timestamp txn' = Sequencer.timestamp txn /\
         Sequencer.mh_arrive_at_home_time txn' = now /\
         Sequencer.mh_enter_local_batch_time txn' = now /\
         (lock_manager_ddr = true ->
            Sequencer.status txn' = Sequencer.status txn /\
            Sequencer.abort_reason txn' = Sequencer.abort_reason txn) /\
         (lock_manager_ddr = false ->
            Sequencer.status txn' = Sequencer.ABORTED /\
            Sequencer.abort_reason txn' = "restarted")) /\
    (Sequencer.timestamp txn - now > 0 ->
       Sequencer.future_txns s' =
         (Sequencer.timestamp txn, Sequencer.set_mh_arrive_at_home_time now txn)
           :: Sequencer.future_txns s /\
       (forall req, Sequencer.ToBatcher req ∈ out -> req = Sequencer.Signal) /\
       (Sequencer.ToBatcher Sequencer.Signal ∈ out <->
          Sequencer.minimum_earlier (Sequencer.heap_min (Sequencer.future_txns s))
                                    (Sequencer.heap_min (Sequencer.future_txns s')))).
Proof.
  intros Hgate Hdev. unfold Sequencer.ProcessForwardRequest.
  rewrite Hgate. simpl Sequencer.timestamp. rewrite Hdev. simpl negb. cbv iota.
  destruct (Z.leb_spec (Sequencer.timestamp txn - now) 0) as [Hle|Hgt].
  - eexists _, _. split; [reflexivity|]. split; [|lia].
    intros _. split; [done|]. eexists. split; [reflexivity|].
    destruct lock_manager_ddr; simpl; repeat split; try done.
  - unfold Sequencer.BufferFutureTxn. simpl Sequencer.timestamp.
    eexists _, _. split; [reflexivity|]. split; [lia|].
    intros _. simpl Sequencer.future_txns. split; [done|].
    rewrite Sequencer_facts.heap_min_cons.
    destruct (Sequencer.heap_min (Sequencer.future_txns s)) as [m|]; simpl.
    + destruct (Z.ltb_spec (Sequencer.timestamp txn) m) as [Hlt|Hge].
      * split.
        -- intros req Hin. apply list_elem_of_singleton in Hin. by injection Hin.
        -- split; [lia|]. intros _. by apply list_elem_of_singleton.
      * split.
        -- intros req Hin. by apply elem_of_nil in Hin.
        -- split; [intros Hin; by apply elem_of_nil in Hin|lia].
    + split.
      * intros req Hin. apply list_elem_of_singleton in Hin. by injection Hin.
      * split; [done|]. intros _. by apply list_elem_of_singleton.
Qed.

Lemma ProcessForwardRequest_timestamp_gate_witness :
  let txn := Sequencer.mkTxn 7 5000 Sequencer.NOT_STARTED "" 0 0 in
  let s := Sequencer.mk [(9000, Sequencer.mkTxn 3 9000 Sequencer.NOT_STARTED "" 0 0)] [] in
  let cfg := Sequencer.mkConfig true true in
  exists s' out,
    Sequencer.ProcessForwardRequest true cfg 1000 0 txn s = Some (s', out).
Proof.
  intros txn s cfg.
  destruct (ProcessForwardRequest_timestamp_gate true cfg 1000 0 txn s eq_refl eq_refl)
    as (s' & out & Heq & _).
  exists s', out. exact Heq.
Defined.

(* ===================================================================== *)
(** * Properties of the lock manager                                     *)
(* ===================================================================== *)

Module DDRLockManager_facts.
Import DDRLockManager.

Implicit Types (ti : gmap Z TxnInfo) (t : Z) (l : list Z).

(** ** Counting occurrences *)

Lemma occurrences_nonneg t l : 0 <= occurrences t l.
Proof. unfold occurrences. lia. Qed.

Lemma occurrences_nil t : occurrences t [] = 0.
Proof. done. Qed.

Lemma occurrences_app t l1 l2 :
  occurrences t (l1 ++ l2) = occurrences t l1 + occurrences t l2.
Proof. unfold occurrences. rewrite filter_app, length_app. lia. Qed.

Lemma occurrences_cons t x l :
  occurrences t (x :: l) =
  (if decide (x <> kSentinelTxnId /\ x = t) then 1 else 0) + occurrences t l.
Proof.
  unfold occurrences. rewrite filter_cons.
  destruct (decide (x <> kSentinelTxnId /\ x = t)); simpl; lia.
Qed.

Lemma occurrences_singleton t x :
  occurrences t [x] = if decide (x <> kSentinelTxnId /\ x = t) then 1 else 0.
Proof. rewrite occurrences_cons, occurrences_nil. lia. Qed.

Lemma occurrences_sentinel l : occurrences kSentinelTxnId l = 0.
Proof.
  induction l as [|x l IH]; [done|]. rewrite occurrences_cons, IH.
  destruct (decide _) as [[? ?]|]; [congruence|done].
Qed.

Local Lemma total_comm t (j1 j2 : Z) (z1 z2 : TxnInfo) (y : Z) :
  occurrences t (waited_by z1) + (occurrences t (waited_by z2) + y) =
  occurrences t (waited_by z2) + (occurrences t (waited_by z1) + y).
Proof. lia. Qed.

Lemma total_occurrences_empty t : total_occurrences t ∅ = 0.
Proof. unfold total_occurrences. by rewrite map_fold_empty. Qed.

Lemma total_occurrences_insert_None t ti k v :
  ti !! k = None ->
  total_occurrences t (<[k := v]> ti) = occurrences t (waited_by v) + total_occurrences t ti.
Proof.
  intros Hk. unfold total_occurrences.
  rewrite map_fold_insert_L; [done| |done]. intros. apply total_comm; done.
Qed.

Lemma total_occurrences_delete t ti k v :
  ti !! k = Some v ->
  total_occurrences t ti = occurrences t (waited_by v) + total_occurrences t (delete k ti).
Proof.
  intros Hk. unfold total_occurrences.
  rewrite (map_fold_delete_L _ _ k v); [done| |done]. intros. apply total_comm; done.
Qed.

Lemma total_occurrences_insert_Some t ti k old v :
  ti !! k = Some old ->
  total_occurrences t (<[k := v]> ti) =
  total_occurrences t ti - occurrences t (waited_by old) + occurrences t (waited_by v).
Proof.
  intros Hk. rewrite <- insert_delete_eq.
  rewrite total_occurrences_insert_None by apply lookup_delete_eq.
  rewrite (total_occurrences_delete t ti k old Hk). lia.
Qed.

Lemma total_occurrences_nonneg t ti : 0 <= total_occurrences t ti.
Proof.
  unfold total_occurrences.
  apply (map_fold_weak_ind (fun acc _ => 0 <= acc)); [done|].
  intros k v m acc _ Hacc. pose proof (occurrences_nonneg t (waited_by v)). lia.
Qed.

Lemma total_occurrences_sentinel ti : total_occurrences kSentinelTxnId ti = 0.
Proof.
  unfold total_occurrences.
  apply (map_fold_weak_ind (fun acc _ => acc = 0)); [done|].
  intros k v m acc _ ->. by rewrite occurrences_sentinel.
Qed.

Lemma alter_Some {A} (f : A -> A) (m : gmap Z A) k old :
  m !! k = Some old -> alter f k m = <[k := f old]> m.
Proof.
  intros Hk. apply map_eq. intros j. rewrite lookup_alter, lookup_insert.
  destruct (decide (k = j)) as [->|]; [by rewrite Hk|done].
Qed.

Lemma alter_None {A} (f : A -> A) (m : gmap Z A) k :
  m !! k = None -> alter f k m = m.
Proof.
  intros Hk. apply map_eq. intros j. rewrite lookup_alter.
  destruct (decide (k = j)) as [->|]; [by rewrite Hk|done].
Qed.

Lemma total_occurrences_ext t ti1 ti2 :
  (forall k, waited_by <$> ti1 !! k = waited_by <$> ti2 !! k) ->
  total_occurrences t ti1 = total_occurrences t ti2.
Proof.
  intros Hext. unfold total_occurrences.
  change (fun (_ : Z) info acc => occurrences t (waited_by info) + acc)
    with (fun i : Z => (fun (_ : Z) wb acc => occurrences t wb + acc) i ∘ waited_by).
  rewrite <- !map_fold_fmap. f_equal.
  apply map_eq. intros k. rewrite !lookup_fmap. apply Hext.
Qed.

Lemma total_occurrences_alter t ti k f :
  (forall i, waited_by (f i) = waited_by i) ->
  total_occurrences t (alter f k ti) = total_occurrences t ti.
Proof.
  intros Hf. apply total_occurrences_ext. intros j. rewrite lookup_alter.
  destruct (decide (k = j)) as [->|]; [|done].
  destruct (ti !! j); simpl; by rewrite ?Hf.
Qed.

Lemma waiting_for_of_alter ti k f t :
  (forall i, num_waiting_for (f i) = num_waiting_for i) ->
  waiting_for_of (alter f k ti) t = waiting_for_of ti t.
Proof.
  intros Hf. unfold waiting_for_of. rewrite lookup_alter.
  destruct (decide (k = t)) as [->|]; [|done].
  destruct (ti !! t); simpl; by rewrite ?Hf.
Qed.

(** ** The invariant is kept by every call *)

Lemma graph_inv_empty : graph_inv ∅.
Proof.
  split.
  - apply lookup_empty.
  - intros k info Hk. by rewrite lookup_empty in Hk.
  - intros t. rewrite total_occurrences_empty. unfold waiting_for_of.
    by rewrite lookup_empty.
Qed.

Lemma graph_inv_absent ti t :
  graph_inv ti -> ti !! t = None -> total_occurrences t ti = 0.
Proof.
  intros Hinv Ht. rewrite (inv_balance _ Hinv). unfold waiting_for_of. by rewrite Ht.
Qed.

Lemma graph_inv_alter ti k f :
  (forall i, waited_by (f i) = waited_by i) ->
  (forall i, num_waiting_for (f i) = num_waiting_for i) ->
  (forall i, id (f i) = id i) ->
  graph_inv ti -> graph_inv (alter f k ti).
Proof.
  intros Hwb Hnw Hid Hinv. split.
  - rewrite lookup_alter. case_decide; [subst|]; by rewrite (inv_no_sentinel _ Hinv).
  - intros j info. rewrite lookup_alter.
    destruct (decide (k = j)) as [->|]; [|apply (inv_ids _ Hinv)].
    destruct (ti !! j) as [old|] eqn:Hj; simpl; [|done].
    intros [= <-]. rewrite Hid. by apply (inv_ids _ Hinv).
  - intros t. rewrite total_occurrences_alter, waiting_for_of_alter by done.
    apply (inv_balance _ Hinv).
Qed.

Lemma graph_inv_try_emplace ti k :
  k <> kSentinelTxnId -> graph_inv ti -> graph_inv (try_emplace k ti).
Proof.
  intros Hk Hinv. unfold try_emplace.
  destruct (ti !! k) as [old|] eqn:Hlk; [done|]. split.
  - rewrite lookup_insert_ne by done. apply (inv_no_sentinel _ Hinv).
  - intros j info. rewrite lookup_insert.
    destruct (decide (k = j)) as [->|]; [by intros [= <-]|apply (inv_ids _ Hinv)].
  - intros t. rewrite total_occurrences_insert_None by done. simpl.
    rewrite occurrences_nil, Z.add_0_l.
    unfold waiting_for_of. rewrite lookup_insert.
    destruct (decide (k = t)) as [->|]; simpl.
    + by apply graph_inv_absent.
    + apply (inv_balance _ Hinv).
Qed.

Lemma try_emplace_is_Some ti k : is_Some (try_emplace k ti !! k).
Proof.
  unfold try_emplace. destruct (ti !! k) as [old|] eqn:Hlk.
  - by rewrite Hlk.
  - rewrite lookup_insert_eq. eauto.
Qed.

Lemma graph_inv_add_blocker ti txn b :
  txn <> kSentinelTxnId -> is_Some (ti !! txn) ->
  graph_inv ti ->
  graph_inv (add_blocker txn ti b) /\ is_Some (add_blocker txn ti b !! txn).
Proof.
  intros Htxn [self Hself] Hinv. unfold add_blocker.
  destruct (Z.eqb_spec b txn) as [->|Hne]; [split; [done|by rewrite Hself]|].
  destruct (ti !! b) as [binfo|] eqn:Hb; [|split; [done|by rewrite Hself]].
  assert (Hb1 : alter (add_waiting_for 1) txn ti !! b = Some binfo).
  { by rewrite lookup_alter_ne. }
  split.
  - split.
    + rewrite !lookup_alter. repeat case_decide; subst; try done.
      all: by rewrite (inv_no_sentinel _ Hinv).
    + intros j info. rewrite (alter_Some _ _ _ _ Hb1), (alter_Some _ _ _ _ Hself).
      rewrite !lookup_insert. repeat case_decide; subst; try congruence.
      * intros [= <-]. simpl. by apply (inv_ids _ Hinv).
      * intros [= <-]. simpl. by apply (inv_ids _ Hinv).
      * apply (inv_ids _ Hinv).
    + intros t. rewrite waiting_for_of_alter by done.
      rewrite (alter_Some _ _ _ _ Hb1).
      rewrite (total_occurrences_insert_Some _ _ _ _ _ Hb1). simpl.
      rewrite occurrences_app, occurrences_singleton.
      rewrite total_occurrences_alter by done.
      rewrite (inv_balance _ Hinv).
      unfold waiting_for_of. rewrite lookup_alter.
      destruct (decide (txn = t)) as [->|Hnt].
      * rewrite Hself. simpl. destruct (decide _) as [|Hn]; [lia|].
        exfalso. by apply Hn.
      * destruct (decide _) as [[_ ?]|]; [done|]. lia.
  - rewrite lookup_alter_ne by done. rewrite lookup_alter_eq, Hself. simpl. eauto.
Qed.

Lemma graph_inv_add_blockers ti txn bs :
  txn <> kSentinelTxnId -> is_Some (ti !! txn) ->
  graph_inv ti ->
  graph_inv (fold_left (add_blocker txn) bs ti) /\
  is_Some (fold_left (add_blocker txn) bs ti !! txn).
Proof.
  intros Htxn. revert ti. induction bs as [|b bs IH]; intros ti Hself Hinv; simpl.
  - done.
  - destruct (graph_inv_add_blocker ti txn b Htxn Hself Hinv) as [Hinv' Hself'].
    by apply IH.
Qed.

Lemma AcceptTransaction_graph_inv h lm lm' r :
  txn_id h <> kSentinelTxnId ->
  graph_inv (txn_info_ lm) ->
  AcceptTransaction h lm = Some (lm', r) ->
  graph_inv (txn_info_ lm').
Proof.
  intros Hid Hinv. unfold AcceptTransaction.
  destruct (keys_in_partition h) as [|kp kps]; [done|].
  set (n := if is_remaster h then _ else _).
  destruct (alter (add_unarrived n) (txn_id h) (try_emplace (txn_id h) (txn_info_ lm)) !! txn_id h)
    as [info|] eqn:Hinfo; simpl; [|done].
  intros [= <- _]. simpl.
  apply graph_inv_alter; [done..|]. by apply graph_inv_try_emplace.
Qed.

Lemma AcquireLocks_graph_inv h lm lm' r :
  txn_id h <> kSentinelTxnId ->
  graph_inv (txn_info_ lm) ->
  AcquireLocks h lm = Some (lm', r) ->
  graph_inv (txn_info_ lm').
Proof.
  intros Hid Hinv. unfold AcquireLocks.
  destruct (keys_in_partition h) as [|kp kps]; [done|].
  destruct (locks_to_request h) as [locks|]; simpl; [|done].
  destruct (foldlM _ locks _) as [[lock_table blocking]|]; simpl; [|done].
  match goal with |- context [fold_left ?f ?bs ?ti0] =>
    destruct (graph_inv_add_blockers ti0 (txn_id h) bs Hid) as [Hinv' [info Hinfo]]
  end.
  { rewrite lookup_alter_eq.
    destruct (try_emplace_is_Some (txn_info_ lm) (txn_id h)) as [x ->]. simpl. eauto. }
  { apply graph_inv_alter; [done..|]. by apply graph_inv_try_emplace. }
  rewrite Hinfo. simpl. by intros [= <- _].
Qed.

Lemma add_waiting_for_add a b i :
  add_waiting_for a (add_waiting_for b i) = add_waiting_for (b + a) i.
Proof. unfold add_waiting_for. simpl. f_equal. lia. Qed.

Lemma add_waiting_for_0 i : add_waiting_for 0 i = i.
Proof. destruct i. unfold add_waiting_for. simpl. f_equal. lia. Qed.

Lemma release_fold_lookup l ti result t :
  (fold_left release_one l (ti, result)).1 !! t =
  add_waiting_for (- occurrences t l) <$> ti !! t.
Proof.
  revert ti result. induction l as [|x l IH]; intros ti result; simpl.
  - destruct (ti !! t); simpl; by rewrite ?add_waiting_for_0.
  - rewrite occurrences_cons.
    destruct (Z.eqb_spec x kSentinelTxnId) as [Hx|Hx].
    { rewrite IH. destruct (decide _) as [[? ?]|]; [done|]. by rewrite Z.add_0_l. }
    destruct (ti !! x) as [xinfo|] eqn:Hxi.
    + rewrite IH. rewrite lookup_insert.
      destruct (decide (x = t)) as [->|Hne].
      * rewrite Hxi. simpl. rewrite add_waiting_for_add.
        destruct (decide _) as [|Hn]; [|exfalso; by apply Hn].
        do 2 f_equal. lia.
      * destruct (decide _) as [[_ ?]|]; [done|]. by rewrite Z.add_0_l.
    + rewrite IH. destruct (decide _) as [[_ ->]|]; [|by rewrite Z.add_0_l].
      by rewrite Hxi.
Qed.

Lemma ReleaseLocks_graph_inv h lm lm' r :
  graph_inv (txn_info_ lm) ->
  ReleaseLocks h lm = Some (lm', r) ->
  graph_inv (txn_info_ lm').
Proof.
  intros Hinv. unfold ReleaseLocks.
  destruct (txn_info_ lm !! txn_id h) as [info|] eqn:Hinfo; [|by intros [= <- _]].
  destruct (is_ready info) eqn:Hready; [|done].
  pose proof (release_fold_lookup (waited_by info) (txn_info_ lm) []) as Hlk.
  destruct (fold_left release_one (waited_by info) (txn_info_ lm, [])) as [ti result].
  simpl in Hlk. intros [= <- _]. simpl.
  assert (Hnw : num_waiting_for info = 0).
  { unfold is_ready in Hready. apply andb_true_iff in Hready as [_ Hz]. by apply Z.eqb_eq. }
  assert (Htot : forall t, total_occurrences t ti = total_occurrences t (txn_info_ lm)).
  { intros t. apply total_occurrences_ext. intros k. rewrite Hlk.
    by destruct (txn_info_ lm !! k). }
  assert (Hself : ti !! txn_id h = Some (add_waiting_for (- occurrences (txn_id h) (waited_by info)) info)).
  { by rewrite Hlk, Hinfo. }
  split.
  - rewrite lookup_delete. case_decide; [done|].
    by rewrite Hlk, (inv_no_sentinel _ Hinv).
  - intros k i. rewrite lookup_delete. case_decide; [done|].
    rewrite Hlk. destruct (txn_info_ lm !! k) as [ki|] eqn:Hk; simpl; [|done].
    intros [= <-]. simpl. by apply (inv_ids _ Hinv).
  - intros t.
    pose proof (total_occurrences_delete t ti _ _ Hself) as Hdel. simpl in Hdel.
    pose proof (total_occurrences_nonneg t (delete (txn_id h) ti)) as Hnn.
    pose proof (occurrences_nonneg t (waited_by info)) as Hon.
    rewrite Htot, (inv_balance _ Hinv) in Hdel.
    unfold waiting_for_of in *. rewrite lookup_delete.
    destruct (decide (txn_id h = t)) as [<-|Hne].
    + rewrite Hinfo in Hdel. lia.
    + rewrite Hlk. destruct (txn_info_ lm !! t) as [tinfo|] eqn:Ht; simpl; lia.
Qed.

Lemma reachable_ids_graph_inv lm : reachable_ids lm -> graph_inv (txn_info_ lm).
Proof.
  induction 1 as [|c lm lm' _ IH Hid Hcall].
  - apply graph_inv_empty.
  - destruct c as [h|h|h]; simpl in *.
    + destruct (AcceptTransaction h lm) as [[lm1 r]|] eqn:Hop; simpl in Hcall; [|done].
      injection Hcall as <-. by eapply AcceptTransaction_graph_inv.
    + destruct (AcquireLocks h lm) as [[lm1 r]|] eqn:Hop; simpl in Hcall; [|done].
      injection Hcall as <-. by eapply AcquireLocks_graph_inv.
    + destruct (ReleaseLocks h lm) as [[lm1 r]|] eqn:Hop; simpl in Hcall; [|done].
      injection Hcall as <-. by eapply ReleaseLocks_graph_inv.
Qed.

Lemma reachable_ids_do_calls cs lm lm' :
  Forall (fun c => txn_id (holder_of c) <> kSentinelTxnId) cs ->
  reachable_ids lm -> do_calls cs lm = Some lm' -> reachable_ids lm'.
Proof.
  intros Hcs. revert lm. induction Hcs as [|c cs Hc _ IH]; intros lm Hlm; simpl.
  - by intros [= <-].
  - unfold do_calls. simpl. destruct (do_call c lm) as [lm1|] eqn:Hcall; [|done].
    intros Hrest. apply (IH lm1); [|done]. by eapply reachable_ids_call.
Qed.

Lemma reachable_ids_reachable lm : reachable_ids lm -> reachable lm.
Proof.
  induction 1; [constructor|]. by eapply reachable_call.
Qed.

Lemma reachable_do_calls cs : forall lm lm',
  reachable lm -> do_calls cs lm = Some lm' -> reachable lm'.
Proof.
  induction cs as [|c cs IH]; intros lm lm' Hlm; unfold do_calls; simpl.
  - by intros [= <-].
  - destruct (do_call c lm) as [lm1|] eqn:Hcall; [|done].
    intros Hrest. apply (IH lm1); [|done]. by eapply reachable_call.
Qed.

End DDRLockManager_facts.

Import DDRLockManager DDRLockManager_facts.

(** C4, amended.  In every state that the lock manager reaches through
    calls of [AcceptTransaction], [AcquireLocks] and [ReleaseLocks] made
    for txns whose id is not the sentinel, the counter [num_waiting_for]
    of every txn of the table is the number of slots of the [waited_by]
    lists of the table that hold the txn. *)
Theorem wait_for_graph_balanced (lm : DDRLockManager.t) :
  reachable_ids lm -> balanced (txn_info_ lm).
Proof.
  intros Hr t info Ht.
  pose proof (inv_balance _ (reachable_ids_graph_inv lm Hr) t) as Hb.
  unfold waiting_for_of in Hb. rewrite Ht in Hb. done.
Qed.

(** A blocker counted twice: the txn 200 waits twice for the txn 100, and
    is twice in its [waited_by]. *)
Lemma wait_for_graph_balanced_witness :
  exists lm,
    do_calls example_double_count init = Some lm /\
    reachable_ids lm /\
    balanced (txn_info_ lm) /\
    num_waiting_for <$> txn_info_ lm !! 200 = Some 2 /\
    waited_by <$> txn_info_ lm !! 100 = Some [200; 200].
Proof.
  destruct (do_calls example_double_count init) as [lm|] eqn:Hrun;
    [|vm_compute in Hrun; discriminate Hrun].
  assert (Hr : reachable_ids lm).
  { apply (reachable_ids_do_calls example_double_count init lm);
      [|apply reachable_ids_init|exact Hrun].
    repeat (constructor; [simpl; unfold kSentinelTxnId; lia|]). constructor. }
  exists lm. split; [reflexivity|]. split; [exact Hr|].
  split; [exact (wait_for_graph_balanced lm Hr)|].
  vm_compute in Hrun. injection Hrun as <-. split; reflexivity.
Defined.

(** C4 as stated fails: a call may carry the id of the sentinel.  The
    txn 0 that finds the txn 100 in its way is counted as waiting once,
    while the slot of [waited_by] that holds it reads as a removed edge:
    no slot counts for it, and [ReleaseLocks] of the txn 100 skips it. *)
Lemma wait_for_graph_unbalanced_for_sentinel_id :
  exists lm lm' info released,
    do_calls example_sentinel_id init = Some lm /\ reachable lm /\
    txn_info_ lm !! 0 = Some info /\
    num_waiting_for info = 1 /\
    total_occurrences 0 (txn_info_ lm) = 0 /\
    ~ balanced (txn_info_ lm) /\
    ReleaseLocks (mkTxnHolder 100 [("a", WRITE)] false example_metadata false 0) lm
      = Some (lm', released) /\
    released = [] /\
    num_waiting_for <$> txn_info_ lm' !! 0 = Some 1.
Proof.
  destruct (do_calls example_sentinel_id init) as [lm|] eqn:Hrun;
    [|vm_compute in Hrun; discriminate Hrun].
  assert (Hr : reachable lm).
  { apply (reachable_do_calls example_sentinel_id init lm); [constructor|exact Hrun]. }
  exists lm.
  destruct (ReleaseLocks (mkTxnHolder 100 [("a", WRITE)] false example_metadata false 0) lm)
    as [[lm' released]|] eqn:Hrel.
  2:{ exfalso. vm_compute in Hrun. injection Hrun as <-.
      vm_compute in Hrel. discriminate Hrel. }
  destruct (txn_info_ lm !! 0) as [info|] eqn:Hinfo.
  2:{ exfalso. vm_compute in Hrun. injection Hrun as <-.
      vm_compute in Hinfo. discriminate Hinfo. }
  exists lm', info, released.
  assert (Hn : num_waiting_for info = 1).
  { vm_compute in Hrun. injection Hrun as <-. vm_compute in Hinfo.
    by injection Hinfo as <-. }
  assert (Htotal : total_occurrences 0 (txn_info_ lm) = 0).
  { vm_compute in Hrun. injection Hrun as <-. vm_compute. reflexivity. }
  split; [reflexivity|]. split; [exact Hr|]. split; [reflexivity|].
  split; [exact Hn|]. split; [exact Htotal|]. split.
  { intros Hb. specialize (Hb 0 info Hinfo). rewrite Hn, Htotal in Hb. discriminate Hb. }
  split; [reflexivity|].
  vm_compute in Hrun. injection Hrun as <-. vm_compute in Hrel.
  injection Hrel as <- <-. split; reflexivity.
Qed.

(** C10.  [ReleaseLocks] for a txn that is not in the table returns the
    empty list and leaves the lock manager as it is; it ends in the fatal
    error exactly when the txn is in the table and not ready. *)
Theorem ReleaseLocks_unknown_txn (h : TxnHolder) (lm : DDRLockManager.t) :
  (txn_info_ lm !! txn_id h = None -> ReleaseLocks h lm = Some (lm, [])) /\
  (ReleaseLocks h lm = None <->
     exists info, txn_info_ lm !! txn_id h = Some info /\ is_ready info = false).
Proof.
  unfold ReleaseLocks. destruct (txn_info_ lm !! txn_id h) as [info|] eqn:Hinfo.
  - split; [done|]. destruct (is_ready info) eqn:Hready.
    + destruct (fold_left _ _ _) as [ti result]. split; [done|].
      intros (info' & [= <-] & Hn). congruence.
    + split; [eauto|done].
  - split; [done|]. split; [done|]. by intros (info & ? & _).
Qed.

(* ===================================================================== *)
(** * Properties of the resolution of one component                      *)
(* ===================================================================== *)

Module Resolve_facts.
Import DeadlockResolver DDRLockManager_facts.

Implicit Types (ti : gmap Z TxnInfo) (ssc wb : list Z) (x w s : Z).

Lemma binary_search_true ssc x : binary_search ssc x = true <-> x ∈ ssc.
Proof. unfold binary_search. apply bool_decide_eq_true. Qed.

Lemma binary_search_false ssc x : binary_search ssc x = false <-> x ∉ ssc.
Proof. unfold binary_search. apply bool_decide_eq_false. Qed.

Lemma slot_count_nil x : slot_count x [] = 0.
Proof. done. Qed.

Lemma slot_count_cons x w wb :
  slot_count x (w :: wb) = (if decide (w = x) then 1 else 0) + slot_count x wb.
Proof.
  unfold slot_count. rewrite filter_cons. destruct (decide (w = x)); simpl; lia.
Qed.

Lemma slot_count_nonneg x wb : 0 <= slot_count x wb.
Proof. unfold slot_count. lia. Qed.

Lemma upd_info_id info : upd_info 0 (waited_by info) info = info.
Proof. destruct info. unfold upd_info. simpl. f_equal. lia. Qed.

Lemma delta_nil ssc e x : delta ssc e [] x = 0.
Proof. unfold delta. simpl. rewrite slot_count_nil. by destruct (binary_search ssc x). Qed.

Lemma delta_cons_other ssc e w wb x :
  binary_search ssc w = false -> delta ssc e (w :: wb) x = delta ssc e wb x.
Proof.
  intros Hw. unfold delta, has_member. simpl. rewrite Hw. simpl.
  destruct (binary_search ssc x) eqn:Hx; [|done].
  rewrite slot_count_cons. destruct (decide (w = x)) as [->|]; [congruence|done].
Qed.

Lemma delta_cons_member ssc e w wb x :
  binary_search ssc w = true ->
  delta ssc e (w :: wb) x =
  delta ssc None wb x + (if bool_decide (e = Some x) then 1 else 0)
  - (if decide (w = x) then 1 else 0).
Proof.
  intros Hw. unfold delta, has_member. simpl. rewrite Hw. simpl.
  rewrite andb_false_r.
  destruct (binary_search ssc x) eqn:Hx.
  - rewrite slot_count_cons. lia.
  - destruct (decide (w = x)) as [->|]; [congruence|]. lia.
Qed.

Lemma lookup_alter_fn {A} (f : A -> A) (m : gmap Z A) k x :
  alter f k m !! x = (fun v => if decide (k = x) then f v else v) <$> m !! x.
Proof.
  rewrite lookup_alter. destruct (decide (k = x)) as [->|]; [done|].
  by destruct (m !! x).
Qed.

(** ** The loop over the slots of one member *)

(** The table after one slot that holds a member [w] was rewritten to [v]. *)
Lemma resolve_slot_member ssc i si ti nea txn j w :
  (forall w, w ∈ ssc -> is_Some (ti !! w)) ->
  (nea = false -> exists nxt, ssc !! S i = Some nxt) ->
  ti !! si = Some txn ->
  waited_by txn !! j = Some w ->
  binary_search ssc w = true ->
  let e := if nea then None else ssc !! S i in
  let v := match e with Some nxt => nxt | None => kSentinelTxnId end in
  exists ti2,
    resolve_slot ssc i si (ti, nea) j = Some (ti2, true) /\
    forall x, ti2 !! x =
      (fun info =>
         upd_info ((if bool_decide (e = Some x) then 1 else 0)
                   - (if decide (w = x) then 1 else 0))
                  (if decide (x = si) then <[j := v]> (waited_by info) else waited_by info)
                  info) <$> ti !! x.
Proof.
  intros Hpres Hnxt Hsi Hj Hw e v. unfold resolve_slot.
  rewrite Hsi. simpl. rewrite Hj. simpl. rewrite Hw.
  apply binary_search_true in Hw as Hwin.
  destruct (Hpres w Hwin) as [winfo Hwinfo]. rewrite Hwinfo. simpl.
  destruct nea; simpl in e; subst e v.
  - simpl. eexists. split; [reflexivity|].
    intros x. rewrite !lookup_alter_fn, <- !option_fmap_compose.
    destruct (ti !! x) as [[? ? ? ?]|] eqn:Hx; simpl; [|done]. f_equal.
    repeat case_decide; repeat case_bool_decide; simplify_eq;
      unfold upd_info, add_waiting_for, set_slot, set_waited_by; simpl;
      f_equal; lia.
  - destruct (Hnxt eq_refl) as [nxt Hn]. rewrite Hn. simpl.
    destruct (Hpres nxt) as [ninfo Hninfo]; [by eapply list_elem_of_lookup_2|].
    rewrite Hninfo. simpl. eexists. split; [reflexivity|].
    intros x. rewrite !lookup_alter_fn, <- !option_fmap_compose.
    destruct (ti !! x) as [[? ? ? ?]|] eqn:Hx; simpl; [|done]. f_equal.
    repeat case_decide; repeat case_bool_decide; simplify_eq;
      unfold upd_info, add_waiting_for, set_slot, set_waited_by; simpl;
      f_equal; lia.
Qed.

Lemma resolve_slot_other ssc i si ti nea txn j w :
  ti !! si = Some txn ->
  waited_by txn !! j = Some w ->
  binary_search ssc w = false ->
  resolve_slot ssc i si (ti, nea) j = Some (ti, nea).
Proof.
  intros Hsi Hj Hw. unfold resolve_slot. rewrite Hsi. simpl. rewrite Hj. simpl.
  by rewrite Hw.
Qed.

Lemma resolve_slots_spec ssc i si rest :
  forall done ti nea txn,
    (forall w, w ∈ ssc -> is_Some (ti !! w)) ->
    (nea = false -> exists nxt, ssc !! S i = Some nxt) ->
    ti !! si = Some txn ->
    waited_by txn = done ++ rest ->
    let e := if nea then None else ssc !! S i in
    exists ti',
      foldlM (resolve_slot ssc i si) (seq (length done) (length rest)) (ti, nea)
        = Some (ti', nea || has_member ssc rest) /\
      forall x, ti' !! x =
        (fun info =>
           upd_info (delta ssc e rest x)
                    (if decide (x = si) then done ++ rewrite_slots ssc e rest
                     else waited_by info) info) <$> ti !! x.
Proof.
  induction rest as [|w rest IH]; intros done ti nea txn Hpres Hnxt Hsi Hwb e.
  - exists ti. simpl. rewrite orb_false_r. split; [done|].
    intros x. destruct (ti !! x) as [info|] eqn:Hx; simpl; [|done].
    rewrite delta_nil. f_equal. symmetry.
    destruct (decide (x = si)) as [->|]; [|apply upd_info_id].
    simpl. rewrite <- Hwb.
    replace txn with info by congruence. apply upd_info_id.
  - assert (Hj : waited_by txn !! length done = Some w).
    { rewrite Hwb. by apply list_lookup_middle. }
    change (seq (length done) (length (w :: rest)))
      with (length done :: seq (S (length done)) (length rest)).
    rewrite foldlM_cons.
    destruct (binary_search ssc w) eqn:Hw.
    + (* the slot holds a member *)
      destruct (resolve_slot_member ssc i si ti nea txn (length done) w
                  Hpres Hnxt Hsi Hj Hw) as (ti2 & -> & Hti2).
      fold e in Hti2.
      set (v := match e with Some nxt => nxt | None => kSentinelTxnId end) in *.
      assert (Hsi2 : ti2 !! si = Some (upd_info
         ((if bool_decide (e = Some si) then 1 else 0) - (if decide (w = si) then 1 else 0))
         (done ++ v :: rest) txn)).
      { rewrite Hti2, Hsi. simpl. destruct (decide (si = si)); [|done]. do 2 f_equal.
        rewrite Hwb. by rewrite insert_app_r_alt, Nat.sub_diag by lia. }
      assert (Hpres2 : forall w', w' ∈ ssc -> is_Some (ti2 !! w')).
      { intros w' Hw'. rewrite Hti2. destruct (Hpres w' Hw') as [? ->]. simpl. eauto. }
      assert (Hnxt2 : true = false -> exists nxt, ssc !! S i = Some nxt) by done.
      destruct (IH (done ++ [v]) ti2 true _ Hpres2 Hnxt2 Hsi2) as (ti' & Hrun & Hti').
      { simpl. by rewrite <- app_assoc. }
      rewrite length_app in Hrun. simpl in Hrun. rewrite Nat.add_1_r in Hrun.
      exists ti'. split.
      { rewrite Hrun. unfold has_member. simpl. rewrite Hw. by rewrite orb_true_r. }
      intros x. rewrite Hti', Hti2. destruct (ti !! x) as [info|] eqn:Hx; simpl; [|done].
      f_equal. rewrite (delta_cons_member ssc e) by done.
      unfold upd_info. simpl. f_equal; [lia|].
      destruct (decide (x = si)); [|done].
      rewrite <- app_assoc. simpl. rewrite Hw. subst v. by destruct e.
    + (* the slot is left alone *)
      rewrite (resolve_slot_other ssc i si ti nea txn (length done) w Hsi Hj Hw).
      specialize (IH (done ++ [w]) ti nea txn Hpres Hnxt Hsi).
      destruct IH as (ti' & Hrun & Hti'); [by rewrite <- app_assoc|].
      rewrite length_app in Hrun. simpl in Hrun. rewrite Nat.add_1_r in Hrun.
      exists ti'. split.
      { rewrite Hrun. unfold has_member. simpl. by rewrite Hw. }
      intros x. rewrite Hti'. destruct (ti !! x) as [info|]; simpl; [|done].
      f_equal. rewrite delta_cons_other by done. f_equal.
      destruct (decide (x = si)); [|done]. rewrite Hw. by rewrite <- app_assoc.
Qed.

(** ** The member that follows *)

Lemma successor_lookup ssc i s :
  NoDup ssc -> ssc !! i = Some s -> successor ssc s = ssc !! S i.
Proof.
  intros Hnd. revert i. induction Hnd as [|a tl Ha Hnd IH]; intros i Hi; [done|].
  destruct i as [|i]; simpl in *.
  - injection Hi as ->. rewrite Z.eqb_refl. by destruct tl.
  - destruct (Z.eqb_spec a s) as [->|_].
    + exfalso. apply Ha. by eapply list_elem_of_lookup_2.
    + by apply IH.
Qed.

Lemma successor_in_tail ssc x y : successor ssc x = Some y -> y ∈ tail ssc.
Proof.
  induction ssc as [|a tl IH]; simpl; [done|].
  destruct (a =? x).
  - destruct tl as [|b tl']; simpl; [done|]. intros [= ->]. left.
  - intros Hs. apply IH in Hs. destruct tl; simpl in *; [done|]. by right.
Qed.

Lemma successor_elem_of ssc x y : successor ssc x = Some y -> y ∈ ssc.
Proof.
  intros Hs. apply successor_in_tail in Hs. destruct ssc; simpl in *; [done|]. by right.
Qed.


(** ** One member *)

Lemma resolve_member_spec ssc ti i si txn :
  NoDup ssc ->
  (forall w, w ∈ ssc -> is_Some (ti !! w)) ->
  ssc !! i = Some si ->
  ti !! si = Some txn ->
  is_complete txn = true ->
  has_member ssc (waited_by txn) = true ->
  exists ti',
    resolve_member ssc ti i = Some ti' /\
    forall x, ti' !! x =
      (fun info =>
         upd_info (delta ssc (successor ssc si) (waited_by txn) x)
                  (if decide (x = si)
                   then rewrite_slots ssc (successor ssc si) (waited_by txn)
                   else waited_by info) info) <$> ti !! x.
Proof.
  intros Hnd Hpres Hi Hsi Hc Hm. unfold resolve_member.
  rewrite Hi. simpl. rewrite Hsi. simpl. rewrite Hc.
  rewrite (successor_lookup ssc i si Hnd Hi).
  pose proof (lookup_lt_Some _ _ _ Hi) as Hlt.
  set (nea := bool_decide (i = (length ssc - 1)%nat)).
  assert (He : (if nea then None else ssc !! S i) = ssc !! S i).
  { subst nea. case_bool_decide; [|done]. symmetry. apply lookup_ge_None. lia. }
  assert (Hnxt : nea = false -> exists nxt, ssc !! S i = Some nxt).
  { subst nea. intros Hf. apply bool_decide_eq_false in Hf.
    apply lookup_lt_is_Some. lia. }
  destruct (resolve_slots_spec ssc i si (waited_by txn) [] ti nea txn Hpres Hnxt Hsi eq_refl)
    as (ti' & Hrun & Hti').
  simpl in Hrun. rewrite Hrun. simpl. rewrite Hm, orb_true_r.
  exists ti'. split; [done|].
  intros x. rewrite Hti', He. done.
Qed.

Lemma Zsum_cons {A} (f : A -> Z) a l : Zsum f (a :: l) = f a + Zsum f l.
Proof. done. Qed.

Lemma Zsum_zero {A} (f : A -> Z) l : (forall a, a ∈ l -> f a = 0) -> Zsum f l = 0.
Proof.
  induction l as [|a l IH]; intros Hf; [done|].
  rewrite Zsum_cons, Hf, IH; [done| |left]. intros b Hb. apply Hf. by right.
Qed.

Lemma Zsum_ext {A} (f g : A -> Z) l : (forall a, a ∈ l -> f a = g a) -> Zsum f l = Zsum g l.
Proof.
  induction l as [|a l IH]; intros Hf; [done|].
  rewrite !Zsum_cons, Hf, IH; [done| |left]. intros b Hb. apply Hf. by right.
Qed.


(** ** All the members, from the last to the first *)

Lemma resolved_upto_nil ssc ti0 : resolved_upto ssc [] ti0 ti0.
Proof.
  intros x. destruct (ti0 !! x) as [info|]; simpl; [|done].
  f_equal. symmetry. apply upd_info_id.
Qed.

Lemma resolve_members_spec ssc ti0 m :
  resolvable ssc ti0 ->
  (m <= length ssc)%nat ->
  forall ti, resolved_upto ssc (drop m ssc) ti0 ti ->
    exists ti', foldlM (resolve_member ssc) (rev (seq 0 m)) ti = Some ti' /\
                resolved_upto ssc ssc ti0 ti'.
Proof.
  intros [Hnd Hmem]. induction m as [|m IH]; intros Hm ti Hti.
  - exists ti. split; [done|]. by rewrite drop_0 in Hti.
  - rewrite seq_S, rev_app_distr. simpl rev. simpl app. rewrite foldlM_cons.
    destruct (lookup_lt_is_Some_2 ssc m) as [s Hs]; [lia|].
    assert (Hsin : s ∈ ssc) by (by eapply list_elem_of_lookup_2).
    destruct (Hmem s Hsin) as (info & Hinfo & Hc & Hhas).
    assert (Hdrop : drop m ssc = s :: drop (S m) ssc) by (by apply drop_S).
    assert (Hfresh : s ∉ drop (S m) ssc).
    { rewrite <- (take_drop m ssc), Hdrop in Hnd.
      apply NoDup_app in Hnd as (_ & _ & Hnd). by apply NoDup_cons in Hnd as [? _]. }
    assert (Hcur : ti !! s = Some (upd_info
               (Zsum (fun s' => delta ssc (successor ssc s') (wb_of ti0 s') s) (drop (S m) ssc))
               (waited_by info) info)).
    { rewrite (Hti s), Hinfo. simpl. by rewrite bool_decide_eq_false_2. }
    assert (Hpres : forall w, w ∈ ssc -> is_Some (ti !! w)).
    { intros w Hw. rewrite (Hti w). destruct (Hmem w Hw) as (? & -> & _). simpl. eauto. }
    destruct (resolve_member_spec ssc ti m s _ Hnd Hpres Hs Hcur Hc Hhas)
      as (ti1 & -> & Hti1).
    apply IH; [lia|].
    intros x. rewrite Hti1, (Hti x), Hdrop.
    destruct (ti0 !! x) as [xinfo|] eqn:Hx; simpl; [|done].
    f_equal. unfold upd_info. simpl.
    unfold wb_of at 2. rewrite Hinfo. f_equal; [lia|].
    destruct (decide (x = s)) as [->|Hne].
    + rewrite bool_decide_eq_true_2 by left. congruence.
    + destruct (bool_decide (x ∈ drop (S m) ssc)) eqn:Hb.
      * apply bool_decide_eq_true in Hb. rewrite bool_decide_eq_true_2; [done|by right].
      * apply bool_decide_eq_false in Hb. rewrite bool_decide_eq_false_2; [done|].
        intros [?|?]%elem_of_cons; done.
Qed.

(** ** The rewritten slots *)

Lemma rewrite_slots_length ssc e wb : length (rewrite_slots ssc e wb) = length wb.
Proof.
  revert e. induction wb as [|w wb IH]; intros e; simpl; [done|].
  destruct (binary_search ssc w); [destruct e|]; simpl; by rewrite IH.
Qed.

Lemma rewrite_slots_filter ssc e wb :
  kSentinelTxnId ∉ ssc ->
  (forall n, e = Some n -> n ∈ ssc) ->
  filter (fun w => w ∈ ssc) (rewrite_slots ssc e wb) =
  match e with
  | Some n => if has_member ssc wb then [n] else []
  | None => []
  end.
Proof.
  intros Hs. revert e. induction wb as [|w wb IH]; intros e He; simpl.
  - by destruct e.
  - unfold has_member. simpl. destruct (binary_search ssc w) eqn:Hw; simpl.
    + destruct e as [n|].
      * rewrite filter_cons_True by (by apply He). by rewrite IH.
      * rewrite filter_cons_False by done. by rewrite IH.
    + apply binary_search_false in Hw. rewrite filter_cons_False by done.
      by rewrite IH.
Qed.

Lemma rewrite_slots_lookup_other ssc e wb j w :
  wb !! j = Some w -> w ∉ ssc -> rewrite_slots ssc e wb !! j = Some w.
Proof.
  revert e j. induction wb as [|w' wb IH]; intros e j Hj Hw; [done|].
  simpl. destruct j as [|j]; simpl in *.
  - injection Hj as ->. apply binary_search_false in Hw. by rewrite Hw.
  - destruct (binary_search ssc w'); [destruct e|]; simpl; by apply IH.
Qed.

Lemma rewrite_slots_lookup_member ssc e wb j w :
  wb !! j = Some w -> w ∈ ssc ->
  rewrite_slots ssc e wb !! j = Some kSentinelTxnId \/
  (rewrite_slots ssc e wb !! j = e /\ forall j' w', (j' < j)%nat -> wb !! j' = Some w' -> w' ∉ ssc).
Proof.
  revert e j. induction wb as [|w' wb IH]; intros e j Hj Hw; [done|].
  simpl. destruct j as [|j]; simpl in *.
  - injection Hj as ->. apply binary_search_true in Hw. rewrite Hw.
    destruct e; simpl; [right|by left]. split; [done|]. intros; lia.
  - destruct (binary_search ssc w') eqn:Hw'.
    + assert (Hn : rewrite_slots ssc None wb !! j = Some kSentinelTxnId).
      { destruct (IH None j Hj Hw) as [?|[? _]]; [done|].
        exfalso. clear IH Hw'. revert j H Hj.
        induction wb as [|a wb IHwb]; intros j H Hj; [done|].
        simpl in H. destruct j as [|j]; simpl in *.
        - injection Hj as ->. apply binary_search_true in Hw. by rewrite Hw in H.
        - destruct (binary_search ssc a); simpl in H; by eapply IHwb. }
      destruct e; simpl; by left.
    + simpl. destruct (IH e j Hj Hw) as [?|[? Hfirst]]; [by left|right].
      split; [done|]. intros [|j'] w'' Hlt Hj'; simpl in Hj'.
      * injection Hj' as <-. by apply binary_search_false.
      * apply (Hfirst j'); [lia|done].
Qed.

Lemma has_member_ext ssc1 ssc2 wb :
  (forall w, w ∈ ssc1 <-> w ∈ ssc2) -> has_member ssc1 wb = has_member ssc2 wb.
Proof.
  intros Hext. unfold has_member. induction wb as [|w wb IH]; simpl; [done|].
  rewrite IH. f_equal. unfold binary_search. apply bool_decide_ext, Hext.
Qed.

Lemma std_sort_Permutation l : std_sort l ≡ₚ l.
Proof. apply merge_sort_Permutation. Qed.

Lemma elem_of_std_sort l x : x ∈ std_sort l <-> x ∈ l.
Proof. by rewrite std_sort_Permutation. Qed.

Lemma std_sort_increasing l i j a b :
  NoDup l -> (i < j)%nat -> std_sort l !! i = Some a -> std_sort l !! j = Some b -> a < b.
Proof.
  intros Hnd Hij Hi Hj.
  assert (Hss : StronglySorted Z.le (std_sort l)).
  { apply StronglySorted_merge_sort; apply _. }
  assert (Hnd' : NoDup (std_sort l)) by (by rewrite std_sort_Permutation).
  assert (a <> b).
  { intros ->. pose proof (NoDup_lookup _ _ _ _ Hnd' Hi Hj). lia. }
  assert (a <= b); [|lia].
  pose proof (lookup_lt_Some _ _ _ Hi) as Hilt.
  apply take_drop_middle in Hi. rewrite <- Hi in Hss, Hj.
  apply StronglySorted_app in Hss as (_ & _ & Hss).
  apply StronglySorted_cons in Hss as [Hall _].
  rewrite Forall_forall in Hall. apply Hall.
  assert (Hlen : length (take i (std_sort l)) = i).
  { apply length_take_le. lia. }
  rewrite lookup_app_r in Hj by lia. rewrite Hlen in Hj.
  destruct (j - i)%nat as [|k] eqn:Hk; [lia|]. simpl in Hj.
  by eapply list_elem_of_lookup_2.
Qed.

Lemma resolvable_std_sort ssc0 ti : resolvable ssc0 ti -> resolvable (std_sort ssc0) ti.
Proof.
  intros [Hnd Hmem]. split; [by rewrite std_sort_Permutation|].
  intros s Hs. rewrite elem_of_std_sort in Hs.
  destruct (Hmem s Hs) as (info & ? & ? & Hh). exists info. repeat split; try done.
  rewrite <- Hh. apply has_member_ext. intros w. apply elem_of_std_sort.
Qed.

(** ** The whole of [ResolveDeadlock] *)

Lemma ResolveDeadlock_spec ti ssc0 :
  resolvable ssc0 ti -> ssc0 <> [] ->
  exists ti' s0 head',
    ResolveDeadlock ti ssc0 =
      Some (ti', std_sort ssc0, if is_ready head' then Some s0 else None) /\
    std_sort ssc0 !! 0%nat = Some s0 /\
    ti' !! s0 = Some head' /\
    resolved_upto (std_sort ssc0) (std_sort ssc0) ti ti'.
Proof.
  intros Hres Hne. apply resolvable_std_sort in Hres as Hres'.
  destruct (resolve_members_spec (std_sort ssc0) ti (length (std_sort ssc0)) Hres' (le_n _) ti)
    as (ti' & Hrun & Hti').
  { rewrite drop_all. apply resolved_upto_nil. }
  destruct (std_sort ssc0) as [|s0 tl] eqn:Hsort.
  { exfalso. apply Hne. apply Permutation_nil_r. by rewrite <- Hsort, std_sort_Permutation. }
  destruct Hres' as [_ Hmem]. destruct (Hmem s0) as (head & Hhead & _); [left|].
  pose proof (Hti' s0) as Hs0. rewrite Hhead in Hs0. simpl in Hs0.
  eexists ti', s0, _. unfold ResolveDeadlock. rewrite Hsort, Hrun. simpl.
  rewrite Hs0. simpl. done.
Qed.

Lemma delta_sum_outside ssc ti x :
  x ∉ ssc -> Zsum (fun s => delta ssc (successor ssc s) (wb_of ti s) x) ssc = 0.
Proof.
  intros Hx. apply Zsum_zero. intros s _. unfold delta.
  apply binary_search_false in Hx as Hb. rewrite Hb.
  case_bool_decide as Hs; [|by rewrite andb_false_r].
  apply successor_elem_of in Hs. done.
Qed.


End Resolve_facts.

Import DeadlockResolver Resolve_facts.

(** C1, amended.  [ResolveDeadlock] on a component of at least two members
    (distinct, in the table, complete, each with a slot holding a member,
    none the sentinel) sorts the members ascending, [s_0 < s_1 < ...], and
    leaves every txn outside the component as it was.  In the [waited_by]
    of a member [s_i], whose length is unchanged, the slots that held no
    member are untouched; the first slot that held a member holds
    [s_(i+1)] when [s_i] is not the last member, and every other slot that
    held a member holds the sentinel: afterwards the only member in the
    slots of [s_i] is [s_(i+1)], the last member has none (no edge is
    added for it), and [s_0] is in the slots of no member. *)
Theorem ResolveDeadlock_rewrites_into_path (ti : gmap Z TxnInfo) (ssc0 : list TxnId) :
  resolvable ssc0 ti ->
  (2 <= length ssc0)%nat ->
  kSentinelTxnId ∉ ssc0 ->
  exists ti' ready,
    ResolveDeadlock ti ssc0 = Some (ti', std_sort ssc0, ready) /\
    std_sort ssc0 ≡ₚ ssc0 /\
    (forall (i j : nat) a b, (i < j)%nat ->
       std_sort ssc0 !! i = Some a -> std_sort ssc0 !! j = Some b -> a < b) /\
    (forall x, x ∉ ssc0 -> ti' !! x = ti !! x) /\
    (forall (i : nat) s info, std_sort ssc0 !! i = Some s -> ti !! s = Some info ->
       exists info',
         ti' !! s = Some info' /\
         waited_by info' = rewrite_slots (std_sort ssc0) (std_sort ssc0 !! S i) (waited_by info) /\
         length (waited_by info') = length (waited_by info) /\
         filter (fun w => w ∈ ssc0) (waited_by info') =
           match std_sort ssc0 !! S i with Some nxt => [nxt] | None => [] end /\
         (forall (j : nat) w, waited_by info !! j = Some w -> w ∉ ssc0 ->
            waited_by info' !! j = Some w) /\
         (forall (j : nat) w, waited_by info !! j = Some w -> w ∈ ssc0 ->
            waited_by info' !! j = Some kSentinelTxnId \/
            (waited_by info' !! j = std_sort ssc0 !! S i /\
             forall (j' : nat) w', (j' < j)%nat -> waited_by info !! j' = Some w' -> w' ∉ ssc0))) /\
    (forall s0 s info', std_sort ssc0 !! 0%nat = Some s0 -> s ∈ ssc0 ->
       ti' !! s = Some info' -> s0 ∉ waited_by info').
Proof.
  intros Hres Hlen Hsent.
  assert (Hne : ssc0 <> []) by (intros ->; simpl in Hlen; lia).
  destruct (ResolveDeadlock_spec ti ssc0 Hres Hne) as (ti' & s0 & head' & Hrun & Hs0 & Hhead' & Hupto).
  pose proof (resolvable_std_sort _ _ Hres) as [Hnd Hmem].
  assert (Hsent' : kSentinelTxnId ∉ std_sort ssc0) by (by rewrite elem_of_std_sort).
  assert (Hmember : forall (i : nat) s info, std_sort ssc0 !! i = Some s -> ti !! s = Some info ->
            exists info', ti' !! s = Some info' /\
              waited_by info' = rewrite_slots (std_sort ssc0) (std_sort ssc0 !! S i) (waited_by info)).
  { intros i s info Hi Hinfo. rewrite (Hupto s), Hinfo. simpl. eexists. split; [done|].
    simpl. rewrite bool_decide_eq_true_2 by (by eapply list_elem_of_lookup_2).
    by rewrite (successor_lookup _ _ _ Hnd Hi). }
  assert (Hfilter : forall (i : nat) s info, std_sort ssc0 !! i = Some s -> ti !! s = Some info ->
            filter (fun w => w ∈ std_sort ssc0)
                   (rewrite_slots (std_sort ssc0) (std_sort ssc0 !! S i) (waited_by info)) =
            match std_sort ssc0 !! S i with Some nxt => [nxt] | None => [] end).
  { intros i s info Hi Hinfo. rewrite rewrite_slots_filter; [|done|].
    - destruct (Hmem s) as (info2 & Hinfo2 & _ & Hh); [by eapply list_elem_of_lookup_2|].
      replace info2 with info in Hh by congruence. by rewrite Hh.
    - intros n Hn. by eapply list_elem_of_lookup_2. }
  exists ti', (if is_ready head' then Some s0 else None).
  split; [done|]. split; [apply std_sort_Permutation|].
  split; [intros i j a b; apply std_sort_increasing, Hres|].
  split; [|split].
  - intros x Hx. rewrite (Hupto x).
    destruct (ti !! x) as [info|]; simpl; [|done]. f_equal.
    rewrite delta_sum_outside by (by rewrite elem_of_std_sort).
    rewrite bool_decide_eq_false_2 by (by rewrite elem_of_std_sort).
    apply upd_info_id.
  - intros i s info Hi Hinfo.
    destruct (Hmember i s info Hi Hinfo) as (info' & Hinfo' & Hwb).
    exists info'. split; [done|]. split; [done|]. rewrite Hwb.
    split; [apply rewrite_slots_length|]. split; [|split].
    + rewrite <- (Hfilter i s info Hi Hinfo). apply list_filter_iff.
      intros w. symmetry. apply elem_of_std_sort.
    + intros j w Hj Hw. apply rewrite_slots_lookup_other; [done|by rewrite elem_of_std_sort].
    + intros j w Hj Hw.
      destruct (rewrite_slots_lookup_member (std_sort ssc0) (std_sort ssc0 !! S i) (waited_by info) j w Hj)
        as [?|[? Hfirst]]; [by rewrite elem_of_std_sort|by left|right].
      split; [done|]. intros j' w' Hlt Hj'. rewrite <- elem_of_std_sort. by eapply Hfirst.
  - intros s0' s info' Hs0' Hs Hinfo' Hin.
    rewrite <- elem_of_std_sort in Hs. apply list_elem_of_lookup in Hs as [i Hi].
    destruct (Hmem s) as (info & Hinfo & _); [by eapply list_elem_of_lookup_2|].
    destruct (Hmember i s info Hi Hinfo) as (info2 & Hinfo2 & Hwb).
    replace info2 with info' in * by congruence.
    assert (Hin' : s0' ∈ filter (fun w => w ∈ std_sort ssc0) (waited_by info')).
    { apply list_elem_of_filter. split; [by eapply list_elem_of_lookup_2|done]. }
    rewrite Hwb, (Hfilter i s info Hi Hinfo) in Hin'.
    destruct (std_sort ssc0 !! S i) as [nxt|] eqn:Hn; [|by apply elem_of_nil in Hin'].
    apply list_elem_of_singleton in Hin' as ->.
    pose proof (NoDup_lookup _ _ _ _ Hnd Hs0' Hn). lia.
Qed.

Lemma ResolveDeadlock_rewrites_into_path_witness :
  resolvable [2; 1] example_two_cycle /\
  (2 <= length [2; 1])%nat /\
  (kSentinelTxnId ∉ [2; 1]) /\
  exists ti' ready,
    ResolveDeadlock example_two_cycle [2; 1] = Some (ti', [1; 2], ready) /\
    waited_by <$> ti' !! 1 = Some [2] /\
    waited_by <$> ti' !! 2 = Some [kSentinelTxnId].
Proof.
  assert (Hres : resolvable [2; 1] example_two_cycle).
  { split.
    - apply (bool_decide_unpack _). vm_compute. reflexivity.
    - intros s Hs. apply elem_of_cons in Hs as [->|Hs];
        [|apply list_elem_of_singleton in Hs as ->];
        (eexists; split; [reflexivity|split; reflexivity]). }
  assert (Hlen : (2 <= length [2; 1])%nat) by (simpl; lia).
  assert (Hsent : kSentinelTxnId ∉ [2; 1]).
  { apply (bool_decide_unpack _). vm_compute. reflexivity. }
  split; [exact Hres|]. split; [exact Hlen|]. split; [exact Hsent|].
  destruct (ResolveDeadlock_rewrites_into_path example_two_cycle [2; 1] Hres Hlen Hsent)
    as (ti' & ready & Hrun & _).
  exists ti', ready. split; [exact Hrun|].
  vm_compute in Hrun. injection Hrun as <- <-. split; reflexivity.
Defined.

(** C1 as stated fails: no edge is added for the last member of the sorted
    component, so not every member has one member in its slots afterwards;
    in the cycle of the txns 1 and 2, the slot of 2 holds the sentinel. *)
Lemma ResolveDeadlock_adds_no_edge_for_last_member :
  ~ (forall (ti ti' : gmap Z TxnInfo) (ssc0 ssc : list TxnId) (ready : option TxnId),
       resolvable ssc0 ti -> (2 <= length ssc0)%nat ->
       ResolveDeadlock ti ssc0 = Some (ti', ssc, ready) ->
       forall s, s ∈ ssc ->
         exists info', ti' !! s = Some info' /\
           length (filter (fun w => w ∈ ssc) (waited_by info')) = 1%nat).
Proof.
  intros H.
  destruct (ResolveDeadlock example_two_cycle [1; 2]) as [[[ti' ssc] ready]|] eqn:Hrun;
    [|vm_compute in Hrun; discriminate Hrun].
  assert (Hres : resolvable [1; 2] example_two_cycle).
  { split.
    - apply (bool_decide_unpack _). vm_compute. reflexivity.
    - intros s Hs. apply elem_of_cons in Hs as [->|Hs];
        [|apply list_elem_of_singleton in Hs as ->];
        (eexists; split; [reflexivity|split; reflexivity]). }
  specialize (H example_two_cycle ti' [1; 2] ssc ready Hres (le_n _) Hrun).
  vm_compute in Hrun. injection Hrun as <- <- <-.
  destruct (H 2) as (info' & Hinfo' & Hlen).
  { apply (bool_decide_unpack _). vm_compute. reflexivity. }
  vm_compute in Hinfo'. injection Hinfo' as <-.
  vm_compute in Hlen. discriminate Hlen.
Qed.




(* ===================================================================== *)
(** * Properties of depth-first traversals                               *)
(* ===================================================================== *)

Module Graph_facts.
Import Graph.

Section WithSuccessors.
Variable succs : Z -> list Z.

Local Abbreviation edge := (Graph.edge succs).
Local Abbreviation path_avoiding := (Graph.path_avoiding succs).
Local Abbreviation reach := (Graph.reach succs).
Local Abbreviation traverse := (Graph.traverse succs).
Local Abbreviation finish_order := (Graph.finish_order succs).

Implicit Types (S : gset Z) (x y z n u v : Z) (l ns : list Z).

Lemma not_elem_of_add S y n : y ∉ S -> y <> n -> y ∉ S ∪ {[n]}.
Proof. intros Hy Hne [?|?%elem_of_singleton]%elem_of_union; done. Qed.

Lemma not_elem_of_add_inv S y n : y ∉ S ∪ {[n]} -> y ∉ S.
Proof. intros Hy Hy'. apply Hy, elem_of_union. by left. Qed.

Lemma elem_of_add_here S n : n ∈ S ∪ {[n]}.
Proof. apply elem_of_union. right. by apply elem_of_singleton. Qed.

Lemma elem_of_add_there S n y : y ∈ S -> y ∈ S ∪ {[n]}.
Proof. intros ?. apply elem_of_union. by left. Qed.

Lemma subseteq_add S n : S ⊆ S ∪ {[n]}.
Proof. intros y. apply elem_of_add_there. Qed.

(** ** Paths *)

Lemma path_mono S1 S2 x z : S1 ⊆ S2 -> path_avoiding S2 x z -> path_avoiding S1 x z.
Proof.
  intros Hsub. induction 1 as [x|x y z He Hy _ IH]; [constructor|].
  apply path_step with y; [done| |done]. intros Hy'. by apply Hy, Hsub.
Qed.

Lemma path_trans S x y z :
  path_avoiding S x y -> path_avoiding S y z -> path_avoiding S x z.
Proof.
  induction 1 as [x|x y' y He Hy _ IH]; [done|].
  intros Hyz. apply path_step with y'; auto.
Qed.

Lemma path_end_outside S x z : path_avoiding S x z -> x = z \/ z ∉ S.
Proof.
  induction 1 as [x|x y z He Hy _ IH]; [by left|].
  right. destruct IH as [<-|?]; done.
Qed.

Lemma path_single S x y : edge x y -> y ∉ S -> path_avoiding S x y.
Proof. intros He Hy. apply path_step with y; [done..|constructor]. Qed.

(** A path either avoids [n] or can be restarted at [n]. *)
Lemma path_restart S n x z :
  path_avoiding S x z ->
  path_avoiding (S ∪ {[n]}) x z \/ path_avoiding (S ∪ {[n]}) n z.
Proof.
  induction 1 as [x|x y z He Hy _ IH]; [left; constructor|].
  destruct (decide (y = n)) as [->|Hne].
  - right. by destruct IH.
  - destruct IH as [IH|IH]; [left|by right].
    apply path_step with y; [done|by apply not_elem_of_add|done].
Qed.

(** A path either avoids [n] or reaches [n]. *)
Lemma path_through S n x z :
  path_avoiding S x z ->
  path_avoiding (S ∪ {[n]}) x z \/ path_avoiding S x n.
Proof.
  induction 1 as [x|x y z He Hy _ IH]; [left; constructor|].
  destruct (decide (y = n)) as [->|Hne].
  - right. by apply path_single.
  - destruct IH as [IH|IH]; [left|right].
    + apply path_step with y; [done|by apply not_elem_of_add|done].
    + by apply path_step with y.
Qed.

(** A path that leaves from outside a set closed under paths either stays
    outside of it or ends in it. *)
Lemma path_closed S S1 x z :
  S ⊆ S1 ->
  (forall y w, y ∈ S1 -> y ∉ S -> path_avoiding S y w -> w ∈ S1) ->
  path_avoiding S x z ->
  path_avoiding S1 x z \/ z ∈ S1.
Proof.
  intros Hsub Hclosed. induction 1 as [x|x y z He Hy Hyz IH]; [left; constructor|].
  destruct (decide (y ∈ S1)) as [Hy1|Hy1].
  - right. by apply (Hclosed y).
  - destruct IH as [IH|IH]; [left|by right]. by apply path_step with y.
Qed.

(** ** What a traversal marks and finishes *)

Lemma traverse_marks S ns S' l :
  traverse S ns S' l ->
  S ⊆ S' /\ (forall z, z ∈ l <-> z ∈ S' /\ z ∉ S) /\ NoDup l.
Proof.
  induction 1 as [S|S n ns S' l Hn _ IH|S n ns S1 l1 S' l2 Hn _ IH1 _ IH2].
  - split; [done|]. split; [|constructor]. intros z. split; [by intros ?%elem_of_nil|].
    intros [? ?]. done.
  - done.
  - destruct IH1 as (Hs1 & Hl1 & Hnd1), IH2 as (Hs2 & Hl2 & Hnd2).
    assert (HnS1 : n ∈ S1).
    { apply Hs1, elem_of_union. right. by apply elem_of_singleton. }
    assert (HS1 : S ⊆ S1).
    { intros w Hw. apply Hs1, elem_of_union. by left. }
    split; [by transitivity S1|]. split.
    + intros z. rewrite elem_of_app, elem_of_cons, Hl1, Hl2. split.
      * intros [[Hz1 Hz]|[->|[Hz2 Hz1]]].
        -- split; [by apply Hs2|]. intros Hz'. apply Hz, elem_of_union. by left.
        -- split; [by apply Hs2|done].
        -- split; [done|]. intros Hz'. by apply Hz1, HS1.
      * intros [Hz' Hz]. destruct (decide (z = n)) as [->|Hne]; [by right; left|].
        destruct (decide (z ∈ S1)) as [Hz1|Hz1].
        -- left. split; [done|]. intros [?|?%elem_of_singleton]%elem_of_union; done.
        -- right. right. done.
    + apply NoDup_app. split; [done|]. split.
      * intros z Hz1 Hz2. apply Hl1 in Hz1 as [Hz1 Hz1'].
        apply elem_of_cons in Hz2 as [->|Hz2].
        -- apply Hz1', elem_of_union. right. by apply elem_of_singleton.
        -- apply Hl2 in Hz2 as [_ ?]. done.
      * apply NoDup_cons. split; [|done]. intros Hz. apply Hl2 in Hz as [_ Hz]. done.
Qed.

Lemma visit_reaches_aux S n w :
  n ∉ S ->
  (w ∈ S ∪ {[n]} \/
   exists m, m ∈ succs n /\ (m ∉ S ∪ {[n]}) /\ path_avoiding (S ∪ {[n]}) m w) <->
  (w ∈ S \/ path_avoiding S n w).
Proof.
  intros Hn. split.
  - intros [Hw|(m & Hm & Hm' & Hp)].
    + apply elem_of_union in Hw as [?|Hw%elem_of_singleton]; [by left|].
      subst w. right. constructor.
    + right. apply path_step with m; [done|by eapply not_elem_of_add_inv|].
      eapply path_mono; [apply subseteq_add|done].
  - intros [?|Hp]; [left; by apply elem_of_add_there|].
    assert (Hp' : path_avoiding (S ∪ {[n]}) n w).
    { by destruct (path_restart S n n w Hp). }
    inversion Hp' as [|? m ? He Hm Hmw]; subst; [left; apply elem_of_add_here|].
    right. by exists m.
Qed.

(** The white-path property: the loop marks what its unmarked successors
    reach outside the marked set. *)
Lemma traverse_reaches S ns S' l :
  traverse S ns S' l ->
  forall z, z ∈ S' <-> z ∈ S \/ exists n, n ∈ ns /\ (n ∉ S) /\ path_avoiding S n z.
Proof.
  induction 1 as [S|S n ns S' l Hn _ IH|S n ns S1 l1 S' l2 Hn Hin IH1 Hrest IH2]; intros z.
  - split; [by left|]. intros [?|(n & ?%elem_of_nil & _)]; done.
  - rewrite IH. split; (intros [?|(m & Hm & Hm' & Hp)]; [by left|right]).
    + exists m. split; [by right|done].
    + apply elem_of_cons in Hm as [->|Hm]; [done|]. by exists m.
  - assert (Hstar : forall w, w ∈ S1 <-> w ∈ S \/ path_avoiding S n w).
    { intros w. rewrite IH1. by apply visit_reaches_aux. }
    rewrite IH2. split.
    + intros [Hz|(m & Hm & Hm' & Hp)].
      * apply Hstar in Hz as [?|?]; [by left|right]. exists n. split; [left|done].
      * right. exists m. split; [by right|]. apply traverse_marks in Hin as (Hs1 & _).
        assert (HS1 : S ⊆ S1) by (intros y Hy; by apply Hs1, elem_of_add_there).
        split; [intros Hm''; by apply Hm', HS1|]. by eapply path_mono.
    + intros [Hz|(m & Hm & Hm' & Hp)].
      * left. apply Hstar. by left.
      * apply elem_of_cons in Hm as [->|Hm]; [left; apply Hstar; by right|].
        destruct (decide (m ∈ S1)) as [Hm1|Hm1].
        { left. apply Hstar. right. apply Hstar in Hm1 as [?|Hm1]; [done|].
          by apply path_trans with m. }
        destruct (path_closed S S1 m z) as [Hp'|Hz]; [| |done| |by left].
        { intros w' Hw'. apply Hstar. by left. }
        { intros y w Hy Hy' Hyw. apply Hstar. right.
          apply Hstar in Hy as [?|Hy]; [done|]. by apply path_trans with y. }
        right. by exists m.
Qed.

(** What one visit marks: the nodes that [n] reaches outside [S]. *)
Lemma traverse_visit_reaches S n S1 l1 :
  n ∉ S -> traverse (S ∪ {[n]}) (succs n) S1 l1 ->
  forall w, w ∈ S1 <-> w ∈ S \/ path_avoiding S n w.
Proof.
  intros Hn Htr w. rewrite (traverse_reaches _ _ _ _ Htr). by apply visit_reaches_aux.
Qed.

Lemma before_app_l l1 l2 v z : before l1 v z -> before (l1 ++ l2) v z.
Proof.
  intros (i & j & Hi & Hj & Hij). exists i, j.
  split; [by apply lookup_app_l_Some|]. split; [by apply lookup_app_l_Some|done].
Qed.

Lemma before_app_r l1 l2 v z : before l2 v z -> before (l1 ++ l2) v z.
Proof.
  intros (i & j & Hi & Hj & Hij). exists (length l1 + i)%nat, (length l1 + j)%nat.
  rewrite !lookup_app_r by lia.
  replace (length l1 + i - length l1)%nat with i by lia.
  replace (length l1 + j - length l1)%nat with j by lia.
  split; [done|]. split; [done|lia].
Qed.

Lemma before_app_lr l1 l2 v z : v ∈ l1 -> z ∈ l2 -> before (l1 ++ l2) v z.
Proof.
  intros [i Hi]%list_elem_of_lookup [j Hj]%list_elem_of_lookup.
  exists i, (length l1 + j)%nat.
  split; [by apply lookup_app_l_Some|]. rewrite lookup_app_r by lia.
  replace (length l1 + j - length l1)%nat with j by lia.
  split; [done|]. apply lookup_lt_Some in Hi. lia.
Qed.

Lemma before_refl l v : v ∈ l -> before l v v.
Proof. intros [i Hi]%list_elem_of_lookup. by exists i, i. Qed.

(** The order in which the loop finishes the nodes. *)
Lemma traverse_finish_order S ns S' l :
  traverse S ns S' l -> finish_order S l.
Proof.
  induction 1 as [S|S n ns S' l Hn _ IH|S n ns S1 l1 S' l2 Hn Hin IH1 Hrest IH2].
  - intros u v Hu. by apply elem_of_nil in Hu.
  - done.
  - pose proof (traverse_visit_reaches S n S1 l1 Hn Hin) as Hstar.
    pose proof (traverse_marks _ _ _ _ Hin) as (Hs1 & Hl1 & _).
    pose proof (traverse_marks _ _ _ _ Hrest) as (Hs2 & Hl2 & _).
    assert (Hfirst : forall w, w ∈ l1 ++ [n] <-> w ∈ S1 /\ w ∉ S).
    { intros w. rewrite elem_of_app, list_elem_of_singleton, Hl1.
      split.
      - intros [[Hw1 Hw]|Hw]; [|subst w].
        + split; [done|]. by eapply not_elem_of_add_inv.
        + split; [|done]. apply Hs1, elem_of_add_here.
      - intros [Hw1 Hw]. destruct (decide (w = n)) as [->|Hne]; [by right|].
        left. split; [done|]. by apply not_elem_of_add. }
    intros u v Hu Hv Huv.
    replace (l1 ++ n :: l2) with ((l1 ++ [n]) ++ l2) in * by (by rewrite <- app_assoc).
    apply elem_of_app in Hu as [Hu|Hu].
    + (* [u] was finished by the visit of [n] *)
      pose proof Hu as Hu'. apply Hfirst in Hu' as [Hu1 HuS].
      apply Hstar in Hu1 as [?|Hnu]; [done|].
      assert (Hv1 : v ∈ l1 ++ [n]).
      { apply Hfirst. split.
        - apply Hstar. right. by apply path_trans with u.
        - destruct (path_end_outside _ _ _ Huv) as [<-|?]; done. }
      assert (Hlast : forall w, w ∈ l1 ++ [n] -> before ((l1 ++ [n]) ++ l2) w n).
      { intros w Hw. apply before_app_l. apply elem_of_app in Hw as [Hw|Hw].
        - apply before_app_lr; [done|by apply list_elem_of_singleton].
        - apply list_elem_of_singleton in Hw as ->. apply before_refl.
          apply elem_of_app. right. by apply list_elem_of_singleton. }
      destruct (path_through S n u v Huv) as [Hp|Hp].
      * destruct (decide (u = n)) as [->|Hun].
        { exists n. split; [apply elem_of_app; by left|].
          split; [constructor|]. split; [constructor|]. by apply Hlast. }
        assert (Hul1 : u ∈ l1).
        { apply elem_of_app in Hu as [?|?%list_elem_of_singleton]; done. }
        assert (Hvl1 : v ∈ l1).
        { apply Hl1. destruct (path_end_outside _ _ _ Hp) as [<-|?]; [by apply Hl1|].
          split; [|done]. apply Hfirst in Hv1 as [? _]. done. }
        destruct (IH1 u v Hul1 Hvl1 Hp) as (z & Hz & Huz & Hzu & Hb).
        exists z. split; [apply elem_of_app; left; apply elem_of_app; by left|].
        split; [eapply path_mono; [apply subseteq_add|done]|].
        split; [eapply path_mono; [apply subseteq_add|done]|].
        by apply before_app_l, before_app_l.
      * exists n. split; [apply elem_of_app; left; apply elem_of_app; right;
                          by apply list_elem_of_singleton|].
        split; [done|]. split; [done|]. by apply Hlast.
    + (* [u] was finished afterwards *)
      apply Hl2 in Hu as Hu'. destruct Hu' as [Hu2 Hu1].
      apply elem_of_app in Hv as [Hv|Hv].
      * exists u. split; [apply elem_of_app; by right|].
        split; [constructor|]. split; [constructor|]. by apply before_app_lr.
      * apply Hl2 in Hv as Hv'. destruct Hv' as [Hv2 Hv1].
        assert (HS1 : S ⊆ S1) by (intros w' Hw'; apply Hstar; by left).
        destruct (path_closed S S1 u v) as [Hp|?]; [done| |done| |done].
        { intros y w Hy Hy' Hyw. apply Hstar. right.
          apply Hstar in Hy as [?|Hy]; [done|]. by apply path_trans with y. }
        destruct (IH2 u v Hu Hv Hp) as (z & Hz & Huz & Hzu & Hb).
        exists z. split; [apply elem_of_app; by right|].
        split; [by eapply path_mono|].
        split; [by eapply path_mono|].
        by apply before_app_r.
Qed.

End WithSuccessors.

End Graph_facts.

(* ===================================================================== *)
(** * The first traversal: transpose and finishing order                 *)
(* ===================================================================== *)

Module Phase1_facts.
Import DeadlockResolver Pass Graph Graph_facts Resolve_facts DDRLockManager_facts.

Implicit Types (snap : gmap Z TxnInfo) (aux : gmap Z Node) (k x n u : Z).

(** ** Marked nodes *)

Lemma elem_of_marked aux k :
  k ∈ marked aux <-> exists node, aux !! k = Some node /\ visited node = true.
Proof.
  unfold marked. rewrite elem_of_dom. split.
  - intros [node Hn]. apply map_lookup_filter_Some in Hn as [? ?]. eauto.
  - intros (node & ? & ?). exists node. by apply map_lookup_filter_Some.
Qed.

Lemma marked_empty : marked ∅ = ∅.
Proof.
  apply set_eq. intros k. rewrite elem_of_marked. split.
  - intros (node & Hn & _). by rewrite lookup_empty in Hn.
  - intros ?%not_elem_of_empty. done.
Qed.

Lemma marked_try_emplace aux k c : marked (try_emplace_node k c aux) = marked aux.
Proof.
  unfold try_emplace_node. destruct (aux !! k) as [node|] eqn:Hk; [done|].
  apply set_eq. intros j. rewrite !elem_of_marked. split.
  - intros (node & Hn & Hv). rewrite lookup_insert in Hn.
    destruct (decide (k = j)) as [->|]; [|eauto].
    injection Hn as <-. done.
  - intros (node & Hn & Hv). exists node. split; [|done].
    rewrite lookup_insert_ne; [done|]. intros ->. congruence.
Qed.

Lemma marked_push_redge aux k x node :
  aux !! k = Some node -> marked (<[k := push_redge x node]> aux) = marked aux.
Proof.
  intros Hk. apply set_eq. intros j. rewrite !elem_of_marked.
  destruct (decide (k = j)) as [->|Hne].
  - rewrite lookup_insert_eq. split.
    + intros (n' & [= <-] & Hv). eauto.
    + intros (n' & Hn & Hv). replace n' with node in * by congruence. eauto.
  - by rewrite lookup_insert_ne.
Qed.

Lemma marked_set_visited aux k node :
  aux !! k = Some node -> marked (alter set_visited k aux) = marked aux ∪ {[k]}.
Proof.
  intros Hk. apply set_eq. intros j.
  rewrite elem_of_union, elem_of_singleton, !elem_of_marked, lookup_alter.
  destruct (decide (k = j)) as [->|Hne].
  - rewrite Hk. simpl. split; [by right|]. intros _. eauto.
  - split; [by left|]. intros [?|?]; [done|congruence].
Qed.

Lemma marked_subseteq_dom snap aux : aux_ok snap aux -> marked aux ⊆ dom snap.
Proof.
  intros Hok k (node & Hn & _)%elem_of_marked.
  destruct (Hok k node Hn) as (_ & _ & info & Hinfo & _).
  apply elem_of_dom. eauto.
Qed.

(** ** The nodes stay in step with the snapshot *)

Lemma aux_ok_empty snap : aux_ok snap ∅.
Proof. intros k node Hn. by rewrite lookup_empty in Hn. Qed.

Lemma aux_ok_try_emplace snap aux k info :
  aux_ok snap aux -> snap !! k = Some info ->
  aux_ok snap (try_emplace_node k (is_complete info) aux).
Proof.
  intros Hok Hinfo. unfold try_emplace_node.
  destruct (aux !! k) as [node|] eqn:Hk; [done|].
  intros j node. rewrite lookup_insert.
  destruct (decide (k = j)) as [->|]; [|apply Hok].
  intros [= <-]. simpl. eauto.
Qed.

Lemma aux_ok_insert snap aux k node f :
  aux_ok snap aux -> aux !! k = Some node ->
  node_id (f node) = node_id node -> comp_type (f node) = comp_type node ->
  node_is_complete (f node) = node_is_complete node ->
  aux_ok snap (<[k := f node]> aux).
Proof.
  intros Hok Hk Hid Hct Hc j node'. rewrite lookup_insert.
  destruct (decide (k = j)) as [->|]; [|apply Hok].
  intros [= <-]. rewrite Hid, Hct, Hc. by apply Hok.
Qed.

Lemma aux_ok_set_visited snap aux k :
  aux_ok snap aux -> aux_ok snap (alter set_visited k aux).
Proof.
  intros Hok j node'. rewrite lookup_alter.
  destruct (decide (k = j)) as [->|]; [|apply Hok].
  destruct (aux !! j) as [node|] eqn:Hj; simpl; [|done].
  intros [= <-]. simpl. by apply Hok.
Qed.

Lemma try_emplace_node_lookup aux k c :
  exists node, try_emplace_node k c aux !! k = Some node /\
    (aux !! k = Some node \/ (aux !! k = None /\ node = new_Node k c)).
Proof.
  unfold try_emplace_node. destruct (aux !! k) as [node|] eqn:Hk.
  - exists node. eauto.
  - exists (new_Node k c). rewrite lookup_insert_eq. eauto.
Qed.

(** ** Recorded edges *)

Lemma redges_of_try_emplace aux k c j :
  redges_of (try_emplace_node k c aux) j = redges_of aux j.
Proof.
  unfold try_emplace_node, redges_of. destruct (aux !! k) as [node|] eqn:Hk; [done|].
  rewrite lookup_insert. destruct (decide (k = j)) as [->|]; [|done].
  by rewrite Hk.
Qed.

Lemma redges_of_push aux k x node j :
  aux !! k = Some node ->
  redges_of (<[k := push_redge x node]> aux) j =
  if decide (k = j) then redges_of aux j ++ [x] else redges_of aux j.
Proof.
  intros Hk. unfold redges_of. rewrite lookup_insert.
  destruct (decide (k = j)) as [->|]; [|done]. by rewrite Hk.
Qed.

Lemma redges_of_set_visited aux k j :
  redges_of (alter set_visited k aux) j = redges_of aux j.
Proof.
  unfold redges_of. rewrite lookup_alter.
  destruct (decide (k = j)) as [->|]; [|done]. by destruct (aux !! j).
Qed.

Lemma elem_of_succs snap x w :
  w ∈ succs snap x <->
  exists info, snap !! x = Some info /\ w ∈ waited_by info /\ w <> kSentinelTxnId.
Proof.
  unfold succs, wb_of. rewrite list_elem_of_filter. split.
  - intros [Hw Hin]. destruct (snap !! x) as [info|]; [eauto|].
    by apply elem_of_nil in Hin.
  - intros (info & -> & ? & ?). done.
Qed.

(** ** Counting what is left to mark *)

Lemma unmarked_size_add (D M : gset Z) n :
  n ∈ D -> n ∉ M -> (size (D ∖ (M ∪ {[n]})) < size (D ∖ M))%nat.
Proof.
  intros Hn Hm. apply subset_size. split.
  - intros y [Hy Hy']%elem_of_difference. apply elem_of_difference. split; [done|].
    intros ?. apply Hy', elem_of_union. by left.
  - intros Hsub. assert (Hin : n ∈ D ∖ M) by (by apply elem_of_difference).
    apply Hsub, elem_of_difference in Hin as [_ Hin]. apply Hin, elem_of_union.
    right. by apply elem_of_singleton.
Qed.

Lemma unmarked_size_mono (D M M' : gset Z) :
  M ⊆ M' -> (size (D ∖ M') <= size (D ∖ M))%nat.
Proof.
  intros Hsub. apply subseteq_size.
  intros y [Hy Hy']%elem_of_difference. apply elem_of_difference. split; [done|].
  intros ?. by apply Hy', Hsub.
Qed.

(** ** The descent *)

Lemma FindTopoOrderAndTranspose_unfold snap f txn st :
  FindTopoOrderAndTranspose snap (S f) txn st =
  match foldlM (visit_neighbor snap (FindTopoOrderAndTranspose snap f) (id txn))
               (waited_by txn) st with
  | Some st' => Some (st'.1, st'.2 ++ [id txn])
  | None => None
  end.
Proof. reflexivity. Qed.

Lemma filter_sentinel_cons_keep n (ns : list Z) :
  n <> kSentinelTxnId ->
  filter (fun w => w <> kSentinelTxnId) (n :: ns) =
  n :: filter (fun w => w <> kSentinelTxnId) ns.
Proof. intros Hn. by rewrite filter_cons_True. Qed.

Lemma filter_sentinel_cons_drop (ns : list Z) :
  filter (fun w => w <> kSentinelTxnId) (kSentinelTxnId :: ns) =
  filter (fun w => w <> kSentinelTxnId) ns.
Proof. by rewrite filter_cons_False by (intros H; by apply H). Qed.

Section Descent.
Variable snap : gmap Z TxnInfo.
Hypothesis Hsnap : snapshot_ok snap.

Lemma neighbors_spec_holds f x :
  (forall x' txn' aux topo,
     aux_ok snap aux -> snap !! x' = Some txn' -> x' ∈ marked aux ->
     (size (dom snap ∖ marked aux) < f)%nat ->
     descent_spec snap x' aux topo (FindTopoOrderAndTranspose snap f txn' (aux, topo))) ->
  forall ns aux topo,
    aux_ok snap aux -> x ∈ marked aux ->
    (forall w, w ∈ ns -> w <> kSentinelTxnId -> is_Some (snap !! w)) ->
    (size (dom snap ∖ marked aux) < S f)%nat ->
    neighbors_spec snap x ns aux topo
      (foldlM (visit_neighbor snap (FindTopoOrderAndTranspose snap f) x) ns (aux, topo)).
Proof.
  intros IHf. induction ns as [|n ns IH]; intros aux topo Hok Hx Hns Hsize.
  - exists aux, []. rewrite app_nil_r. split; [done|]. split; [constructor|].
    split; [done|]. intros k u. split; [by left|].
    intros [?|[[?%elem_of_nil _]|[_ ?%elem_of_nil]]]; done.
  - unfold neighbors_spec in *. rewrite foldlM_cons. unfold visit_neighbor at 1.
    assert (Hns' : forall w, w ∈ ns -> w <> kSentinelTxnId -> is_Some (snap !! w)).
    { intros w Hw. apply Hns. by right. }
    destruct (Z.eqb_spec n kSentinelTxnId) as [->|Hn].
    { rewrite filter_sentinel_cons_drop.
      destruct (IH aux topo Hok Hx Hns' Hsize) as (aux' & l & ? & ? & ? & ?).
      exists aux', l. done. }
    destruct (Hns n) as [info Hinfo]; [left|done|].
    rewrite Hinfo. simpl.
    rewrite (snapshot_ids _ Hsnap n info Hinfo).
    destruct (try_emplace_node_lookup aux n (is_complete info)) as (node & Hnode & Horigin).
    rewrite Hnode. simpl.
    set (aux1 := try_emplace_node n (is_complete info) aux) in *.
    set (aux2 := <[n := push_redge x node]> aux1).
    assert (Hok1 : aux_ok snap aux1) by (by apply aux_ok_try_emplace).
    assert (Hok2 : aux_ok snap aux2) by (by apply aux_ok_insert).
    assert (Hm2 : marked aux2 = marked aux).
    { subst aux2 aux1. by rewrite marked_push_redge, marked_try_emplace. }
    assert (Hr2 : forall k, redges_of aux2 k =
                    if decide (n = k) then redges_of aux k ++ [x] else redges_of aux k).
    { intros k. subst aux2 aux1. rewrite redges_of_push by done.
      by rewrite redges_of_try_emplace. }
    rewrite filter_sentinel_cons_keep by done.
    destruct (visited node) eqn:Hv.
    + (* the neighbour is marked already *)
      assert (Hnm : n ∈ marked aux).
      { apply elem_of_marked. destruct Horigin as [?|[_ ->]]; [eauto|done]. }
      destruct (IH aux2 topo Hok2) as (aux' & l & Hres & Htr & Hok' & Hred);
        [by rewrite Hm2|done|by rewrite Hm2|].
      exists aux', l. split; [done|]. rewrite Hm2 in Htr.
      split; [by apply traverse_skip|]. split; [done|].
      intros k u. rewrite Hred, Hr2, elem_of_cons.
      destruct (decide (n = k)) as [->|Hnk].
      * rewrite elem_of_app, list_elem_of_singleton. naive_solver.
      * naive_solver.
    + (* the neighbour is visited now *)
      assert (Hnm : n ∉ marked aux).
      { intros (node' & Hn' & Hv')%elem_of_marked.
        destruct Horigin as [?|[? _]]; congruence. }
      set (aux3 := alter set_visited n aux2).
      assert (Hnode2 : aux2 !! n = Some (push_redge x node)).
      { subst aux2. by rewrite lookup_insert_eq. }
      assert (Hm3 : marked aux3 = marked aux ∪ {[n]}).
      { subst aux3. by rewrite (marked_set_visited _ _ _ Hnode2), Hm2. }
      assert (Hok3 : aux_ok snap aux3) by (by apply aux_ok_set_visited).
      assert (Hnd : n ∈ dom snap) by (apply elem_of_dom; eauto).
      destruct (IHf n info aux3 topo Hok3 Hinfo) as (aux4 & l1 & Hres1 & Htr1 & Hok4 & Hred1).
      { rewrite Hm3. apply elem_of_union. right. by apply elem_of_singleton. }
      { rewrite Hm3. pose proof (unmarked_size_add (dom snap) (marked aux) n Hnd Hnm). lia. }
      rewrite Hres1.
      pose proof (traverse_marks _ _ _ _ _ Htr1) as (Hsub1 & _ & _).
      assert (Hsub : marked aux ⊆ marked aux4).
      { intros y Hy. apply Hsub1. rewrite Hm3. apply elem_of_union. by left. }
      destruct (IH aux4 (topo ++ l1 ++ [n]) Hok4) as (aux' & l2 & Hres2 & Htr2 & Hok' & Hred2);
        [by apply Hsub|done| |].
      { pose proof (unmarked_size_mono (dom snap) _ _ Hsub). lia. }
      exists aux', (l1 ++ n :: l2). split.
      { rewrite Hres2. do 2 f_equal. rewrite <- !app_assoc. done. }
      rewrite Hm3 in Htr1.
      split; [by eapply traverse_visit|]. split; [done|].
      intros k u. rewrite Hred2, Hred1. subst aux3.
      rewrite redges_of_set_visited, Hr2, elem_of_cons, elem_of_app, elem_of_cons.
      destruct (decide (n = k)) as [->|Hnk].
      * rewrite elem_of_app, list_elem_of_singleton. naive_solver.
      * naive_solver.
Qed.

Lemma descent_spec_holds fuel :
  forall x txn aux topo,
    aux_ok snap aux -> snap !! x = Some txn -> x ∈ marked aux ->
    (size (dom snap ∖ marked aux) < fuel)%nat ->
    descent_spec snap x aux topo (FindTopoOrderAndTranspose snap fuel txn (aux, topo)).
Proof.
  induction fuel as [|f IHf]; intros x txn aux topo Hok Htxn Hx Hsize; [lia|].
  rewrite FindTopoOrderAndTranspose_unfold.
  rewrite (snapshot_ids _ Hsnap x txn Htxn).
  destruct (neighbors_spec_holds f x IHf (waited_by txn) aux topo Hok Hx)
    as (aux' & l & Hres & Htr & Hok' & Hred); [|done|].
  { intros w Hw Hne. by apply (snapshot_closed _ Hsnap x txn). }
  assert (Hsuccs : filter (fun w => w <> kSentinelTxnId) (waited_by txn) = succs snap x).
  { unfold succs, wb_of. by rewrite Htxn. }
  rewrite Hsuccs in Htr, Hred.
  exists aux', l. rewrite Hres. simpl. split; [by rewrite <- app_assoc|].
  split; [done|]. split; [done|].
  intros k u. rewrite Hred. naive_solver.
Qed.

End Descent.

(** ** The loop over the snapshot *)

Lemma rev_reverse {A} (l : list A) : rev l = reverse l.
Proof. unfold reverse. apply rev_alt. Qed.

Lemma before_rev l v z : before l v z -> before (rev l) z v.
Proof.
  intros (i & j & Hi & Hj & Hij). rewrite rev_reverse.
  pose proof (lookup_lt_Some _ _ _ Hi) as Hil.
  pose proof (lookup_lt_Some _ _ _ Hj) as Hjl.
  exists (length l - S j)%nat, (length l - S i)%nat.
  rewrite !reverse_lookup by lia.
  replace (length l - S (length l - S j))%nat with j by lia.
  replace (length l - S (length l - S i))%nat with i by lia.
  split; [done|]. split; [done|lia].
Qed.

Lemma visit_all_unfold snap fuel iter :
  visit_all snap fuel iter =
  match foldlM (visit_entry snap fuel) iter (∅, []) with
  | Some st => Some (st.1, rev st.2)
  | None => None
  end.
Proof. reflexivity. Qed.

Section Entries.
Variable snap : gmap Z TxnInfo.
Hypothesis Hsnap : snapshot_ok snap.
Variable fuel : nat.
Hypothesis Hfuel : (size snap < fuel)%nat.

Lemma visit_entries_spec iter :
  forall aux topo,
    aux_ok snap aux ->
    (forall k txn, (k, txn) ∈ iter -> snap !! k = Some txn) ->
    exists aux' l,
      foldlM (visit_entry snap fuel) iter (aux, topo) = Some (aux', topo ++ l) /\
      traverse (succs snap) (marked aux) iter.*1 (marked aux') l /\
      aux_ok snap aux' /\
      forall k u, u ∈ redges_of aux' k <->
        u ∈ redges_of aux k \/ (u ∈ l /\ k ∈ succs snap u).
Proof.
  induction iter as [|[k txn] iter IH]; intros aux topo Hok Hiter.
  - exists aux, []. rewrite app_nil_r. split; [done|]. split; [constructor|].
    split; [done|]. intros k u. split; [by left|]. intros [?|[?%elem_of_nil _]]; done.
  - rewrite foldlM_cons. unfold visit_entry at 1. simpl.
    assert (Htxn : snap !! k = Some txn) by (apply Hiter; left).
    assert (Hiter' : forall k txn, (k, txn) ∈ iter -> snap !! k = Some txn).
    { intros k' txn' Hin. apply Hiter. by right. }
    rewrite (snapshot_ids _ Hsnap k txn Htxn).
    destruct (try_emplace_node_lookup aux k (is_complete txn)) as (node & Hnode & Horigin).
    rewrite Hnode. simpl.
    set (aux1 := try_emplace_node k (is_complete txn) aux) in *.
    assert (Hok1 : aux_ok snap aux1) by (by apply aux_ok_try_emplace).
    assert (Hm1 : marked aux1 = marked aux) by apply marked_try_emplace.
    assert (Hr1 : forall j, redges_of aux1 j = redges_of aux j).
    { intros j. apply redges_of_try_emplace. }
    destruct (visited node) eqn:Hv.
    + assert (Hkm : k ∈ marked aux).
      { apply elem_of_marked. destruct Horigin as [?|[_ ->]]; [eauto|done]. }
      destruct (IH aux1 topo Hok1 Hiter') as (aux' & l & Hres & Htr & Hok' & Hred).
      exists aux', l. split; [done|]. rewrite Hm1 in Htr.
      split; [by apply traverse_skip|]. split; [done|].
      intros j u. by rewrite Hred, Hr1.
    + assert (Hkm : k ∉ marked aux).
      { intros (node' & Hn' & Hv')%elem_of_marked.
        destruct Horigin as [?|[? _]]; congruence. }
      set (aux3 := alter set_visited k aux1).
      assert (Hm3 : marked aux3 = marked aux ∪ {[k]}).
      { subst aux3. by rewrite (marked_set_visited _ _ _ Hnode), Hm1. }
      assert (Hok3 : aux_ok snap aux3) by (by apply aux_ok_set_visited).
      destruct (descent_spec_holds snap Hsnap fuel k txn aux3 topo Hok3 Htxn)
        as (aux4 & l1 & Hres1 & Htr1 & Hok4 & Hred1).
      { rewrite Hm3. apply elem_of_union. right. by apply elem_of_singleton. }
      { rewrite <- size_dom in Hfuel.
        pose proof (subseteq_size (dom snap ∖ marked aux3) (dom snap)) as Hle.
        assert (dom snap ∖ marked aux3 ⊆ dom snap).
        { intros y [? _]%elem_of_difference. done. }
        specialize (Hle ltac:(done)). lia. }
      rewrite Hres1.
      destruct (IH aux4 (topo ++ l1 ++ [k]) Hok4 Hiter')
        as (aux' & l2 & Hres2 & Htr2 & Hok' & Hred2).
      exists aux', (l1 ++ k :: l2). split.
      { rewrite Hres2. do 2 f_equal. rewrite <- !app_assoc. done. }
      rewrite Hm3 in Htr1.
      split; [by eapply traverse_visit|]. split; [done|].
      intros j u. rewrite Hred2, Hred1. subst aux3.
      rewrite redges_of_set_visited, Hr1, elem_of_app, elem_of_cons. naive_solver.
Qed.

Lemma visit_all_spec iter :
  iter ≡ₚ map_to_list snap ->
  exists aux topo,
    visit_all snap fuel iter = Some (aux, topo) /\ first_traversal_ok snap aux topo.
Proof.
  intros Hiter.
  assert (Hin : forall k txn, (k, txn) ∈ iter <-> snap !! k = Some txn).
  { intros k txn. rewrite Hiter. apply elem_of_map_to_list. }
  destruct (visit_entries_spec iter ∅ [] (aux_ok_empty snap)) as (aux & l & Hres & Htr & Hok & Hred).
  { intros k txn. apply Hin. }
  rewrite visit_all_unfold, Hres. simpl. exists aux, (rev l). split; [done|].
  rewrite marked_empty in Htr.
  pose proof (traverse_marks _ _ _ _ _ Htr) as (_ & Hl & Hnd).
  pose proof (traverse_reaches _ _ _ _ _ Htr) as Hreach.
  pose proof (traverse_finish_order _ _ _ _ _ Htr) as Hfin.
  assert (Hkeys : forall k, k ∈ iter.*1 <-> is_Some (snap !! k)).
  { intros k. rewrite list_elem_of_fmap. split.
    - intros ([k' txn] & -> & Hk). simpl. apply Hin in Hk. eauto.
    - intros [txn Hk]. exists (k, txn). split; [done|]. by apply Hin. }
  assert (Hmarked : forall k, k ∈ marked aux <-> is_Some (snap !! k)).
  { intros k. split.
    - intros Hk. apply (marked_subseteq_dom snap aux Hok), elem_of_dom in Hk. done.
    - intros Hk. apply Hreach. right. exists k.
      split; [by apply Hkeys|]. split; [apply not_elem_of_empty|constructor]. }
  assert (Hlk : forall k, k ∈ l <-> is_Some (snap !! k)).
  { intros k. rewrite Hl, Hmarked. split; [by intros [? _]|].
    intros ?. split; [done|apply not_elem_of_empty]. }
  split.
  - done.
  - intros k. split.
    + intros [node Hn]. destruct (Hok k node Hn) as (_ & _ & info & ? & _). eauto.
    + intros Hk. apply Hmarked, elem_of_marked in Hk as (node & ? & _). eauto.
  - rewrite rev_reverse. by rewrite reverse_Permutation.
  - intros k. rewrite rev_reverse, elem_of_reverse. apply Hlk.
  - intros k u. rewrite Hred. unfold redges_of at 1. rewrite lookup_empty.
    split.
    + intros [?%elem_of_nil|[_ ?]]; done.
    + intros Hk. right. split; [|done]. apply Hlk.
      apply elem_of_succs in Hk as (info & ? & _). eauto.
  - intros u v Hu Huv. rewrite rev_reverse, elem_of_reverse in Hu.
    assert (Hv : v ∈ l).
    { apply Hl. split; [|apply not_elem_of_empty]. apply Hreach. right.
      exists u. split; [by apply Hkeys, Hlk|]. split; [apply not_elem_of_empty|done]. }
    destruct (Hfin u v Hu Hv Huv) as (z & Hz & Huz & Hzu & Hb).
    exists z. split; [by split|]. by apply before_rev.
Qed.

End Entries.

End Phase1_facts.

(* ===================================================================== *)
(** * The second traversal: forming a component                          *)
(* ===================================================================== *)

Module Phase2_facts.
Import DeadlockResolver Pass Graph Graph_facts Phase1_facts.

Implicit Types (aux : gmap Z Node) (k z n u : Z).

(** ** Assigned nodes *)

Lemma elem_of_assigned aux k : k ∈ assigned aux <-> comp_type_of aux k <> UNASSIGNED.
Proof.
  unfold assigned, comp_type_of. rewrite elem_of_dom. split.
  - intros [node Hn]. apply map_lookup_filter_Some in Hn as [-> ?]. done.
  - destruct (aux !! k) as [node|] eqn:Hk; [|done].
    intros Hc. exists node. by apply map_lookup_filter_Some.
Qed.

Lemma not_elem_of_assigned aux k : k ∉ assigned aux <-> comp_type_of aux k = UNASSIGNED.
Proof.
  rewrite elem_of_assigned. split.
  - intros H. destruct (decide (comp_type_of aux k = UNASSIGNED)); [done|].
    by exfalso.
  - intros H Hn. by apply Hn.
Qed.

Lemma comp_type_of_insert aux k node j :
  comp_type_of (<[k := node]> aux) j =
  if decide (k = j) then comp_type node else comp_type_of aux j.
Proof.
  unfold comp_type_of. rewrite lookup_insert. by destruct (decide (k = j)).
Qed.

Lemma assigned_insert_stable aux k node :
  assigned (<[k := set_comp_type STABLE node]> aux) = assigned aux ∪ {[k]}.
Proof.
  apply set_eq. intros j.
  rewrite elem_of_union, elem_of_singleton, !elem_of_assigned, comp_type_of_insert.
  destruct (decide (k = j)) as [->|Hne]; simpl.
  - split; [by right|done].
  - split; [by left|]. intros [?|?]; [done|congruence].
Qed.

(** ** Forgetting the components *)

Lemma erase_lookup aux k :
  erase aux !! k = set_comp_type UNASSIGNED <$> aux !! k.
Proof. unfold erase. apply lookup_fmap. Qed.

Lemma erase_insert aux k node c :
  aux !! k = Some node ->
  erase (<[k := set_comp_type c node]> aux) = erase aux.
Proof.
  intros Hk. apply map_eq. intros j. rewrite !erase_lookup, lookup_insert.
  destruct (decide (k = j)) as [->|]; [|done]. by rewrite Hk.
Qed.

Lemma erase_alter aux k c : erase (alter (set_comp_type c) k aux) = erase aux.
Proof.
  apply map_eq. intros j. rewrite !erase_lookup, lookup_alter.
  destruct (decide (k = j)) as [->|]; [|done]. by destruct (aux !! j).
Qed.

Lemma erase_ok aux0 :
  (forall k node, aux0 !! k = Some node -> comp_type node = UNASSIGNED) ->
  erase aux0 = aux0.
Proof.
  intros Hun. apply map_eq. intros k. rewrite erase_lookup.
  destruct (aux0 !! k) as [node|] eqn:Hk; simpl; [|done].
  f_equal. specialize (Hun k node Hk). destruct node; simpl in *. by subst.
Qed.

Lemma erase_node aux0 aux k node :
  erase aux = aux0 -> aux !! k = Some node ->
  aux0 !! k = Some (set_comp_type UNASSIGNED node).
Proof. intros <- Hk. by rewrite erase_lookup, Hk. Qed.

Lemma erase_is_Some aux0 aux k :
  erase aux = aux0 -> is_Some (aux0 !! k) -> is_Some (aux !! k).
Proof.
  intros <- [node Hk]. rewrite erase_lookup in Hk.
  destruct (aux !! k); [eauto|done].
Qed.

Lemma erase_redges aux0 aux k node :
  erase aux = aux0 -> aux !! k = Some node -> redges node = redges_of aux0 k.
Proof.
  intros He Hk. unfold redges_of. by rewrite (erase_node _ _ _ _ He Hk).
Qed.

Lemma erase_complete aux0 aux k node :
  erase aux = aux0 -> aux !! k = Some node -> node_is_complete node = complete_of aux0 k.
Proof.
  intros He Hk. unfold complete_of. by rewrite (erase_node _ _ _ _ He Hk).
Qed.

Lemma erase_dom aux0 aux : erase aux = aux0 -> dom aux = dom aux0.
Proof. intros <-. unfold erase. by rewrite dom_fmap_L. Qed.

Lemma assigned_subseteq_dom aux : assigned aux ⊆ dom aux.
Proof.
  intros k Hk. apply elem_of_assigned in Hk. unfold comp_type_of in Hk.
  apply elem_of_dom. destruct (aux !! k); [eauto|done].
Qed.

(** ** Stability of a set of nodes *)

Lemma all_stable_nil aux0 aux : all_stable aux0 aux [].
Proof. intros z Hz. by apply elem_of_nil in Hz. Qed.

Lemma all_stable_app aux0 aux (l1 l2 : list Z) :
  all_stable aux0 aux (l1 ++ l2) <-> all_stable aux0 aux l1 /\ all_stable aux0 aux l2.
Proof.
  unfold all_stable. split.
  - intros H. split; intros z Hz; apply H, elem_of_app; [by left|by right].
  - intros [H1 H2] z [Hz|Hz]%elem_of_app; [by apply H1|by apply H2].
Qed.

Lemma all_stable_cons aux0 aux k (l : list Z) :
  all_stable aux0 aux (k :: l) <->
  (complete_of aux0 k = true /\
   forall u, u ∈ redges_of aux0 k -> comp_type_of aux u <> UNSTABLE) /\
  all_stable aux0 aux l.
Proof.
  unfold all_stable. split.
  - intros H. split; [apply H, elem_of_cons; by left|].
    intros z Hz. apply H, elem_of_cons. by right.
  - intros [H1 H2] z [->|Hz]%elem_of_cons; [done|by apply H2].
Qed.

Lemma all_stable_ext aux0 aux aux' (l : list Z) :
  (forall u, comp_type_of aux' u <> UNSTABLE <-> comp_type_of aux u <> UNSTABLE) ->
  all_stable aux0 aux' l <-> all_stable aux0 aux l.
Proof.
  intros Heq. unfold all_stable. split; intros H z Hz; destruct (H z Hz) as [Hc Hu].
  - split; [done|]. intros u Hin. by apply Heq, Hu.
  - split; [done|]. intros u Hin. by apply Heq, Hu.
Qed.

Lemma all_stable_Permutation aux0 aux (l l' : list Z) :
  l ≡ₚ l' -> all_stable aux0 aux l -> all_stable aux0 aux l'.
Proof. intros Hp H z Hz. apply H. by rewrite Hp. Qed.

Lemma not_unstable_update aux aux' (L : list Z) :
  (forall z, comp_type_of aux' z =
             if decide (z ∈ L) then STABLE else comp_type_of aux z) ->
  (forall z, z ∈ L -> comp_type_of aux z = UNASSIGNED) ->
  forall u, comp_type_of aux' u <> UNSTABLE <-> comp_type_of aux u <> UNSTABLE.
Proof.
  intros Hty Hun u. rewrite Hty. destruct (decide (u ∈ L)) as [Hin|]; [|done].
  rewrite (Hun u Hin). split; done.
Qed.

(** ** The descent *)

Lemma FormStronglyConnectedComponent_unfold f k st :
  FormStronglyConnectedComponent (S f) k st =
  node ← st.1 !! k;
  foldlM (form_neighbor (FormStronglyConnectedComponent f)) (redges node)
         (<[k := set_comp_type STABLE node]> st.1, st.2 ++ [node_id node],
          node_is_complete node).
Proof. reflexivity. Qed.

Section Form.
Variable aux0 : gmap Z Node.
Hypothesis Hok : transpose_ok aux0.

Lemma form_loop_holds f :
  (forall k node aux ssc,
     erase aux = aux0 -> aux !! k = Some node -> comp_type node = UNASSIGNED ->
     (size (dom aux0 ∖ assigned aux) < f)%nat ->
     form_spec aux0 k aux ssc (FormStronglyConnectedComponent f k (aux, ssc))) ->
  forall ns aux ssc b0,
    erase aux = aux0 ->
    (forall n, n ∈ ns -> is_Some (aux0 !! n)) ->
    (size (dom aux0 ∖ assigned aux) < f)%nat ->
    form_loop_spec aux0 ns aux ssc b0
      (foldlM (form_neighbor (FormStronglyConnectedComponent f)) ns (aux, ssc, b0)).
Proof.
  intros IH. induction ns as [|n ns IHns]; intros aux ssc b0 He Hns Hsize.
  { rewrite foldlM_nil. exists aux, [], [], b0. rewrite app_nil_r.
    split; [done|]. split; [done|]. split; [constructor|]. split; [done|].
    split.
    - intros z. destruct (decide (z ∈ [])) as [Hz|]; [|done].
      by apply elem_of_nil in Hz.
    - split; [intros ->|tauto]. split; [done|]. split; [|apply all_stable_nil].
      intros n Hn. by apply elem_of_nil in Hn. }
  rewrite foldlM_cons.
  destruct (erase_is_Some _ _ n He) as [neighbor Hnb].
  { apply Hns, elem_of_cons. by left. }
  assert (Hns' : forall m, m ∈ ns -> is_Some (aux0 !! m)).
  { intros m Hm. apply Hns, elem_of_cons. by right. }
  assert (Hct : comp_type_of aux n = comp_type neighbor).
  { unfold comp_type_of. by rewrite Hnb. }
  unfold form_neighbor at 1. rewrite Hnb. simpl.
  destruct (comp_type neighbor) eqn:Hc.
  - (* UNASSIGNED: descend *)
    destruct (IH n neighbor aux ssc He Hnb Hc Hsize)
      as (aux1 & l1 & pre1 & b1 & Hres1 & Hp1 & Htr1 & He1 & Hty1 & Hb1).
    rewrite Hres1. simpl.
    assert (Hn : n ∉ assigned aux) by (by apply not_elem_of_assigned).
    pose proof (traverse_marks _ _ _ _ _ Htr1) as (Hsub1 & Hl1 & Hnd1).
    assert (Hsub : assigned aux ⊆ assigned aux1).
    { intros y Hy. apply Hsub1, elem_of_union. by left. }
    assert (Hsize1 : (size (dom aux0 ∖ assigned aux1) < f)%nat).
    { pose proof (unmarked_size_mono (dom aux0) _ _ Hsub). lia. }
    destruct (IHns aux1 (ssc ++ pre1) (b0 && b1) He1 Hns' Hsize1)
      as (aux2 & l2 & pre2 & b2 & Hres2 & Hp2 & Htr2 & He2 & Hty2 & Hb2).
    rewrite Hres2.
    assert (Hnew : forall z, z ∈ n :: l1 -> comp_type_of aux z = UNASSIGNED).
    { intros z [->|Hz]%elem_of_cons; [by rewrite Hct|].
      apply not_elem_of_assigned. apply Hl1 in Hz as [_ Hz].
      intros ?. apply Hz, elem_of_union. by left. }
    pose proof (not_unstable_update _ _ _ Hty1 Hnew) as Hequiv.
    exists aux2, (l1 ++ n :: l2), (pre1 ++ pre2), b2.
    split; [by rewrite app_assoc|].
    split; [by rewrite Hp1, Hp2, <- Permutation_middle|].
    split; [by eapply traverse_visit|]. split; [done|]. split.
    + intros z. rewrite Hty2, Hty1.
      destruct (decide (z ∈ l2)) as [H2|H2];
        destruct (decide (z ∈ n :: l1)) as [H1|H1];
        destruct (decide (z ∈ l1 ++ n :: l2)) as [H3|H3]; try done; exfalso.
      * apply H3, elem_of_app. right. apply elem_of_cons. by right.
      * apply H3, elem_of_app. right. apply elem_of_cons. by right.
      * apply H3. apply elem_of_cons in H1 as [->|H1]; apply elem_of_app.
        -- right. apply elem_of_cons. by left.
        -- by left.
      * apply elem_of_app in H3 as [H3|[->|H3]%elem_of_cons].
        -- apply H1, elem_of_cons. by right.
        -- apply H1, elem_of_cons. by left.
        -- done.
    + rewrite Hb2, andb_true_iff, Hb1.
      rewrite (all_stable_ext aux0 aux aux1 l2 Hequiv).
      rewrite all_stable_app, !all_stable_cons.
      split.
      * intros [[Hb0 [[Hcn Hun] Hl1s]] [Hm Hl2s]].
        split; [done|]. split; [|done].
        intros m [->|Hm']%elem_of_cons; [by rewrite Hct|].
        apply Hequiv. by apply Hm.
      * intros [Hb0 [Hm [Hl1s [[Hcn Hun] Hl2s]]]].
        split; [done|]. split; [|done].
        intros m Hm'. apply Hequiv, Hm, elem_of_cons. by right.
  - (* STABLE *)
    destruct (IHns aux ssc b0 He Hns' Hsize)
      as (aux2 & l2 & pre2 & b2 & Hres2 & Hp2 & Htr2 & He2 & Hty2 & Hb2).
    rewrite Hres2. exists aux2, l2, pre2, b2.
    split; [done|]. split; [done|]. split.
    { apply traverse_skip; [|done]. apply elem_of_assigned. by rewrite Hct. }
    split; [done|]. split; [done|].
    rewrite Hb2. split.
    + intros [Hb0 [Hm Hs]]. split; [done|]. split; [|done].
      intros m [->|Hm']%elem_of_cons; [by rewrite Hct|by apply Hm].
    + intros [Hb0 [Hm Hs]]. split; [done|]. split; [|done].
      intros m Hm'. apply Hm, elem_of_cons. by right.
  - (* UNSTABLE *)
    destruct (IHns aux ssc false He Hns' Hsize)
      as (aux2 & l2 & pre2 & b2 & Hres2 & Hp2 & Htr2 & He2 & Hty2 & Hb2).
    rewrite Hres2. exists aux2, l2, pre2, b2.
    split; [done|]. split; [done|]. split.
    { apply traverse_skip; [|done]. apply elem_of_assigned. by rewrite Hct. }
    split; [done|]. split; [done|].
    rewrite Hb2. split; [intros [? _]; done|].
    intros [_ [Hm _]]. exfalso. apply (Hm n); [apply elem_of_cons; by left|done].
Qed.

Lemma form_spec_holds fuel :
  forall k node aux ssc,
    erase aux = aux0 -> aux !! k = Some node -> comp_type node = UNASSIGNED ->
    (size (dom aux0 ∖ assigned aux) < fuel)%nat ->
    form_spec aux0 k aux ssc (FormStronglyConnectedComponent fuel k (aux, ssc)).
Proof.
  induction fuel as [|f IHf]; intros k node aux ssc He Hk Hc Hsize; [lia|].
  rewrite FormStronglyConnectedComponent_unfold. simpl. rewrite Hk. simpl.
  pose proof (erase_node _ _ _ _ He Hk) as Hk0.
  rewrite (erase_redges _ _ _ _ He Hk), (erase_complete _ _ _ _ He Hk).
  assert (Hid : node_id node = k).
  { by rewrite <- (transpose_ids _ Hok k _ Hk0). }
  rewrite Hid.
  assert (Hkun : comp_type_of aux k = UNASSIGNED).
  { unfold comp_type_of. by rewrite Hk. }
  assert (Hkn : k ∉ assigned aux) by (by apply not_elem_of_assigned).
  set (aux1 := <[k := set_comp_type STABLE node]> aux).
  assert (He1 : erase aux1 = aux0).
  { unfold aux1. by rewrite erase_insert. }
  assert (Has1 : assigned aux1 = assigned aux ∪ {[k]}).
  { apply assigned_insert_stable. }
  assert (Hsize1 : (size (dom aux0 ∖ assigned aux1) < f)%nat).
  { rewrite Has1.
    assert (Hd : k ∈ dom aux0) by (apply elem_of_dom; eauto).
    pose proof (unmarked_size_add (dom aux0) (assigned aux) k Hd Hkn). lia. }
  destruct (form_loop_holds f IHf (redges_of aux0 k) aux1 (ssc ++ [k])
              (complete_of aux0 k) He1) as
    (aux' & l & pre & b & Hres & Hp & Htr & He' & Hty & Hb); [|done|].
  { intros n Hn. by apply (transpose_closed _ Hok k). }
  rewrite Hres. rewrite Has1 in Htr.
  assert (Hty1 : forall z, comp_type_of aux1 z =
                           if decide (z ∈ [k]) then STABLE else comp_type_of aux z).
  { intros z. unfold aux1. rewrite comp_type_of_insert.
    destruct (decide (k = z)) as [<-|Hne]; destruct (decide (_ ∈ [k])) as [Hz|Hz]; try done.
    - exfalso. apply Hz, list_elem_of_singleton. done.
    - apply list_elem_of_singleton in Hz. by subst. }
  assert (Hequiv : forall u, comp_type_of aux1 u <> UNSTABLE <->
                             comp_type_of aux u <> UNSTABLE).
  { apply (not_unstable_update _ _ _ Hty1).
    intros z Hz%list_elem_of_singleton. by subst. }
  exists aux', l, (k :: pre), b.
  split; [by rewrite <- app_assoc|]. split; [by rewrite Hp|].
  split; [done|]. split; [done|]. split.
  - intros z. rewrite Hty, Hty1.
    destruct (decide (z ∈ l)) as [H1|H1]; destruct (decide (z ∈ [k])) as [H2|H2];
      destruct (decide (z ∈ k :: l)) as [H3|H3]; try done; exfalso.
    + apply H3, elem_of_cons. by right.
    + apply H3, elem_of_cons. by right.
    + apply H3, elem_of_cons. left. by apply list_elem_of_singleton in H2.
    + apply elem_of_cons in H3 as [->|H3]; [|done].
      apply H2, list_elem_of_singleton. done.
  - rewrite Hb, all_stable_cons, (all_stable_ext aux0 aux aux1 l Hequiv).
    split.
    + intros [Hc0 [Hm Hs]]. split; [|done]. split; [done|].
      intros u Hu. by apply Hequiv, Hm.
    + intros [[Hc0 Hm] Hs]. split; [done|]. split; [|done].
      intros u Hu. by apply Hequiv, Hm.
Qed.

End Form.

End Phase2_facts.

(* ===================================================================== *)
(** * The second loop of a pass                                          *)
(* ===================================================================== *)

Module Pass_facts.
Import DeadlockResolver Pass Graph Graph_facts Phase1_facts Phase2_facts Resolve_facts.

(** ** Components *)

Lemma same_component_refl succs x : same_component succs x x.
Proof. split; constructor. Qed.

Lemma same_component_sym succs x y : same_component succs x y -> same_component succs y x.
Proof. intros [? ?]. by split. Qed.

Lemma same_component_trans succs x y z :
  same_component succs x y -> same_component succs y z -> same_component succs x z.
Proof.
  intros [Hxy Hyx] [Hyz Hzy]. split.
  - exact (path_trans _ _ _ _ _ Hxy Hyz).
  - exact (path_trans _ _ _ _ _ Hzy Hyx).
Qed.

Lemma reach_transpose succs1 succs2 :
  (forall a b, edge succs1 a b -> edge succs2 b a) ->
  forall a b, reach succs1 a b -> reach succs2 b a.
Proof.
  intros He a b Hp. unfold reach in *.
  induction Hp as [x|x y z Hxy Hy Hp IH]; [constructor|].
  eapply path_trans; [exact IH|].
  apply path_single; [by apply He|apply not_elem_of_empty].
Qed.

Lemma reach_first_edge succs x z :
  reach succs x z -> x <> z -> exists y, edge succs x y /\ reach succs y z.
Proof.
  intros Hp Hne. unfold reach in Hp. inversion Hp as [|? y ? Hxy Hy Hp']; subst; [done|].
  by exists y.
Qed.

Lemma reach_step succs x y z : edge succs x y -> reach succs y z -> reach succs x z.
Proof. intros He Hp. eapply path_step; [done|apply not_elem_of_empty|done]. Qed.

Lemma reach_of_avoiding succs S x z : path_avoiding succs S x z -> reach succs x z.
Proof. apply path_mono. intros y Hy. by apply not_elem_of_empty in Hy. Qed.

Lemma stable_at_reach snap v z :
  reach (succs snap) z v -> stable_at snap v -> stable_at snap z.
Proof.
  intros Hzv Hst w Hw. apply Hst. exact (path_trans _ _ _ _ _ Hw Hzv).
Qed.

(** ** Resolved entries *)

Lemma resolved_entry_outside c ti x : x ∉ c -> resolved_entry c ti x = ti !! x.
Proof.
  intros Hx. unfold resolved_entry. rewrite delta_sum_outside by done.
  rewrite bool_decide_eq_false_2 by done.
  destruct (ti !! x) as [info|]; simpl; [|done]. by rewrite upd_info_id.
Qed.

Lemma resolved_entry_local c ti ti' x :
  (forall s, s ∈ c -> ti !! s = ti' !! s) -> x ∈ c ->
  resolved_entry c ti x = resolved_entry c ti' x.
Proof.
  intros Heq Hx. unfold resolved_entry. rewrite (Heq x Hx).
  assert (Hsum : Zsum (fun s => delta c (successor c s) (wb_of ti s) x) c =
                 Zsum (fun s => delta c (successor c s) (wb_of ti' s) x) c).
  { apply Zsum_ext. intros s Hs. unfold wb_of. by rewrite (Heq s Hs). }
  by rewrite Hsum.
Qed.

Lemma resolved_upto_entry c ti ti' :
  resolved_upto c c ti ti' -> forall x, ti' !! x = resolved_entry c ti x.
Proof. intros H x. apply H. Qed.

(** ** Marking a component as unstable *)

Lemma mark_unstable_cons x l aux :
  mark_unstable (x :: l) aux = mark_unstable l (alter (set_comp_type UNSTABLE) x aux).
Proof. reflexivity. Qed.

Lemma erase_mark_unstable l aux : erase (mark_unstable l aux) = erase aux.
Proof.
  revert aux. induction l as [|x l IH]; intros aux; [done|].
  by rewrite mark_unstable_cons, IH, erase_alter.
Qed.

Lemma comp_type_of_alter aux x c z :
  is_Some (aux !! x) ->
  comp_type_of (alter (set_comp_type c) x aux) z =
  if decide (z = x) then c else comp_type_of aux z.
Proof.
  intros [node Hx]. unfold comp_type_of. rewrite lookup_alter.
  destruct (decide (x = z)) as [->|Hne].
  - rewrite Hx. simpl. by destruct (decide (z = z)).
  - destruct (decide (z = x)); [by subst|done].
Qed.

Lemma comp_type_of_mark_unstable l aux z :
  (forall x, x ∈ l -> is_Some (aux !! x)) ->
  comp_type_of (mark_unstable l aux) z =
  if decide (z ∈ l) then UNSTABLE else comp_type_of aux z.
Proof.
  revert aux. induction l as [|x l IH]; intros aux Hl.
  { destruct (decide (z ∈ [])) as [Hz|]; [by apply elem_of_nil in Hz|done]. }
  rewrite mark_unstable_cons, IH.
  - rewrite comp_type_of_alter by (apply Hl; left).
    destruct (decide (z ∈ l)) as [Hz|Hz]; destruct (decide (z ∈ x :: l)) as [Hz'|Hz'];
      try done.
    + exfalso. apply Hz'. by right.
    + destruct (decide (z = x)) as [->|Hne]; [done|].
      apply elem_of_cons in Hz' as [?|?]; done.
    + destruct (decide (z = x)) as [->|Hne]; [|done]. exfalso. apply Hz'. left.
  - intros y Hy. rewrite lookup_alter. destruct (decide (x = y)) as [->|].
    + destruct (Hl y) as [? ->]; [by right|]. simpl. eauto.
    + apply Hl. by right.
Qed.

Lemma other_member (l : list Z) s :
  NoDup l -> (1 < length l)%nat -> exists s', s' ∈ l /\ s' <> s.
Proof.
  destruct l as [|a [|a' tl]]; simpl; try lia. intros Hnd _.
  apply NoDup_cons in Hnd as [Ha _].
  destruct (decide (a = s)) as [->|Hne].
  - exists a'. split; [right; left|]. intros ->. apply Ha. left.
  - exists a. split; [left|done].
Qed.

Section Phase2.
Variable snap : gmap Z TxnInfo.
Variable aux0 : gmap Z Node.
Variable topo : list Z.
Hypothesis Hsnap : snapshot_ok snap.
Hypothesis Hft : first_traversal_ok snap aux0 topo.

Lemma transpose_ok_aux0 : transpose_ok aux0.
Proof.
  split.
  - intros k node Hk. by destruct (ft_aux _ _ _ Hft k node Hk) as (? & _).
  - intros k node Hk. by destruct (ft_aux _ _ _ Hft k node Hk) as (_ & ? & _).
  - intros k u Hu. apply (ft_redges _ _ _ Hft) in Hu.
    apply elem_of_succs in Hu as (info & Hinfo & _).
    apply (ft_dom _ _ _ Hft). eauto.
Qed.

Lemma complete_of_aux0 w : complete_of aux0 w = complete_in snap w.
Proof.
  unfold complete_of, complete_in. destruct (aux0 !! w) as [node|] eqn:Hw.
  - destruct (ft_aux _ _ _ Hft w node Hw) as (_ & _ & info & -> & ?). done.
  - destruct (snap !! w) as [info|] eqn:Hs; [|done].
    assert (His : is_Some (aux0 !! w)) by (apply (ft_dom _ _ _ Hft); eauto).
    rewrite Hw in His. by destruct His.
Qed.

Lemma dom_aux0 : dom aux0 = dom snap.
Proof. apply set_eq. intros k. rewrite !elem_of_dom. apply (ft_dom _ _ _ Hft). Qed.

Lemma reach_transpose_iff a b :
  reach (redges_of aux0) a b <-> reach (succs snap) b a.
Proof.
  split; apply reach_transpose; intros x y Hxy; unfold edge in *.
  - by apply (ft_redges _ _ _ Hft).
  - by apply (ft_redges _ _ _ Hft).
Qed.

Lemma reach_known v z :
  is_Some (snap !! v) -> reach (redges_of aux0) v z -> is_Some (snap !! z).
Proof.
  intros Hv Hp. unfold reach in Hp. induction Hp as [x|x y z Hxy Hy Hp IH]; [done|].
  apply IH. apply (ft_dom _ _ _ Hft).
  by apply (transpose_closed _ transpose_ok_aux0 x).
Qed.

(** ** Sets of nodes closed under the edges of the transpose *)

Section Closed.
Variable A : gset Z.
Hypothesis Hclosed : forall z u, z ∈ A -> u ∈ redges_of aux0 z -> u ∈ A.

Lemma closed_reach z w : z ∈ A -> reach (redges_of aux0) z w -> w ∈ A.
Proof.
  intros Hz Hp. unfold reach in Hp. induction Hp as [x|x y z Hxy Hy Hp IH]; [done|].
  apply IH. by apply (Hclosed x).
Qed.

Lemma closed_component z w : z ∈ A -> same_component (succs snap) z w -> w ∈ A.
Proof.
  intros Hz [_ Hwz]. apply (closed_reach z); [done|]. by apply reach_transpose_iff.
Qed.

Lemma closed_avoid v z :
  reach (redges_of aux0) v z -> z ∉ A -> path_avoiding (redges_of aux0) A v z.
Proof.
  intros Hp Hz. unfold reach in Hp. induction Hp as [x|x y z Hxy Hy Hp IH]; [constructor|].
  eapply path_step; [done| |by apply IH].
  intros HyA. apply Hz. by apply (closed_reach y).
Qed.

(** The traversal of the transpose from the first txn [v] of
    [topo_order_] that is outside [A] reaches the component of [v], no
    more. *)
Lemma component_found seen v rest :
  topo = seen ++ v :: rest ->
  (forall x, x ∈ seen -> x ∈ A) ->
  v ∉ A ->
  forall z, path_avoiding (redges_of aux0) A v z <-> same_component (succs snap) v z.
Proof.
  intros Htopo Hseen Hv z. split.
  - intros Hp.
    assert (Hvin : v ∈ topo).
    { rewrite Htopo. apply elem_of_app. right. apply list_elem_of_here. }
    assert (Hzv : reach (succs snap) z v).
    { apply reach_transpose_iff. by eapply reach_of_avoiding. }
    assert (HzA : z ∉ A).
    { destruct (path_end_outside _ _ _ _ Hp) as [<-|?]; done. }
    assert (Hzin : z ∈ topo).
    { apply (ft_topo _ _ _ Hft). apply (reach_known v).
      - by apply (ft_topo _ _ _ Hft).
      - by eapply reach_of_avoiding. }
    destruct (ft_order _ _ _ Hft z v Hzin Hzv) as (z' & Hzz' & i & j & Hi & Hj & Hij).
    assert (Hjlen : j = length seen).
    { apply (NoDup_lookup topo j (length seen) v (ft_topo_nodup _ _ _ Hft) Hj).
      rewrite Htopo. by rewrite list_lookup_middle. }
    subst j. destruct (decide (i = length seen)) as [->|Hne].
    + assert (z' = v) by congruence. subst z'. by apply same_component_sym.
    + exfalso. apply HzA. apply (closed_component z'); [|by apply same_component_sym].
      apply Hseen. rewrite Htopo in Hi. rewrite lookup_app_l in Hi by lia.
      by eapply list_elem_of_lookup_2.
  - intros [Hvz Hzv]. apply closed_avoid.
    + by apply reach_transpose_iff.
    + intros HzA. apply Hv. apply (closed_component z); [done|]. by split.
Qed.

End Closed.

(** ** One txn of [topo_order_] *)

Section Step.
Variable fuel : nat.
Hypothesis Hfuel : (size snap < fuel)%nat.
Variables (seen : list Z) (comps : list (list Z)) (p : pass) (v : Z) (rest : list Z).
Hypothesis Hinv : pass_inv snap aux0 seen comps p.
Hypothesis Htopo : topo = seen ++ v :: rest.

Lemma current_known : is_Some (snap !! v).
Proof.
  apply (ft_topo _ _ _ Hft). rewrite Htopo. apply elem_of_app. right. left.
Qed.

Lemma component_step_assigned :
  v ∈ assigned (aux_graph_ p) ->
  component_step fuel p v = Some p /\ pass_inv snap aux0 (seen ++ [v]) comps p.
Proof.
  intros Hv. split.
  - apply elem_of_assigned in Hv. unfold comp_type_of in Hv. unfold component_step.
    destruct (aux_graph_ p !! v) as [node|]; [|done]. simpl.
    destruct (comp_type node); done.
  - destruct Hinv as [He Hs Hc Hst Hcm Hnd Hres]. split; try done.
    intros x [Hx|Hx%list_elem_of_singleton]%elem_of_app; [by apply Hs|by subst].
Qed.

Section Unassigned.
Hypothesis Hv : v ∉ assigned (aux_graph_ p).

Lemma stable_characterised (l : list Z) :
  (forall z, z ∈ v :: l <->
             path_avoiding (redges_of aux0) (assigned (aux_graph_ p)) v z) ->
  all_stable aux0 (aux_graph_ p) (v :: l) <-> stable_at snap v.
Proof.
  intros Hvl. destruct Hinv as [He Hs Hc Hst Hcm Hnd Hres].
  pose proof (component_found _ Hc seen v rest Htopo Hs Hv) as Hcomp.
  split.
  - intros Hall w Hw. apply reach_transpose_iff in Hw. rewrite <- complete_of_aux0.
    assert (Hgen : forall x w, path_avoiding (redges_of aux0) ∅ x w -> x ∈ v :: l ->
                               complete_of aux0 w = true).
    { clear w Hw. intros x w Hp. induction Hp as [x|x y z Hxy Hy Hp IH]; intros Hx.
      - by destruct (Hall x Hx).
      - destruct (decide (y ∈ v :: l)) as [Hin|Hout]; [by apply IH|].
        destruct (decide (y ∈ assigned (aux_graph_ p))) as [HyA|HyA].
        + destruct (Hall x Hx) as [_ Hun]. specialize (Hun y Hxy).
          assert (Hty : comp_type_of (aux_graph_ p) y = STABLE).
          { apply elem_of_assigned in HyA.
            destruct (comp_type_of (aux_graph_ p) y); done. }
          apply Hst in Hty; [|done]. rewrite complete_of_aux0. apply Hty.
          apply reach_transpose_iff. exact Hp.
        + exfalso. apply Hout, Hvl. eapply path_trans; [apply Hvl, Hx|].
          by apply path_single. }
    apply (Hgen v w Hw). left.
  - intros Hstv z Hz. apply Hvl, Hcomp in Hz as [Hvz Hzv]. split.
    + rewrite complete_of_aux0. by apply Hstv.
    + intros u Hu. destruct (decide (u ∈ assigned (aux_graph_ p))) as [HuA|HuA].
      * assert (comp_type_of (aux_graph_ p) u = STABLE) as ->; [|done].
        apply Hst; [done|]. apply (stable_at_reach snap v u); [|done].
        eapply reach_step; [|exact Hzv]. by apply (ft_redges _ _ _ Hft).
      * apply not_elem_of_assigned in HuA. by rewrite HuA.
Qed.

(** The call of [FormStronglyConnectedComponent] at [v] collects the
    component of [v], and tells whether it is stable. *)
Lemma form_component :
  exists aux' pre b,
    FormStronglyConnectedComponent fuel v (aux_graph_ p, []) = Some (aux', pre, b) /\
    erase aux' = aux0 /\
    NoDup pre /\
    (forall z, z ∈ pre <-> same_component (succs snap) v z) /\
    (forall w, w ∈ assigned aux' <-> w ∈ assigned (aux_graph_ p) \/ w ∈ pre) /\
    (forall z, comp_type_of aux' z =
               if decide (z ∈ pre) then STABLE else comp_type_of (aux_graph_ p) z) /\
    (b = true <-> stable_at snap v).
Proof.
  pose proof Hinv as [He Hs Hc Hst Hcm Hndc Hres].
  destruct (erase_is_Some _ _ v He) as [node Hk].
  { apply (ft_dom _ _ _ Hft). apply current_known. }
  assert (Hty0 : comp_type node = UNASSIGNED).
  { apply not_elem_of_assigned in Hv. unfold comp_type_of in Hv. by rewrite Hk in Hv. }
  assert (Hsize : (size (dom aux0 ∖ assigned (aux_graph_ p)) < fuel)%nat).
  { rewrite dom_aux0.
    assert (Hle : (size (dom snap ∖ assigned (aux_graph_ p)) <= size (dom snap))%nat).
    { apply subseteq_size. intros y Hy. by apply elem_of_difference in Hy as [? _]. }
    rewrite size_dom in Hle. lia. }
  destruct (form_spec_holds aux0 transpose_ok_aux0 fuel v node (aux_graph_ p) []
              He Hk Hty0 Hsize)
    as (aux' & l & pre & b & Hrun & Hp & Htr & He' & Hty & Hb).
  simpl in Hrun.
  pose proof (traverse_marks _ _ _ _ _ Htr) as (Hsub & Hl & Hndl).
  pose proof (traverse_visit_reaches _ _ _ _ _ Hv Htr) as Hreach.
  pose proof (component_found _ Hc seen v rest Htopo Hs Hv) as Hcomp.
  assert (Hvl : forall z, z ∈ v :: l <->
                  path_avoiding (redges_of aux0) (assigned (aux_graph_ p)) v z).
  { intros z. split.
    - intros [->|Hz]%elem_of_cons; [constructor|].
      apply Hl in Hz as [Hz Hz']. apply Hreach in Hz as [Hz|Hz]; [|done].
      exfalso. apply Hz', elem_of_union. by left.
    - intros Hz. destruct (decide (z = v)) as [->|Hne]; [left|]. right.
      apply Hl. split; [apply Hreach; by right|].
      destruct (path_end_outside _ _ _ _ Hz) as [?|?]; [by subst|].
      by apply not_elem_of_add. }
  assert (Hprel : forall z, z ∈ pre <-> z ∈ v :: l) by (intros z; by rewrite Hp).
  exists aux', pre, b. split; [done|]. split; [done|]. split.
  { rewrite Hp. apply NoDup_cons. split; [|done]. intros Hin%Hl.
    destruct Hin as [_ Hin]. apply Hin, elem_of_union. right. by apply elem_of_singleton. }
  split. { intros z. by rewrite Hprel, Hvl. }
  split.
  { intros w. rewrite Hreach, Hprel, Hvl. done. }
  split.
  { intros z. rewrite Hty.
    destruct (decide (z ∈ v :: l)) as [H1|H1]; destruct (decide (z ∈ pre)) as [H2|H2];
      try done; exfalso.
    - by apply H2, Hprel.
    - by apply H1, Hprel. }
  rewrite Hb. by apply stable_characterised.
Qed.

Section Component.
Variables (aux' : gmap Z Node) (pre : list Z) (b : bool).
Hypothesis Hrun :
  FormStronglyConnectedComponent fuel v (aux_graph_ p, []) = Some (aux', pre, b).
Hypothesis He' : erase aux' = aux0.
Hypothesis Hnd : NoDup pre.
Hypothesis Hpre : forall z, z ∈ pre <-> same_component (succs snap) v z.
Hypothesis HA' : forall w, w ∈ assigned aux' <-> w ∈ assigned (aux_graph_ p) \/ w ∈ pre.
Hypothesis Hty' : forall z, comp_type_of aux' z =
  if decide (z ∈ pre) then STABLE else comp_type_of (aux_graph_ p) z.
Hypothesis Hstab : b = true <-> stable_at snap v.

Lemma current_in_component : v ∈ pre.
Proof. apply Hpre, same_component_refl. Qed.

Lemma component_outside z : z ∈ pre -> z ∉ assigned (aux_graph_ p).
Proof.
  intros Hz HzA. apply Hv.
  apply (closed_component _ (pi_closed _ _ _ _ _ Hinv) z); [done|].
  apply same_component_sym. by apply Hpre.
Qed.

Lemma component_known z : z ∈ pre -> is_Some (snap !! z).
Proof.
  intros [_ Hzv]%Hpre. apply (reach_known v); [apply current_known|].
  by apply reach_transpose_iff.
Qed.

Lemma component_stable z : b = true -> z ∈ pre -> stable_at snap z.
Proof.
  intros Hb [_ Hzv]%Hpre. apply (stable_at_reach snap v z); [done|]. by apply Hstab.
Qed.

Lemma component_unstable z : b = false -> z ∈ pre -> ~ stable_at snap z.
Proof.
  intros Hb [Hvz _]%Hpre Hst. assert (b = true); [|congruence].
  apply Hstab. by apply (stable_at_reach snap z v).
Qed.

(** The graph once the component is assigned. *)
Lemma inv_graph aux'' :
  (forall w, w ∈ assigned aux'' <-> w ∈ assigned (aux_graph_ p) \/ w ∈ pre) ->
  (forall z, comp_type_of aux'' z =
             if decide (z ∈ pre) then (if b then STABLE else UNSTABLE)
             else comp_type_of (aux_graph_ p) z) ->
  (forall x, x ∈ seen ++ [v] -> x ∈ assigned aux'') /\
  (forall z u, z ∈ assigned aux'' -> u ∈ redges_of aux0 z -> u ∈ assigned aux'') /\
  (forall z, z ∈ assigned aux'' -> (comp_type_of aux'' z = STABLE <-> stable_at snap z)).
Proof.
  intros HA Hty. destruct Hinv as [_ Hs Hc Hst _ _ _]. split; [|split].
  - intros x [Hx|Hx%list_elem_of_singleton]%elem_of_app; apply HA.
    + left. by apply Hs.
    + right. subst. apply current_in_component.
  - intros z u Hz Hu. apply HA. apply HA in Hz as [Hz|Hz]; [left; by apply (Hc z)|].
    destruct (decide (u ∈ assigned (aux_graph_ p))) as [?|HuA]; [by left|right].
    apply Hpre. apply (component_found _ Hc seen v rest Htopo Hs Hv).
    eapply path_trans.
    + apply (component_found _ Hc seen v rest Htopo Hs Hv). apply Hpre, Hz.
    + by apply path_single.
  - intros z Hz. rewrite Hty. destruct (decide (z ∈ pre)) as [Hin|Hout].
    + destruct (Sumbool.sumbool_of_bool b) as [Hb|Hb]; rewrite Hb.
      * split; [intros _|done]. by apply component_stable.
      * split; [done|]. intros Hst'. by apply component_unstable in Hst'.
    + apply Hst. by apply HA in Hz as [?|?].
Qed.

(** The components of the snapshot that are deadlocks. *)
Lemma component_or_earlier c :
  deadlock snap c ->
  (forall x, x ∈ c -> x ∈ assigned (aux_graph_ p) \/ x ∈ pre) ->
  c ∈ comps \/ c ≡ₚ pre.
Proof.
  intros Hd Hc. destruct Hinv as [_ _ Hcl _ Hcm _ _].
  assert (Hex : exists v0, v0 ∈ c).
  { destruct c as [|v0 ?].
    - pose proof (deadlock_size _ _ Hd) as Hs. simpl in Hs. lia.
    - exists v0. left. }
  destruct Hex as [v0 Hv0]. destruct (Hc v0 Hv0) as [HA|Hp].
  - left. apply Hcm. split; [done|]. intros x Hx.
    apply (closed_component _ Hcl v0); [done|].
    by apply (deadlock_members _ _ Hd v0 x).
  - right. apply NoDup_Permutation; [by apply (deadlock_nodup _ _ Hd)|done|].
    intros z. rewrite (deadlock_members _ _ Hd v0 z Hv0), Hpre. apply Hpre in Hp.
    split; intros Hz.
    + exact (same_component_trans _ _ _ _ Hp Hz).
    + exact (same_component_trans _ _ _ _ (same_component_sym _ _ _ Hp) Hz).
Qed.

Lemma comps_unchanged :
  b = false \/ (length pre <= 1)%nat ->
  forall c, c ∈ comps <->
    deadlock snap c /\ forall x, x ∈ c -> x ∈ assigned (aux_graph_ p) \/ x ∈ pre.
Proof.
  intros Hcase c. split.
  - intros Hc. apply (pi_comps _ _ _ _ _ Hinv) in Hc as [Hd HA]. split; [done|].
    intros x Hx. left. by apply HA.
  - intros [Hd Hc]. destruct (component_or_earlier c Hd Hc) as [?|Hperm]; [done|].
    exfalso. destruct Hcase as [Hb|Hlen].
    + assert (Hvc : v ∈ c) by (rewrite Hperm; apply current_in_component).
      apply (component_unstable v Hb current_in_component).
      by apply (deadlock_stable _ _ Hd).
    + pose proof (deadlock_size _ _ Hd) as Hs. rewrite Hperm in Hs. lia.
Qed.

Lemma deadlock_component :
  b = true -> (1 < length pre)%nat -> deadlock snap (std_sort pre).
Proof.
  intros Hb Hlen. split.
  - apply StronglySorted_merge_sort; apply _.
  - by rewrite std_sort_Permutation.
  - by rewrite std_sort_Permutation.
  - intros v0 z Hv0. rewrite elem_of_std_sort in Hv0. rewrite elem_of_std_sort, Hpre.
    apply Hpre in Hv0. split; intros Hz.
    + exact (same_component_trans _ _ _ _ (same_component_sym _ _ _ Hv0) Hz).
    + exact (same_component_trans _ _ _ _ Hv0 Hz).
  - intros v0 Hv0. rewrite elem_of_std_sort in Hv0. by apply component_known.
  - intros v0 Hv0. rewrite elem_of_std_sort in Hv0. by apply component_stable.
Qed.

Lemma comps_extended :
  b = true -> (1 < length pre)%nat ->
  forall c, c ∈ comps ++ [std_sort pre] <->
    deadlock snap c /\ forall x, x ∈ c -> x ∈ assigned (aux_graph_ p) \/ x ∈ pre.
Proof.
  intros Hb Hlen c. rewrite elem_of_app, list_elem_of_singleton. split.
  - intros [Hc| ->].
    + apply (pi_comps _ _ _ _ _ Hinv) in Hc as [Hd HA]. split; [done|].
      intros x Hx. left. by apply HA.
    + split; [by apply deadlock_component|]. intros x Hx. rewrite elem_of_std_sort in Hx. by right.
  - intros [Hd Hc]. destruct (component_or_earlier c Hd Hc) as [?|Hperm]; [by left|right].
    apply (StronglySorted_unique Z.le).
    + apply (deadlock_sorted _ _ Hd).
    + apply StronglySorted_merge_sort; apply _.
    + by rewrite std_sort_Permutation.
Qed.

Lemma comps_extended_nodup : NoDup (comps ++ [std_sort pre]).
Proof.
  apply NoDup_app. split; [apply (pi_comps_nodup _ _ _ _ _ Hinv)|].
  split; [|apply NoDup_singleton].
  intros c Hc ->%list_elem_of_singleton.
  apply (pi_comps _ _ _ _ _ Hinv) in Hc as [_ HA].
  apply Hv, HA, elem_of_std_sort, current_in_component.
Qed.

(** The resolution of the component. *)
Lemma component_entries s : s ∈ pre -> txn_info_ p !! s = snap !! s.
Proof.
  intros Hs. apply (res_untouched _ _ _ (pi_result _ _ _ _ _ Hinv)).
  intros c Hc Hsc. apply (pi_comps _ _ _ _ _ Hinv) in Hc as [_ HA].
  by apply (component_outside s), HA.
Qed.

Lemma component_resolvable :
  b = true -> (1 < length pre)%nat -> resolvable pre (txn_info_ p).
Proof.
  intros Hb Hlen. split; [done|]. intros s Hs.
  destruct (component_known s Hs) as [info Hinfo]. exists info.
  split; [by rewrite component_entries|]. split.
  - pose proof (component_stable s Hb Hs s) as Hc. unfold complete_in in Hc.
    rewrite Hinfo in Hc. apply Hc. constructor.
  - destruct (other_member pre s Hnd Hlen) as (s' & Hs' & Hne).
    assert (Hss' : same_component (succs snap) s s').
    { apply (same_component_trans _ s v s'); [apply same_component_sym|];
        by apply Hpre. }
    destruct Hss' as [Hr Hr'].
    destruct (reach_first_edge _ s s' Hr) as (y & Hsy & Hys'); [done|].
    assert (Hy : y ∈ pre).
    { apply Hpre. apply (same_component_trans _ v s y); [by apply Hpre|]. split.
      - apply path_single; [done|apply not_elem_of_empty].
      - exact (path_trans _ _ _ _ _ Hys' Hr'). }
    unfold has_member. apply existsb_exists. exists y. split.
    + apply list_elem_of_In. unfold edge, succs in Hsy.
      apply list_elem_of_filter in Hsy as [_ Hsy]. unfold wb_of in Hsy.
      by rewrite Hinfo in Hsy.
    + by apply binary_search_true.
Qed.

Lemma component_resolved aux'' :
  b = true -> (1 < length pre)%nat ->
  exists ti' ready,
    ResolveDeadlock (txn_info_ p) pre = Some (ti', std_sort pre, ready) /\
    pass_result snap (comps ++ [std_sort pre])
      (mkPass aux'' ti' (to_be_updated p ++ std_sort pre)
              (ready_txns p ++ match ready with Some r => [r] | None => [] end)).
Proof.
  intros Hb Hlen.
  destruct (ResolveDeadlock_spec (txn_info_ p) pre)
    as (ti' & s0 & head' & Hres & Hs0 & Hhead & Hupto).
  { by apply component_resolvable. }
  { intros Heq. rewrite Heq in Hlen. simpl in Hlen. lia. }
  exists ti', (if is_ready head' then Some s0 else None). split; [done|].
  pose proof (resolved_upto_entry _ _ _ Hupto) as Hent.
  pose proof (pi_result _ _ _ _ _ Hinv) as [Hr Hu Htbu Hrdy].
  assert (Hagree : forall s, s ∈ std_sort pre -> txn_info_ p !! s = snap !! s).
  { intros s Hs. rewrite elem_of_std_sort in Hs. by apply component_entries. }
  split; simpl.
  - intros c x [Hc| ->%list_elem_of_singleton]%elem_of_app Hx.
    + rewrite Hent, resolved_entry_outside; [by apply Hr|].
      rewrite elem_of_std_sort. intros Hxp. apply (component_outside x Hxp).
      apply (pi_comps _ _ _ _ _ Hinv) in Hc as [_ HA]. by apply HA.
    + rewrite Hent. by apply resolved_entry_local.
  - intros x Hx. rewrite Hent, resolved_entry_outside.
    + apply Hu. intros c Hc. apply Hx, elem_of_app. by left.
    + apply Hx, elem_of_app. right. by apply list_elem_of_singleton.
  - by rewrite Htbu, bind_app, bind_singleton.
  - rewrite Hrdy, bind_app, bind_singleton. f_equal. unfold ready_of.
    clear Hres Hupto. revert Hs0 Hent Hagree. generalize (std_sort pre) as c.
    intros c Hs0 Hent Hagree. destruct c as [|a tl]; [done|].
    simpl in Hs0. injection Hs0 as ->.
    rewrite <- (resolved_entry_local (s0 :: tl) (txn_info_ p) snap s0 Hagree) by left.
    rewrite <- Hent, Hhead. by destruct (is_ready head').
Qed.

Lemma component_step_formed :
  exists p' comps',
    component_step fuel p v = Some p' /\ pass_inv snap aux0 (seen ++ [v]) comps' p'.
Proof.
  assert (Hnode : exists node, aux_graph_ p !! v = Some node /\ comp_type node = UNASSIGNED).
  { pose proof Hv as Hv'. apply not_elem_of_assigned in Hv'. unfold comp_type_of in Hv'.
    destruct (erase_is_Some _ _ v (pi_erase _ _ _ _ _ Hinv)) as [node Hk].
    { apply (ft_dom _ _ _ Hft). apply current_known. }
    exists node. rewrite Hk in Hv'. done. }
  destruct Hnode as (node & Hk & Hc).
  unfold component_step. rewrite Hk. simpl. rewrite Hc, Hrun. simpl.
  destruct (Sumbool.sumbool_of_bool b) as [Hb|Hb]; rewrite Hb; simpl.
  - assert (Hty : forall z, comp_type_of aux' z =
               if decide (z ∈ pre) then (if b then STABLE else UNSTABLE)
               else comp_type_of (aux_graph_ p) z).
    { intros z. by rewrite Hty', Hb. }
    destruct (inv_graph aux' HA' Hty) as (Hseen & Hclosed & Hst).
    destruct (1 <? length pre)%nat eqn:Hlen.
    + apply Nat.ltb_lt in Hlen.
      destruct (component_resolved aux' Hb Hlen) as (ti' & ready & Hres & Hpr).
      rewrite Hres. simpl. eexists _, (comps ++ [std_sort pre]). split; [done|].
      split; simpl; try done.
      * intros c. rewrite (comps_extended Hb Hlen c).
        split; intros [Hd Hin]; (split; [done|]); intros x Hx.
        -- by apply HA', Hin.
        -- by apply HA', Hin.
      * apply comps_extended_nodup.
    + apply Nat.ltb_ge in Hlen. eexists _, comps. split; [done|].
      split; simpl; try done.
      * intros c. rewrite (comps_unchanged (or_intror Hlen) c).
        split; intros [Hd Hin]; (split; [done|]); intros x Hx.
        -- by apply HA', Hin.
        -- by apply HA', Hin.
      * apply (pi_comps_nodup _ _ _ _ _ Hinv).
      * destruct (pi_result _ _ _ _ _ Hinv) as [? ? ? ?]. by split.
  - assert (Hdom : forall x, x ∈ pre -> is_Some (aux' !! x)).
    { intros x Hx. apply (erase_is_Some aux0 aux' x He').
      apply (ft_dom _ _ _ Hft). by apply component_known. }
    assert (Hty : forall z, comp_type_of (mark_unstable pre aux') z =
               if decide (z ∈ pre) then (if b then STABLE else UNSTABLE)
               else comp_type_of (aux_graph_ p) z).
    { intros z. rewrite comp_type_of_mark_unstable by done. rewrite Hty', Hb.
      by destruct (decide (z ∈ pre)). }
    assert (HA : forall w, w ∈ assigned (mark_unstable pre aux') <->
                           w ∈ assigned (aux_graph_ p) \/ w ∈ pre).
    { intros w. rewrite <- HA', !elem_of_assigned.
      rewrite comp_type_of_mark_unstable by done. rewrite Hty'.
      destruct (decide (w ∈ pre)); done. }
    destruct (inv_graph _ HA Hty) as (Hseen & Hclosed & Hst).
    eexists _, comps. split; [done|].
    split; simpl; try done.
    + by rewrite erase_mark_unstable.
    + intros c. rewrite (comps_unchanged (or_introl Hb) c).
      split; intros [Hd Hin]; (split; [done|]); intros x Hx.
      * by apply HA, Hin.
      * by apply HA, Hin.
    + apply (pi_comps_nodup _ _ _ _ _ Hinv).
    + destruct (pi_result _ _ _ _ _ Hinv) as [? ? ? ?]. by split.
Qed.

End Component.

Lemma component_step_unassigned :
  exists p' comps',
    component_step fuel p v = Some p' /\ pass_inv snap aux0 (seen ++ [v]) comps' p'.
Proof.
  destruct form_component as (aux' & pre & b & Hrun & He' & Hnd & Hpre & HA & Hty & Hb).
  by eapply component_step_formed.
Qed.

End Unassigned.

End Step.

Lemma component_step_spec fuel seen comps p v rest :
  (size snap < fuel)%nat ->
  pass_inv snap aux0 seen comps p ->
  topo = seen ++ v :: rest ->
  exists p' comps',
    component_step fuel p v = Some p' /\ pass_inv snap aux0 (seen ++ [v]) comps' p'.
Proof.
  intros Hfuel Hinv Htopo.
  destruct (decide (v ∈ assigned (aux_graph_ p))) as [Hv|Hv].
  - exists p, comps. by eapply component_step_assigned.
  - by eapply component_step_unassigned.
Qed.

(** ** The whole loop *)

Lemma component_steps_spec fuel :
  (size snap < fuel)%nat ->
  forall rest seen comps p,
    pass_inv snap aux0 seen comps p ->
    topo = seen ++ rest ->
    exists p' comps',
      foldlM (component_step fuel) rest p = Some p' /\ pass_inv snap aux0 topo comps' p'.
Proof.
  intros Hfuel. induction rest as [|v rest IH]; intros seen comps p Hinv Htopo.
  - rewrite app_nil_r in Htopo. subst seen. by exists p, comps.
  - destruct (component_step_spec fuel seen comps p v rest Hfuel Hinv Htopo)
      as (p1 & comps1 & Hstep & Hinv1).
    rewrite foldlM_cons, Hstep. apply (IH (seen ++ [v]) comps1 p1 Hinv1).
    by rewrite <- app_assoc.
Qed.

Lemma assigned_initially z : z ∉ assigned aux0.
Proof.
  apply not_elem_of_assigned. unfold comp_type_of.
  destruct (aux0 !! z) as [node|] eqn:Hz; [|done].
  by apply (transpose_unassigned _ transpose_ok_aux0 z).
Qed.

Lemma pass_inv_initially : pass_inv snap aux0 [] [] (mkPass aux0 snap [] []).
Proof.
  split; simpl.
  - apply erase_ok. apply (transpose_unassigned _ transpose_ok_aux0).
  - intros v Hv. by apply elem_of_nil in Hv.
  - intros z u Hz. by apply assigned_initially in Hz.
  - intros z Hz. by apply assigned_initially in Hz.
  - intros c. split; [by intros ?%elem_of_nil|]. intros [Hd HA]. exfalso.
    destruct c as [|v0 c'].
    + pose proof (deadlock_size _ _ Hd) as Hs. simpl in Hs. lia.
    + apply (assigned_initially v0), HA. left.
  - constructor.
  - split; simpl; try done. intros c x Hc. by apply elem_of_nil in Hc.
Qed.

End Phase2.

(** ** A pass on a snapshot *)

(** A pass resolves the deadlocks of the snapshot, each of them once. *)
Lemma resolve_snapshot_spec snap fuel iter :
  snapshot_ok snap -> (size snap < fuel)%nat -> iter ≡ₚ map_to_list snap ->
  exists p comps,
    resolve_snapshot fuel iter snap = Some p /\
    NoDup comps /\
    (forall c, c ∈ comps <-> deadlock snap c) /\
    pass_result snap comps p.
Proof.
  intros Hsnap Hfuel Hiter.
  destruct (visit_all_spec snap Hsnap fuel Hfuel iter Hiter) as (aux0 & topo & Hvisit & Hft).
  destruct (component_steps_spec snap aux0 topo Hft fuel Hfuel topo [] [] _
              (pass_inv_initially snap aux0 topo Hft) eq_refl)
    as (p & comps & Hrun & Hinv).
  exists p, comps. unfold resolve_snapshot. rewrite Hvisit. simpl.
  split; [done|]. split; [apply (pi_comps_nodup _ _ _ _ _ Hinv)|].
  split; [|apply (pi_result _ _ _ _ _ Hinv)].
  intros c. rewrite (pi_comps _ _ _ _ _ Hinv). split; [by intros [? _]|].
  intros Hd. split; [done|]. intros v Hv. apply (pi_seen _ _ _ _ _ Hinv).
  apply (ft_topo _ _ _ Hft). by apply (deadlock_known _ _ Hd).
Qed.

Lemma pass_result_unique snap comps1 comps2 p1 p2 :
  NoDup comps1 -> NoDup comps2 -> (forall c, c ∈ comps1 <-> c ∈ comps2) ->
  pass_result snap comps1 p1 -> pass_result snap comps2 p2 ->
  txn_info_ p1 = txn_info_ p2 /\
  to_be_updated p1 ≡ₚ to_be_updated p2 /\
  ready_txns p1 ≡ₚ ready_txns p2.
Proof.
  intros Hnd1 Hnd2 Hiff [Hr1 Hu1 Ht1 Hy1] [Hr2 Hu2 Ht2 Hy2].
  assert (Hperm : comps1 ≡ₚ comps2) by (by apply NoDup_Permutation).
  split; [|split].
  - apply map_eq. intros x.
    destruct (decide (Exists (fun c => x ∈ c) comps1)) as [Hex|Hnex].
    + apply Exists_exists in Hex as (c & Hc & Hx).
      rewrite (Hr1 c x Hc Hx). symmetry. apply Hr2; [by apply Hiff|done].
    + rewrite Hu1, Hu2; [done| |].
      * intros c Hc Hx. apply Hnex, Exists_exists. exists c. split; [by apply Hiff|done].
      * intros c Hc Hx. apply Hnex, Exists_exists. by exists c.
  - by rewrite Ht1, Ht2, Hperm.
  - by rewrite Hy1, Hy2, Hperm.
Qed.

(** ** The write-back *)

Lemma foldlM_Permutation {A B : Type} (f : B -> A -> option B) :
  (forall b x y,
     match f b x with Some b' => f b' y | None => None end =
     match f b y with Some b' => f b' x | None => None end) ->
  forall l1 l2, l1 ≡ₚ l2 -> forall b, foldlM f l1 b = foldlM f l2 b.
Proof.
  intros Hc l1 l2 Hp. induction Hp as [|x l l' Hp IH|x y l|l l' l'' Hp1 IH1 Hp2 IH2];
    intros b.
  - done.
  - rewrite !foldlM_cons. destruct (f b x); [apply IH|done].
  - rewrite !foldlM_cons. pose proof (Hc b y x) as Hyx.
    destruct (f b y) as [b1|]; destruct (f b x) as [b2|]; rewrite ?foldlM_cons.
    + by rewrite Hyx.
    + by rewrite Hyx.
    + by rewrite <- Hyx.
    + done.
  - by rewrite IH1.
Qed.

Lemma write_back_one_comm resolved live x y :
  match write_back_one resolved live x with
  | Some live' => write_back_one resolved live' y
  | None => None
  end =
  match write_back_one resolved live y with
  | Some live' => write_back_one resolved live' x
  | None => None
  end.
Proof.
  destruct (decide (x = y)) as [->|Hne]; [done|].
  unfold write_back_one.
  destruct (resolved !! x) as [nx|]; destruct (resolved !! y) as [ny|]; simpl; try done.
  - destruct (live !! x) as [ox|] eqn:Hx; destruct (live !! y) as [oy|] eqn:Hy;
      simpl; try done.
    + destruct (length (waited_by nx) <=? length (waited_by ox))%nat eqn:Ex;
        destruct (length (waited_by ny) <=? length (waited_by oy))%nat eqn:Ey;
        rewrite ?lookup_insert_ne by congruence; rewrite ?Hx, ?Hy; simpl;
        rewrite ?Ex, ?Ey; try done.
      f_equal. apply insert_insert_ne. congruence.
    + destruct (length (waited_by nx) <=? length (waited_by ox))%nat; [|done].
      rewrite lookup_insert_ne by congruence. by rewrite Hy.
    + destruct (length (waited_by ny) <=? length (waited_by oy))%nat; [|done].
      rewrite lookup_insert_ne by congruence. by rewrite Hx.
  - destruct (live !! x) as [ox|]; simpl; [|done].
    by destruct (length (waited_by nx) <=? length (waited_by ox))%nat.
  - destruct (live !! y) as [oy|]; simpl; [|done].
    by destruct (length (waited_by ny) <=? length (waited_by oy))%nat.
Qed.

Lemma pass_result_lengths snap comps p :
  pass_result snap comps p -> (forall c, c ∈ comps -> deadlock snap c) ->
  forall x, x ∈ to_be_updated p ->
    exists new info,
      txn_info_ p !! x = Some new /\ snap !! x = Some info /\
      length (waited_by new) = length (waited_by info).
Proof.
  intros [Hr _ Ht _] Hd x Hx. rewrite Ht in Hx.
  apply list_elem_of_bind in Hx as (c & Hxc & Hc).
  destruct (deadlock_known _ _ (Hd c Hc) x Hxc) as [info Hinfo].
  rewrite (Hr c x Hc Hxc). unfold resolved_entry. rewrite Hinfo. simpl.
  eexists _, info. split; [done|]. split; [done|]. simpl.
  rewrite bool_decide_eq_true_2 by done. apply rewrite_slots_length.
Qed.

Lemma write_back_one_covers resolved snap live x new info :
  covers snap live ->
  resolved !! x = Some new -> snap !! x = Some info ->
  length (waited_by new) = length (waited_by info) ->
  exists live', write_back_one resolved live x = Some live' /\ covers snap live'.
Proof.
  intros Hcov Hnew Hinfo Hlen. destruct (Hcov x info Hinfo) as (old & Hold & Hle).
  unfold write_back_one. rewrite Hnew, Hold. simpl.
  assert (Hcmp : (length (waited_by new) <=? length (waited_by old))%nat = true).
  { apply Nat.leb_le. lia. }
  rewrite Hcmp. eexists. split; [done|].
  intros y infoy Hy. destruct (decide (x = y)) as [<-|Hne].
  - rewrite lookup_insert_eq. eexists. split; [done|]. simpl.
    rewrite length_app, length_drop. simplify_eq. lia.
  - rewrite lookup_insert_ne by done. by apply Hcov.
Qed.

Lemma write_back_covers resolved snap l :
  (forall x, x ∈ l ->
     exists new info,
       resolved !! x = Some new /\ snap !! x = Some info /\
       length (waited_by new) = length (waited_by info)) ->
  forall live, covers snap live ->
    exists live', foldlM (write_back_one resolved) l live = Some live'.
Proof.
  induction l as [|x l IH]; intros Hl live Hcov; [by exists live|].
  destruct (Hl x) as (new & info & Hnew & Hinfo & Hlen); [left|].
  destruct (write_back_one_covers resolved snap live x new info Hcov Hnew Hinfo Hlen)
    as (live1 & Hstep & Hcov1).
  rewrite foldlM_cons, Hstep. apply IH; [|done]. intros y Hy. apply Hl. by right.
Qed.

End Pass_facts.

Import DeadlockResolver Pass Pass_facts.

(** C2.  A pass of the resolver is deterministic in the snapshot.  On a
    snapshot whose entries are stored under their ids and whose slots name
    txns of the snapshot, whatever the order in which the snapshot is
    iterated, the two traversals and the resolution end, with the same
    [waited_by] lists and [num_waiting_for] counters for every txn and the
    same newly ready txns; and the write-back into a table of the lock
    manager gives the same table, the same ready txns and the same
    signal, or fails in both runs. *)
Theorem resolver_pass_deterministic snap iter1 iter2 fuel1 fuel2 :
  snapshot_ok snap ->
  iter1 ≡ₚ map_to_list snap -> iter2 ≡ₚ map_to_list snap ->
  (size snap < fuel1)%nat -> (size snap < fuel2)%nat ->
  exists p1 p2,
    resolve_snapshot fuel1 iter1 snap = Some p1 /\
    resolve_snapshot fuel2 iter2 snap = Some p2 /\
    txn_info_ p1 = txn_info_ p2 /\
    ready_txns p1 ≡ₚ ready_txns p2 /\
    forall live lm_ready_txns,
      match Loop fuel1 iter1 snap live lm_ready_txns,
            Loop fuel2 iter2 snap live lm_ready_txns with
      | Some (live1, ready1, signal1), Some (live2, ready2, signal2) =>
          live1 = live2 /\ ready1 ≡ₚ ready2 /\ signal1 = signal2
      | None, None => True
      | _, _ => False
      end.
Proof.
  intros Hsnap Hiter1 Hiter2 Hfuel1 Hfuel2.
  destruct (resolve_snapshot_spec snap fuel1 iter1 Hsnap Hfuel1 Hiter1)
    as (p1 & comps1 & Hrun1 & Hnd1 & Hc1 & Hres1).
  destruct (resolve_snapshot_spec snap fuel2 iter2 Hsnap Hfuel2 Hiter2)
    as (p2 & comps2 & Hrun2 & Hnd2 & Hc2 & Hres2).
  destruct (pass_result_unique snap comps1 comps2 p1 p2 Hnd1 Hnd2) as (Hti & Htbu & Hrdy);
    [|done|done|].
  { intros c. by rewrite Hc1, Hc2. }
  exists p1, p2. split; [done|]. split; [done|]. split; [done|]. split; [done|].
  intros live lm_ready. unfold Loop. rewrite Hrun1, Hrun2. simpl.
  rewrite <- Hti.
  rewrite (foldlM_Permutation _ (write_back_one_comm (txn_info_ p1)) _ _ Htbu live).
  destruct (foldlM (write_back_one (txn_info_ p1)) (to_be_updated p2) live) as [live'|];
    simpl; [|done].
  split; [done|]. split; [by rewrite Hrdy|].
  destruct (ready_txns p1) as [|r1 l1]; destruct (ready_txns p2) as [|r2 l2]; try done.
  - by apply Permutation_nil_cons in Hrdy.
  - symmetry in Hrdy. by apply Permutation_nil_cons in Hrdy.
Qed.


Lemma example_two_cycle_snapshot_ok : snapshot_ok example_two_cycle.
Proof.
  split.
  - intros k info Hk. unfold example_two_cycle in Hk.
    apply lookup_insert_Some in Hk as [[<- <-]|[_ Hk]]; [done|].
    apply lookup_insert_Some in Hk as [[<- <-]|[_ Hk]]; [done|].
    by rewrite lookup_empty in Hk.
  - intros k info w Hk Hw _. unfold example_two_cycle in Hk.
    apply lookup_insert_Some in Hk as [[<- <-]|[_ Hk]].
    { apply list_elem_of_singleton in Hw as ->. eexists. reflexivity. }
    apply lookup_insert_Some in Hk as [[<- <-]|[_ Hk]].
    { apply list_elem_of_singleton in Hw as ->. eexists. reflexivity. }
    by rewrite lookup_empty in Hk.
Qed.

Lemma example_iter_12_Permutation : example_iter_12 ≡ₚ map_to_list example_two_cycle.
Proof. vm_compute. first [reflexivity|apply perm_swap]. Qed.

Lemma example_iter_21_Permutation : example_iter_21 ≡ₚ map_to_list example_two_cycle.
Proof. vm_compute. first [reflexivity|apply perm_swap]. Qed.

Lemma resolver_pass_deterministic_witness :
  snapshot_ok example_two_cycle /\
  example_iter_12 ≡ₚ map_to_list example_two_cycle /\
  example_iter_21 ≡ₚ map_to_list example_two_cycle /\
  (size example_two_cycle < 3)%nat /\
  exists p1 p2,
    resolve_snapshot 3 example_iter_12 example_two_cycle = Some p1 /\
    resolve_snapshot 3 example_iter_21 example_two_cycle = Some p2 /\
    txn_info_ p1 = txn_info_ p2 /\
    ready_txns p1 ≡ₚ ready_txns p2.
Proof.
  assert (Hsize : (size example_two_cycle < 3)%nat) by (vm_compute; lia).
  split; [exact example_two_cycle_snapshot_ok|].
  split; [exact example_iter_12_Permutation|].
  split; [exact example_iter_21_Permutation|].
  split; [exact Hsize|].
  destruct (resolver_pass_deterministic example_two_cycle example_iter_12 example_iter_21 3 3
              example_two_cycle_snapshot_ok example_iter_12_Permutation
              example_iter_21_Permutation Hsize Hsize)
    as (p1 & p2 & Hrun1 & Hrun2 & Hti & Hrdy & _).
  exists p1, p2. split; [exact Hrun1|]. split; [exact Hrun2|]. split; [exact Hti|exact Hrdy].
Defined.

(* ===================================================================== *)
(** * More properties of a pass of the resolver                          *)
(* ===================================================================== *)

Module Pass_more.
Import DeadlockResolver Pass Graph Graph_facts Phase1_facts Phase2_facts Resolve_facts Pass_facts PassExamples.

(** Two deadlocks that share a member are one. *)
Lemma deadlock_unique snap c1 c2 x :
  deadlock snap c1 -> deadlock snap c2 -> x ∈ c1 -> x ∈ c2 -> c1 = c2.
Proof.
  intros H1 H2 Hx1 Hx2. apply (StronglySorted_unique Z.le).
  - apply (deadlock_sorted _ _ H1).
  - apply (deadlock_sorted _ _ H2).
  - apply NoDup_Permutation.
    + apply (deadlock_nodup _ _ H1).
    + apply (deadlock_nodup _ _ H2).
    + intros z. rewrite (deadlock_members _ _ H1 x z Hx1).
      by rewrite (deadlock_members _ _ H2 x z Hx2).
Qed.

Lemma deadlocks_NoDup snap comps :
  NoDup comps -> (forall c, c ∈ comps -> deadlock snap c) ->
  NoDup (comps ≫= (fun c => c)).
Proof.
  induction comps as [|c comps IH]; intros Hnd Hd; [constructor|].
  apply NoDup_cons in Hnd as [Hc Hnd]. rewrite bind_cons. apply NoDup_app.
  split; [apply (deadlock_nodup snap), Hd; left|]. split.
  - intros x Hx Hx'. apply list_elem_of_bind in Hx' as (c' & Hxc' & Hc').
    apply Hc. replace c with c'; [done|].
    apply (deadlock_unique snap c' c x); [apply Hd; by right|apply Hd; left|done|done].
  - apply IH; [done|]. intros c' Hc'. apply Hd. by right.
Qed.

Lemma write_back_one_lookup resolved live x live' y :
  write_back_one resolved live x = Some live' -> y <> x -> live' !! y = live !! y.
Proof.
  unfold write_back_one. intros Hwb Hne.
  destruct (resolved !! x) as [new|]; [|done]. simpl in Hwb.
  destruct (live !! x) as [old|]; [|done]. simpl in Hwb.
  destruct (length (waited_by new) <=? length (waited_by old))%nat; [|done].
  injection Hwb as <-. by rewrite lookup_insert_ne.
Qed.

Lemma written_back_twice new old info1 info2 :
  written_back new old info1 -> written_back new info1 info2 -> written_back new old info2.
Proof.
  intros (Hi1 & Hu1 & Hn1 & Hw1) (Hi2 & Hu2 & Hn2 & Hw2).
  split; [congruence|]. split; [congruence|]. split; [congruence|].
  rewrite Hw2, Hw1. f_equal. rewrite drop_app_length. done.
Qed.

Lemma write_back_one_entry resolved live x live' new old :
  write_back_one resolved live x = Some live' ->
  resolved !! x = Some new -> live !! x = Some old ->
  exists info', live' !! x = Some info' /\ written_back new old info'.
Proof.
  unfold write_back_one. intros Hwb Hnew Hold. rewrite Hnew, Hold in Hwb. simpl in Hwb.
  destruct (length (waited_by new) <=? length (waited_by old))%nat; [|done].
  injection Hwb as <-. rewrite lookup_insert_eq. eexists. split; [done|].
  by repeat split.
Qed.

Lemma write_back_entries resolved l :
  forall live live',
    foldlM (write_back_one resolved) l live = Some live' ->
    (forall x, x ∉ l -> live' !! x = live !! x) /\
    (forall x new old, x ∈ l -> resolved !! x = Some new -> live !! x = Some old ->
       exists info', live' !! x = Some info' /\ written_back new old info').
Proof.
  induction l as [|a l IH]; intros live live' Hrun.
  { injection Hrun as <-. split; [done|]. intros x new old Hx. by apply elem_of_nil in Hx. }
  rewrite foldlM_cons in Hrun.
  destruct (write_back_one resolved live a) as [live1|] eqn:Hstep; [|done].
  destruct (IH live1 live' Hrun) as [Hout Hin]. split.
  - intros x Hx. rewrite Hout by (intros ?; apply Hx; by right).
    apply (write_back_one_lookup _ _ _ _ _ Hstep). intros ->. apply Hx. left.
  - intros x new old Hx Hnew Hold.
    destruct (decide (x = a)) as [->|Hne].
    + destruct (write_back_one_entry _ _ _ _ _ _ Hstep Hnew Hold) as (info1 & Hl1 & Hwb1).
      destruct (decide (a ∈ l)) as [Hal|Hal].
      * destruct (Hin a new info1 Hal Hnew Hl1) as (info2 & Hl2 & Hwb2).
        exists info2. split; [done|]. by eapply written_back_twice.
      * exists info1. split; [|done]. by rewrite Hout.
    + apply Hin; [|done|].
      * apply elem_of_cons in Hx as [?|?]; done.
      * by rewrite (write_back_one_lookup _ _ _ _ _ Hstep).
Qed.

End Pass_more.

Import DeadlockResolver Pass Pass_facts Pass_more PassExamples.

(** X1.  A pass of the resolver on a well-formed snapshot ends, and it
    rewrites exactly the txns that belong to a deadlock of the snapshot
    (a strongly connected component of the wait-for graph with more than
    one member, all of whose members and all the txns they wait for,
    directly or not, have all their lock requests): [to_be_updated]
    lists the members of the deadlocks, each once; the entry of a member
    is the resolved one, and the entry of every other txn is the one of
    the snapshot. *)
Theorem resolver_pass_resolves_stable_components snap iter fuel :
  snapshot_ok snap -> iter ≡ₚ map_to_list snap -> (size snap < fuel)%nat ->
  exists p,
    resolve_snapshot fuel iter snap = Some p /\
    NoDup (to_be_updated p) /\
    (forall x, x ∈ to_be_updated p <-> exists c, deadlock snap c /\ x ∈ c) /\
    (forall c x, deadlock snap c -> x ∈ c -> txn_info_ p !! x = resolved_entry c snap x) /\
    (forall x, x ∉ to_be_updated p -> txn_info_ p !! x = snap !! x).
Proof.
  intros Hsnap Hiter Hfuel.
  destruct (resolve_snapshot_spec snap fuel iter Hsnap Hfuel Hiter)
    as (p & comps & Hrun & Hnd & Hc & [Hr Hu Ht Hy]).
  assert (Hin : forall x, x ∈ to_be_updated p <-> exists c, deadlock snap c /\ x ∈ c).
  { intros x. rewrite Ht, list_elem_of_bind. split.
    - intros (c & Hx & Hcc). exists c. split; [by apply Hc|done].
    - intros (c & Hd & Hx). exists c. split; [done|by apply Hc]. }
  exists p. split; [done|]. split.
  { rewrite Ht. apply (deadlocks_NoDup snap); [done|]. intros c Hcc. by apply Hc. }
  split; [done|]. split.
  - intros c x Hd Hx. apply Hr; [by apply Hc|done].
  - intros x Hx. apply Hu. intros c Hcc Hxc. apply Hx, Hin. exists c.
    split; [by apply Hc|done].
Qed.

Lemma resolver_pass_resolves_stable_components_witness :
  exists p,
    resolve_snapshot 3 example_iter_21 example_two_cycle = Some p /\
    NoDup (to_be_updated p) /\
    (forall x, x ∈ to_be_updated p <-> exists c, deadlock example_two_cycle c /\ x ∈ c) /\
    (forall c x, deadlock example_two_cycle c -> x ∈ c ->
       txn_info_ p !! x = resolved_entry c example_two_cycle x) /\
    (forall x, x ∉ to_be_updated p -> txn_info_ p !! x = example_two_cycle !! x).
Proof.
  apply (resolver_pass_resolves_stable_components example_two_cycle example_iter_21 3).
  - exact example_two_cycle_snapshot_ok.
  - exact example_iter_21_Permutation.
  - vm_compute. lia.
Defined.

(** X2.  A pass on a well-formed snapshot without a deadlock (no stable
    strongly connected component with more than one member) changes
    nothing: the table of the resolver is the snapshot, no txn is to be
    updated or ready, the table of the lock manager is left as it is,
    and no signal is sent. *)
Theorem resolver_pass_without_deadlock snap iter fuel live lm_ready_txns :
  snapshot_ok snap -> iter ≡ₚ map_to_list snap -> (size snap < fuel)%nat ->
  (forall c, ~ deadlock snap c) ->
  exists p,
    resolve_snapshot fuel iter snap = Some p /\
    txn_info_ p = snap /\ to_be_updated p = [] /\ ready_txns p = [] /\
    Loop fuel iter snap live lm_ready_txns = Some (live, lm_ready_txns, false).
Proof.
  intros Hsnap Hiter Hfuel Hno.
  destruct (resolve_snapshot_spec snap fuel iter Hsnap Hfuel Hiter)
    as (p & comps & Hrun & Hnd & Hc & [Hr Hu Ht Hy]).
  assert (Hcomps : comps = []).
  { destruct comps as [|c comps']; [done|]. exfalso. apply (Hno c), Hc. left. }
  subst comps. simpl in Ht, Hy.
  exists p. split; [done|]. split.
  { apply map_eq. intros x. apply Hu. intros c Hcc. by apply elem_of_nil in Hcc. }
  split; [done|]. split; [done|].
  unfold Loop. rewrite Hrun. simpl. rewrite Ht, Hy. simpl. by rewrite app_nil_r.
Qed.

Lemma example_unstable_cycle_snapshot_ok : snapshot_ok example_unstable_cycle.
Proof.
  split.
  - intros k info Hk. unfold example_unstable_cycle in Hk.
    apply lookup_insert_Some in Hk as [[<- <-]|[_ Hk]]; [done|].
    apply lookup_insert_Some in Hk as [[<- <-]|[_ Hk]]; [done|].
    by rewrite lookup_empty in Hk.
  - intros k info w Hk Hw _. unfold example_unstable_cycle in Hk.
    apply lookup_insert_Some in Hk as [[<- <-]|[_ Hk]].
    { apply list_elem_of_singleton in Hw as ->. eexists. reflexivity. }
    apply lookup_insert_Some in Hk as [[<- <-]|[_ Hk]].
    { apply list_elem_of_singleton in Hw as ->. eexists. reflexivity. }
    by rewrite lookup_empty in Hk.
Qed.

Lemma example_unstable_iter_Permutation :
  example_unstable_iter ≡ₚ map_to_list example_unstable_cycle.
Proof. vm_compute. first [reflexivity|apply perm_swap]. Qed.

Lemma example_unstable_cycle_no_deadlock c : ~ deadlock example_unstable_cycle c.
Proof.
  intros Hd.
  assert (Hex : exists v, v ∈ c).
  { destruct c as [|v ?].
    - pose proof (deadlock_size _ _ Hd) as Hs. simpl in Hs. lia.
    - exists v. left. }
  destruct Hex as [v Hv].
  assert (Hreach : Graph.reach (succs example_unstable_cycle) 1 v).
  { destruct (deadlock_known _ _ Hd v Hv) as [info Hk]. unfold example_unstable_cycle in Hk.
    apply lookup_insert_Some in Hk as [[<- _]|[_ Hk]]; [constructor|].
    apply lookup_insert_Some in Hk as [[<- _]|[_ Hk]].
    - eapply Graph.path_step; [|apply not_elem_of_empty|constructor].
      unfold Graph.edge. change (succs example_unstable_cycle 1) with [2]. left.
    - by rewrite lookup_empty in Hk. }
  pose proof (deadlock_stable _ _ Hd v Hv 1 Hreach) as Hc. done.
Qed.

Lemma resolver_pass_without_deadlock_witness :
  exists p,
    resolve_snapshot 3 example_unstable_iter example_unstable_cycle = Some p /\
    txn_info_ p = example_unstable_cycle /\ to_be_updated p = [] /\ ready_txns p = [] /\
    Loop 3 example_unstable_iter example_unstable_cycle example_unstable_cycle [] =
      Some (example_unstable_cycle, [], false).
Proof.
  apply (resolver_pass_without_deadlock example_unstable_cycle example_unstable_iter 3).
  - exact example_unstable_cycle_snapshot_ok.
  - exact example_unstable_iter_Permutation.
  - vm_compute. lia.
  - exact example_unstable_cycle_no_deadlock.
Defined.

(** X3.  The write-back of a pass into the table of the lock manager,
    which has every txn of the snapshot with a [waited_by] list at least
    as long as in the snapshot: [Loop] ends; a txn that is not to be
    updated keeps its entry; a txn to be updated gets the
    [num_waiting_for] of the resolver and the [waited_by] of the
    resolver, which is as long as in the snapshot, over the prefix of
    its list, and keeps its id, its [unarrived_lock_requests] and the
    slots that were appended to its list since the snapshot; the ready
    txns are appended to those of the lock manager, and the signal is
    sent exactly when there is one. *)
Theorem Loop_write_back_keeps_later_waiters snap iter fuel live lm_ready_txns :
  snapshot_ok snap -> iter ≡ₚ map_to_list snap -> (size snap < fuel)%nat ->
  covers snap live ->
  exists p live',
    resolve_snapshot fuel iter snap = Some p /\
    Loop fuel iter snap live lm_ready_txns =
      Some (live', lm_ready_txns ++ ready_txns p,
            match ready_txns p with [] => false | _ :: _ => true end) /\
    (forall x, x ∉ to_be_updated p -> live' !! x = live !! x) /\
    (forall x, x ∈ to_be_updated p ->
       exists new info old info',
         txn_info_ p !! x = Some new /\ snap !! x = Some info /\
         live !! x = Some old /\ live' !! x = Some info' /\
         length (waited_by new) = length (waited_by info) /\
         written_back new old info').
Proof.
  intros Hsnap Hiter Hfuel Hcov.
  destruct (resolve_snapshot_spec snap fuel iter Hsnap Hfuel Hiter)
    as (p & comps & Hrun & Hnd & Hc & Hres).
  assert (Hlen := pass_result_lengths snap comps p Hres (fun c Hcc => proj1 (Hc c) Hcc)).
  destruct (write_back_covers (txn_info_ p) snap (to_be_updated p) Hlen live Hcov)
    as [live' Hwb].
  destruct (write_back_entries _ _ _ _ Hwb) as [Hout Hin].
  exists p, live'. split; [done|]. split.
  { unfold Loop. rewrite Hrun. simpl. by rewrite Hwb. }
  split; [done|]. intros x Hx.
  destruct (Hlen x Hx) as (new & info & Hnew & Hinfo & Hl).
  destruct (Hcov x info Hinfo) as (old & Hold & _).
  destruct (Hin x new old Hx Hnew Hold) as (info' & Hl' & Hw).
  by exists new, info, old, info'.
Qed.

Lemma example_grown_table_covers : covers example_two_cycle example_grown_table.
Proof.
  intros x info Hx. unfold example_two_cycle in Hx.
  apply lookup_insert_Some in Hx as [[<- <-]|[_ Hx]].
  { eexists. split; [reflexivity|]. simpl. lia. }
  apply lookup_insert_Some in Hx as [[<- <-]|[_ Hx]].
  { eexists. split; [reflexivity|]. simpl. lia. }
  by rewrite lookup_empty in Hx.
Qed.

Lemma Loop_write_back_keeps_later_waiters_witness :
  exists live',
    Loop 3 example_iter_12 example_two_cycle example_grown_table [] =
      Some (live', [1], true) /\
    waited_by <$> live' !! 1 = Some [2; 3] /\
    waited_by <$> live' !! 2 = Some [kSentinelTxnId] /\
    num_waiting_for <$> live' !! 1 = Some 0 /\
    live' !! 3 = example_grown_table !! 3.
Proof.
  destruct (Loop_write_back_keeps_later_waiters example_two_cycle example_iter_12 3
              example_grown_table [] example_two_cycle_snapshot_ok
              example_iter_12_Permutation ltac:(vm_compute; lia) example_grown_table_covers)
    as (p & live' & Hrun & Hloop & _).
  vm_compute in Hrun. injection Hrun as <-.
  exists live'. vm_compute in Hloop. injection Hloop as <-. repeat split.
Defined.

(** X4.  The first loop of a pass on a well-formed snapshot ends;
    [topo_order_] then holds every txn of the snapshot once,
    [aux_graph_] has a node for every txn of the snapshot and none
    else, the node of a txn lists exactly the txns that have it in a
    slot of their [waited_by], and whenever a txn [u] reaches a txn [v]
    along the slots, some txn of the strongly connected component of
    [u] is not after [v] in [topo_order_]. *)
Theorem first_loop_orders_and_transposes snap iter fuel :
  snapshot_ok snap -> iter ≡ₚ map_to_list snap -> (size snap < fuel)%nat ->
  exists aux topo,
    visit_all snap fuel iter = Some (aux, topo) /\
    NoDup topo /\
    (forall k, k ∈ topo <-> is_Some (snap !! k)) /\
    (forall k, is_Some (aux !! k) <-> is_Some (snap !! k)) /\
    (forall k node, aux !! k = Some node ->
       node_id node = k /\ comp_type node = UNASSIGNED /\
       node_is_complete node = complete_in snap k) /\
    (forall k u, u ∈ redges_of aux k <-> u ∈ dom snap /\ k <> kSentinelTxnId /\ k ∈ wb_of snap u) /\
    (forall u v, u ∈ topo -> Graph.reach (succs snap) u v ->
       exists z, Graph.same_component (succs snap) u z /\ Graph.before topo z v).
Proof.
  intros Hsnap Hiter Hfuel.
  destruct (Phase1_facts.visit_all_spec snap Hsnap fuel Hfuel iter Hiter)
    as (aux & topo & Hrun & [Haux Hdom Hnd Htopo Hred Hord]).
  exists aux, topo. split; [done|]. split; [done|]. split; [done|]. split; [done|].
  split; [|split; [|done]].
  - intros k node Hk. destruct (Haux k node Hk) as (Hid & Hty & info & Hinfo & Hcomp).
    split; [done|]. split; [done|]. unfold complete_in. by rewrite Hinfo.
  - intros k u. rewrite Hred. unfold succs. rewrite list_elem_of_filter. split.
    + intros [Hne Hin]. split; [|done]. apply elem_of_dom. unfold wb_of in Hin.
      destruct (snap !! u); [eauto|]. by apply elem_of_nil in Hin.
    + intros (_ & Hne & Hin). done.
Qed.

Lemma first_loop_orders_and_transposes_witness :
  exists aux,
    visit_all example_two_cycle 3 example_iter_21 = Some (aux, [2; 1]) /\
    redges_of aux 1 = [2] /\ redges_of aux 2 = [1].
Proof.
  destruct (first_loop_orders_and_transposes example_two_cycle example_iter_21 3
              example_two_cycle_snapshot_ok example_iter_21_Permutation
              ltac:(vm_compute; lia))
    as (aux & topo & Hrun & _).
  vm_compute in Hrun. injection Hrun as <- <-. eexists. repeat split.
Defined.

(* ===================================================================== *)
(** * The resolver keeps the wait-for graph balanced                     *)
(* ===================================================================== *)

Module Balance_facts.
Import DDRLockManager DDRLockManager_facts DeadlockResolver Resolve_facts PassExamples.

Lemma occurrences_insert t (l : list Z) (j : nat) w x :
  l !! j = Some w ->
  occurrences t (<[j := x]> l) =
  occurrences t l
  - (if decide (w <> kSentinelTxnId /\ w = t) then 1 else 0)
  + (if decide (x <> kSentinelTxnId /\ x = t) then 1 else 0).
Proof.
  revert j. induction l as [|a l IH]; intros [|j] Hj; simplify_eq/=.
  - rewrite !occurrences_cons. lia.
  - rewrite !occurrences_cons, (IH j Hj). lia.
Qed.

Lemma total_occurrences_set_slot t ti si txn (j : nat) w x :
  ti !! si = Some txn -> waited_by txn !! j = Some w ->
  total_occurrences t (alter (set_slot j x) si ti) =
  total_occurrences t ti
  - (if decide (w <> kSentinelTxnId /\ w = t) then 1 else 0)
  + (if decide (x <> kSentinelTxnId /\ x = t) then 1 else 0).
Proof.
  intros Hsi Hj. rewrite (alter_Some _ _ _ _ Hsi).
  rewrite (total_occurrences_insert_Some _ _ _ _ _ Hsi). simpl.
  rewrite (occurrences_insert t _ j w x Hj). lia.
Qed.

Lemma waiting_for_of_add ti k d t :
  is_Some (ti !! k) ->
  waiting_for_of (alter (add_waiting_for d) k ti) t =
  waiting_for_of ti t + (if decide (k = t) then d else 0).
Proof.
  intros [info Hk]. unfold waiting_for_of. rewrite lookup_alter.
  destruct (decide (k = t)) as [->|]; [|lia]. by rewrite Hk.
Qed.

Lemma keys_ok_alter ti k f :
  (forall i, id (f i) = id i) -> keys_ok ti -> keys_ok (alter f k ti).
Proof.
  intros Hid [Hs Hids]. split.
  - rewrite lookup_alter. case_decide; [subst|]; by rewrite Hs.
  - intros j info. rewrite lookup_alter.
    destruct (decide (k = j)) as [->|]; [|apply Hids].
    destruct (ti !! j) as [old|] eqn:Hj; simpl; [|done].
    intros [= <-]. rewrite Hid. by apply Hids.
Qed.

Lemma graph_inv_keys_ok ti : graph_inv ti -> keys_ok ti.
Proof. intros [? ? ?]. by split. Qed.

Lemma alter_is_Some {A} (f : A -> A) (m : gmap Z A) k j :
  is_Some (alter f k m !! j) <-> is_Some (m !! j).
Proof.
  rewrite lookup_alter. destruct (decide (k = j)) as [->|]; [|done].
  by rewrite fmap_is_Some.
Qed.

Lemma graph_inv_resolve_slot ssc i si ti b j ti' b' :
  graph_inv ti ->
  resolve_slot ssc i si (ti, b) j = Some (ti', b') ->
  graph_inv ti'.
Proof.
  intros Hinv Hrun. unfold resolve_slot in Hrun.
  destruct (ti !! si) as [txn|] eqn:Hsi; [|done]. simpl in Hrun.
  destruct (waited_by txn !! j) as [w|] eqn:Hj; [|done]. simpl in Hrun.
  destruct (binary_search ssc w); [|by injection Hrun as <- <-].
  destruct (ti !! w) as [winfo|] eqn:Hw; [|done]. simpl in Hrun.
  assert (Hw0 : w <> kSentinelTxnId).
  { intros ->. by rewrite (inv_no_sentinel _ Hinv) in Hw. }
  destruct b.
  - simpl in Hrun. injection Hrun as <- <-.
    destruct (graph_inv_keys_ok _ Hinv) as [Hs Hids]. split.
    + apply keys_ok_alter; [done|]. apply keys_ok_alter; [done|]. by split.
    + apply keys_ok_alter; [done|]. apply keys_ok_alter; [done|]. by split.
    + intros t. rewrite total_occurrences_alter by done.
      rewrite (total_occurrences_set_slot t ti si txn j w _ Hsi Hj).
      rewrite waiting_for_of_add by (apply alter_is_Some; eauto).
      rewrite waiting_for_of_alter by done. rewrite (inv_balance _ Hinv).
      destruct (decide (kSentinelTxnId <> kSentinelTxnId /\ kSentinelTxnId = t))
        as [[? _]|_]; [done|].
      destruct (decide (w = t)) as [->|Hne].
      * rewrite decide_True by done. lia.
      * rewrite decide_False by (intros [_ ?]; done). lia.
  - destruct (ssc !! S i) as [nxt|] eqn:Hnxt; [|done]. simpl in Hrun.
    destruct (ti !! nxt) as [ninfo|] eqn:Hn; [|done]. simpl in Hrun.
    injection Hrun as <- <-.
    assert (Hn0 : nxt <> kSentinelTxnId).
    { intros ->. by rewrite (inv_no_sentinel _ Hinv) in Hn. }
    destruct (graph_inv_keys_ok _ Hinv) as [Hs Hids]. split.
    + do 3 (apply keys_ok_alter; [done|]). by split.
    + do 3 (apply keys_ok_alter; [done|]). by split.
    + intros t. rewrite !total_occurrences_alter by done.
      rewrite (total_occurrences_set_slot t ti si txn j w _ Hsi Hj).
      rewrite waiting_for_of_add by (rewrite !alter_is_Some; eauto).
      rewrite waiting_for_of_add by (rewrite !alter_is_Some; eauto).
      rewrite waiting_for_of_alter by done. rewrite (inv_balance _ Hinv).
      destruct (decide (w = t)) as [->|Hne]; destruct (decide (nxt = t)) as [->|Hne'].
      * rewrite !decide_True by done. lia.
      * rewrite decide_True by done. rewrite decide_False by (intros [_ ?]; done). lia.
      * rewrite decide_False by (intros [_ ?]; done). rewrite decide_True by done. lia.
      * rewrite !decide_False by (intros [_ ?]; done). lia.
Qed.

Lemma graph_inv_resolve_slots ssc i si js :
  forall ti b ti' b',
    graph_inv ti ->
    foldlM (resolve_slot ssc i si) js (ti, b) = Some (ti', b') ->
    graph_inv ti'.
Proof.
  induction js as [|j js IH]; intros ti b ti' b' Hinv Hrun.
  { by injection Hrun as <- <-. }
  rewrite foldlM_cons in Hrun.
  destruct (resolve_slot ssc i si (ti, b) j) as [[ti1 b1]|] eqn:Hstep; [|done].
  apply (IH ti1 b1 ti' b'); [|done]. by eapply graph_inv_resolve_slot.
Qed.

Lemma graph_inv_resolve_member ssc ti i ti' :
  graph_inv ti -> resolve_member ssc ti i = Some ti' -> graph_inv ti'.
Proof.
  intros Hinv Hrun. unfold resolve_member in Hrun.
  destruct (ssc !! i) as [si|]; [|done]. simpl in Hrun.
  destruct (ti !! si) as [txn|]; [|done]. simpl in Hrun.
  destruct (is_complete txn); [|done].
  destruct (foldlM (resolve_slot ssc i si) (seq 0 (length (waited_by txn)))
              (ti, bool_decide (i = (length ssc - 1)%nat))) as [[ti1 b1]|] eqn:Hfold;
    [|done].
  simpl in Hrun. destruct b1; [|done]. injection Hrun as <-.
  by eapply graph_inv_resolve_slots.
Qed.

Lemma graph_inv_resolve_members ssc is_ :
  forall ti ti',
    graph_inv ti -> foldlM (resolve_member ssc) is_ ti = Some ti' -> graph_inv ti'.
Proof.
  induction is_ as [|i is_ IH]; intros ti ti' Hinv Hrun.
  { by injection Hrun as <-. }
  rewrite foldlM_cons in Hrun.
  destruct (resolve_member ssc ti i) as [ti1|] eqn:Hstep; [|done].
  apply (IH ti1 ti'); [|done]. by eapply graph_inv_resolve_member.
Qed.

Lemma graph_inv_ResolveDeadlock ti ssc0 ti' ssc ready :
  graph_inv ti -> ResolveDeadlock ti ssc0 = Some (ti', ssc, ready) -> graph_inv ti'.
Proof.
  intros Hinv Hrun. unfold ResolveDeadlock in Hrun.
  destruct (foldlM (resolve_member (std_sort ssc0)) (rev (seq 0 (length (std_sort ssc0)))) ti)
    as [ti1|] eqn:Hfold; [|done].
  simpl in Hrun.
  destruct (std_sort ssc0 !! 0%nat) as [s0|]; [|done]. simpl in Hrun.
  destruct (ti1 !! s0) as [hd|]; [|done]. simpl in Hrun.
  injection Hrun as <- <- <-. by eapply graph_inv_resolve_members.
Qed.

Lemma graph_inv_component_step fuel p v p' :
  graph_inv (DeadlockResolver.txn_info_ p) ->
  component_step fuel p v = Some p' ->
  graph_inv (DeadlockResolver.txn_info_ p').
Proof.
  intros Hinv Hrun. unfold component_step in Hrun.
  destruct (aux_graph_ p !! v) as [node|]; [|done]. simpl in Hrun.
  destruct (comp_type node); [|by injection Hrun as <-|by injection Hrun as <-].
  destruct (FormStronglyConnectedComponent fuel v (aux_graph_ p, []))
    as [[[aux ssc] is_stable]|]; [|done].
  simpl in Hrun. destruct is_stable; simpl in Hrun; [|by injection Hrun as <-].
  destruct (1 <? length ssc)%nat; [|by injection Hrun as <-].
  destruct (ResolveDeadlock (DeadlockResolver.txn_info_ p) ssc)
    as [[[ti ssc'] ready]|] eqn:Hres; [|done].
  simpl in Hrun. injection Hrun as <-. simpl. by eapply graph_inv_ResolveDeadlock.
Qed.

Lemma graph_inv_component_steps fuel topo :
  forall p p',
    graph_inv (DeadlockResolver.txn_info_ p) ->
    foldlM (component_step fuel) topo p = Some p' ->
    graph_inv (DeadlockResolver.txn_info_ p').
Proof.
  induction topo as [|v topo IH]; intros p p' Hinv Hrun.
  { by injection Hrun as <-. }
  rewrite foldlM_cons in Hrun.
  destruct (component_step fuel p v) as [p1|] eqn:Hstep; [|done].
  apply (IH p1 p'); [|done]. by eapply graph_inv_component_step.
Qed.

Lemma graph_inv_resolve_snapshot fuel iter snap p :
  graph_inv snap -> resolve_snapshot fuel iter snap = Some p ->
  graph_inv (DeadlockResolver.txn_info_ p).
Proof.
  intros Hinv Hrun. unfold resolve_snapshot in Hrun.
  destruct (visit_all snap fuel iter) as [[aux topo]|]; [|done]. simpl in Hrun.
  eapply graph_inv_component_steps; [|exact Hrun]. exact Hinv.
Qed.

Lemma graph_inv_balanced ti : graph_inv ti -> balanced ti.
Proof.
  intros Hinv t info Ht. rewrite (inv_balance _ Hinv). unfold waiting_for_of.
  by rewrite Ht.
Qed.

Lemma example_two_cycle_graph_inv : graph_inv example_two_cycle.
Proof.
  split.
  - reflexivity.
  - apply Pass.snapshot_ids, example_two_cycle_snapshot_ok.
  - intros t. unfold example_two_cycle.
    rewrite total_occurrences_insert_None by reflexivity.
    rewrite total_occurrences_insert_None by reflexivity.
    rewrite total_occurrences_empty. simpl waited_by.
    rewrite !occurrences_singleton. unfold waiting_for_of.
    destruct (decide (t = 1)) as [->|H1]; [reflexivity|].
    destruct (decide (t = 2)) as [->|H2]; [reflexivity|].
    rewrite lookup_insert_ne by done. rewrite lookup_insert_ne by done.
    rewrite lookup_empty.
    rewrite !decide_False; [done| |]; intros [_ ?]; congruence.
Qed.

End Balance_facts.

Import DDRLockManager DeadlockResolver Pass Balance_facts.

(** X5.  The resolver keeps the wait-for graph balanced.  On a
    well-formed snapshot in which the sentinel is no txn, every entry is
    stored under its id, and every txn occurs in the [waited_by] lists
    as many times as its [num_waiting_for] says (what the calls of the
    lock manager maintain), a pass ends with a table of the resolver in
    which this holds again: each edge that [ResolveDeadlock] removes or
    adds is counted at its target. *)
Theorem resolver_pass_keeps_balance snap iter fuel :
  snapshot_ok snap -> iter ≡ₚ map_to_list snap -> (size snap < fuel)%nat ->
  graph_inv snap ->
  exists p,
    resolve_snapshot fuel iter snap = Some p /\
    graph_inv (DeadlockResolver.txn_info_ p) /\
    balanced (DeadlockResolver.txn_info_ p).
Proof.
  intros Hsnap Hiter Hfuel Hinv.
  destruct (Pass_facts.resolve_snapshot_spec snap fuel iter Hsnap Hfuel Hiter)
    as (p & comps & Hrun & _).
  exists p. split; [done|].
  pose proof (graph_inv_resolve_snapshot fuel iter snap p Hinv Hrun) as Hinv'.
  split; [done|by apply graph_inv_balanced].
Qed.

Lemma resolver_pass_keeps_balance_witness :
  exists p,
    resolve_snapshot 3 example_iter_12 example_two_cycle = Some p /\
    graph_inv (DeadlockResolver.txn_info_ p) /\
    balanced (DeadlockResolver.txn_info_ p).
Proof.
  apply (resolver_pass_keeps_balance example_two_cycle example_iter_12 3).
  - exact example_two_cycle_snapshot_ok.
  - exact example_iter_12_Permutation.
  - vm_compute. lia.
  - exact example_two_cycle_graph_inv.
Defined.

(* ===================================================================== *)
(** * More properties of the lock manager                                *)
(* ===================================================================== *)

Module LockManager_more.
Import DDRLockManager DDRLockManager_facts LockManagerMore.

Lemma alter_is_Some_iff {A} (f : A -> A) (m : gmap Z A) k j :
  is_Some (alter f k m !! j) <-> is_Some (m !! j).
Proof.
  rewrite lookup_alter. destruct (decide (k = j)) as [->|]; [|done].
  by rewrite fmap_is_Some.
Qed.

(** ** What [ReleaseLocks] returns *)

Lemma fold_release_one_snoc l a st :
  fold_left release_one (l ++ [a]) st = release_one (fold_left release_one l st) a.
Proof. by rewrite fold_left_app. Qed.

Lemma occurrences_snoc t l a :
  occurrences t (l ++ [a]) =
  occurrences t l + (if decide (a <> kSentinelTxnId /\ a = t) then 1 else 0).
Proof. by rewrite occurrences_app, occurrences_singleton. Qed.

(** A txn is returned when one of its slots brings its counter to 0. *)
Lemma release_fold_result l ti0 :
  NoDup (fold_left release_one l (ti0, [])).2 /\
  forall b, b ∈ (fold_left release_one l (ti0, [])).2 <->
    b <> kSentinelTxnId /\
    exists info, ti0 !! b = Some info /\ is_complete info = true /\
                 1 <= num_waiting_for info <= occurrences b l.
Proof.
  induction l as [|a l IH] using rev_ind.
  { simpl. split; [constructor|]. intros b. split; [by intros ?%elem_of_nil|].
    intros (_ & info & _ & _ & Hn). rewrite occurrences_nil in Hn. lia. }
  destruct IH as [Hnd Hin]. rewrite fold_release_one_snoc.
  pose proof (release_fold_lookup l ti0 [] a) as Hlk.
  destruct (fold_left release_one l (ti0, [])) as [ti1 res1]. simpl in Hnd, Hin, Hlk.
  unfold release_one.
  destruct (Z.eqb_spec a kSentinelTxnId) as [Ha|Ha].
  { simpl. split; [done|]. intros b. rewrite Hin, occurrences_snoc.
    rewrite decide_False by (intros [? _]; done). by rewrite Z.add_0_r. }
  destruct (ti1 !! a) as [cur|] eqn:Hcur.
  - destruct (ti0 !! a) as [info0|] eqn:H0; [|done]. simpl in Hlk.
    injection Hlk as ->.
    assert (Hready : is_ready (add_waiting_for (-1) (add_waiting_for (- occurrences a l) info0))
                     = true <->
                     is_complete info0 = true /\ num_waiting_for info0 = occurrences a l + 1).
    { unfold is_ready, is_complete. simpl. rewrite andb_true_iff, !Z.eqb_eq. lia. }
    pose proof (occurrences_nonneg a l) as Hnn.
    destruct (is_ready _) eqn:Hr; simpl.
    + destruct (proj1 Hready eq_refl) as [Hc Hn]. split.
      * apply NoDup_app. split; [done|]. split; [|apply NoDup_singleton].
        intros b Hb ->%list_elem_of_singleton. apply Hin in Hb as (_ & info & Hi & _ & Hle).
        simplify_eq. lia.
      * intros b. rewrite elem_of_app, list_elem_of_singleton, Hin, occurrences_snoc.
        destruct (decide (a = b)) as [->|Hne].
        -- rewrite decide_True by done. split.
           ++ intros _. split; [done|]. exists info0. split; [done|]. split; [done|]. lia.
           ++ intros _. by right.
        -- rewrite decide_False by (intros [_ ?]; done). rewrite Z.add_0_r. split.
           ++ intros [?|?]; [done|]. by subst.
           ++ intros ?. by left.
    + split; [done|]. intros b. rewrite Hin, occurrences_snoc.
      destruct (decide (a = b)) as [->|Hne].
      * rewrite decide_True by done. split.
        -- intros (? & info & Hi & Hc & Hle). split; [done|]. exists info.
           split; [done|]. split; [done|]. lia.
        -- intros (? & info & Hi & Hc & Hle). split; [done|]. exists info.
           split; [done|]. split; [done|]. rewrite H0 in Hi. injection Hi as <-.
           assert (num_waiting_for info0 <> occurrences b l + 1); [|lia].
           intros Heq. assert (false = true); [|done]. by apply Hready.
      * rewrite decide_False by (intros [_ ?]; done). by rewrite Z.add_0_r.
  - destruct (ti0 !! a) as [info0|] eqn:H0; [done|]. simpl.
    split; [done|]. intros b. rewrite Hin, occurrences_snoc.
    destruct (decide (a = b)) as [->|Hne].
    + split; intros (_ & info & Hi & _); congruence.
    + rewrite decide_False by (intros [_ ?]; done). by rewrite Z.add_0_r.
Qed.

Lemma total_occurrences_ge t ti k v :
  ti !! k = Some v -> occurrences t (waited_by v) <= total_occurrences t ti.
Proof.
  intros Hk. rewrite (total_occurrences_delete t ti k v Hk).
  pose proof (total_occurrences_nonneg t (delete k ti)). lia.
Qed.

(** ** No txn waits for itself *)

Lemma no_self_wait_alter ti k f :
  (forall i, waited_by (f i) = waited_by i) ->
  no_self_wait ti -> no_self_wait (alter f k ti).
Proof.
  intros Hf Hns j info. rewrite lookup_alter.
  destruct (decide (k = j)) as [->|]; [|apply Hns].
  destruct (ti !! j) as [old|] eqn:Hj; simpl; [|done].
  intros [= <-]. rewrite Hf. by apply Hns.
Qed.

Lemma no_self_wait_try_emplace ti k : no_self_wait ti -> no_self_wait (try_emplace k ti).
Proof.
  intros Hns. unfold try_emplace. destruct (ti !! k) eqn:Hk; [done|].
  intros j info. rewrite lookup_insert. destruct (decide (k = j)) as [->|]; [|apply Hns].
  intros [= <-]. simpl. apply not_elem_of_nil.
Qed.

Lemma no_self_wait_add_blocker txn ti b :
  no_self_wait ti -> no_self_wait (add_blocker txn ti b).
Proof.
  intros Hns. unfold add_blocker.
  destruct (Z.eqb_spec b txn) as [->|Hne]; [done|].
  destruct (ti !! b) as [binfo|] eqn:Hb; [|done].
  intros j info. rewrite lookup_alter.
  destruct (decide (b = j)) as [->|Hbj].
  - rewrite lookup_alter_ne by done. rewrite Hb. simpl. intros [= <-]. simpl.
    intros [Hin|Hin%list_elem_of_singleton]%elem_of_app; [by apply (Hns j binfo)|done].
  - apply (no_self_wait_alter ti txn (add_waiting_for 1)); done.
Qed.

Lemma no_self_wait_add_blockers txn bs :
  forall ti, no_self_wait ti -> no_self_wait (fold_left (add_blocker txn) bs ti).
Proof.
  induction bs as [|b bs IH]; intros ti Hns; [done|].
  simpl. apply IH. by apply no_self_wait_add_blocker.
Qed.

Lemma no_self_wait_do_call c lm lm' :
  no_self_wait (txn_info_ lm) -> do_call c lm = Some lm' -> no_self_wait (txn_info_ lm').
Proof.
  intros Hns. destruct c as [h|h|h]; simpl.
  - unfold AcceptTransaction. destruct (keys_in_partition h) as [|kp kps]; [done|].
    destruct (alter _ _ _ !! txn_id h) as [info|]; simpl; [|done].
    intros [= <-]. simpl. apply no_self_wait_alter; [done|].
    by apply no_self_wait_try_emplace.
  - unfold AcquireLocks. destruct (keys_in_partition h) as [|kp kps]; [done|].
    destruct (locks_to_request h) as [locks|]; simpl; [|done].
    destruct (foldlM _ locks _) as [[lock_table blocking]|]; simpl; [|done].
    destruct (fold_left _ _ _ !! txn_id h) as [info|] eqn:Hinfo; simpl; [|done].
    intros [= <-]. simpl. apply no_self_wait_add_blockers.
    apply no_self_wait_alter; [done|]. by apply no_self_wait_try_emplace.
  - unfold ReleaseLocks.
    destruct (txn_info_ lm !! txn_id h) as [info|] eqn:Hinfo; [|by intros [= <-]].
    destruct (is_ready info); [|done].
    pose proof (release_fold_lookup (waited_by info) (txn_info_ lm) []) as Hlk.
    destruct (fold_left release_one (waited_by info) (txn_info_ lm, [])) as [ti result].
    simpl in Hlk. intros [= <-]. simpl.
    intros j i. rewrite lookup_delete. destruct (decide (txn_id h = j)); [done|].
    rewrite Hlk. destruct (txn_info_ lm !! j) as [old|] eqn:Hj; simpl; [|done].
    intros [= <-]. simpl. by apply (Hns j old).
Qed.

(** ** The lock requests that are still to come *)

Lemma unarrived_of_alter ti k f t :
  (forall i, unarrived_lock_requests (f i) = unarrived_lock_requests i) ->
  unarrived_of (alter f k ti) t = unarrived_of ti t.
Proof.
  intros Hf. unfold unarrived_of. rewrite lookup_alter.
  destruct (decide (k = t)) as [->|]; [|done].
  destruct (ti !! t); simpl; by rewrite ?Hf.
Qed.

Lemma unarrived_of_try_emplace ti k t : unarrived_of (try_emplace k ti) t = unarrived_of ti t.
Proof.
  unfold try_emplace. destruct (ti !! k) eqn:Hk; [done|].
  unfold unarrived_of. rewrite lookup_insert. destruct (decide (k = t)) as [->|]; [|done].
  by rewrite Hk.
Qed.

Lemma unarrived_of_add ti k n :
  is_Some (ti !! k) ->
  unarrived_of (alter (add_unarrived n) k ti) k = unarrived_of ti k + n.
Proof.
  intros [info Hk]. unfold unarrived_of. by rewrite lookup_alter_eq, Hk.
Qed.

Lemma unarrived_of_add_blockers txn bs t :
  forall ti, unarrived_of (fold_left (add_blocker txn) bs ti) t = unarrived_of ti t.
Proof.
  induction bs as [|b bs IH]; intros ti; [done|].
  simpl. rewrite IH. unfold add_blocker.
  destruct (Z.eqb_spec b txn) as [->|Hne]; [done|].
  destruct (ti !! b); [|done]. by rewrite !unarrived_of_alter.
Qed.

Lemma try_emplace_idem ti k : try_emplace k (try_emplace k ti) = try_emplace k ti.
Proof.
  unfold try_emplace at 1. by destruct (try_emplace_is_Some ti k) as [x ->].
Qed.

Lemma locks_to_request_length h locks :
  locks_to_request h = Some locks ->
  keys_in_partition h <> [] ->
  Z.of_nat (length locks) =
  if is_remaster h then 1 else Z.of_nat (length (keys_in_partition h)).
Proof.
  unfold locks_to_request. intros Hl Hk. destruct (is_remaster h).
  - destruct (keys_in_partition h) as [|[key m] kps]; [done|].
    destruct (master_metadata h !! key); simpl in Hl; [|done]. by injection Hl as <-.
  - apply length_mapM in Hl. by rewrite Hl.
Qed.

(** ** Fatal errors *)

Lemma request_locks_None txn locks :
  forall st, foldlM (request_lock txn) locks st = None <->
             exists kr, (kr, UNLOCKED) ∈ locks.
Proof.
  induction locks as [|[kr mode] locks IH]; intros [lt bl].
  { split; [done|]. intros [kr Hkr]. by apply elem_of_nil in Hkr. }
  rewrite foldlM_cons. unfold request_lock at 1.
  destruct mode.
  - split; [|done]. intros _. exists kr. left.
  - destruct (LockQueueTail.AcquireReadLock _ _) as [q b_txn]. rewrite IH.
    split; intros [kr' Hkr']; exists kr'; [by right|].
    apply elem_of_cons in Hkr' as [?|?]; [done|done].
  - destruct (LockQueueTail.AcquireWriteLock _ _) as [q b_txns]. rewrite IH.
    split; intros [kr' Hkr']; exists kr'; [by right|].
    apply elem_of_cons in Hkr' as [?|?]; [done|done].
Qed.

Lemma add_blockers_is_Some txn bs :
  forall ti, is_Some (ti !! txn) -> is_Some (fold_left (add_blocker txn) bs ti !! txn).
Proof.
  induction bs as [|b bs IH]; intros ti Hs; [done|].
  simpl. apply IH. unfold add_blocker.
  destruct (Z.eqb_spec b txn) as [->|Hne]; [done|].
  destruct (ti !! b); [|done].
  rewrite lookup_alter_ne by done. rewrite lookup_alter_eq. by apply fmap_is_Some.
Qed.

Lemma AcquireLocks_None h lm :
  AcquireLocks h lm = None <->
  keys_in_partition h = [] \/ locks_to_request h = None \/
  exists locks, locks_to_request h = Some locks /\
                foldlM (request_lock (txn_id h)) locks (lock_table_ lm, []) = None.
Proof.
  unfold AcquireLocks. destruct (keys_in_partition h) as [|kp kps]; [split; auto|].
  destruct (locks_to_request h) as [locks|]; simpl; [|split; auto].
  destruct (foldlM _ locks _) as [[lock_table blocking]|] eqn:Hfold; simpl.
  - match goal with |- context [fold_left ?f ?bs ?ti0 !! _] =>
      destruct (add_blockers_is_Some (txn_id h) bs ti0) as [info ->]
    end.
    { rewrite lookup_alter_eq. apply fmap_is_Some, try_emplace_is_Some. }
    simpl. split; [done|]. intros [?|[?|(locks' & [= <-] & Hn)]]; congruence.
  - split; [|done]. intros _. right. right. by exists locks.
Qed.

(** ** [std::sort] followed by [std::unique] *)

Lemma elem_of_unique_from x l y : y ∈ unique_from x l <-> y = x \/ y ∈ l.
Proof.
  revert x. induction l as [|a l IH]; intros x; simpl.
  - rewrite list_elem_of_singleton. split; [by left|]. intros [?|?%elem_of_nil]; done.
  - destruct (Z.eqb_spec x a) as [->|Hne].
    + rewrite IH, elem_of_cons. naive_solver.
    + rewrite !elem_of_cons, IH. naive_solver.
Qed.

Lemma elem_of_std_unique l y : y ∈ std_unique l <-> y ∈ l.
Proof.
  destruct l as [|x l]; [done|]. simpl. rewrite elem_of_unique_from, elem_of_cons. done.
Qed.

Lemma unique_from_increasing x l :
  StronglySorted Z.le (x :: l) -> StronglySorted Z.lt (unique_from x l).
Proof.
  revert x. induction l as [|a l IH]; intros x Hs; simpl.
  - repeat constructor.
  - apply StronglySorted_inv in Hs as [Hs Hall].
    destruct (Z.eqb_spec x a) as [->|Hne]; [by apply IH|].
    constructor; [by apply IH|].
    apply Forall_forall. intros y Hy. apply elem_of_unique_from in Hy.
    apply Forall_cons in Hall as [Hxa Hall].
    destruct Hy as [->|Hy]; [lia|].
    apply StronglySorted_inv in Hs as [_ Hall'].
    rewrite Forall_forall in Hall'. specialize (Hall' y Hy). lia.
Qed.

Lemma StronglySorted_lt_NoDup (l : list Z) : StronglySorted Z.lt l -> NoDup l.
Proof.
  induction 1 as [|x l Hs IH Hall]; constructor; [|done].
  intros Hx. rewrite Forall_forall in Hall. specialize (Hall x Hx). lia.
Qed.

Lemma std_unique_sort_increasing l : StronglySorted Z.lt (std_unique (std_sort l)).
Proof.
  assert (Hs : StronglySorted Z.le (std_sort l)).
  { apply StronglySorted_merge_sort; apply _. }
  destruct (std_sort l) as [|x l']; [constructor|]. by apply unique_from_increasing.
Qed.

Lemma std_unique_sort_NoDup l : NoDup (std_unique (std_sort l)).
Proof. apply StronglySorted_lt_NoDup, std_unique_sort_increasing. Qed.

Lemma elem_of_std_unique_sort l y : y ∈ std_unique (std_sort l) <-> y ∈ l.
Proof.
  rewrite elem_of_std_unique. unfold std_sort. by rewrite merge_sort_Permutation.
Qed.

(** ** The loop over the locks *)

Lemma request_locks_spec txn locks :
  NoDup locks.*1 ->
  (forall kr, (kr, UNLOCKED) ∉ locks) ->
  forall lt bl,
    exists lt' bl',
      foldlM (request_lock txn) locks (lt, bl) = Some (lt', bl') /\
      (forall kr mode, (kr, mode) ∈ locks ->
         lt' !! kr = Some (requested txn mode (default LockQueueTail.empty (lt !! kr)))) /\
      (forall kr, kr ∉ locks.*1 -> lt' !! kr = lt !! kr) /\
      (forall b, b ∈ bl' <->
         b ∈ bl \/ exists kr mode, (kr, mode) ∈ locks /\
           b ∈ conflicting txn mode (default LockQueueTail.empty (lt !! kr))).
Proof.
  induction locks as [|[kr0 mode0] locks IH]; intros Hnd Hmodes lt bl.
  { exists lt, bl. split; [done|]. split; [by intros ? ? ?%elem_of_nil|].
    split; [done|]. intros b. split; [by left|].
    intros [?|(? & ? & ?%elem_of_nil & _)]; done. }
  simpl in Hnd. apply NoDup_cons in Hnd as [Hkr0 Hnd].
  assert (Hmodes' : forall kr, (kr, UNLOCKED) ∉ locks).
  { intros kr Hin. apply (Hmodes kr). by right. }
  assert (Hm0 : mode0 <> UNLOCKED).
  { intros ->. apply (Hmodes kr0). left. }
  rewrite foldlM_cons.
  set (q0 := default LockQueueTail.empty (lt !! kr0)).
  assert (Hstep : exists bl1,
    request_lock txn (lt, bl) (kr0, mode0) = Some (<[kr0 := requested txn mode0 q0]> lt, bl1) /\
    forall b, b ∈ bl1 <-> b ∈ bl \/ b ∈ conflicting txn mode0 q0).
  { unfold request_lock, requested, conflicting. fold q0. destruct mode0; [done| |].
    - destruct (LockQueueTail.AcquireReadLock txn q0) as [q b_txn] eqn:Hq. simpl.
      eexists. split; [done|]. intros b. destruct b_txn as [b0|].
      + rewrite elem_of_app. done.
      + split; [by left|]. intros [?|?%elem_of_nil]; done.
    - destruct (LockQueueTail.AcquireWriteLock txn q0) as [q b_txns] eqn:Hq. simpl.
      eexists. split; [done|]. intros b. rewrite elem_of_app. tauto. }
  destruct Hstep as (bl1 & -> & Hbl1).
  destruct (IH Hnd Hmodes' (<[kr0 := requested txn mode0 q0]> lt) bl1)
    as (lt' & bl' & Hrun & Hin & Hout & Hbl').
  exists lt', bl'. split; [done|].
  assert (Hne : forall kr mode, (kr, mode) ∈ locks -> kr <> kr0).
  { intros kr mode Hkm ->. apply Hkr0. apply list_elem_of_fmap. by exists (kr0, mode). }
  split; [|split].
  - intros kr mode [[= -> ->]|Hkm]%elem_of_cons.
    + rewrite (Hout kr0 Hkr0). by rewrite lookup_insert_eq.
    + rewrite (Hin kr mode Hkm). rewrite lookup_insert_ne; [done|].
      intros <-. by apply (Hne kr0 mode).
  - intros kr Hkr. simpl in Hkr. apply not_elem_of_cons in Hkr as [Hk0 Hkr].
    rewrite (Hout kr Hkr). by rewrite lookup_insert_ne.
  - intros b. rewrite Hbl', Hbl1. split.
    + intros [[?|?]|(kr & mode & Hkm & Hb)]; [by left| |].
      * right. exists kr0, mode0. split; [left|done].
      * right. exists kr, mode. split; [by right|].
        rewrite lookup_insert_ne in Hb; [done|]. intros <-. by apply (Hne kr0 mode).
    + intros [?|(kr & mode & [[= -> ->]|Hkm]%elem_of_cons & Hb)]; [by left; left| |].
      * left. by right.
      * right. exists kr, mode. split; [done|].
        rewrite lookup_insert_ne; [done|]. intros <-. by apply (Hne kr0 mode).
Qed.

(** ** The loop over the blocking txns *)

Lemma add_waiting_for_nat (a b : Z) i :
  add_waiting_for a (add_waiting_for b i) = add_waiting_for (b + a) i.
Proof. apply add_waiting_for_add. Qed.

Lemma add_blockers_spec txn bs :
  NoDup bs ->
  forall ti info_txn,
    ti !! txn = Some info_txn ->
    fold_left (add_blocker txn) bs ti !! txn =
      Some (add_waiting_for
              (Z.of_nat (length (filter (fun b => b <> txn /\ is_Some (ti !! b)) bs)))
              info_txn) /\
    forall b, b <> txn ->
      fold_left (add_blocker txn) bs ti !! b =
      (fun info => if decide (b ∈ bs) then push_waited_by txn info else info) <$> ti !! b.
Proof.
  induction bs as [|b0 bs IH]; intros Hnd ti info_txn Htxn.
  { simpl. split; [by rewrite add_waiting_for_0|].
    intros b Hb. destruct (ti !! b); simpl; [|done].
    by destruct (decide (b ∈ [])) as [?%elem_of_nil|]. }
  apply NoDup_cons in Hnd as [Hb0 Hnd]. simpl fold_left.
  assert (Hcase : (b0 = txn \/ ti !! b0 = None) /\ add_blocker txn ti b0 = ti \/
                  b0 <> txn /\ exists i0, ti !! b0 = Some i0 /\
                    add_blocker txn ti b0 =
                    alter (push_waited_by txn) b0 (alter (add_waiting_for 1) txn ti)).
  { unfold add_blocker. destruct (Z.eqb_spec b0 txn) as [->|Hne]; [left; auto|].
    destruct (ti !! b0) as [i0|] eqn:Hi0; [right|left; auto].
    split; [done|]. by exists i0. }
  destruct Hcase as [[Hskip ->]|(Hne & i0 & Hi0 & ->)].
  - destruct (IH Hnd ti info_txn Htxn) as [HT Hother]. split.
    + rewrite HT. do 3 f_equal. rewrite filter_cons_False; [done|].
      intros [? [x Hx]]. destruct Hskip as [?|Hn]; [done|]. by rewrite Hn in Hx.
    + intros b Hb. rewrite (Hother b Hb). destruct (ti !! b) as [info|] eqn:Hib; simpl; [|done].
      f_equal. destruct (decide (b ∈ bs)) as [Hin|Hin].
      * rewrite decide_True; [done|]. by right.
      * rewrite decide_False; [done|].
        intros [->|?]%elem_of_cons; [|done]. destruct Hskip as [?|Hn]; [done|]. congruence.
  - set (ti1 := alter (push_waited_by txn) b0 (alter (add_waiting_for 1) txn ti)).
    assert (H1T : ti1 !! txn = Some (add_waiting_for 1 info_txn)).
    { unfold ti1. rewrite lookup_alter_ne by done. by rewrite lookup_alter_eq, Htxn. }
    assert (H1b0 : ti1 !! b0 = Some (push_waited_by txn i0)).
    { unfold ti1. rewrite lookup_alter_eq. rewrite lookup_alter_ne by done. by rewrite Hi0. }
    assert (H1o : forall b, b <> txn -> b <> b0 -> ti1 !! b = ti !! b).
    { intros b ? ?. unfold ti1. by rewrite !lookup_alter_ne. }
    assert (H1s : forall b, is_Some (ti1 !! b) <-> is_Some (ti !! b)).
    { intros b. unfold ti1. by rewrite !alter_is_Some_iff. }
    destruct (IH Hnd ti1 _ H1T) as [HT Hother]. split.
    + rewrite HT, add_waiting_for_nat. f_equal.
      rewrite filter_cons_True by eauto. simpl length.
      rewrite (list_filter_iff (fun b => b <> txn /\ is_Some (ti1 !! b))
                 (fun b => b <> txn /\ is_Some (ti !! b))).
      * f_equal. lia.
      * intros b. by rewrite H1s.
    + intros b Hb. rewrite (Hother b Hb). destruct (decide (b = b0)) as [->|Hbb].
      * rewrite H1b0, Hi0. simpl. rewrite decide_False by done.
        rewrite decide_True; [done|left].
      * rewrite (H1o b Hb Hbb). destruct (ti !! b) as [info|]; simpl; [|done].
        f_equal. destruct (decide (b ∈ bs)) as [Hin|Hin].
        -- rewrite decide_True; [done|]. by right.
        -- rewrite decide_False; [done|]. intros [?|?]%elem_of_cons; done.
Qed.

Lemma try_emplace_lookup_ne ti k j : k <> j -> try_emplace k ti !! j = ti !! j.
Proof.
  intros Hne. unfold try_emplace. destruct (ti !! k); [done|]. by rewrite lookup_insert_ne.
Qed.

Lemma try_emplace_lookup_eq ti k :
  try_emplace k ti !! k = Some (default (new_TxnInfo k) (ti !! k)).
Proof.
  unfold try_emplace. destruct (ti !! k) eqn:Hk; [by rewrite Hk|by rewrite lookup_insert_eq].
Qed.

(** ** The tail of a lock queue *)

Lemma read_locks_spec readers q :
  read_locks readers q =
  (LockQueueTail.mk (LockQueueTail.write_lock_requester_ q)
                    (LockQueueTail.read_lock_requesters_ q ++ readers),
   replicate (length readers) (LockQueueTail.write_lock_requester_ q)).
Proof.
  revert q. induction readers as [|r readers IH]; intros q; simpl.
  - rewrite app_nil_r. by destruct q.
  - rewrite IH. simpl. by rewrite <- app_assoc.
Qed.

Lemma AcquireLocks_None_iff h lm :
  AcquireLocks h lm = None <->
    keys_in_partition h = [] \/
    (is_remaster h = true /\
     exists key mode rest, keys_in_partition h = (key, mode) :: rest /\
                           master_metadata h !! key = None) \/
    (is_remaster h = false /\
     exists key mode, (key, mode) ∈ keys_in_partition h /\
                      (master_metadata h !! key = None \/ mode = UNLOCKED)).
Proof.
  rewrite AcquireLocks_None.
  destruct (keys_in_partition h) as [|[key0 mode0] kps] eqn:Hkeys.
  { split; intros _; by left. }
  unfold locks_to_request. rewrite Hkeys.
  destruct (is_remaster h) eqn:Hrem.
  + destruct (master_metadata h !! key0) as [master|] eqn:Hm; simpl.
    * split.
      { intros [?|[?|(locks & [= <-] & Hnone)]]; done. }
      intros [?|[(_ & key & mode & rest & [= <- <- <-] & Hn)|[? _]]]; congruence.
    * split; intros _.
      -- right. left. split; [done|]. by exists key0, mode0, kps.
      -- right. by left.
  + destruct (mapM _ ((key0, mode0) :: kps)) as [locks|] eqn:Hmap; simpl.
    * pose proof (mapM_Some_1 _ _ _ Hmap) as Hall. split.
      -- intros [?|[?|(locks' & [= <-] & Hnone)]]; try done.
         right. right. split; [done|].
         apply request_locks_None in Hnone as [kr Hkr].
         apply list_elem_of_lookup in Hkr as [i Hi].
         destruct (Forall2_lookup_r _ _ _ _ _ Hall Hi) as ([key mode] & Hxl & Hx).
         simpl in Hx. destruct (master_metadata h !! key); [|done]. simpl in Hx.
         injection Hx as _ ->. exists key, UNLOCKED. split; [|by right].
         by eapply list_elem_of_lookup_2.
      -- intros [?|[[? _]|(_ & key & mode & Hin & Hbad)]]; try done.
         apply list_elem_of_lookup in Hin as [i Hi].
         destruct (Forall2_lookup_l _ _ _ _ _ Hall Hi) as (y & Hyl & Hy).
         simpl in Hy. destruct Hbad as [Hn| ->]; [by rewrite Hn in Hy|].
         destruct (master_metadata h !! key) as [master|]; [|done].
         simpl in Hy. injection Hy as <-.
         right. right. exists locks. split; [done|].
         apply request_locks_None. eexists. by eapply list_elem_of_lookup_2.
    * split; intros _; [|right; by left]. right. right. split; [done|].
      apply mapM_None_1, Exists_exists in Hmap as ([key mode] & Hin & Hnone).
      exists key, mode. split; [done|]. left.
      by destruct (master_metadata h !! key).
Qed.

Lemma AcceptTransaction_None_iff h lm :
  AcceptTransaction h lm = None <-> keys_in_partition h = [].
Proof.
  unfold AcceptTransaction. destruct (keys_in_partition h) as [|kp kps]; [done|].
  split; [|done]. intros Hnone. exfalso. revert Hnone.
  rewrite lookup_alter_eq.
  by destruct (try_emplace_is_Some (txn_info_ lm) (txn_id h)) as [x ->].
Qed.

End LockManager_more.

Import DDRLockManager DDRLockManager_facts LockManagerMore LockManager_more.

(** X6.  [ReleaseLocks] of a ready txn of a table that is balanced (what
    the calls of the lock manager maintain) removes the txn from the
    table, leaves the lock table and the list of ready txns as they
    are, lowers the counter of every other txn by the number of slots of
    the released txn that hold it, and returns exactly the txns that it
    made ready (the txns of the table that were not ready and are ready
    now), each once. *)
Theorem ReleaseLocks_returns_newly_ready (h : TxnHolder) (lm : DDRLockManager.t) info :
  graph_inv (txn_info_ lm) ->
  txn_info_ lm !! txn_id h = Some info ->
  is_ready info = true ->
  exists lm' result,
    ReleaseLocks h lm = Some (lm', result) /\
    lock_table_ lm' = lock_table_ lm /\ ready_txns_ lm' = ready_txns_ lm /\
    txn_info_ lm' !! txn_id h = None /\
    (forall b, b <> txn_id h ->
       txn_info_ lm' !! b =
       add_waiting_for (- occurrences b (waited_by info)) <$> txn_info_ lm !! b) /\
    NoDup result /\
    (forall b, b ∈ result <->
       exists old new, txn_info_ lm !! b = Some old /\ is_ready old = false /\
                       txn_info_ lm' !! b = Some new /\ is_ready new = true).
Proof.
  intros Hinv Hinfo Hready. unfold ReleaseLocks. rewrite Hinfo, Hready.
  pose proof (release_fold_lookup (waited_by info) (txn_info_ lm) []) as Hlk.
  destruct (release_fold_result (waited_by info) (txn_info_ lm)) as [Hnd Hin].
  destruct (fold_left release_one (waited_by info) (txn_info_ lm, [])) as [ti result].
  simpl in Hlk, Hnd, Hin.
  eexists _, result. split; [reflexivity|]. simpl.
  split; [done|]. split; [done|]. split; [by rewrite lookup_delete_eq|].
  assert (Hother : forall b, b <> txn_id h ->
            delete (txn_id h) ti !! b =
            add_waiting_for (- occurrences b (waited_by info)) <$> txn_info_ lm !! b).
  { intros b Hb. rewrite lookup_delete_ne by done. apply Hlk. }
  split; [done|]. split; [done|].
  assert (Hnw : num_waiting_for info = 0).
  { unfold is_ready in Hready. apply andb_true_iff in Hready as [_ Hz]. by apply Z.eqb_eq. }
  intros b. rewrite Hin. split.
  - intros (Hb0 & old & Hold & Hc & Hle).
    assert (Hbal : num_waiting_for old = total_occurrences b (txn_info_ lm)).
    { rewrite (inv_balance _ Hinv). unfold waiting_for_of. by rewrite Hold. }
    pose proof (total_occurrences_ge b _ _ _ Hinfo) as Hge.
    assert (Hbh : b <> txn_id h).
    { intros ->. simplify_eq. lia. }
    exists old, (add_waiting_for (- occurrences b (waited_by info)) old).
    split; [done|]. split.
    { unfold is_ready. apply andb_false_iff. right. apply Z.eqb_neq. lia. }
    split; [by rewrite (Hother b Hbh), Hold|].
    unfold is_ready, is_complete in *. simpl. rewrite Hc. simpl. apply Z.eqb_eq. lia.
  - intros (old & new & Hold & Hnr & Hnew & Hr).
    assert (Hbh : b <> txn_id h).
    { intros ->. by rewrite lookup_delete_eq in Hnew. }
    rewrite (Hother b Hbh), Hold in Hnew. simpl in Hnew. injection Hnew as <-.
    unfold is_ready, is_complete in Hnr, Hr. simpl in Hr.
    apply andb_true_iff in Hr as [Hc Hz]. apply Z.eqb_eq in Hz.
    rewrite Hc in Hnr. simpl in Hnr. apply Z.eqb_neq in Hnr.
    pose proof (occurrences_nonneg b (waited_by info)).
    split.
    { intros ->. by rewrite (inv_no_sentinel _ Hinv) in Hold. }
    exists old. split; [done|]. split; [done|]. lia.
Qed.

Lemma ReleaseLocks_returns_newly_ready_witness :
  exists lm lm',
    do_calls example_double_count init = Some lm /\
    ReleaseLocks example_holder_100 lm = Some (lm', [200]) /\
    txn_info_ lm' !! 100 = None /\
    num_waiting_for <$> txn_info_ lm !! 200 = Some 2 /\
    num_waiting_for <$> txn_info_ lm' !! 200 = Some 0.
Proof.
  destruct (do_calls example_double_count init) as [lm|] eqn:Hrun;
    [|vm_compute in Hrun; discriminate Hrun].
  assert (Hr : reachable_ids lm).
  { apply (reachable_ids_do_calls example_double_count init lm);
      [|apply reachable_ids_init|exact Hrun].
    repeat (constructor; [simpl; unfold kSentinelTxnId; lia|]). constructor. }
  pose proof (reachable_ids_graph_inv lm Hr) as Hinv.
  vm_compute in Hrun. injection Hrun as <-.
  destruct (ReleaseLocks_returns_newly_ready example_holder_100 _ _ Hinv eq_refl eq_refl)
    as (lm' & result & Hrel & _).
  vm_compute in Hrel. injection Hrel as <- <-.
  eexists _, _. repeat split.
Defined.

(** X7.  In every state that the lock manager reaches by its calls, no
    txn is in a slot of its own [waited_by]: [AcquireLocks] skips the txn
    itself among the blocking txns. *)
Theorem no_txn_waits_for_itself (lm : DDRLockManager.t) :
  reachable lm -> no_self_wait (txn_info_ lm).
Proof.
  induction 1 as [|c lm lm' _ IH Hcall].
  - intros k info Hk. simpl in Hk. by rewrite lookup_empty in Hk.
  - by apply (no_self_wait_do_call c lm lm').
Qed.

Lemma no_txn_waits_for_itself_witness :
  no_self_wait (txn_info_ (default init (DDRLockManager.AcceptTxnAndAcquireLocks
                                           example_holder_100 init ≫= fun r => Some r.1))).
Proof.
  apply no_txn_waits_for_itself.
  apply (reachable_call (CallAcquireLocks example_holder_100)
           (default init (fst <$> AcceptTransaction example_holder_100 init))).
  - apply (reachable_call (CallAcceptTransaction example_holder_100) init).
    + apply reachable_init.
    + reflexivity.
  - reflexivity.
Defined.

(** X8.  [AcceptTxnAndAcquireLocks] never returns [ABORT]; it leaves the
    [unarrived_lock_requests] of a txn that is not a remaster as it
    was, so a new txn has all its lock requests; for a remaster it
    leaves one more than there was (two are announced, one is made), so
    a new remaster txn is [WAITING] until its second part arrives. *)
Theorem AcceptTxnAndAcquireLocks_unarrived (h : TxnHolder) (lm lm' : DDRLockManager.t) r :
  AcceptTxnAndAcquireLocks h lm = Some (lm', r) ->
  unarrived_of (txn_info_ lm') (txn_id h) =
    unarrived_of (txn_info_ lm) (txn_id h) + (if is_remaster h then 1 else 0) /\
  r <> ABORT /\
  (is_remaster h = true -> txn_info_ lm !! txn_id h = None -> r = WAITING).
Proof.
  unfold AcceptTxnAndAcquireLocks, AcceptTransaction, AcquireLocks.
  destruct (keys_in_partition h) as [|kp kps] eqn:Hkeys; [done|].
  set (n := if is_remaster h then 2 else Z.of_nat (length (kp :: kps))).
  set (ti_a := alter (add_unarrived n) (txn_id h) (try_emplace (txn_id h) (txn_info_ lm))).
  assert (Hs : is_Some (ti_a !! txn_id h)).
  { unfold ti_a. rewrite lookup_alter_eq. apply fmap_is_Some, try_emplace_is_Some. }
  destruct Hs as [ia Hia]. rewrite Hia. simpl.
  destruct (locks_to_request h) as [locks|] eqn:Hlocks; simpl; [|done].
  destruct (foldlM _ locks _) as [[lock_table blocking]|]; simpl; [|done].
  assert (Hte : try_emplace (txn_id h) ti_a = ti_a).
  { unfold try_emplace. by rewrite Hia. }
  rewrite Hte.
  set (ti1 := alter (add_unarrived (- Z.of_nat (length locks))) (txn_id h) ti_a).
  set (ti2 := fold_left (add_blocker (txn_id h)) (std_unique (std_sort blocking)) ti1).
  destruct (ti2 !! txn_id h) as [info|] eqn:Hinfo; simpl; [|done].
  intros [= <- <-]. simpl.
  assert (Hun : unarrived_of ti2 (txn_id h) =
                unarrived_of (txn_info_ lm) (txn_id h) + (if is_remaster h then 1 else 0)).
  { unfold ti2. rewrite unarrived_of_add_blockers. unfold ti1.
    rewrite unarrived_of_add by eauto. unfold ti_a.
    rewrite unarrived_of_add by apply try_emplace_is_Some.
    rewrite unarrived_of_try_emplace.
    pose proof (locks_to_request_length h locks Hlocks) as Hlen.
    rewrite Hkeys in Hlen. specialize (Hlen ltac:(done)). unfold n.
    destruct (is_remaster h); lia. }
  split; [done|]. split; [by destruct (is_ready info)|].
  intros Hrem Hnew. rewrite Hrem in Hun. unfold unarrived_of in Hun.
  rewrite Hinfo, Hnew in Hun. unfold is_ready, is_complete.
  destruct (Z.eqb_spec (unarrived_lock_requests info) 0) as [Hz|_]; [lia|done].
Qed.

Lemma AcceptTxnAndAcquireLocks_unarrived_witness :
  exists lm',
    AcceptTxnAndAcquireLocks example_remaster init = Some (lm', WAITING) /\
    unarrived_of (txn_info_ lm') 7 = 1.
Proof.
  destruct (AcceptTxnAndAcquireLocks example_remaster init) as [[lm' r]|] eqn:Hrun;
    [|vm_compute in Hrun; discriminate Hrun].
  destruct (AcceptTxnAndAcquireLocks_unarrived example_remaster init lm' r Hrun)
    as (Hun & _ & Hw).
  rewrite (Hw eq_refl eq_refl). exists lm'. split; [reflexivity|exact Hun].
Defined.

(** X9.  Whether [AcquireLocks] ends in a fatal error depends on the
    holder alone, not on the state of the lock manager: it does exactly
    when the holder has no key in the partition, or is a remaster whose
    key has no master metadata, or is no remaster and has a key without
    master metadata or with the lock mode [UNLOCKED].
    [AcceptTransaction] does exactly when the holder has no key in the
    partition. *)
Theorem AcquireLocks_fatal_iff (h : TxnHolder) (lm : DDRLockManager.t) :
  (AcquireLocks h lm = None <->
     keys_in_partition h = [] \/
     (is_remaster h = true /\
      exists key mode rest, keys_in_partition h = (key, mode) :: rest /\
                            master_metadata h !! key = None) \/
     (is_remaster h = false /\
      exists key mode, (key, mode) ∈ keys_in_partition h /\
                       (master_metadata h !! key = None \/ mode = UNLOCKED))) /\
  (AcceptTransaction h lm = None <-> keys_in_partition h = []).
Proof.
  split; [apply AcquireLocks_None_iff|apply AcceptTransaction_None_iff].
Qed.

(** X10.  [AcquireLocks] for a txn whose locks are on distinct key
    replicas, none with the mode [UNLOCKED], ends, and makes the txn wait
    for exactly the txns that are still in the table, the txn itself
    apart, and that a lock finds in its way at the tail of its queue
    (the last writer for a read lock; the readers since the last write,
    or else the last writer, for a write lock): each of them gets the
    txn appended once to its [waited_by], whatever the number of locks
    that find it, and the counter of the txn goes up by their number;
    every other txn keeps its entry; the tails of the queues of the
    locks are updated, the other queues are untouched; the result is
    [ACQUIRED] when the txn is ready then, and [WAITING] otherwise. *)
Theorem AcquireLocks_waits_for_conflicting (h : TxnHolder) (lm : DDRLockManager.t) locks :
  keys_in_partition h <> [] ->
  locks_to_request h = Some locks ->
  NoDup locks.*1 ->
  (forall kr, (kr, UNLOCKED) ∉ locks) ->
  exists lm' r bs info',
    AcquireLocks h lm = Some (lm', r) /\
    ready_txns_ lm' = ready_txns_ lm /\
    (forall kr mode, (kr, mode) ∈ locks ->
       lock_table_ lm' !! kr =
       Some (requested (txn_id h) mode (default LockQueueTail.empty (lock_table_ lm !! kr)))) /\
    (forall kr, kr ∉ locks.*1 -> lock_table_ lm' !! kr = lock_table_ lm !! kr) /\
    NoDup bs /\
    (forall b, b ∈ bs <-> blocks (txn_id h) locks lm b) /\
    (forall b, b <> txn_id h ->
       txn_info_ lm' !! b =
       (fun info => if decide (b ∈ bs) then push_waited_by (txn_id h) info else info)
         <$> txn_info_ lm !! b) /\
    txn_info_ lm' !! txn_id h = Some info' /\
    num_waiting_for info' = waiting_for_of (txn_info_ lm) (txn_id h) + Z.of_nat (length bs) /\
    unarrived_lock_requests info' =
      unarrived_of (txn_info_ lm) (txn_id h) - Z.of_nat (length locks) /\
    waited_by info' = DeadlockResolver.wb_of (txn_info_ lm) (txn_id h) /\
    r = (if is_ready info' then ACQUIRED else WAITING).
Proof.
  intros Hkeys Hlocks Hnd Hmodes. unfold AcquireLocks.
  destruct (keys_in_partition h) as [|kp kps] eqn:Hk; [done|]. clear Hkeys.
  rewrite Hlocks. simpl.
  destruct (request_locks_spec (txn_id h) locks Hnd Hmodes (lock_table_ lm) [])
    as (lt' & bl & Hrun & Hin & Hout & Hbl).
  rewrite Hrun. simpl.
  set (i0 := default (new_TxnInfo (txn_id h)) (txn_info_ lm !! txn_id h)).
  set (ti1 := alter (add_unarrived (- Z.of_nat (length locks))) (txn_id h)
                (try_emplace (txn_id h) (txn_info_ lm))).
  assert (H1T : ti1 !! txn_id h = Some (add_unarrived (- Z.of_nat (length locks)) i0)).
  { unfold ti1. by rewrite lookup_alter_eq, try_emplace_lookup_eq. }
  assert (H1o : forall b, b <> txn_id h -> ti1 !! b = txn_info_ lm !! b).
  { intros b Hb. unfold ti1. rewrite lookup_alter_ne by done.
    by apply try_emplace_lookup_ne. }
  destruct (add_blockers_spec (txn_id h) (std_unique (std_sort bl))
              (std_unique_sort_NoDup bl) ti1 _ H1T) as [HT Hother].
  rewrite HT. simpl.
  set (bs := filter (fun b => b <> txn_id h /\ is_Some (ti1 !! b)) (std_unique (std_sort bl))).
  assert (Hbs : forall b, b ∈ bs <-> blocks (txn_id h) locks lm b).
  { intros b. unfold bs, blocks. rewrite list_elem_of_filter, elem_of_std_unique_sort, Hbl.
    split.
    - intros [[Hb Hs] [?%elem_of_nil|Hc]]; [done|]. rewrite (H1o b Hb) in Hs. done.
    - intros (Hb & Hs & Hc). rewrite (H1o b Hb). split; [done|by right]. }
  eexists _, _, bs, _. split; [reflexivity|]. cbn [txn_info_ lock_table_ ready_txns_].
  split; [done|]. split; [done|]. split; [done|].
  split; [apply NoDup_filter, std_unique_sort_NoDup|]. split; [done|].
  split; [|split; [exact HT|]].
  - intros b Hb. rewrite (Hother b Hb), (H1o b Hb).
    destruct (txn_info_ lm !! b) as [info|] eqn:Hib; simpl; [|done]. f_equal.
    destruct (decide (b ∈ std_unique (std_sort bl))) as [Hu|Hu];
      destruct (decide (b ∈ bs)) as [Hb'|Hb']; try done; exfalso.
    + apply Hb'. unfold bs. apply list_elem_of_filter. rewrite (H1o b Hb), Hib. eauto.
    + apply Hu. unfold bs in Hb'. by apply list_elem_of_filter in Hb' as [_ ?].
  - simpl. unfold waiting_for_of, unarrived_of, DeadlockResolver.wb_of, i0.
    destruct (txn_info_ lm !! txn_id h) as [old|]; simpl; repeat split; lia.
Qed.

Lemma AcquireLocks_waits_for_conflicting_witness :
  exists lm lm',
    do_calls example_conflict_calls init = Some lm /\
    AcquireLocks example_holder_200 lm = Some (lm', WAITING) /\
    waited_by <$> txn_info_ lm' !! 100 = Some [200] /\
    num_waiting_for <$> txn_info_ lm' !! 200 = Some 1.
Proof.
  destruct (do_calls example_conflict_calls init) as [lm|] eqn:Hrun;
    [|vm_compute in Hrun; discriminate Hrun].
  destruct (AcquireLocks_waits_for_conflicting example_holder_200 lm [("a:0", READ)]
              ltac:(done) eq_refl)
    as (lm' & r & bs & info' & Hacq & _).
  { apply NoDup_singleton. }
  { intros kr Hin. by apply list_elem_of_singleton in Hin. }
  vm_compute in Hrun. injection Hrun as <-.
  vm_compute in Hacq. injection Hacq as <- <-.
  eexists _, _. repeat split.
Defined.

(** X11.  The tail of a lock queue between two write requests: every
    read request that follows the write request of [w] is told to wait
    for [w]; the next write request is told to wait for exactly those
    readers, in the order of their requests, or for [w] when there was
    none, and it leaves its txn as the writer and no reader. *)
Theorem LockQueueTail_between_writes (w w' : TxnId) (readers : list TxnId)
    (q : LockQueueTail.t) :
  (read_locks readers (LockQueueTail.AcquireWriteLock w q).1).2 =
    replicate (length readers) (Some w) /\
  LockQueueTail.AcquireWriteLock w'
      (read_locks readers (LockQueueTail.AcquireWriteLock w q).1).1 =
    (LockQueueTail.mk (Some w') [],
     match readers with [] => [w] | _ :: _ => readers end).
Proof.
  rewrite read_locks_spec. destruct q as [wr rs].
  unfold LockQueueTail.AcquireWriteLock. destruct rs; simpl; (split; [done|]);
    by destruct readers.
Qed.

(* ===================================================================== *)
(** * More properties of AsyncLog                                        *)
(* ===================================================================== *)

Import AsyncLog.

(** X12.  Insertions at two different positions commute: whichever comes
    first, the log ends the same and each of the two calls has the same
    outcome (ignored, thrown or stored). *)
Theorem AsyncLog_Insert_commute {T : Type} (l : AsyncLog.t T) (p q : Z) (x y : T) :
  p <> q ->
  (Insert q y (Insert p x l).1).1 = (Insert p x (Insert q y l).1).1 /\
  (Insert p x (Insert q y l).1).2 = (Insert p x l).2 /\
  (Insert q y (Insert p x l).1).2 = (Insert q y l).2.
Proof.
  intros Hpq. unfold Insert.
  destruct (p <? next_ l) eqn:Hp; destruct (q <? next_ l) eqn:Hq; simpl;
    rewrite ?Hp, ?Hq; simpl.
  - done.
  - destruct (log_ l !! q); simpl; by rewrite ?Hp.
  - destruct (log_ l !! p); simpl; by rewrite ?Hq.
  - destruct (log_ l !! p) as [a|] eqn:Ha; destruct (log_ l !! q) as [b|] eqn:Hb; simpl;
      rewrite ?Hp, ?Hq, ?Ha, ?Hb; simpl;
      rewrite ?lookup_insert_ne by done; rewrite ?Ha, ?Hb; simpl; try done.
    split; [|done]. f_equal. by apply insert_insert_ne.
Qed.

Lemma AsyncLog_Insert_commute_witness :
  (Insert 3 "c" (Insert 1 "a" (new 0)).1).1 = (Insert 1 "a" (Insert 3 "c" (new 0)).1).1 /\
  (Insert 1 "a" (Insert 3 "c" (new 0)).1).2 = (Insert 1 "a" (new 0)).2 /\
  (Insert 3 "c" (Insert 1 "a" (new 0)).1).2 = (Insert 3 "c" (new 0)).2.
Proof. apply (AsyncLog_Insert_commute (new 0) 1 3 "a" "c"). lia. Defined.

(** X13.  An item inserted at the next position of a log that has none
    there is what [Peek] shows and what the next call of [Next] hands
    out, with that position, as the pair that [Next] returns: the
    position converted to [T] and the item converted to [uint32_t].
    Nothing of it stays in the log: the log is the one before the
    insertion, moved on by one position, modulo 2^32. *)
Theorem AsyncLog_Insert_Next_round_trip {T : Type}
    (T_of_uint32 : Z -> T) (uint32_of_T : T -> Z) (l : AsyncLog.t T) (x : T) :
  HasNext l = false ->
  (Insert (next_ l) x l).2 = Ok tt /\
  HasNext (Insert (next_ l) x l).1 = true /\
  Peek (Insert (next_ l) x l).1 = Ok x /\
  Next T_of_uint32 uint32_of_T (Insert (next_ l) x l).1 =
    (mk (log_ l) ((next_ l + 1) mod two32),
     Ok (T_of_uint32 (next_ l), uint32_of_T x)).
Proof.
  unfold HasNext, Peek, Next, Insert. intros Hn.
  destruct (log_ l !! next_ l) eqn:Hl; [done|].
  rewrite Z.ltb_irrefl. simpl. rewrite lookup_insert_eq.
  repeat split. f_equal. f_equal. rewrite delete_insert_eq. by apply delete_id.
Qed.

Lemma AsyncLog_Insert_Next_round_trip_witness :
  Next uint64_of_uint32 uint32_of_uint64 (Insert 4294967295 4294967301 (new 4294967295)).1 =
    (mk ∅ 0, Ok (4294967295, 5)).
Proof.
  destruct (AsyncLog_Insert_Next_round_trip uint64_of_uint32 uint32_of_uint64
              (new 4294967295) 4294967301 eq_refl) as (_ & _ & _ & H).
  exact H.
Defined.

(* ===================================================================== *)
(** * More properties of the configuration                               *)
(* ===================================================================== *)

Module Machines_facts.
Import Configuration Machines.

Lemma to_u32_to_int z : to_u32 (to_int z) = z mod two32.
Proof.
  unfold to_u32, to_int. pose proof (Z.mod_pos_bound z two32 ltac:(unfold two32; lia)).
  destruct (z mod two32 <? two31).
  - by rewrite Z.mod_mod by (unfold two32; lia).
  - replace (z mod two32 - two32) with (z mod two32 + (-1) * two32) by lia.
    rewrite Z.mod_add by (unfold two32; lia).
    by rewrite Z.mod_mod by (unfold two32; lia).
Qed.

Lemma to_int_small z : 0 <= z < two31 -> to_int z = z.
Proof.
  intros Hz. unfold to_int. unfold two31, two32 in *.
  rewrite Z.mod_small by lia. destruct (Z.ltb_spec z 2147483648); lia.
Qed.

Lemma to_int_to_u32 z : - two31 <= z < two31 -> to_int (to_u32 z) = z.
Proof.
  intros Hz. unfold to_int, to_u32. unfold two31, two32 in *.
  rewrite Z.mod_mod by lia.
  destruct (Z.le_gt_cases 0 z).
  - rewrite Z.mod_small by lia. destruct (Z.ltb_spec z 2147483648); lia.
  - replace (z mod 4294967296) with (z + 4294967296).
    + destruct (Z.ltb_spec (z + 4294967296) 2147483648); lia.
    + apply (Z.mod_unique _ _ (-1)); lia.
Qed.

Lemma MakeMachineId_small cfg replica partition :
  0 <= replica -> 0 <= partition -> 0 <= num_partitions cfg ->
  replica * num_partitions cfg + partition < two31 ->
  MakeMachineId cfg replica partition = replica * num_partitions cfg + partition.
Proof.
  intros Hr Hp Hnp Hlt. unfold MakeMachineId.
  assert (0 <= replica * num_partitions cfg) by nia.
  rewrite (Z.mod_small _ two32) by (unfold two31, two32 in *; lia).
  apply to_int_small. lia.
Qed.

Lemma machine_ids_rows np (n : nat) :
  0 <= np ->
  (seqZ 0 (Z.of_nat n) ≫= fun rep => (fun part => rep * np + part) <$> seqZ 0 np) =
  seqZ 0 (Z.of_nat n * np).
Proof.
  intros Hnp. induction n as [|n IH]; [done|].
  rewrite seqZ_S, bind_app, IH, bind_singleton. simpl.
  replace (Z.of_nat (S n) * np) with (Z.of_nat n * np + np) by lia.
  rewrite seqZ_app by lia. f_equal.
  transitivity (Z.add (Z.of_nat n * np) <$> seqZ 0 np).
  - apply list_fmap_ext. intros i part _. lia.
  - rewrite fmap_add_seqZ. f_equal. lia.
Qed.

End Machines_facts.

Import Configuration Machines Machines_facts.

(** X14.  Machine ids and (replica, partition) pairs are two views of
    one number: [UnpackMachineId] of [MakeMachineId(replica, partition)]
    is the pair again when the partition is below [num_partitions] and
    the sum fits a [uint32_t], also when it is 2^31 or more and the id
    is a negative [int]; every [MachineId] unpacks into a pair with a
    partition below [num_partitions] of which it is the machine id; and
    with no partition, unpacking divides by zero. *)
Theorem MachineId_round_trip (cfg : Configuration.t) :
  0 < num_partitions cfg ->
  (forall replica partition,
     0 <= replica -> 0 <= partition < num_partitions cfg ->
     replica * num_partitions cfg + partition < two32 ->
     UnpackMachineId cfg (MakeMachineId cfg replica partition) = Some (replica, partition)) /\
  (forall machine_id,
     - two31 <= machine_id < two31 ->
     exists replica partition,
       UnpackMachineId cfg machine_id = Some (replica, partition) /\
       0 <= replica /\ 0 <= partition < num_partitions cfg /\
       MakeMachineId cfg replica partition = machine_id).
Proof.
  intros Hnp. split.
  - intros replica partition Hr Hp Hlt. unfold UnpackMachineId, MakeMachineId.
    destruct (Z.eqb_spec (num_partitions cfg) 0) as [|_]; [lia|].
    rewrite to_u32_to_int.
    assert (0 <= replica * num_partitions cfg) by nia.
    rewrite !Z.mod_mod by (unfold two32; lia).
    rewrite !(Z.mod_small (replica * num_partitions cfg + partition) two32) by lia.
    f_equal. f_equal.
    + symmetry. apply (Z.div_unique_pos _ _ _ partition); lia.
    + symmetry. apply (Z.mod_unique_pos _ _ replica); lia.
  - intros machine_id Hid. unfold UnpackMachineId.
    destruct (Z.eqb_spec (num_partitions cfg) 0) as [|_]; [lia|].
    eexists _, _. split; [reflexivity|].
    pose proof (Z.mod_pos_bound machine_id two32 ltac:(unfold two32; lia)) as Hu.
    fold (to_u32 machine_id) in Hu.
    pose proof (Z.mod_pos_bound (to_u32 machine_id) _ Hnp).
    pose proof (Z.div_pos (to_u32 machine_id) (num_partitions cfg) ltac:(lia) Hnp).
    split; [done|]. split; [done|]. unfold MakeMachineId.
    replace (to_u32 machine_id / num_partitions cfg * num_partitions cfg +
             to_u32 machine_id mod num_partitions cfg) with (to_u32 machine_id).
    + rewrite Z.mod_small by done. by apply to_int_to_u32.
    + rewrite (Z.div_mod (to_u32 machine_id) (num_partitions cfg)) at 1 by lia. lia.
Qed.

Lemma MachineId_round_trip_witness :
  UnpackMachineId example_config (MakeMachineId example_config 2 3) = Some (2, 3) /\
  UnpackMachineId (Configuration.mk None 4 3) (MakeMachineId (Configuration.mk None 4 3) 1073741823 3)
    = Some (1073741823, 3) /\
  MakeMachineId (Configuration.mk None 4 3) 1073741823 3 = -1.
Proof.
  destruct (MachineId_round_trip example_config ltac:(simpl; lia)) as [Hmk _].
  split; [apply Hmk; simpl; unfold two32; lia|].
  split; [apply Hmk; simpl; unfold two32; lia|reflexivity].
Defined.

(** X15.  [all_machine_ids] lists the machine ids [0, 1, ...,
    num_replicas * num_partitions - 1] in this order, each once,
    replica by replica, as long as their number fits an [int]. *)
Theorem all_machine_ids_enumerates (cfg : Configuration.t) :
  0 <= num_replicas cfg -> 0 <= num_partitions cfg ->
  num_replicas cfg * num_partitions cfg <= two31 ->
  all_machine_ids cfg = seqZ 0 (num_replicas cfg * num_partitions cfg) /\
  NoDup (all_machine_ids cfg) /\
  Z.of_nat (length (all_machine_ids cfg)) = num_replicas cfg * num_partitions cfg.
Proof.
  intros Hnr Hnp Hfit.
  assert (Heq : all_machine_ids cfg = seqZ 0 (num_replicas cfg * num_partitions cfg)).
  { unfold all_machine_ids.
    rewrite <- (Z2Nat.id (num_replicas cfg)) at 2 by done.
    rewrite <- (machine_ids_rows (num_partitions cfg)) by done.
    rewrite Z2Nat.id by done.
    apply Forall_bind_ext. apply Forall_forall. intros rep Hrep.
    apply elem_of_seqZ in Hrep. apply list_fmap_ext. intros i part Hpart.
    apply list_elem_of_lookup_2, elem_of_seqZ in Hpart.
    assert (rep * num_partitions cfg + part < two31) by nia.
    rewrite !(Z.mod_small _ two32) by (unfold two31, two32 in *; nia).
    apply MakeMachineId_small; lia. }
  rewrite Heq. split; [done|]. split; [apply NoDup_seqZ|].
  rewrite length_seqZ. nia.
Qed.

Lemma all_machine_ids_enumerates_witness :
  all_machine_ids example_config = [0; 1; 2; 3; 4; 5; 6; 7; 8; 9; 10; 11].
Proof.
  destruct (all_machine_ids_enumerates example_config) as [H _].
  - simpl. lia.
  - simpl. lia.
  - simpl. unfold two31. lia.
  - rewrite H. reflexivity.
Defined.

(** X16.  The partition and the master of a numeric key are its two
    digits in base [num_partitions]: [partition_of_key] is below
    [num_partitions], [master_of_key] below [num_replicas], the key
    modulo [num_partitions * num_replicas] is [master * num_partitions +
    partition], which is the id of the machine of that replica and
    partition; with no partition or no replica the remainder is
    undefined. *)
Theorem key_partition_and_master (cfg : Configuration.t) (key : Z) :
  0 < num_partitions cfg -> 0 < num_replicas cfg -> 0 <= key ->
  num_replicas cfg * num_partitions cfg <= two31 ->
  exists partition master,
    partition_of_key_u32 cfg key = Some partition /\
    master_of_key cfg key = Some master /\
    0 <= partition < num_partitions cfg /\
    0 <= master < num_replicas cfg /\
    key mod (num_partitions cfg * num_replicas cfg) = master * num_partitions cfg + partition /\
    MakeMachineId cfg master partition = key mod (num_partitions cfg * num_replicas cfg).
Proof.
  intros Hnp Hnr Hkey Hfit. unfold partition_of_key_u32, master_of_key.
  destruct (Z.eqb_spec (num_partitions cfg) 0) as [|_]; [lia|].
  destruct (Z.eqb_spec (num_replicas cfg) 0) as [|_]; [lia|].
  simpl. eexists _, _. split; [reflexivity|]. split; [reflexivity|].
  pose proof (Z.mod_pos_bound key _ Hnp) as Hp.
  pose proof (Z.mod_pos_bound (key / num_partitions cfg) _ Hnr) as Hm.
  split; [done|]. split; [done|].
  assert (Hdig : key mod (num_partitions cfg * num_replicas cfg) =
                 (key / num_partitions cfg) mod num_replicas cfg * num_partitions cfg
                 + key mod num_partitions cfg).
  { rewrite Z.rem_mul_r by lia. lia. }
  split; [done|]. rewrite Hdig. apply MakeMachineId_small; [lia|lia|lia|nia].
Qed.

Lemma key_partition_and_master_witness :
  partition_of_key_u32 example_config 23 = Some 3 /\
  master_of_key example_config 23 = Some 2 /\
  MakeMachineId example_config 2 3 = 23 mod 12.
Proof.
  destruct (key_partition_and_master example_config 23)
    as (p & m & Hp & Hm & _ & _ & _ & Hid); [simpl; lia..|unfold two31; simpl; lia|].
  vm_compute in Hp, Hm. injection Hp as <-. injection Hm as <-.
  split; [reflexivity|]. split; [reflexivity|]. exact Hid.
Defined.

(** X17.  In hash mode the partition of a key depends on its first
    [partition_key_num_bytes] bytes only: two keys that agree on them
    are in the same partition, so with 0 bytes every key is in the
    partition of the empty key. *)
Theorem partition_of_key_prefix (char_is_signed : bool) (stoll : string -> option Z)
    (cfg : Configuration.t) (N : Z) (key1 key2 : Key) :
  hash_partitioning cfg = Some N -> 0 <= N ->
  take (Z.to_nat N) (bytes_of key1) = take (Z.to_nat N) (bytes_of key2) ->
  partition_of_key char_is_signed stoll cfg key1 =
  partition_of_key char_is_signed stoll cfg key2.
Proof.
  intros HN HN0 Hpre. unfold partition_of_key. rewrite HN.
  assert (Hend : forall bytes : list Z,
            (if Z.of_nat (length bytes) <=? N then bytes else take (Z.to_nat N) bytes) =
            take (Z.to_nat N) bytes).
  { intros bytes. destruct (Z.leb_spec (Z.of_nat (length bytes)) N); [|done].
    rewrite take_ge; [done|lia]. }
  by rewrite !Hend, Hpre.
Qed.

Lemma partition_of_key_prefix_witness :
  partition_of_key true (fun _ => None) (Configuration.mk (Some 4) 4 2) "user-0001" =
  partition_of_key true (fun _ => None) (Configuration.mk (Some 4) 4 2) "user-9999".
Proof.
  apply (partition_of_key_prefix true (fun _ => None) _ 4); [reflexivity|lia|reflexivity].
Defined.

(* ===================================================================== *)
(** * Properties of the constructor of [TxnHolder]                       *)
(* ===================================================================== *)

Module TxnHolder_facts.
Import DDRLockManager LockManager_more TxnHolderSetup.

Section WithConfig.
Variable char_is_signed : bool.
Variable stoll : string -> option Z.
Variable cfg : Configuration.t.
Variable local_partition : Z.
Variable counterless : bool.

Abbreviation pk := (partition_of_key char_is_signed stoll cfg).
Abbreviation lk := (local_keys char_is_signed stoll cfg local_partition).

Lemma local_keys_cons key keys p :
  pk key = Some p ->
  lk (key :: keys) = if p =? local_partition then key :: lk keys else lk keys.
Proof.
  intros Hp. unfold local_keys. rewrite filter_cons.
  destruct (Z.eqb_spec p local_partition) as [->|Hne].
  - by rewrite decide_True.
  - rewrite decide_False; [done|]. rewrite Hp. congruence.
Qed.

Lemma elem_of_local_keys key keys :
  key ∈ lk keys <-> key ∈ keys /\ pk key = Some local_partition.
Proof. unfold local_keys. rewrite list_elem_of_filter. tauto. Qed.

Lemma read_fold txn l inv keys :
  foldlM (read_step char_is_signed stoll cfg local_partition txn) l (inv, keys) =
  ps ← mapM pk l;
  Some (inv ++ ps,
        keys ++ ((fun key => (key, READ)) <$> filter (fun key => key ∉ write_set txn) (lk l))).
Proof.
  revert inv keys. induction l as [|key l IH]; intros inv keys.
  { simpl. by rewrite !app_nil_r. }
  cbn [foldlM]. unfold read_step at 1, key_is_in_local_partition.
  cbn [mapM]. destruct (pk key) as [p|] eqn:Hp; [|done]. cbn [mbind option_bind].
  rewrite IH, (local_keys_cons _ _ _ Hp).
  destruct (mapM pk l) as [ps|]; [|done]. cbn [mbind option_bind mret option_ret].
  rewrite <- (assoc_L (++)). cbn [app]. f_equal. f_equal.
  destruct (p =? local_partition); cbn [andb]; [|done].
  rewrite filter_cons. case_bool_decide as Hw; cbn [negb].
  - by rewrite decide_False by tauto.
  - rewrite decide_True by done. rewrite fmap_cons. by rewrite <- (assoc_L (++)).
Qed.

Lemma write_fold l inv act keys :
  foldlM (write_step char_is_signed stoll cfg local_partition) l (inv, act, keys) =
  ps ← mapM pk l;
  Some (inv ++ ps, act ++ ps, keys ++ ((fun key => (key, WRITE)) <$> lk l)).
Proof.
  revert inv act keys. induction l as [|key l IH]; intros inv act keys.
  { simpl. by rewrite !app_nil_r. }
  cbn [foldlM]. unfold write_step at 1, key_is_in_local_partition.
  cbn [mapM]. destruct (pk key) as [p|] eqn:Hp; [|done]. cbn [mbind option_bind].
  rewrite IH, (local_keys_cons _ _ _ Hp).
  destruct (mapM pk l) as [ps|]; [|done]. cbn [mbind option_bind mret option_ret].
  rewrite <- !(assoc_L (++)). cbn [app]. f_equal. f_equal.
  destruct (p =? local_partition); [|done].
  rewrite fmap_cons. by rewrite <- (assoc_L (++)).
Qed.

(** The constructor in closed form. *)
Lemma new_eq txn :
  new char_is_signed stoll cfg local_partition counterless txn =
  rs ← mapM pk (read_set txn);
  ws ← mapM pk (write_set txn);
  Some (mk (((fun key => (key, READ)) <$>
               filter (fun key => key ∉ write_set txn) (lk (read_set txn))) ++
            ((fun key => (key, WRITE)) <$> lk (write_set txn)))
           (Z.of_nat (length (std_unique (std_sort (rs ++ ws)))))
           (std_unique (std_sort ws))
           (std_unique (std_sort
              (if counterless && bool_decide (type txn = MULTI_HOME) && is_remaster txn
               then (master_metadata txn).*2 ++ [remaster_new_master txn]
               else (master_metadata txn).*2)))).
Proof.
  unfold new. rewrite read_fold.
  destruct (mapM pk (read_set txn)) as [rs|]; [|done]. cbn [mbind option_bind].
  rewrite write_fold.
  destruct (mapM pk (write_set txn)) as [ws|]; [|done]. cbn [mbind option_bind].
  done.
Qed.

Lemma mapM_pk_elem l ps p :
  mapM pk l = Some ps -> p ∈ ps <-> exists key, key ∈ l /\ pk key = Some p.
Proof.
  intros Hall%mapM_Some_1. split.
  - intros [i Hi]%list_elem_of_lookup.
    destruct (Forall2_lookup_r _ _ _ _ _ Hall Hi) as (key & Hkey & Hp).
    exists key. split; [by eapply list_elem_of_lookup_2|done].
  - intros (key & [i Hi]%list_elem_of_lookup & Hp).
    destruct (Forall2_lookup_l _ _ _ _ _ Hall Hi) as (p' & Hp' & Hkp).
    rewrite Hp in Hkp. injection Hkp as <-. by eapply list_elem_of_lookup_2.
Qed.

Lemma mapM_pk_None l :
  mapM pk l = None <-> exists key, key ∈ l /\ pk key = None.
Proof.
  split.
  - intros (key & Hin & Hn)%mapM_None_1%Exists_exists. by exists key.
  - intros (key & Hin & Hn). apply mapM_None_2, Exists_exists. by exists key.
Qed.

Lemma pk_None key :
  pk key = None <->
  Configuration.num_partitions cfg = 0 \/
  (Configuration.hash_partitioning cfg = None /\ stoll key = None).
Proof.
  unfold partition_of_key, Configuration.partition_of_key, Configuration.partition_of_key_u32.
  destruct (Configuration.hash_partitioning cfg) as [n|].
  - destruct (Z.eqb_spec (Configuration.num_partitions cfg) 0) as [H0|H0].
    + split; [by left|done].
    + split; [done|]. intros [?|[? _]]; done.
  - destruct (stoll key) as [k|].
    + destruct (Z.eqb_spec (Configuration.num_partitions cfg) 0) as [H0|H0].
      * split; [by left|done].
      * split; [done|]. intros [?|[_ ?]]; done.
    + split; [by right|done].
Qed.

Lemma new_keys txn h :
  new char_is_signed stoll cfg local_partition counterless txn = Some h ->
  keys_in_partition_ h =
    ((fun key => (key, READ)) <$>
       filter (fun key => key ∉ write_set txn) (lk (read_set txn))) ++
    ((fun key => (key, WRITE)) <$> lk (write_set txn)).
Proof.
  rewrite new_eq. intros Hnew.
  destruct (mapM pk (read_set txn)) as [rs|]; [|done].
  destruct (mapM pk (write_set txn)) as [ws|]; [|done].
  cbn in Hnew. by injection Hnew as <-.
Qed.

Lemma elem_of_keys_in_partition txn h key mode :
  new char_is_signed stoll cfg local_partition counterless txn = Some h ->
  (key, mode) ∈ keys_in_partition_ h <->
  (key ∈ read_set txn \/ key ∈ write_set txn) /\
  pk key = Some local_partition /\
  mode = if bool_decide (key ∈ write_set txn) then WRITE else READ.
Proof.
  intros ->%new_keys. rewrite elem_of_app, !list_elem_of_fmap. split.
  - intros [(y & [= -> ->] & Hy)|(y & [= -> ->] & Hy)].
    + apply list_elem_of_filter in Hy as [Hw Hy].
      apply elem_of_local_keys in Hy as [Hr Hl].
      rewrite bool_decide_eq_false_2 by done. tauto.
    + apply elem_of_local_keys in Hy as [Hw Hl].
      rewrite bool_decide_eq_true_2 by done. tauto.
  - intros (Hin & Hl & ->). case_bool_decide as Hw.
    + right. exists key. split; [done|]. by apply elem_of_local_keys.
    + left. exists key. split; [done|]. apply list_elem_of_filter. split; [done|].
      apply elem_of_local_keys. split; [|done]. by destruct Hin.
Qed.

Lemma keys_in_partition_nil txn h :
  new char_is_signed stoll cfg local_partition counterless txn = Some h ->
  keys_in_partition_ h = [] <-> lk (read_set txn ++ write_set txn) = [].
Proof.
  intros Hnew. split.
  - intros Hnil. apply elem_of_nil_inv. intros key [Hin Hl]%elem_of_local_keys.
    apply elem_of_app in Hin.
    assert ((key, if bool_decide (key ∈ write_set txn) then WRITE else READ)
              ∈ keys_in_partition_ h) as Hk
      by (by apply (elem_of_keys_in_partition txn)).
    rewrite Hnil in Hk. by apply elem_of_nil in Hk.
  - intros Hnil. apply elem_of_nil_inv. intros [key mode] Hk.
    apply (elem_of_keys_in_partition txn) in Hk as (Hin & Hl & _); [|done].
    assert (key ∈ lk (read_set txn ++ write_set txn)) as Hk
      by (apply elem_of_local_keys; by rewrite elem_of_app).
    rewrite Hnil in Hk. by apply elem_of_nil in Hk.
Qed.

Lemma fst_with_mode (mode : LockMode) (l : list Key) :
  ((fun key => (key, mode)) <$> l).*1 = l.
Proof. induction l as [|key l IH]; [done|]. cbn. by rewrite IH. Qed.

End WithConfig.
End TxnHolder_facts.

(** X18.  The keys that a [TxnHolder] asks the lock manager to lock are
    exactly the keys of the read set and of the write set of its txn
    that are in the local partition, a key that is written with the
    mode [WRITE] and a key that is only read with the mode [READ]:
    never a key of another partition, never the mode [UNLOCKED], and,
    the read set and the write set naming a key once each, every key
    once, also when it is both read and written. *)
Theorem TxnHolder_keys_in_partition (char_is_signed : bool) (stoll : string -> option Z)
    (cfg : Configuration.t) (local_partition : Z) (counterless : bool)
    (txn : TxnHolderSetup.Transaction) (h : TxnHolderSetup.t) :
  TxnHolderSetup.new char_is_signed stoll cfg local_partition counterless txn = Some h ->
  (forall key mode,
     (key, mode) ∈ TxnHolderSetup.keys_in_partition_ h <->
     (key ∈ TxnHolderSetup.read_set txn \/ key ∈ TxnHolderSetup.write_set txn) /\
     TxnHolderSetup.partition_of_key char_is_signed stoll cfg key = Some local_partition /\
     mode = if bool_decide (key ∈ TxnHolderSetup.write_set txn) then WRITE else READ) /\
  (NoDup (TxnHolderSetup.read_set txn) -> NoDup (TxnHolderSetup.write_set txn) ->
   NoDup (TxnHolderSetup.keys_in_partition_ h).*1).
Proof.
  intros Hnew. split.
  - intros key mode. by apply TxnHolder_facts.elem_of_keys_in_partition with counterless.
  - intros Hr Hw. rewrite (TxnHolder_facts.new_keys _ _ _ _ _ _ _ Hnew).
    rewrite fmap_app, !TxnHolder_facts.fst_with_mode.
    apply NoDup_app. split; [|split].
    + by apply NoDup_filter, NoDup_filter.
    + by intros key [Hnw _]%list_elem_of_filter [Hin _]%TxnHolder_facts.elem_of_local_keys.
    + by apply NoDup_filter.
Qed.

Lemma TxnHolder_keys_in_partition_witness :
  exists h,
    TxnHolderSetup.new true TxnHolderSetup.example_stoll Machines.example_config 1 false
      TxnHolderSetup.example_txn = Some h /\
    TxnHolderSetup.keys_in_partition_ h = [("5", READ); ("9", WRITE)] /\
    forall key mode,
      (key, mode) ∈ TxnHolderSetup.keys_in_partition_ h <->
      (key ∈ ["5"; "6"] \/ key ∈ ["6"; "9"]) /\
      TxnHolderSetup.partition_of_key true TxnHolderSetup.example_stoll
        Machines.example_config key = Some 1 /\
      mode = if bool_decide (key ∈ ["6"; "9"]) then WRITE else READ.
Proof.
  destruct (TxnHolderSetup.new true TxnHolderSetup.example_stoll Machines.example_config 1
              false TxnHolderSetup.example_txn) as [h|] eqn:Hnew;
    [|vm_compute in Hnew; discriminate Hnew].
  exists h. split; [reflexivity|].
  pose proof (TxnHolder_keys_in_partition _ _ _ _ _ _ _ Hnew) as [Hkeys _].
  vm_compute in Hnew. injection Hnew as <-.
  split; [reflexivity|exact Hkeys].
Defined.

(** X19.  The constructor of [TxnHolder] fails to return exactly when
    [partition_of_key] does on a key of the read set or of the write
    set: when the txn has a key and the configuration has no partition
    (a remainder by zero), or when the keys are partitioned by their
    number and [std::stoll] throws on one of them.  With hash
    partitioning and at least one partition it always returns. *)
Theorem TxnHolder_new_fails_iff (char_is_signed : bool) (stoll : string -> option Z)
    (cfg : Configuration.t) (local_partition : Z) (counterless : bool)
    (txn : TxnHolderSetup.Transaction) :
  TxnHolderSetup.new char_is_signed stoll cfg local_partition counterless txn = None <->
  (Configuration.num_partitions cfg = 0 /\
   TxnHolderSetup.read_set txn ++ TxnHolderSetup.write_set txn <> []) \/
  (Configuration.hash_partitioning cfg = None /\
   exists key, key ∈ TxnHolderSetup.read_set txn ++ TxnHolderSetup.write_set txn /\
               stoll key = None).
Proof.
  rewrite TxnHolder_facts.new_eq.
  assert (forall l, mapM (TxnHolderSetup.partition_of_key char_is_signed stoll cfg) l = None <->
            (Configuration.num_partitions cfg = 0 /\ l <> []) \/
            (Configuration.hash_partitioning cfg = None /\
             exists key, key ∈ l /\ stoll key = None)) as Hl.
  { intros l. rewrite TxnHolder_facts.mapM_pk_None. split.
    - intros (key & Hin & [H0|[Hh Hs]]%TxnHolder_facts.pk_None).
      + left. split; [done|]. intros ->. by apply elem_of_nil in Hin.
      + right. split; [done|]. by exists key.
    - intros [[H0 Hne]|(Hh & key & Hin & Hs)].
      + destruct l as [|key l]; [done|]. exists key. split; [left|].
        apply TxnHolder_facts.pk_None. by left.
      + exists key. split; [done|]. apply TxnHolder_facts.pk_None. by right. }
  pose proof (Hl (TxnHolderSetup.read_set txn)) as Hr.
  pose proof (Hl (TxnHolderSetup.write_set txn)) as Hw.
  destruct (mapM _ (TxnHolderSetup.read_set txn)) as [rs|].
  - destruct (mapM _ (TxnHolderSetup.write_set txn)) as [ws|]; cbn.
    + split; [done|]. intros Hbad. exfalso.
      assert (Some rs = None \/ Some ws = None) as [?|?]; [|done..].
      destruct Hbad as [[H0 Hne]|(Hh & key & Hin & Hs)].
      * destruct (TxnHolderSetup.read_set txn) as [|key l] eqn:Hrs.
        -- right. apply Hw. left. split; [done|]. by rewrite app_nil_l in Hne.
        -- left. apply Hr. left. done.
      * apply elem_of_app in Hin as [Hin|Hin].
        -- left. apply Hr. right. split; [done|]. by exists key.
        -- right. apply Hw. right. split; [done|]. by exists key.
    + split; [intros _|done].
      destruct Hw as [[[H0 Hne]|(Hh & key & Hin & Hs)] _]; [done|..].
      * left. split; [done|]. intros [_ ?]%app_eq_nil. done.
      * right. split; [done|]. exists key. split; [|done]. apply elem_of_app. by right.
  - cbn. split; [intros _|done].
    destruct Hr as [[[H0 Hne]|(Hh & key & Hin & Hs)] _]; [done|..].
    + left. split; [done|]. intros [? _]%app_eq_nil. done.
    + right. split; [done|]. exists key. split; [|done]. apply elem_of_app. by left.
Qed.

(** X20.  Of a [TxnHolder] that the constructor returns, the active
    partitions are the partitions of the keys of the write set, in
    increasing order and each once; the number of involved partitions
    is the number of distinct partitions of the keys of the read set
    and of the write set, so it is never less than the number of
    active partitions; and when the holder has a key to lock the local
    partition is one of the involved partitions, and one of the active
    ones when the key is locked with the mode [WRITE]. *)
Theorem TxnHolder_partitions (char_is_signed : bool) (stoll : string -> option Z)
    (cfg : Configuration.t) (local_partition : Z) (counterless : bool)
    (txn : TxnHolderSetup.Transaction) (h : TxnHolderSetup.t) :
  TxnHolderSetup.new char_is_signed stoll cfg local_partition counterless txn = Some h ->
  TxnHolderSetup.partitions_of char_is_signed stoll cfg
    (TxnHolderSetup.write_set txn) (TxnHolderSetup.active_partitions_ h) /\
  exists ps,
    TxnHolderSetup.partitions_of char_is_signed stoll cfg
      (TxnHolderSetup.read_set txn ++ TxnHolderSetup.write_set txn) ps /\
    TxnHolderSetup.num_involved_partitions_ h = Z.of_nat (length ps) /\
    Z.of_nat (length (TxnHolderSetup.active_partitions_ h)) <=
      TxnHolderSetup.num_involved_partitions_ h /\
    forall key mode,
      (key, mode) ∈ TxnHolderSetup.keys_in_partition_ h ->
      local_partition ∈ ps /\
      (mode = WRITE -> local_partition ∈ TxnHolderSetup.active_partitions_ h).
Proof.
  intros Hnew.
  pose proof (fun key mode =>
    TxnHolder_facts.elem_of_keys_in_partition _ _ _ _ _ _ _ key mode Hnew) as Hkeys.
  revert Hnew Hkeys. rewrite TxnHolder_facts.new_eq.
  destruct (mapM _ (TxnHolderSetup.read_set txn)) as [rs|] eqn:Hrs; [|done].
  destruct (mapM _ (TxnHolderSetup.write_set txn)) as [ws|] eqn:Hws; [|done].
  cbn. intros [= <-] Hkeys. cbn [TxnHolderSetup.active_partitions_ TxnHolderSetup.num_involved_partitions_].
  assert (forall p, p ∈ std_unique (std_sort ws) <->
            exists key, key ∈ TxnHolderSetup.write_set txn /\
              TxnHolderSetup.partition_of_key char_is_signed stoll cfg key = Some p) as Hact.
  { intros p. rewrite LockManager_more.elem_of_std_unique_sort.
    by apply TxnHolder_facts.mapM_pk_elem. }
  assert (forall p, p ∈ std_unique (std_sort (rs ++ ws)) <->
            exists key, key ∈ TxnHolderSetup.read_set txn ++ TxnHolderSetup.write_set txn /\
              TxnHolderSetup.partition_of_key char_is_signed stoll cfg key = Some p) as Hinv.
  { intros p. rewrite LockManager_more.elem_of_std_unique_sort, elem_of_app.
    rewrite (TxnHolder_facts.mapM_pk_elem _ _ _ _ _ p Hrs),
            (TxnHolder_facts.mapM_pk_elem _ _ _ _ _ p Hws).
    setoid_rewrite elem_of_app. naive_solver. }
  split; [split; [apply LockManager_more.std_unique_sort_increasing|exact Hact]|].
  exists (std_unique (std_sort (rs ++ ws))).
  split; [split; [apply LockManager_more.std_unique_sort_increasing|exact Hinv]|].
  split; [done|]. split.
  - apply inj_le, submseteq_length, NoDup_submseteq.
    + apply LockManager_more.std_unique_sort_NoDup.
    + intros p (key & Hin & Hp)%Hact. apply Hinv. exists key. split; [|done].
      apply elem_of_app. by right.
  - intros key mode (Hin & Hl & Hmode)%Hkeys. split.
    + apply Hinv. exists key. by rewrite elem_of_app.
    + intros ->. apply Hact. exists key. split; [|done].
      by case_bool_decide.
Qed.

Lemma TxnHolder_partitions_witness :
  exists h,
    TxnHolderSetup.new true TxnHolderSetup.example_stoll Machines.example_config 1 false
      TxnHolderSetup.example_txn = Some h /\
    TxnHolderSetup.active_partitions_ h = [1; 2] /\
    TxnHolderSetup.num_involved_partitions_ h = 2 /\
    TxnHolderSetup.partitions_of true TxnHolderSetup.example_stoll Machines.example_config
      ["6"; "9"] [1; 2].
Proof.
  destruct (TxnHolderSetup.new true TxnHolderSetup.example_stoll Machines.example_config 1
              false TxnHolderSetup.example_txn) as [h|] eqn:Hnew;
    [|vm_compute in Hnew; discriminate Hnew].
  exists h. split; [reflexivity|].
  pose proof (TxnHolder_partitions _ _ _ _ _ _ _ Hnew) as [Hact _].
  vm_compute in Hnew. injection Hnew as <-.
  split; [reflexivity|]. split; [reflexivity|]. exact Hact.
Defined.

(** X21.  When the lock manager is given a [TxnHolder] that the
    constructor returned, [AcceptTransaction] ends in a fatal error
    exactly when no key of the txn is in the local partition, and
    [AcquireLocks] ends in one exactly then, or when master metadata
    is missing: for the first key to lock if the txn is a remaster,
    for any key of the local partition otherwise.  The error
    [Invalid lock mode] never occurs. *)
Theorem TxnHolder_AcquireLocks_fatal (char_is_signed : bool) (stoll : string -> option Z)
    (cfg : Configuration.t) (local_partition : Z) (counterless : bool)
    (txn : TxnHolderSetup.Transaction) (h : TxnHolderSetup.t) (lm : DDRLockManager.t) :
  TxnHolderSetup.new char_is_signed stoll cfg local_partition counterless txn = Some h ->
  let keys := TxnHolderSetup.local_keys char_is_signed stoll cfg local_partition
                (TxnHolderSetup.read_set txn ++ TxnHolderSetup.write_set txn) in
  (DDRLockManager.AcceptTransaction (TxnHolderSetup.for_lock_manager txn h) lm = None <->
     keys = []) /\
  (DDRLockManager.AcquireLocks (TxnHolderSetup.for_lock_manager txn h) lm = None <->
     keys = [] \/
     (TxnHolderSetup.is_remaster txn = true /\
      exists key mode rest,
        TxnHolderSetup.keys_in_partition_ h = (key, mode) :: rest /\
        key ∉ (TxnHolderSetup.master_metadata txn).*1) \/
     (TxnHolderSetup.is_remaster txn = false /\
      exists key, key ∈ keys /\ key ∉ (TxnHolderSetup.master_metadata txn).*1)).
Proof.
  intros Hnew keys. subst keys.
  pose proof (TxnHolder_facts.keys_in_partition_nil _ _ _ _ _ _ _ Hnew) as Hnil.
  pose proof (fun key mode =>
    TxnHolder_facts.elem_of_keys_in_partition _ _ _ _ _ _ _ key mode Hnew) as Hkeys.
  split.
  - rewrite LockManager_more.AcceptTransaction_None_iff. exact Hnil.
  - rewrite LockManager_more.AcquireLocks_None_iff.
    cbn [keys_in_partition is_remaster master_metadata TxnHolderSetup.for_lock_manager].
    rewrite Hnil. setoid_rewrite not_elem_of_list_to_map.
    split; (intros [?|[(Hrem & Hbad)|(Hrem & Hbad)]]; [by left|right; by left|right; right]);
      (split; [done|]).
    + destruct Hbad as (key & mode & Hin & [Hmeta| ->]).
      * exists key. split; [|done]. apply Hkeys in Hin as (Hin & Hl & _).
        apply TxnHolder_facts.elem_of_local_keys. by rewrite elem_of_app.
      * apply Hkeys in Hin as (_ & _ & Hmode). by case_bool_decide.
    + destruct Hbad as (key & [Hin Hl]%TxnHolder_facts.elem_of_local_keys & Hmeta).
      exists key, (if bool_decide (key ∈ TxnHolderSetup.write_set txn) then WRITE else READ).
      split; [|by left]. apply Hkeys. by rewrite <- elem_of_app.
Qed.

Lemma TxnHolder_AcquireLocks_fatal_witness :
  exists h,
    TxnHolderSetup.new true TxnHolderSetup.example_stoll Machines.example_config 3 false
      TxnHolderSetup.example_txn = Some h /\
    TxnHolderSetup.keys_in_partition_ h = [] /\
    DDRLockManager.AcquireLocks (TxnHolderSetup.for_lock_manager TxnHolderSetup.example_txn h)
      DDRLockManager.init = None.
Proof.
  destruct (TxnHolderSetup.new true TxnHolderSetup.example_stoll Machines.example_config 3
              false TxnHolderSetup.example_txn) as [h|] eqn:Hnew;
    [|vm_compute in Hnew; discriminate Hnew].
  exists h. split; [reflexivity|].
  pose proof (TxnHolder_AcquireLocks_fatal _ _ _ _ _ _ _ DDRLockManager.init Hnew) as [_ Hacq].
  split; [vm_compute in Hnew; by injection Hnew as <-|].
  apply Hacq. left. reflexivity.
Defined.

(** X22.  The involved replicas of a [TxnHolder] are the masters named
    by the master metadata of its txn (and the new master of a
    multi-home remaster, under the counterless remaster protocol), in
    increasing order and each once.  So as soon as the metadata is not
    empty, [replica_id] is one of the involved replicas, and it is the
    involved replica when there is only one, whichever entry the
    metadata map yields first. *)
Theorem TxnHolder_involved_replicas (char_is_signed : bool) (stoll : string -> option Z)
    (cfg : Configuration.t) (local_partition : Z) (counterless : bool)
    (txn : TxnHolderSetup.Transaction) (h : TxnHolderSetup.t) :
  TxnHolderSetup.new char_is_signed stoll cfg local_partition counterless txn = Some h ->
  StronglySorted Z.lt (TxnHolderSetup.involved_replicas_ h) /\
  (forall r, r ∈ TxnHolderSetup.involved_replicas_ h <->
     r ∈ (TxnHolderSetup.master_metadata txn).*2 \/
     (counterless = true /\ TxnHolderSetup.type txn = TxnHolderSetup.MULTI_HOME /\
      TxnHolderSetup.is_remaster txn = true /\ r = TxnHolderSetup.remaster_new_master txn)) /\
  (TxnHolderSetup.master_metadata txn <> [] ->
   TxnHolderSetup.replica_id txn ∈ TxnHolderSetup.involved_replicas_ h /\
   forall m, TxnHolderSetup.involved_replicas_ h = [m] -> TxnHolderSetup.replica_id txn = m).
Proof.
  rewrite TxnHolder_facts.new_eq.
  destruct (mapM _ (TxnHolderSetup.read_set txn)) as [rs|]; [|done].
  destruct (mapM _ (TxnHolderSetup.write_set txn)) as [ws|]; [|done].
  cbn. intros [= <-]. cbn [TxnHolderSetup.involved_replicas_].
  match goal with |- context [std_unique (std_sort ?l)] => set (replicas := l) end.
  assert (forall r, r ∈ std_unique (std_sort replicas) <->
     r ∈ (TxnHolderSetup.master_metadata txn).*2 \/
     (counterless = true /\ TxnHolderSetup.type txn = TxnHolderSetup.MULTI_HOME /\
      TxnHolderSetup.is_remaster txn = true /\ r = TxnHolderSetup.remaster_new_master txn))
    as Hmem.
  { intros r. rewrite LockManager_more.elem_of_std_unique_sort. subst replicas.
    destruct counterless; cbn [andb].
    - case_bool_decide as Hty; cbn [andb].
      + destruct (TxnHolderSetup.is_remaster txn).
        * rewrite elem_of_app, list_elem_of_singleton. naive_solver.
        * naive_solver.
      + naive_solver.
    - naive_solver. }
  split; [apply LockManager_more.std_unique_sort_increasing|]. split; [exact Hmem|].
  intros Hne.
  assert (TxnHolderSetup.replica_id txn ∈ std_unique (std_sort replicas)) as Hin.
  { apply Hmem. left. unfold TxnHolderSetup.replica_id.
    destruct (TxnHolderSetup.master_metadata txn) as [|[key master] rest]; [done|].
    cbn. left. }
  split; [exact Hin|]. intros m Hm. rewrite Hm in Hin.
  by apply list_elem_of_singleton in Hin.
Qed.

Lemma TxnHolder_involved_replicas_witness :
  exists h,
    TxnHolderSetup.new true TxnHolderSetup.example_stoll Machines.example_config 1 false
      TxnHolderSetup.example_txn = Some h /\
    TxnHolderSetup.involved_replicas_ h = [0] /\
    StronglySorted Z.lt (TxnHolderSetup.involved_replicas_ h).
Proof.
  destruct (TxnHolderSetup.new true TxnHolderSetup.example_stoll Machines.example_config 1
              false TxnHolderSetup.example_txn) as [h|] eqn:Hnew;
    [|vm_compute in Hnew; discriminate Hnew].
  exists h. split; [reflexivity|].
  pose proof (TxnHolder_involved_replicas _ _ _ _ _ _ _ Hnew) as [Hsorted _].
  split; [vm_compute in Hnew; by injection Hnew as <-|exact Hsorted].
Defined.

(* ===================================================================== *)
(** * Properties of the sampler of the metrics                           *)
(* ===================================================================== *)

Module Sampler_facts.
Import Sampler.

Lemma calls_of_cons key k keys :
  calls_of k (key :: keys) = (if decide (key = k) then 1 else 0) + calls_of k keys.
Proof.
  unfold calls_of. rewrite filter_cons.
  destruct (decide (key = k)); cbn [length]; lia.
Qed.

Lemma calls_of_nonneg k keys : 0 <= calls_of k keys.
Proof. unfold calls_of. lia. Qed.

Lemma calls_of_replicate key n : calls_of key (replicate n key) = Z.of_nat n.
Proof.
  induction n as [|n IH]; [done|]. cbn [replicate]. rewrite calls_of_cons, IH.
  rewrite decide_True by done. lia.
Qed.

Lemma calls_of_replicate_ne key k n : key <> k -> calls_of k (replicate n key) = 0.
Proof.
  intros Hne. induction n as [|n IH]; [done|]. cbn [replicate].
  rewrite calls_of_cons, IH. by rewrite decide_False.
Qed.

Lemma num_true_Permutation l k : l ≡ₚ k -> num_true l = num_true k.
Proof. intros Hp. unfold num_true. by rewrite Hp. Qed.

Lemma num_true_rotate n l : num_true (rotate n l) = num_true l.
Proof.
  apply num_true_Permutation. unfold rotate.
  rewrite Permutation_app_comm. by rewrite take_drop.
Qed.

Lemma num_true_prefix n m :
  num_true (replicate n true ++ replicate m false) = Z.of_nat n.
Proof.
  unfold num_true. rewrite filter_app, length_app.
  assert (filter (fun b => b = true) (replicate n true) = replicate n true) as ->.
  { induction n as [|n IH]; [done|]. cbn [replicate]. rewrite filter_cons.
    rewrite decide_True by done. by rewrite IH. }
  assert (filter (fun b => b = true) (replicate m false) = []) as ->.
  { induction m as [|m IH]; [done|]. cbn [replicate]. rewrite filter_cons.
    by rewrite decide_False. }
  rewrite length_replicate. cbn. lia.
Qed.

Lemma fill_prefix (len n : nat) :
  (n <= len)%nat ->
  foldl (fun mask i => <[Z.to_nat i := true]> mask) (replicate len false)
        (seqZ 0 (Z.of_nat n)) =
  replicate n true ++ replicate (len - n) false.
Proof.
  induction n as [|n IH]; intros Hn.
  { cbn. by rewrite Nat.sub_0_r. }
  rewrite seqZ_S, foldl_app, IH by lia. cbn [foldl].
  rewrite Z.add_0_l, Nat2Z.id.
  rewrite insert_app_r_alt by (rewrite length_replicate; lia).
  rewrite length_replicate, Nat.sub_diag.
  rewrite (replicate_S_end n), <- (assoc_L (++)). f_equal.
  replace (len - n)%nat with (S (len - S n)) by lia. done.
Qed.

Lemma num_chosen_nonneg rate : 0 <= num_chosen rate.
Proof.
  unfold num_chosen. apply Z.div_pos; [|lia].
  apply Z.mod_pos_bound. unfold two32. lia.
Qed.

Lemma filled_mask_eq rate :
  num_chosen rate <= kSampleMaskSize ->
  filled_mask rate =
  replicate (Z.to_nat (num_chosen rate)) true ++
  replicate (256 - Z.to_nat (num_chosen rate)) false.
Proof.
  intros Hle. unfold filled_mask.
  pose proof (num_chosen_nonneg rate).
  rewrite <- (Z2Nat.id (num_chosen rate)) at 1 by done.
  apply (fill_prefix 256). unfold kSampleMaskSize in Hle. lia.
Qed.

Lemma filled_mask_length rate :
  num_chosen rate <= kSampleMaskSize -> length (filled_mask rate) = 256%nat.
Proof.
  intros Hle. rewrite filled_mask_eq, length_app, !length_replicate by done.
  pose proof (num_chosen_nonneg rate). unfold kSampleMaskSize in Hle. lia.
Qed.

Lemma filled_mask_num_true rate :
  num_chosen rate <= kSampleMaskSize -> num_true (filled_mask rate) = num_chosen rate.
Proof.
  intros Hle. rewrite filled_mask_eq, num_true_prefix by done.
  pose proof (num_chosen_nonneg rate). lia.
Qed.

Lemma IsChosen_calls_spec keys : forall s,
  length (sample_mask_ s) = 256%nat ->
  Forall (fun c => 0 <= c < 256) (sample_count_ s) ->
  Forall (fun key => 0 <= key < Z.of_nat (length (sample_count_ s))) keys ->
  exists bs s',
    IsChosen_calls keys s = Some (bs, s') /\
    sample_mask_ s' = sample_mask_ s /\
    length (sample_count_ s') = length (sample_count_ s) /\
    Forall (fun c => 0 <= c < 256) (sample_count_ s') /\
    (forall k c, sample_count_ s !! k = Some c ->
       sample_count_ s' !! k = Some ((c + calls_of (Z.of_nat k) keys) mod 256)) /\
    length bs = length keys /\
    (forall i key c,
       keys !! i = Some key -> sample_count_ s !! Z.to_nat key = Some c ->
       bs !! i = sample_mask_ s !! Z.to_nat ((c + calls_of key (take i keys)) mod 256)).
Proof.
  induction keys as [|key keys IH]; intros s Hlen Hcounts Hkeys.
  { exists [], s. repeat split; try done.
    intros k c Hk. rewrite Hk. f_equal. unfold calls_of. cbn.
    rewrite Z.add_0_r, Z.mod_small; [done|].
    by eapply (Forall_lookup_1 _ _ _ _ Hcounts). }
  apply Forall_cons in Hkeys as [Hkey Hkeys].
  destruct (lookup_lt_is_Some_2 (sample_count_ s) (Z.to_nat key)) as [c0 Hc0]; [lia|].
  pose proof (Forall_lookup_1 _ _ _ _ Hcounts Hc0) as Hr0. cbn beta in Hr0.
  destruct (lookup_lt_is_Some_2 (sample_mask_ s) (Z.to_nat c0)) as [b Hb]; [lia|].
  set (s1 := mk (sample_mask_ s) (<[Z.to_nat key := (c0 + 1) mod 256]> (sample_count_ s))).
  destruct (IH s1) as (bs & s' & Hrun & Hmask & Hlen' & Hcounts' & Hlook & Hbs & Hres).
  { done. }
  { apply Forall_insert; [done|]. apply Z.mod_pos_bound. lia. }
  { cbn [s1 sample_count_]. by rewrite length_insert. }
  exists (b :: bs), s'. cbn [IsChosen_calls]. unfold IsChosen at 1.
  rewrite Hc0. cbn [mbind option_bind]. rewrite Hb. cbn [mbind option_bind].
  fold s1. rewrite Hrun. cbn [mbind option_bind].
  cbn [s1 sample_mask_ sample_count_] in *. rewrite length_insert in Hlen'.
  repeat split; try done.
  - intros k c Hk. rewrite calls_of_cons.
    destruct (decide (k = Z.to_nat key)) as [->|Hne].
    + rewrite Hk in Hc0. injection Hc0 as ->.
      rewrite (Hlook (Z.to_nat key) ((c0 + 1) mod 256)).
      2:{ rewrite list_lookup_insert_eq; [done|]. by eapply lookup_lt_Some. }
      rewrite decide_True by lia. f_equal.
      rewrite Zplus_mod_idemp_l. f_equal. lia.
    + rewrite (Hlook k c) by (by rewrite list_lookup_insert_ne).
      rewrite decide_False by lia. done.
  - cbn. by rewrite Hbs.
  - intros [|i] key' c Hi Hc.
    + cbn in Hi. injection Hi as <-. rewrite Hc in Hc0. injection Hc0 as ->.
      cbn [take lookup list_lookup]. unfold calls_of. cbn.
      rewrite Z.add_0_r, Z.mod_small by done. by rewrite Hb.
    + change (keys !! i = Some key') in Hi.
      change ((b :: bs) !! S i) with (bs !! i). cbn [take]. rewrite calls_of_cons.
      pose proof (Forall_lookup_1 _ _ _ _ Hkeys Hi) as Hr. cbn beta in Hr.
      destruct (decide (key = key')) as [<-|Hne].
      * rewrite Hc in Hc0. injection Hc0 as ->.
        rewrite (Hres i key ((c0 + 1) mod 256) Hi).
        2:{ rewrite list_lookup_insert_eq; [done|]. by eapply lookup_lt_Some. }
        rewrite Zplus_mod_idemp_l. do 3 f_equal. lia.
      * rewrite (Hres i key' c Hi); [done|].
        rewrite list_lookup_insert_ne; [done|]. lia.
Qed.

Lemma IsChosen_calls_inv keys : forall s results s',
  IsChosen_calls keys s = Some (results, s') ->
  Forall (fun c => 0 <= c < 256) (sample_count_ s) ->
  sample_mask_ s' = sample_mask_ s /\
  length (sample_count_ s') = length (sample_count_ s) /\
  Forall (fun c => 0 <= c < 256) (sample_count_ s').
Proof.
  induction keys as [|key keys IH]; intros s results s' Hrun Hcounts.
  { cbn in Hrun. by injection Hrun as <- <-. }
  cbn [IsChosen_calls] in Hrun. unfold IsChosen at 1 in Hrun.
  destruct (sample_count_ s !! Z.to_nat key) as [c0|]; [|done].
  cbn [mbind option_bind] in Hrun.
  destruct (sample_mask_ s !! Z.to_nat c0) as [b|]; [|done].
  cbn [mbind option_bind] in Hrun.
  destruct (IsChosen_calls keys _) as [[bs s1]|] eqn:Hrest; [|done].
  cbn in Hrun. injection Hrun as <- <-.
  apply IH in Hrest as (Hmask & Hlen & Hc); cbn [sample_mask_ sample_count_] in *.
  - rewrite length_insert in Hlen. done.
  - apply Forall_insert; [done|]. apply Z.mod_pos_bound. lia.
Qed.

Lemma new_Some (shuffle : list bool -> list bool) rate nk s :
  (forall mask, shuffle mask ≡ₚ mask) ->
  new shuffle rate nk = Some s ->
  num_chosen rate <= 256 /\
  sample_count_ s = replicate (Z.to_nat nk) 0 /\
  length (sample_mask_ s) = 256%nat /\
  num_true (sample_mask_ s) = num_chosen rate.
Proof.
  intros Hshuffle. unfold new.
  destruct (Z.leb_spec (num_chosen rate) kSampleMaskSize) as [Hle|]; [|done].
  intros [= <-]. cbn [sample_mask_ sample_count_]. split; [done|]. split; [done|]. split.
  - by rewrite (Permutation_length (Hshuffle _)), filled_mask_length.
  - by rewrite (num_true_Permutation _ _ (Hshuffle _)), filled_mask_num_true.
Qed.

Lemma window (s : t) key c :
  length (sample_mask_ s) = 256%nat ->
  Forall (fun c => 0 <= c < 256) (sample_count_ s) ->
  sample_count_ s !! Z.to_nat key = Some c -> 0 <= key ->
  IsChosen_calls (replicate 256 key) s = Some (rotate (Z.to_nat c) (sample_mask_ s), s).
Proof.
  intros Hlen Hcounts Hc Hkey.
  destruct (IsChosen_calls_spec (replicate 256 key) s Hlen Hcounts)
    as (bs & s' & Hrun & Hmask & Hlen' & Hcounts' & Hlook & Hbs & Hres).
  { apply Forall_replicate. apply lookup_lt_Some in Hc. lia. }
  rewrite Hrun. f_equal. f_equal.
  - apply list_eq. intros i. destruct (decide (i < 256)%nat) as [Hi|Hi].
    + rewrite (Hres i key c); [|by apply lookup_replicate_2|done].
      rewrite lookup_rotate_r by lia. f_equal.
      rewrite take_replicate, calls_of_replicate.
      unfold rotate_nat_add. rewrite Hlen.
      pose proof (Forall_lookup_1 _ _ _ _ Hcounts Hc) as Hr. cbn beta in Hr.
      f_equal. f_equal. lia.
    + rewrite !lookup_ge_None_2; [done|rewrite length_rotate; lia|].
      rewrite Hbs, length_replicate. lia.
  - destruct s as [mask counts], s' as [mask' counts'].
    cbn [sample_mask_ sample_count_] in *. subst mask'. f_equal.
    apply list_eq. intros k. destruct (counts !! k) as [ck|] eqn:Hk.
    + rewrite (Hlook k ck Hk).
      pose proof (Forall_lookup_1 _ _ _ _ Hcounts Hk) as Hr. cbn beta in Hr.
      f_equal. destruct (decide (key = Z.of_nat k)) as [->|Hne].
      * rewrite calls_of_replicate.
        change (Z.of_nat 256) with (1 * 256). rewrite Z_mod_plus_full.
        by apply Z.mod_small.
      * rewrite calls_of_replicate_ne by done. rewrite Z.add_0_r. by apply Z.mod_small.
    + apply lookup_ge_None in Hk. apply lookup_ge_None. lia.
Qed.

End Sampler_facts.

(** X23.  A sampler that the constructor returned answers a sequence
    of calls of [IsChosen] with keys below [num_keys] as follows: the
    call number [i] returns the entry of the shuffled mask at the
    number of earlier calls with the same key, modulo 256.  So the
    calls with one key walk through the mask cyclically, and the calls
    with other keys in between do not change what they return. *)
Theorem Sampler_IsChosen_calls (shuffle : list bool -> list bool)
    (sample_rate num_keys : Z) (s : Sampler.t) (keys : list Z) :
  (forall mask, shuffle mask ≡ₚ mask) ->
  Sampler.new shuffle sample_rate num_keys = Some s ->
  Forall (fun key => 0 <= key < num_keys) keys ->
  exists results s',
    Sampler.IsChosen_calls keys s = Some (results, s') /\
    length results = length keys /\
    forall i key,
      keys !! i = Some key ->
      results !! i =
      Sampler.sample_mask_ s !! Z.to_nat (Sampler.calls_of key (take i keys) mod 256).
Proof.
  intros Hshuffle Hnew Hkeys.
  destruct (Sampler_facts.new_Some _ _ _ _ Hshuffle Hnew) as (_ & Hcounts & Hlen & _).
  destruct (Sampler_facts.IsChosen_calls_spec keys s Hlen)
    as (bs & s' & Hrun & _ & _ & _ & _ & Hbs & Hres).
  { rewrite Hcounts. by apply Forall_replicate. }
  { rewrite Hcounts, length_replicate. eapply Forall_impl; [exact Hkeys|].
    cbn beta. intros key ?. lia. }
  exists bs, s'. split; [done|]. split; [done|].
  intros i key Hi. rewrite (Hres i key 0 Hi); [done|].
  rewrite Hcounts. apply lookup_replicate_2.
  pose proof (Forall_lookup_1 _ _ _ _ Hkeys Hi) as Hr. cbn beta in Hr. lia.
Qed.

Lemma Sampler_IsChosen_calls_witness :
  exists s results s',
    Sampler.new reverse 50 3 = Some s /\
    Sampler.IsChosen_calls [0; 1; 0] s = Some (results, s') /\
    results !! 2%nat = Sampler.sample_mask_ s !! 1%nat.
Proof.
  destruct (Sampler.new reverse 50 3) as [s|] eqn:Hnew;
    [|vm_compute in Hnew; discriminate Hnew].
  destruct (Sampler_IsChosen_calls reverse 50 3 s [0; 1; 0])
    as (results & s' & Hrun & _ & Hres).
  - intros mask. apply reverse_Permutation.
  - exact Hnew.
  - repeat constructor; lia.
  - exists s, results, s'. split; [reflexivity|]. split; [exact Hrun|].
    exact (Hres 2%nat 0 eq_refl).
Defined.

(** X24.  After any calls, 256 calls of [IsChosen] in a row with the
    same key return [true] exactly as many times as the constructor
    set entries of the mask, that is [sample_rate * 256 / 100] times
    in unsigned 32-bit arithmetic, whatever the shuffle and wherever
    the counter of the key stood; and they leave the sampler as they
    found it, the counter having wrapped around. *)
Theorem Sampler_window_exact (shuffle : list bool -> list bool)
    (sample_rate num_keys : Z) (s s1 : Sampler.t) (history : list Z)
    (results0 : list bool) (key : Z) :
  (forall mask, shuffle mask ≡ₚ mask) ->
  Sampler.new shuffle sample_rate num_keys = Some s ->
  Sampler.IsChosen_calls history s = Some (results0, s1) ->
  0 <= key < num_keys ->
  exists results,
    Sampler.IsChosen_calls (replicate 256 key) s1 = Some (results, s1) /\
    Sampler.num_true results = Sampler.num_chosen sample_rate.
Proof.
  intros Hshuffle Hnew Hhist Hkey.
  destruct (Sampler_facts.new_Some _ _ _ _ Hshuffle Hnew) as (_ & Hcounts & Hlen & Hnum).
  destruct (Sampler_facts.IsChosen_calls_inv _ _ _ _ Hhist) as (Hmask1 & Hlen1 & Hcounts1).
  { rewrite Hcounts. by apply Forall_replicate. }
  rewrite Hcounts, length_replicate in Hlen1.
  destruct (lookup_lt_is_Some_2 (Sampler.sample_count_ s1) (Z.to_nat key)) as [c Hc]; [lia|].
  exists (rotate (Z.to_nat c) (Sampler.sample_mask_ s1)). split.
  - apply Sampler_facts.window; [by rewrite Hmask1|done|done|lia].
  - by rewrite Sampler_facts.num_true_rotate, Hmask1.
Qed.

Lemma Sampler_window_exact_witness :
  exists s results0 s1 results,
    Sampler.new reverse 10 3 = Some s /\
    Sampler.IsChosen_calls [0; 1; 0] s = Some (results0, s1) /\
    Sampler.IsChosen_calls (replicate 256 0) s1 = Some (results, s1) /\
    Sampler.num_true results = 25.
Proof.
  destruct (Sampler.new reverse 10 3) as [s|] eqn:Hnew;
    [|vm_compute in Hnew; discriminate Hnew].
  destruct (Sampler.IsChosen_calls [0; 1; 0] s) as [[results0 s1]|] eqn:Hhist;
    [|vm_compute in Hnew; injection Hnew as <-; vm_compute in Hhist; discriminate Hhist].
  destruct (Sampler_window_exact reverse 10 3 s s1 [0; 1; 0] results0 0)
    as (results & Hrun & Hnum).
  - intros mask. apply reverse_Permutation.
  - exact Hnew.
  - exact Hhist.
  - lia.
  - exists s, results0, s1, results.
    split; [reflexivity|]. split; [exact Hhist|]. split; [exact Hrun|exact Hnum].
Defined.

(** X25.  The constructor of [Sampler] is defined for the sample rates
    from 0 to 100, and the mask it leaves then has exactly
    [sample_rate * 256 / 100] entries set, whatever the shuffle; for a
    rate from 101 up to 16777215 it writes past the end of the mask.
    On the sampler it returns, [IsChosen] is defined exactly for the
    keys below [num_keys]. *)
Theorem Sampler_new_rate_range (shuffle : list bool -> list bool)
    (sample_rate num_keys : Z) :
  (forall mask, shuffle mask ≡ₚ mask) ->
  0 <= num_keys ->
  (0 <= sample_rate <= 100 ->
   exists s,
     Sampler.new shuffle sample_rate num_keys = Some s /\
     Sampler.num_true (Sampler.sample_mask_ s) = sample_rate * 256 / 100 /\
     forall key, 0 <= key -> Sampler.IsChosen key s = None <-> num_keys <= key) /\
  (100 < sample_rate < 16777216 -> Sampler.new shuffle sample_rate num_keys = None).
Proof.
  intros Hshuffle Hnk. split.
  - intros Hrate.
    assert (Sampler.num_chosen sample_rate = sample_rate * 256 / 100) as Hn.
    { unfold Sampler.num_chosen, Sampler.kSampleMaskSize.
      rewrite (Z.mod_small sample_rate) by (unfold two32; lia).
      rewrite Z.mod_small by (unfold two32; lia). done. }
    assert (Sampler.num_chosen sample_rate <= 256) as Hle.
    { rewrite Hn. apply Z.div_le_upper_bound; lia. }
    destruct (Sampler.new shuffle sample_rate num_keys) as [s|] eqn:Hnew.
    2:{ unfold Sampler.new in Hnew.
        destruct (Z.leb_spec (Sampler.num_chosen sample_rate) Sampler.kSampleMaskSize);
          [done|]. unfold Sampler.kSampleMaskSize in *. lia. }
    destruct (Sampler_facts.new_Some _ _ _ _ Hshuffle Hnew) as (_ & Hcounts & Hlen & Hnum).
    exists s. split; [done|]. split; [by rewrite Hnum|].
    intros key Hkey. unfold Sampler.IsChosen. rewrite Hcounts.
    destruct (decide (num_keys <= key)) as [Hge|Hlt].
    + rewrite lookup_ge_None_2 by (rewrite length_replicate; lia). done.
    + rewrite lookup_replicate_2 by lia. cbn [mbind option_bind].
      destruct (lookup_lt_is_Some_2 (Sampler.sample_mask_ s) (Z.to_nat 0)) as [b ->];
        [rewrite Hlen; cbn; lia|]. cbn. split; [done|lia].
  - intros Hrate. unfold Sampler.new.
    destruct (Z.leb_spec (Sampler.num_chosen sample_rate) Sampler.kSampleMaskSize) as [Hle|];
      [|done].
    exfalso. revert Hle. unfold Sampler.num_chosen, Sampler.kSampleMaskSize.
    rewrite (Z.mod_small sample_rate) by (unfold two32; lia).
    rewrite Z.mod_small by (unfold two32; lia).
    intros Hle. assert (257 <= sample_rate * 256 / 100); [|lia].
    apply Z.div_le_lower_bound; lia.
Qed.

Lemma Sampler_new_rate_range_witness :
  (exists s, Sampler.new reverse 10 3 = Some s /\
             Sampler.num_true (Sampler.sample_mask_ s) = 25) /\
  Sampler.new reverse 101 3 = None.
Proof.
  destruct (Sampler_new_rate_range reverse 10 3) as [Hin _];
    [intros mask; apply reverse_Permutation|lia|].
  destruct (Sampler_new_rate_range reverse 101 3) as [_ Hout];
    [intros mask; apply reverse_Permutation|lia|].
  split.
  - destruct Hin as (s & Hnew & Hnum & _); [lia|]. exists s. split; [exact Hnew|exact Hnum].
  - apply Hout. lia.
Defined.

(* ===================================================================== *)
(** * Key replicas  ([src/common/types.h], lines 46-54)                  *)
(* ===================================================================== *)

Module KeyReplica_facts.
Import Stdlib.Strings.Ascii.

Lemma list_ascii_of_string_app (s1 s2 : string) :
  String.list_ascii_of_string (s1 +:+ s2) =
  String.list_ascii_of_string s1 ++ String.list_ascii_of_string s2.
Proof. induction s1 as [|c s1 IH]; [done|]. simpl. f_equal. exact IH. Qed.

Lemma list_ascii_of_string_inj (s1 s2 : string) :
  String.list_ascii_of_string s1 = String.list_ascii_of_string s2 -> s1 = s2.
Proof.
  intros Heq. rewrite <- (String.string_of_list_ascii_of_string s1),
    <- (String.string_of_list_ascii_of_string s2). by rewrite Heq.
Qed.

(** A separator that does not occur after it splits a list in one way
    only. *)
Lemma split_at_last {A} (c : A) (l1 l2 d1 d2 : list A) :
  c ∉ d1 -> c ∉ d2 -> l1 ++ c :: d1 = l2 ++ c :: d2 -> l1 = l2 /\ d1 = d2.
Proof.
  revert l2. induction l1 as [|a l1 IH]; intros [|b l2] H1 H2 Heq; cbn in Heq.
  - by injection Heq as ->.
  - injection Heq as <- ->. exfalso. apply H1. apply elem_of_app. right. left.
  - injection Heq as -> <-. exfalso. apply H2. apply elem_of_app. right. left.
  - injection Heq as -> Heq. destruct (IH l2 H1 H2 Heq) as [-> ->]. done.
Qed.

Lemma pretty_N_char_no_colon (x : N) : pretty_N_char x <> ":"%char.
Proof. unfold pretty_N_char. repeat case_match; discriminate. Qed.

Lemma pretty_N_go_no_colon (x : N) : forall s,
  ":"%char ∉ String.list_ascii_of_string s ->
  ":"%char ∉ String.list_ascii_of_string (pretty_N_go x s).
Proof.
  induction (N.lt_wf_0 x) as [x _ IH]. intros s Hs.
  destruct (decide (x = 0%N)) as [->|Hx].
  { by rewrite pretty_N_go_0. }
  rewrite pretty_N_go_step by lia. apply IH.
  - apply N.div_lt; lia.
  - cbn. apply not_elem_of_cons. split; [|done].
    intros Heq. by apply (pretty_N_char_no_colon (x `mod` 10)).
Qed.

Lemma pretty_N_no_colon (x : N) : ":"%char ∉ String.list_ascii_of_string (pretty x).
Proof.
  unfold pretty, pretty_N. destruct (decide (x = 0%N)).
  - cbn. apply not_elem_of_cons. split; [done|]. apply not_elem_of_nil.
  - apply pretty_N_go_no_colon. cbn. apply not_elem_of_nil.
Qed.

Lemma MakeKeyReplica_eq key1 key2 master1 master2 :
  0 <= master1 -> 0 <= master2 ->
  MakeKeyReplica key1 master1 = MakeKeyReplica key2 master2 ->
  key1 = key2 /\ master1 = master2.
Proof.
  intros H1 H2 Heq. unfold MakeKeyReplica in Heq.
  apply (f_equal String.list_ascii_of_string) in Heq.
  rewrite !list_ascii_of_string_app in Heq. cbn in Heq.
  apply split_at_last in Heq as [Hk Hm]; [|apply pretty_N_no_colon..].
  apply list_ascii_of_string_inj in Hk, Hm.
  split; [done|]. apply (inj pretty) in Hm. lia.
Qed.

Lemma Forall2_elem_of_r {A B} (P : A -> B -> Prop) l k y :
  Forall2 P l k -> y ∈ k -> exists x, x ∈ l /\ P x y.
Proof.
  intros Hall [i Hi]%list_elem_of_lookup.
  destruct (Forall2_lookup_r _ _ _ _ _ Hall Hi) as (x & Hx & HP).
  exists x. split; [by eapply list_elem_of_lookup_2|done].
Qed.

End KeyReplica_facts.

(** X26.  [MakeKeyReplica] never gives two pairs of a key and a master
    the same key replica, whatever the keys hold, colons included: the
    master is written in decimal, so the last colon of the key replica
    is the separator. *)
Theorem MakeKeyReplica_inj (key1 key2 : Key) (master1 master2 : Z) :
  0 <= master1 -> 0 <= master2 ->
  MakeKeyReplica key1 master1 = MakeKeyReplica key2 master2 ->
  key1 = key2 /\ master1 = master2.
Proof. apply KeyReplica_facts.MakeKeyReplica_eq. Qed.

Lemma MakeKeyReplica_inj_witness :
  MakeKeyReplica "a:1" 2 = "a:1:2" /\
  forall key master, 0 <= master -> MakeKeyReplica key master = MakeKeyReplica "a:1" 2 ->
                     key = "a:1" /\ master = 2.
Proof.
  split; [reflexivity|]. intros key master Hmaster Heq.
  apply (MakeKeyReplica_inj key "a:1" master 2); [exact Hmaster|lia|exact Heq].
Defined.

(** X27.  For a txn that is no remaster, whose keys to lock are
    distinct, [AcquireLocks] requests its locks on distinct key
    replicas, one for each key and with the mode of the key: no lock is
    requested twice, and a key that is not to be left [UNLOCKED] never
    is. *)
Theorem locks_to_request_distinct (h : TxnHolder) (locks : list (KeyReplica * LockMode)) :
  is_remaster h = false ->
  NoDup (keys_in_partition h).*1 ->
  map_Forall (fun _ master => 0 <= master) (master_metadata h) ->
  DDRLockManager.locks_to_request h = Some locks ->
  NoDup locks.*1 /\ locks.*2 = (keys_in_partition h).*2.
Proof.
  intros Hrem Hkeys Hmd. unfold DDRLockManager.locks_to_request. rewrite Hrem.
  intros Hall%mapM_Some_1. revert Hkeys.
  induction Hall as [|[key mode] [kr mode'] keys locks Hx Hall IH]; intros Hkeys.
  { split; [constructor|done]. }
  cbn in Hx. destruct (master_metadata h !! key) as [master|] eqn:Hm; [|done].
  cbn in Hx. injection Hx as <- <-.
  cbn [fmap list_fmap fst snd] in *. apply NoDup_cons in Hkeys as [Hnotin Hkeys].
  destruct (IH Hkeys) as [Hnd Hmodes]. split; [|by rewrite Hmodes].
  apply NoDup_cons. split; [|done].
  intros ([kr' mode'] & Heq & Hin)%list_elem_of_fmap. cbn in Heq. subst kr'.
  destruct (KeyReplica_facts.Forall2_elem_of_r _ _ _ _ Hall Hin) as ([key' mode''] & Hin' & Hy).
  cbn in Hy. destruct (master_metadata h !! key') as [master'|] eqn:Hm'; [|done].
  cbn in Hy. injection Hy as Hkr _.
  apply KeyReplica_facts.MakeKeyReplica_eq in Hkr as [-> _].
  - apply Hnotin. apply list_elem_of_fmap. by exists (key, mode'').
  - by apply (Hmd _ _ Hm').
  - by apply (Hmd _ _ Hm).
Qed.

Lemma locks_to_request_distinct_witness :
  exists locks,
    DDRLockManager.locks_to_request LockManagerMore.example_holder_100 = Some locks /\
    locks = [("a:0", WRITE); ("c:1", WRITE)] /\
    NoDup locks.*1.
Proof.
  destruct (DDRLockManager.locks_to_request LockManagerMore.example_holder_100)
    as [locks|] eqn:Hlocks; [|vm_compute in Hlocks; discriminate Hlocks].
  exists locks. split; [reflexivity|].
  destruct (locks_to_request_distinct LockManagerMore.example_holder_100 locks) as [Hnd _].
  - reflexivity.
  - cbn. apply (bool_decide_unpack _). vm_compute. exact I.
  - change (map_Forall (fun (_ : string) master => 0 <= master)
              (<["a" := 0]> (<["c" := 1]> (∅ : gmap string Z)))).
    apply map_Forall_insert_2; [lia|]. apply map_Forall_insert_2; [lia|].
    apply map_Forall_empty.
  - exact Hlocks.
  - split; [|exact Hnd]. vm_compute in Hlocks. by injection Hlocks as <-.
Defined.

(* ===================================================================== *)
(** * Properties of the constructor of [Configuration]                   *)
(* ===================================================================== *)

Module ConfigurationSetup_facts.
Import ConfigurationSetup.

Lemma elem_of_concat {A} (x : A) (ls : list (list A)) :
  x ∈ concat ls <-> exists l, l ∈ ls /\ x ∈ l.
Proof.
  induction ls as [|l0 ls IH]; cbn [concat].
  { split; [by intros ?%elem_of_nil|]. intros (l & Hl & _). by apply elem_of_nil in Hl. }
  rewrite elem_of_app, IH. split.
  - intros [Hx|(l & Hl & Hx)]; [exists l0; split; [left|done]|exists l; split; [by right|done]].
  - intros (l & [->|Hl]%elem_of_cons & Hx); [by left|right; by exists l].
Qed.

(** Where the address [a] is listed last in [addresses]. *)
Lemma scan_addresses_spec (a : string) r : forall addresses p all local,
  let res := scan_addresses a r p addresses (all, local) in
  res.1 = all ++ addresses /\
  (((a ∉ addresses) /\ res.2 = local) \/
   (exists i : nat, addresses !! i = Some a /\
      (forall j : nat, (i < j)%nat -> addresses !! j <> Some a) /\
      res.2 = Some (r, p + Z.of_nat i))).
Proof.
  induction addresses as [|address rest IH]; intros p all local res.
  { subst res. cbn. rewrite app_nil_r. split; [done|]. left. split; [|done].
    apply not_elem_of_nil. }
  subst res. cbn [scan_addresses].
  destruct (IH (p + 1) (all ++ [address])
              (if String.eqb address a then Some (r, p) else local)) as [Hall Hloc].
  cbn zeta in Hall, Hloc. split.
  { rewrite Hall, <- (assoc_L (++)). done. }
  destruct Hloc as [[Hnot Hres]|(i & Hi & Hlast & Hres)].
  - destruct (String.eqb_spec address a) as [->|Hne].
    + right. exists 0%nat. split; [done|]. split.
      * intros [|j] Hj; [lia|]. cbn. intros Hin. apply Hnot.
        by eapply list_elem_of_lookup_2.
      * rewrite Hres. f_equal. f_equal. lia.
    + left. split; [|done]. apply not_elem_of_cons. split; [congruence|done].
  - right. exists (S i). split; [done|]. split.
    + intros [|j] Hj; [lia|]. cbn. apply Hlast. lia.
    + rewrite Hres. f_equal. f_equal. lia.
Qed.

Lemma scan_replicas_None np a : forall reps r st,
  scan_replicas np a r reps st = None <->
  exists replica, replica ∈ reps /\ Z.of_nat (length replica) <> np.
Proof.
  induction reps as [|replica rest IH]; intros r st.
  { cbn. split; [done|]. intros (? & Hin & _). by apply elem_of_nil in Hin. }
  cbn [scan_replicas]. destruct (Z.eqb_spec (Z.of_nat (length replica)) np) as [Heq|Hne].
  - rewrite IH. split.
    + intros (x & Hin & Hx). exists x. split; [by right|done].
    + intros (x & [->|Hin]%elem_of_cons & Hx); [done|]. by exists x.
  - split; [intros _|done]. exists replica. split; [left|done].
Qed.

(** What the two loops leave: all the addresses, and the place where
    [a] is listed last. *)
Lemma scan_replicas_spec np a : forall reps r all local res,
  scan_replicas np a r reps (all, local) = Some res ->
  Forall (fun replica => Z.of_nat (length replica) = np) reps /\
  res.1 = all ++ concat reps /\
  (((a ∉ concat reps) /\ res.2 = local) \/
   (exists (i j : nat) addresses,
      reps !! i = Some addresses /\ addresses !! j = Some a /\
      (forall j' : nat, (j < j')%nat -> addresses !! j' <> Some a) /\
      (forall (i' : nat) addresses',
         (i < i')%nat -> reps !! i' = Some addresses' -> a ∉ addresses') /\
      res.2 = Some (r + Z.of_nat i, Z.of_nat j))).
Proof.
  induction reps as [|replica rest IH]; intros r all local res Hrun.
  { cbn in Hrun. injection Hrun as <-. cbn. rewrite app_nil_r.
    split; [constructor|]. split; [done|]. left. split; [apply not_elem_of_nil|done]. }
  cbn [scan_replicas] in Hrun.
  destruct (Z.eqb_spec (Z.of_nat (length replica)) np) as [Heq|Hne]; [|done].
  destruct (scan_addresses_spec a r replica 0 all local) as [Hall Hloc].
  destruct (scan_addresses a r 0 replica (all, local)) as [all1 local1] eqn:Hscan.
  cbn [fst snd] in Hall, Hloc. subst all1.
  destruct (IH _ _ _ _ Hrun) as (Hlen & Hres1 & Hres2).
  split; [by constructor|]. split.
  { rewrite Hres1. cbn [concat]. by rewrite (assoc_L (++)). }
  destruct Hres2 as [[Hnot Hres2]|(i & j & addresses & Hi & Hj & Hlastj & Hlasti & Hres2)].
  - destruct Hloc as [[Hnot0 ->]|(j & Hj & Hlastj & ->)].
    + left. split; [|done]. cbn [concat]. rewrite elem_of_app. tauto.
    + right. exists 0%nat, j, replica. split; [done|]. split; [done|]. split; [done|].
      split.
      * intros [|i'] addresses' Hi' Hlook; [lia|]. cbn in Hlook.
        intros Hin. apply Hnot. apply elem_of_concat. exists addresses'.
        split; [by eapply list_elem_of_lookup_2|done].
      * rewrite Hres2. f_equal. f_equal; lia.
  - right. exists (S i), j, addresses. split; [done|]. split; [done|]. split; [done|].
    split.
    + intros [|i'] addresses' Hi' Hlook; [lia|]. cbn in Hlook.
      apply (Hlasti i'); [lia|done].
    + rewrite Hres2. f_equal. f_equal. lia.
Qed.

(** The rows of a table whose rows have the same length lie one after
    the other in its concatenation. *)
Lemma lookup_concat_rows {A} (n : nat) (rows : list (list A)) :
  Forall (fun row => length row = n) rows ->
  forall (i j : nat) row x,
    rows !! i = Some row -> row !! j = Some x ->
    concat rows !! (i * n + j)%nat = Some x.
Proof.
  induction 1 as [|row0 rows Hrow0 Hrows IH]; intros i j row x Hi Hj; [done|].
  destruct i as [|i]; cbn in Hi.
  - injection Hi as ->. cbn. by apply lookup_app_l_Some.
  - cbn [concat]. rewrite lookup_app_r by (rewrite Hrow0; lia).
    rewrite Hrow0. replace (S i * n + j - n)%nat with (i * n + j)%nat by lia.
    by eapply IH.
Qed.

Abbreviation others lr i n := (filter (fun j : Z => j <> lr) (seqZ i n)).

Lemma others_S lr i (n : nat) :
  others lr i (Z.of_nat (S n)) =
  if decide (i = lr) then others lr (i + 1) (Z.of_nat n)
  else i :: others lr (i + 1) (Z.of_nat n).
Proof.
  rewrite seqZ_cons by lia. rewrite filter_cons.
  replace (Z.pred (Z.of_nat (S n))) with (Z.of_nat n) by lia.
  replace (Z.succ i) with (i + 1) by lia.
  destruct (decide (i = lr)) as [->|Hne].
  - by rewrite decide_False by (intros ?; done).
  - by rewrite decide_True by done.
Qed.

Lemma zero_latencies_spec lr : forall (n : nat) i latency ordered,
  zero_latencies lr i n (latency, ordered) =
  (latency ++ ((fun _ => 0) <$> others lr i (Z.of_nat n)),
   ordered ++ zip ((fun _ => 0) <$> others lr i (Z.of_nat n)) (others lr i (Z.of_nat n))).
Proof.
  induction n as [|n IH]; intros i latency ordered.
  { cbn. by rewrite !app_nil_r. }
  cbn [zero_latencies]. rewrite others_S.
  destruct (Z.eqb_spec i lr) as [->|Hne].
  - rewrite decide_True by done. apply IH.
  - rewrite decide_False by done. rewrite IH. cbn [fmap list_fmap zip zip_with].
    by rewrite <- !(assoc_L (++)).
Qed.

Lemma read_latencies_spec (stoul : string -> option Z) lr :
  forall latency_str i latency ordered res,
  read_latencies stoul lr i latency_str (latency, ordered) = Some res ->
  exists vs,
    res = (latency ++ vs,
           ordered ++ zip vs (others lr i (Z.of_nat (length latency_str)))) /\
    length vs = length (others lr i (Z.of_nat (length latency_str))).
Proof.
  induction latency_str as [|str rest IH]; intros i latency ordered res Hrun.
  { cbn in Hrun. injection Hrun as <-. exists []. cbn. by rewrite !app_nil_r. }
  cbn [read_latencies] in Hrun. cbn [length]. rewrite others_S.
  destruct (Z.eqb_spec i lr) as [->|Hne].
  - rewrite decide_True by done. by apply IH.
  - rewrite decide_False by done.
    destruct (stoul str) as [lat|]; [|done]. cbn [mbind option_bind] in Hrun.
    destruct (IH _ _ _ _ Hrun) as (vs & -> & Hlen).
    exists (lat mod two32 :: vs). cbn [zip zip_with length].
    rewrite <- !(assoc_L (++)). split; [done|]. by rewrite Hlen.
Qed.

Lemma read_latencies_None (stoul : string -> option Z) lr :
  forall latency_str i st,
  read_latencies stoul lr i latency_str st = None <->
  exists (k : nat) str,
    latency_str !! k = Some str /\ i + Z.of_nat k <> lr /\ stoul str = None.
Proof.
  induction latency_str as [|str rest IH]; intros i [latency ordered].
  { cbn. split; [done|]. intros (k & s & Hk & _). done. }
  cbn [read_latencies].
  assert ((exists (k : nat) s, (str :: rest) !! k = Some s /\ i + Z.of_nat k <> lr /\
             stoul s = None) <->
          (i <> lr /\ stoul str = None) \/
          (exists (k : nat) s, rest !! k = Some s /\ i + 1 + Z.of_nat k <> lr /\
             stoul s = None)) as Hsplit.
  { split.
    - intros ([|k] & s & Hk & Hne & Hs); cbn in Hk.
      + injection Hk as <-. left. split; [lia|done].
      + right. exists k, s. split; [done|]. split; [lia|done].
    - intros [[Hne Hs]|(k & s & Hk & Hne & Hs)].
      + exists 0%nat, str. split; [done|]. split; [lia|done].
      + exists (S k), s. split; [done|]. split; [lia|done]. }
  rewrite Hsplit. destruct (Z.eqb_spec i lr) as [->|Hne].
  - rewrite IH. split; [by right|]. intros [[? _]|?]; done.
  - destruct (stoul str) as [lat|]; cbn [mbind option_bind].
    + rewrite IH. split; [by right|]. intros [[_ ?]|?]; done.
    + split; [intros _|done]. by left.
Qed.

Lemma filter_all {A} (P : A -> Prop) `{!forall x, Decision (P x)} (l : list A) :
  (forall x, x ∈ l -> P x) -> filter P l = l.
Proof.
  induction l as [|x l IH]; intros Hall; [done|].
  rewrite filter_cons_True by (apply Hall; left). f_equal. apply IH.
  intros y Hy. apply Hall. by right.
Qed.

(** The replicas other than [lr]. *)
Lemma others_eq lr n :
  0 <= lr < n ->
  others lr 0 n = seqZ 0 lr ++ seqZ (lr + 1) (n - lr - 1).
Proof.
  intros Hlr. replace n with (lr + (1 + (n - lr - 1))) at 1 by lia.
  rewrite seqZ_app by lia. rewrite (seqZ_app _ 1) by lia. rewrite !filter_app.
  rewrite Z.add_0_l. change (seqZ lr 1) with [lr].
  rewrite (filter_cons _ lr), decide_False by (intros ?; done).
  rewrite filter_nil, app_nil_l. f_equal.
  - apply filter_all. intros j Hj%elem_of_seqZ. lia.
  - apply filter_all. intros j Hj%elem_of_seqZ. lia.
Qed.

Lemma pair_le_trans : Transitive pair_le.
Proof. intros [a1 a2] [b1 b2] [c1 c2]. unfold pair_le. cbn. lia. Qed.

Lemma pair_le_total : Total pair_le.
Proof. intros [a1 a2] [b1 b2]. unfold pair_le. cbn. lia. Qed.

Lemma others_lookup lr n (k : nat) i :
  0 <= lr < n ->
  others lr 0 n !! k = Some i <->
  Z.of_nat k < n - 1 /\ i = (if Z.of_nat k <? lr then Z.of_nat k else Z.of_nat k + 1).
Proof.
  intros Hlr. rewrite others_eq by done.
  destruct (Z.ltb_spec (Z.of_nat k) lr) as [Hk|Hk].
  - rewrite lookup_app_l by (rewrite length_seqZ; lia).
    rewrite lookup_seqZ. lia.
  - rewrite lookup_app_r by (rewrite length_seqZ; lia).
    rewrite length_seqZ, lookup_seqZ. lia.
Qed.

Lemma others_length lr n : 0 <= lr < n -> Z.of_nat (length (others lr 0 n)) = n - 1.
Proof.
  intros Hlr. rewrite others_eq by done. rewrite length_app, !length_seqZ. lia.
Qed.

Lemma const_zero_fmap (l : list Z) : (fun _ : Z => 0) <$> l = replicate (length l) 0.
Proof. induction l as [|x l IH]; [done|]. cbn. by rewrite IH. Qed.

Section WithPlatform.
Variable max_broker_threads : Z.
Variable Split : string -> string -> list string.
Variable stoul : string -> option Z.

Lemma new_inv config local_address c :
  new max_broker_threads Split stoul config local_address = Some c ->
  replication_factor config <= replicas_size config /\
  broker_ports_size config <= max_broker_threads /\
  config_ c = config /\ local_address_ c = local_address /\
  scan_replicas (num_partitions config) local_address 0 (replicas config) ([], None) =
    Some (all_addresses_ c, Some (local_replica_ c, local_partition_ c)) /\
  exists vs,
    latency_ c = vs /\
    ordered_latency_ c =
      merge_sort pair_le (zip vs (others (local_replica_ c) 0 (replicas_size config))) /\
    length vs = length (others (local_replica_ c) 0 (replicas_size config)) /\
    (replica_latency config = [] ->
     vs = (fun _ => 0) <$> others (local_replica_ c) 0 (replicas_size config)).
Proof.
  unfold new.
  destruct (Z.leb_spec (replication_factor config) (replicas_size config)) as [Hrf|];
    [|done].
  destruct (Z.leb_spec (broker_ports_size config) max_broker_threads) as [Hbp|]; [|done].
  cbn [negb].
  destruct (scan_replicas _ _ _ _ _) as [[all local]|] eqn:Hscan; [|done].
  cbn [mbind option_bind]. destruct local as [[lr lp]|]; [|done].
  cbn [mbind option_bind]. case_bool_decide as Hlat.
  - cbn [mbind option_bind]. rewrite zero_latencies_spec. cbn [app].
    intros [= <-]. cbn [config_ local_address_ all_addresses_ local_replica_
                         local_partition_ latency_ ordered_latency_].
    repeat (split; [done|]). eexists. split; [done|]. split; [done|].
    split; [by rewrite length_fmap|done].
  - destruct (Z.eqb_spec (Z.of_nat (length (replica_latency config)))
                (replicas_size config)) as [Hlen|]; [|done].
    cbn [negb]. destruct (replica_latency config !! Z.to_nat lr) as [str|]; [|done].
    cbn [mbind option_bind].
    destruct (Z.eqb_spec (Z.of_nat (length (Split str ","))) (replicas_size config))
      as [Hlen'|]; [|done].
    cbn [negb]. destruct (read_latencies _ _ _ _ _) as [[latency ordered]|] eqn:Hread;
      [|done].
    cbn [mbind option_bind]. intros [= <-].
    cbn [config_ local_address_ all_addresses_ local_replica_
         local_partition_ latency_ ordered_latency_].
    repeat (split; [done|]).
    apply read_latencies_spec in Hread as (vs & [= -> ->] & Hvs).
    rewrite Hlen' in Hvs. exists vs. cbn [app]. rewrite Hlen'. done.
Qed.

(** The place where the constructor finds the local address. *)
Lemma local_place config local_address c :
  new max_broker_threads Split stoul config local_address = Some c ->
  Forall (fun replica => Z.of_nat (length replica) = num_partitions config)
         (replicas config) /\
  all_addresses_ c = concat (replicas config) /\
  exists (i j : nat) addresses,
    local_replica_ c = Z.of_nat i /\ local_partition_ c = Z.of_nat j /\
    replicas config !! i = Some addresses /\ addresses !! j = Some local_address /\
    (forall j' : nat, (j < j')%nat -> addresses !! j' <> Some local_address) /\
    (forall (i' : nat) addresses',
       (i < i')%nat -> replicas config !! i' = Some addresses' ->
       local_address ∉ addresses').
Proof.
  intros (_ & _ & _ & _ & Hscan & _)%new_inv.
  apply scan_replicas_spec in Hscan as (Hlen & Hall & Hloc). cbn [fst snd] in *.
  split; [done|]. split; [done|].
  destruct Hloc as [[_ ?]|(i & j & addresses & Hi & Hj & Hlastj & Hlasti & [= -> ->])];
    [done|].
  exists i, j, addresses. split; [lia|done].
Qed.

End WithPlatform.

End ConfigurationSetup_facts.

(** X28.  A [Configuration] that the constructor returns lists the
    addresses replica by replica, so that the two ways to look up an
    address agree: the address of the machine id of a replica and a
    partition is the address of that replica and partition.  Its local
    replica and partition are a place where the local address is
    listed, the last one if it is listed more than once, and the
    address of [local_machine_id] is the local address. *)
Theorem Configuration_addresses (max_broker_threads : Z)
    (Split : string -> string -> list string) (stoul : string -> option Z)
    (config : ConfigurationSetup.Proto) (local_address : string) (c : ConfigurationSetup.t) :
  ConfigurationSetup.new max_broker_threads Split stoul config local_address = Some c ->
  let nr := ConfigurationSetup.replicas_size config in
  let np := ConfigurationSetup.num_partitions config in
  ConfigurationSetup.all_addresses_ c = concat (ConfigurationSetup.replicas config) /\
  0 <= ConfigurationSetup.local_replica_ c < nr /\
  0 <= ConfigurationSetup.local_partition_ c < np /\
  ConfigurationSetup.address c (ConfigurationSetup.local_replica_ c)
    (ConfigurationSetup.local_partition_ c) = Some local_address /\
  (forall r p,
     ConfigurationSetup.address c r p = Some local_address ->
     r < ConfigurationSetup.local_replica_ c \/
     (r = ConfigurationSetup.local_replica_ c /\ p <= ConfigurationSetup.local_partition_ c)) /\
  (nr * np <= Machines.two31 ->
   (forall r p,
      0 <= r < nr -> 0 <= p < np ->
      exists a,
        ConfigurationSetup.address c r p = Some a /\
        ConfigurationSetup.address_of_machine c
          (Machines.MakeMachineId (ConfigurationSetup.config_of c) r p) = Some a) /\
   ConfigurationSetup.address_of_machine c (ConfigurationSetup.local_machine_id c) =
     Some local_address).
Proof.
  intros Hnew nr np.
  pose proof (ConfigurationSetup_facts.new_inv _ _ _ _ _ _ Hnew) as (_ & _ & Hcfg & _).
  destruct (ConfigurationSetup_facts.local_place _ _ _ _ _ _ Hnew)
    as (Hrows & Hall & i & j & addresses & Hlr & Hlp & Hi & Hj & Hlastj & Hlasti).
  pose proof (lookup_lt_Some _ _ _ Hi) as Hi_lt.
  pose proof (lookup_lt_Some _ _ _ Hj) as Hj_lt.
  pose proof (Forall_lookup_1 _ _ _ _ Hrows Hi) as Hlen. cbn beta in Hlen.
  assert (forall r p a, 0 <= r -> 0 <= p ->
            ConfigurationSetup.address c r p = Some a <->
            exists row, ConfigurationSetup.replicas config !! Z.to_nat r = Some row /\
                        row !! Z.to_nat p = Some a) as Haddr.
  { intros r p a Hr Hp. unfold ConfigurationSetup.address. rewrite Hcfg.
    destruct (Z.ltb_spec r 0); [lia|]. destruct (Z.ltb_spec p 0); [lia|]. cbn [orb].
    destruct (ConfigurationSetup.replicas config !! Z.to_nat r) as [row|]; cbn.
    - split; [intros ?; by exists row|]. by intros (? & [= <-] & ?).
    - split; [done|]. by intros (? & ? & _). }
  assert (ConfigurationSetup.address c (ConfigurationSetup.local_replica_ c)
            (ConfigurationSetup.local_partition_ c) = Some local_address) as Hlocal.
  { apply Haddr; [lia..|]. exists addresses. rewrite Hlr, Hlp, !Nat2Z.id. done. }
  assert (forall r p a, 0 <= r < nr -> 0 <= p < np ->
            nr * np <= Machines.two31 ->
            ConfigurationSetup.address c r p = Some a ->
            ConfigurationSetup.address_of_machine c
              (Machines.MakeMachineId (ConfigurationSetup.config_of c) r p) = Some a)
    as Hagree.
  { intros r p a Hr Hp Hfit [row [Hrow Ha]]%Haddr; [|lia..].
    rewrite Machines_facts.MakeMachineId_small; cbn [Configuration.num_partitions
      ConfigurationSetup.config_of]; rewrite ?Hcfg; fold np; [|lia..|nia].
    unfold ConfigurationSetup.address_of_machine.
    destruct (Z.ltb_spec (r * np + p) 0); [nia|]. rewrite Hall.
    replace (Z.to_nat (r * np + p)) with (Z.to_nat r * Z.to_nat np + Z.to_nat p)%nat by nia.
    eapply ConfigurationSetup_facts.lookup_concat_rows; [|done..].
    eapply Forall_impl; [exact Hrows|]. cbn beta. intros row' Hrow'. fold np in Hrow'. lia. }
  unfold nr, ConfigurationSetup.replicas_size.
  split; [done|]. split; [lia|]. split; [fold np in Hlen; lia|]. split; [done|]. split.
  - intros r p Hrp.
    destruct (Z.ltb_spec r 0) as [Hr|Hr]; [left; lia|].
    destruct (Z.ltb_spec p 0) as [Hp|Hp]; [unfold ConfigurationSetup.address in Hrp|].
    { destruct (r <? 0); [done|]. destruct (Z.ltb_spec p 0); [done|lia]. }
    apply Haddr in Hrp as (row & Hrow & Ha); [|lia..].
    destruct (decide (r < Z.of_nat i)) as [?|Hge]; [left; lia|]. right.
    destruct (decide (Z.to_nat r = i)) as [Heq|Hne].
    + rewrite Heq, Hi in Hrow. injection Hrow as <-. split; [lia|].
      destruct (decide (p <= Z.of_nat j)) as [?|Hgt]; [lia|]. exfalso.
      apply (Hlastj (Z.to_nat p)); [lia|done].
    + exfalso. apply (Hlasti (Z.to_nat r) row); [lia|done|].
      by eapply list_elem_of_lookup_2.
  - intros Hfit. fold nr in Hfit |- *. split.
    + intros r p Hr Hp.
      destruct (lookup_lt_is_Some_2 (ConfigurationSetup.replicas config) (Z.to_nat r))
        as [row Hrow]; [unfold nr, ConfigurationSetup.replicas_size in Hr; lia|].
      pose proof (Forall_lookup_1 _ _ _ _ Hrows Hrow) as Hlen'. cbn beta in Hlen'.
      destruct (lookup_lt_is_Some_2 row (Z.to_nat p)) as [a Ha]; [fold np in Hlen'; lia|].
      assert (ConfigurationSetup.address c r p = Some a) as Hrp
        by (apply Haddr; [lia..|]; by exists row).
      exists a. split; [done|]. by apply Hagree.
    + unfold ConfigurationSetup.local_machine_id. apply Hagree; [..|done|done].
      * unfold nr, ConfigurationSetup.replicas_size. lia.
      * fold np in Hlen. lia.
Qed.

Lemma Configuration_addresses_witness :
  exists c,
    ConfigurationSetup.new 8 (fun _ _ => []) (fun _ => None)
      ConfigurationSetup.example_proto "c" = Some c /\
    ConfigurationSetup.local_replica_ c = 1 /\
    ConfigurationSetup.local_partition_ c = 0 /\
    ConfigurationSetup.all_addresses_ c = ["a"; "b"; "c"; "d"] /\
    ConfigurationSetup.address_of_machine c (ConfigurationSetup.local_machine_id c) = Some "c".
Proof.
  destruct (ConfigurationSetup.new 8 (fun _ _ => []) (fun _ => None)
              ConfigurationSetup.example_proto "c") as [c|] eqn:Hnew;
    [|vm_compute in Hnew; discriminate Hnew].
  exists c. split; [reflexivity|].
  pose proof (Configuration_addresses _ _ _ _ _ _ Hnew) as (_ & _ & _ & _ & _ & Hm).
  destruct Hm as [_ Hlocal]; [vm_compute; discriminate|].
  split; [vm_compute in Hnew; by injection Hnew as <-|].
  split; [vm_compute in Hnew; by injection Hnew as <-|].
  split; [vm_compute in Hnew; by injection Hnew as <-|].
  exact Hlocal.
Defined.

(** X29.  The constructor of [Configuration] fails exactly when the
    replication factor exceeds the number of replicas, or there are
    too many broker ports, or a replica does not list one address for
    each partition, or the local address is listed nowhere, or
    latencies are given and there is not one latency string for each
    replica, or the string of the local replica (the last replica that
    lists the local address) does not split into one value for each
    replica, or [std::stoul] throws on the value of another replica. *)
Theorem Configuration_new_fails_iff (max_broker_threads : Z)
    (Split : string -> string -> list string) (stoul : string -> option Z)
    (config : ConfigurationSetup.Proto) (local_address : string) :
  ConfigurationSetup.new max_broker_threads Split stoul config local_address = None <->
  ConfigurationSetup.replicas_size config < ConfigurationSetup.replication_factor config \/
  max_broker_threads < ConfigurationSetup.broker_ports_size config \/
  (exists replica,
     replica ∈ ConfigurationSetup.replicas config /\
     Z.of_nat (length replica) <> ConfigurationSetup.num_partitions config) \/
  local_address ∉ concat (ConfigurationSetup.replicas config) \/
  (ConfigurationSetup.replica_latency config <> [] /\
   (Z.of_nat (length (ConfigurationSetup.replica_latency config)) <>
      ConfigurationSetup.replicas_size config \/
    exists (r : nat) addresses str,
      ConfigurationSetup.replicas config !! r = Some addresses /\
      local_address ∈ addresses /\
      (forall (r' : nat) addresses',
         (r < r')%nat -> ConfigurationSetup.replicas config !! r' = Some addresses' ->
         local_address ∉ addresses') /\
      ConfigurationSetup.replica_latency config !! r = Some str /\
      (Z.of_nat (length (Split str ",")) <> ConfigurationSetup.replicas_size config \/
       exists (i : nat) value,
         i <> r /\ Split str "," !! i = Some value /\ stoul value = None))).
Proof.
  unfold ConfigurationSetup.new.
  destruct (Z.leb_spec (ConfigurationSetup.replication_factor config)
              (ConfigurationSetup.replicas_size config)) as [Hrf|Hrf]; cbn [negb];
    [|split; [by left|done]].
  destruct (Z.leb_spec (ConfigurationSetup.broker_ports_size config) max_broker_threads)
    as [Hbp|Hbp]; cbn [negb]; [|split; [right; by left|done]].
  destruct (ConfigurationSetup.scan_replicas _ _ _ _ _) as [[all local]|] eqn:Hscan.
  2:{ cbn. split; [intros _|done]. right. right. left.
      by apply ConfigurationSetup_facts.scan_replicas_None in Hscan. }
  apply ConfigurationSetup_facts.scan_replicas_spec in Hscan as (Hrows & _ & Hloc).
  cbn [fst snd mbind option_bind] in *.
  assert (~ exists replica, replica ∈ ConfigurationSetup.replicas config /\
            Z.of_nat (length replica) <> ConfigurationSetup.num_partitions config) as Hno3.
  { intros (replica & Hin & Hne). apply Hne.
    by apply (proj1 (Forall_forall _ _) Hrows). }
  destruct Hloc as [[Hnot ->]|(i & j & addresses & Hi & Hj & Hlastj & Hlasti & ->)].
  { cbn. split; [intros _|done]. right. right. right. by left. }
  cbn [mbind option_bind]. rewrite Z.add_0_l.
  assert (local_address ∈ concat (ConfigurationSetup.replicas config)) as Hin4.
  { apply ConfigurationSetup_facts.elem_of_concat. exists addresses.
    split; by eapply list_elem_of_lookup_2. }
  assert (forall (r : nat) addresses',
            ConfigurationSetup.replicas config !! r = Some addresses' ->
            local_address ∈ addresses' ->
            (forall (r' : nat) addresses'',
               (r < r')%nat -> ConfigurationSetup.replicas config !! r' = Some addresses'' ->
               local_address ∉ addresses'') ->
            r = i) as Hlast.
  { intros r addresses' Hr Hin Hlastr.
    destruct (lt_eq_lt_dec r i) as [[Hlt| ->]|Hgt]; [|done|].
    - exfalso. apply (Hlastr i addresses Hlt Hi). by eapply list_elem_of_lookup_2.
    - exfalso. by apply (Hlasti r addresses' Hgt Hr). }
  pose proof (lookup_lt_Some _ _ _ Hi) as Hi_lt.
  case_bool_decide as Hlat.
  { destruct (ConfigurationSetup.zero_latencies _ _ _ _) as [latency ordered]. cbn.
    split; [done|]. intros [?|[?|[?|[?|[? _]]]]]; try done; lia. }
  destruct (Z.eqb_spec (Z.of_nat (length (ConfigurationSetup.replica_latency config)))
              (ConfigurationSetup.replicas_size config)) as [Hlen|Hlen]; cbn [negb].
  2:{ cbn. split; [intros _|done]. do 4 right. split; [done|]. by left. }
  rewrite Nat2Z.id.
  destruct (lookup_lt_is_Some_2 (ConfigurationSetup.replica_latency config) i)
    as [str Hstr]; [unfold ConfigurationSetup.replicas_size in Hlen; lia|].
  rewrite Hstr. cbn [mbind option_bind].
  destruct (Z.eqb_spec (Z.of_nat (length (Split str ",")))
              (ConfigurationSetup.replicas_size config)) as [Hlen'|Hlen']; cbn [negb].
  2:{ split; [intros _|done]. do 4 right. split; [done|]. right.
      exists i, addresses, str. split; [done|]. split; [by eapply list_elem_of_lookup_2|].
      split; [done|]. split; [done|]. by left. }
  destruct (ConfigurationSetup.read_latencies _ _ _ _ _) as [[latency ordered]|] eqn:Hread.
  - cbn. split; [done|]. intros [?|[?|[?|[?|[_ [?|Hbad]]]]]]; try done; try lia.
    destruct Hbad as (r & addresses' & str' & Hr & Hin & Hlastr & Hstr' & Hbad).
    pose proof (Hlast r addresses' Hr Hin Hlastr) as ->.
    rewrite Hstr in Hstr'. injection Hstr' as <-.
    destruct Hbad as [?|(k & value & Hk & Hvalue & Hnone)]; [done|].
    assert (ConfigurationSetup.read_latencies stoul (Z.of_nat i) 0 (Split str ",") ([], [])
            = None) as Hcontra; [|by rewrite Hcontra in Hread].
    apply ConfigurationSetup_facts.read_latencies_None.
    exists k, value. split; [done|]. split; [lia|done].
  - cbn. split; [intros _|done]. do 4 right. split; [done|]. right.
    apply ConfigurationSetup_facts.read_latencies_None in Hread
      as (k & value & Hvalue & Hk & Hnone).
    exists i, addresses, str. split; [done|]. split; [by eapply list_elem_of_lookup_2|].
    split; [done|]. split; [done|]. right. exists k, value.
    split; [lia|]. split; [done|done].
Qed.

(** X30.  A [Configuration] that the constructor returns has one
    latency for each replica other than the local one, in the order of
    the replicas, and [ordered_latency_] pairs each of these latencies
    with its replica, sorted by latency and then by replica: the
    latency that [nth_latency] gives with the replica [i] is
    [latency(i)] for a replica before the local one and
    [latency(i - 1)] for a replica after it.  Without latencies in the
    configuration every latency is 0. *)
Theorem Configuration_latencies (max_broker_threads : Z)
    (Split : string -> string -> list string) (stoul : string -> option Z)
    (config : ConfigurationSetup.Proto) (local_address : string) (c : ConfigurationSetup.t) :
  ConfigurationSetup.new max_broker_threads Split stoul config local_address = Some c ->
  let nr := ConfigurationSetup.replicas_size config in
  let lr := ConfigurationSetup.local_replica_ c in
  Z.of_nat (length (ConfigurationSetup.latency_ c)) = nr - 1 /\
  length (ConfigurationSetup.ordered_latency_ c) = length (ConfigurationSetup.latency_ c) /\
  StronglySorted ConfigurationSetup.pair_le (ConfigurationSetup.ordered_latency_ c) /\
  (forall lat i,
     (exists n, ConfigurationSetup.nth_latency c n = Some (lat, i)) <->
     0 <= i < nr /\ i <> lr /\
     ConfigurationSetup.latency c (if i <? lr then i else i - 1) = Some lat) /\
  (ConfigurationSetup.replica_latency config = [] ->
   ConfigurationSetup.latency_ c = replicate (Z.to_nat (nr - 1)) 0).
Proof.
  intros Hnew nr lr.
  destruct (ConfigurationSetup_facts.local_place _ _ _ _ _ _ Hnew)
    as (_ & _ & i0 & _ & addresses & Hlr & _ & Hi0 & _).
  apply lookup_lt_Some in Hi0.
  assert (0 <= lr < nr) as Hrange
    by (unfold lr, nr, ConfigurationSetup.replicas_size; lia).
  destruct (ConfigurationSetup_facts.new_inv _ _ _ _ _ _ Hnew)
    as (_ & _ & _ & _ & _ & vs & Hvs & Hord & Hlen & Hzero).
  fold nr lr in Hord, Hlen, Hzero.
  pose proof (ConfigurationSetup_facts.others_length lr nr Hrange) as Hothers.
  rewrite Hvs, Hord. split; [lia|]. split.
  { rewrite (Permutation_length (merge_sort_Permutation _ _)).
    by rewrite length_zip_with_l_eq. }
  split.
  { apply StronglySorted_merge_sort;
      [apply ConfigurationSetup_facts.pair_le_trans
      |apply ConfigurationSetup_facts.pair_le_total]. }
  split.
  - intros lat i.
    assert ((exists n, ConfigurationSetup.nth_latency c n = Some (lat, i)) <->
            (lat, i) ∈ ConfigurationSetup.ordered_latency_ c) as ->.
    { rewrite list_elem_of_lookup. unfold ConfigurationSetup.nth_latency. split.
      - intros (n & Hn). destruct (n <? 0); [done|]. by exists (Z.to_nat n).
      - intros (k & Hk). exists (Z.of_nat k).
        destruct (Z.ltb_spec (Z.of_nat k) 0); [lia|]. by rewrite Nat2Z.id. }
    rewrite Hord, merge_sort_Permutation, elem_of_lookup_zip_with.
    unfold ConfigurationSetup.latency. rewrite Hvs. split.
    + intros (k & lat' & i' & [= <- <-] & Hlat & Hi).
      apply ConfigurationSetup_facts.others_lookup in Hi as [Hk ->]; [|done].
      destruct (Z.ltb_spec (Z.of_nat k) lr) as [Hlt|Hge].
      * destruct (Z.ltb_spec (Z.of_nat k) lr); [|lia].
        destruct (Z.ltb_spec (Z.of_nat k) 0); [lia|]. rewrite Nat2Z.id.
        split; [lia|]. split; [lia|done].
      * destruct (Z.ltb_spec (Z.of_nat k + 1) lr); [lia|].
        destruct (Z.ltb_spec (Z.of_nat k + 1 - 1) 0); [lia|].
        replace (Z.to_nat (Z.of_nat k + 1 - 1)) with k by lia.
        split; [lia|]. split; [lia|done].
    + intros (Hi & Hne & Hlat).
      destruct (Z.ltb_spec i lr) as [Hlt|Hge].
      * destruct (Z.ltb_spec i 0); [done|].
        exists (Z.to_nat i), lat, i. split; [done|]. split; [done|].
        apply ConfigurationSetup_facts.others_lookup; [done|].
        rewrite Z2Nat.id by lia. destruct (Z.ltb_spec i lr); [|lia]. lia.
      * destruct (Z.ltb_spec (i - 1) 0); [done|].
        exists (Z.to_nat (i - 1)), lat, i. split; [done|]. split; [done|].
        apply ConfigurationSetup_facts.others_lookup; [done|].
        rewrite Z2Nat.id by lia. destruct (Z.ltb_spec (i - 1) lr); lia.
  - intros Hnone. rewrite (Hzero Hnone), ConfigurationSetup_facts.const_zero_fmap.
    f_equal. lia.
Qed.

Lemma Configuration_latencies_witness :
  exists c,
    ConfigurationSetup.new 8 (fun _ _ => ["7"; "3"; "5"])
      (fun s => if String.eqb s "3" then Some 3 else if String.eqb s "5" then Some 5 else None)
      (ConfigurationSetup.mkProto None 1 1 [["a"]; ["b"]; ["c"]] 1 ["x"; "y"; "z"]) "a"
      = Some c /\
    ConfigurationSetup.latency_ c = [3; 5] /\
    ConfigurationSetup.ordered_latency_ c = [(3, 1); (5, 2)] /\
    StronglySorted ConfigurationSetup.pair_le (ConfigurationSetup.ordered_latency_ c).
Proof.
  destruct (ConfigurationSetup.new 8 (fun _ _ => ["7"; "3"; "5"])
      (fun s => if String.eqb s "3" then Some 3 else if String.eqb s "5" then Some 5 else None)
      (ConfigurationSetup.mkProto None 1 1 [["a"]; ["b"]; ["c"]] 1 ["x"; "y"; "z"]) "a")
    as [c|] eqn:Hnew; [|vm_compute in Hnew; discriminate Hnew].
  exists c. split; [reflexivity|].
  pose proof (Configuration_latencies _ _ _ _ _ _ Hnew) as (_ & _ & Hsorted & _).
  split; [vm_compute in Hnew; by injection Hnew as <-|].
  split; [vm_compute in Hnew; by injection Hnew as <-|].
  exact Hsorted.
Defined.
